(** * colord plugins: colour-model conversions over binary64

    A shallow embedding of the colord plugin bundles (lch.js, hwb.js,
    cmyk.js with the LAB bundle, and the accessibility bundle).

    A JavaScript Number is an IEEE 754 binary64 value, so numbers are
    Rocq's primitive [float]: [+], [-], [*], [/] and the comparisons are
    the very operations the engine performs, NaN, the infinities and the
    two zeros included.  What the kernel does not provide ([Math.floor],
    [Math.round], [%], [Math.max], [Number(string)]) is defined below from
    the exact binary representation.  The functions ECMAScript leaves
    implementation-approximated ([Math.pow] at a fractional exponent,
    [Math.cbrt], [Math.atan2], [Math.cos], [Math.sin], [Math.exp]) are
    section variables: whatever is proved holds for every engine. *)

From Stdlib Require Import ZArith Bool List Ascii String Lia Floats.
From Stdlib Require Reals Lra.
Import ListNotations.

Set Warnings "-inexact-float".

Local Open Scope float_scope.

(** ** JavaScript numbers *)

Module Js.

(** [typeof x === "number"] values that are neither NaN nor infinite. *)
Definition isFinite (x : float) : bool := is_finite x.

Definition isNaN (x : float) : bool := is_nan x.

(** Truthiness of a number: everything but [0], [-0] and [NaN]. *)
Definition truthy (x : float) : bool := negb (is_nan x || is_zero x).

(** A non-negative integer below 2^63 as a number (exact below 2^53). *)
Definition of_Z (z : Z) : float := of_uint63 (Uint63.of_Z z).

Definition of_nat (n : nat) : float := of_Z (Z.of_nat n).

(** [Math.floor]: the largest integral number not above [x].  A finite
    [m * 2^e] with [e >= 0] is integral already; otherwise the mantissa
    is shifted, and a negative inexact quotient moves one further down. *)
Definition floor (x : float) : float :=
  match Prim2SF x with
  | S754_finite s m e =>
      if (0 <=? e)%Z then x
      else
        let q := Z.shiftr (Zpos m) (- e) in
        if s then
          if (Z.shiftl q (- e) =? Zpos m)%Z then - of_Z q else - of_Z (q + 1)
        else of_Z q
  | _ => x
  end.

(** [Math.round]: nearest integral number, ties towards [+Infinity];
    [-0] for arguments in [[-0.5, 0)]. *)
Definition round (x : float) : float :=
  if is_nan x then nan
  else if (x <? 0) && (-0.5 <=? x) then neg_zero
  else
    let f := floor x in
    if 0.5 <=? x - f then f + 1 else f.

(** [Math.max] and [Math.min] of two numbers: NaN is contagious and
    [+0] is larger than [-0]. *)
Definition max2 (x y : float) : float :=
  if is_nan x || is_nan y then nan
  else if x <? y then y
  else if y <? x then x
  else if get_sign x then y else x.

Definition min2 (x y : float) : float :=
  if is_nan x || is_nan y then nan
  else if x <? y then x
  else if y <? x then y
  else if get_sign x then x else y.

Definition max (x y z : float) : float := max2 (max2 x y) z.
Definition min (x y z : float) : float := min2 (min2 x y) z.

(** The remainder operator [x % y]: exact, with the sign of the
    dividend.  Both operands are brought to a common exponent and the
    integer remainder is converted back (it always fits). *)
Definition rem (x y : float) : float :=
  match Prim2SF x, Prim2SF y with
  | S754_nan, _ | _, S754_nan => nan
  | S754_infinity _, _ => nan
  | _, S754_zero _ => nan
  | S754_zero _, _ => x
  | S754_finite _ _ _, S754_infinity _ => x
  | S754_finite sx mx ex, S754_finite _ my ey =>
      let e := Z.min ex ey in
      let nx := Z.shiftl (Zpos mx) (ex - e) in
      let ny := Z.shiftl (Zpos my) (ey - e) in
      match Z.rem nx ny with
      | Z0 => if sx then neg_zero else zero
      | r => SF2Prim (binary_normalize prec emax (if sx then Z.opp r else r) e false)
      end
  end.

(** [Math.pow(10, digits)] at a non-negative integer digit count.  Up
    to [10^22] the power is a number and so is every partial product,
    hence repeated multiplication is exact; above, the nearest number
    to the power is taken, and [Infinity] from [10^309] on. *)
Fixpoint pow10_exact (digits : nat) : float :=
  match digits with
  | O => 1
  | S d => 10 * pow10_exact d
  end.

Definition pow10 (digits : nat) : float :=
  if (digits <=? 22)%nat then pow10_exact digits
  else if (308 <? digits)%nat then infinity
  else SF2Prim (binary_normalize prec emax (10 ^ Z.of_nat digits) 0 false).

(** Indexing a six-element array literal by a number: the element at an
    integral index in range ([-0] is index [0]), [undefined] otherwise;
    [undefined] turns into [NaN] under the arithmetic that follows. *)
Definition index6 (a0 a1 a2 a3 a4 a5 : float) (i : float) : float :=
  if i =? 0 then a0 else if i =? 1 then a1 else if i =? 2 then a2
  else if i =? 3 then a3 else if i =? 4 then a4 else if i =? 5 then a5
  else nan.

End Js.

(** ** Helpers shared by the bundles *)

(** [ALPHA_PRECISION]. *)
Definition ALPHA_PRECISION : nat := 3.

(** [round(number, digits)], with [base = Math.pow(10, digits)]; the
    final [+ 0] turns [-0] into [0]. *)
Definition round (number : float) (digits : nat) : float :=
  let base := Js.pow10 digits in
  Js.round (base * number) / base + 0.

(** [floor(number, digits)]. *)
Definition floor (number : float) (digits : nat) : float :=
  let base := Js.pow10 digits in
  Js.floor (base * number) / base + 0.

(** [clamp(number, min, max)]; the two-argument defaults are [0] and [1]. *)
Definition clamp (number min max : float) : float :=
  if max <? number then max else if min <? number then number else min.

Definition clamp01 (number : float) : float := clamp number 0 1.

(** [clampHue(degrees)]. *)
Definition clampHue (degrees : float) : float :=
  let degrees := if Js.isFinite degrees then Js.rem degrees 360 else 0 in
  if 0 <? degrees then degrees else degrees + 360.

(** The digit count used for alpha:
    [ALPHA_PRECISION > digits ? ALPHA_PRECISION : digits]. *)
Definition alphaDigits (digits : nat) : nat :=
  if (digits <? ALPHA_PRECISION)%nat then ALPHA_PRECISION else digits.

(** ** Colour records *)

Record RgbaColor :=
  mkRgba { rgb_r : float; rgb_g : float; rgb_b : float; rgb_a : float }.

Record CmykaColor :=
  mkCmyka { cmyk_c : float; cmyk_m : float; cmyk_y : float; cmyk_k : float;
            cmyk_a : float }.

(** ** cmyk.js *)

Definition clampCmyka (cmyka : CmykaColor) : CmykaColor :=
  {| cmyk_c := clamp (cmyk_c cmyka) 0 100;
     cmyk_m := clamp (cmyk_m cmyka) 0 100;
     cmyk_y := clamp (cmyk_y cmyka) 0 100;
     cmyk_k := clamp (cmyk_k cmyka) 0 100;
     cmyk_a := clamp01 (cmyk_a cmyka) |}.

Definition roundCmyka (cmyka : CmykaColor) (digits : nat) : CmykaColor :=
  {| cmyk_c := round (cmyk_c cmyka) digits;
     cmyk_m := round (cmyk_m cmyka) digits;
     cmyk_y := round (cmyk_y cmyka) digits;
     cmyk_k := round (cmyk_k cmyka) digits;
     cmyk_a := round (cmyk_a cmyka) (alphaDigits digits) |}.

Definition cmykaToRgba (cmyka : CmykaColor) : RgbaColor :=
  {| rgb_r := round (255 * (1 - cmyk_c cmyka / 100) * (1 - cmyk_k cmyka / 100)) 0;
     rgb_g := round (255 * (1 - cmyk_m cmyka / 100) * (1 - cmyk_k cmyka / 100)) 0;
     rgb_b := round (255 * (1 - cmyk_y cmyka / 100) * (1 - cmyk_k cmyka / 100)) 0;
     rgb_a := cmyk_a cmyka |}.

(** The key [k] and the raw ink ratio of one channel, as [rgbaToCmyka]
    computes them before rounding. *)
Definition cmykKey (rgba : RgbaColor) : float :=
  1 - Js.max (rgb_r rgba / 255) (rgb_g rgba / 255) (rgb_b rgba / 255).

Definition cmykInk (channel k : float) : float :=
  (1 - channel / 255 - k) / (1 - k).

Definition rgbaToCmyka (rgba : RgbaColor) : CmykaColor :=
  let k := cmykKey rgba in
  let c := cmykInk (rgb_r rgba) k in
  let m := cmykInk (rgb_g rgba) k in
  let y := cmykInk (rgb_b rgba) k in
  {| cmyk_c := if Js.isNaN c then 0 else round (c * 100) 0;
     cmyk_m := if Js.isNaN m then 0 else round (m * 100) 0;
     cmyk_y := if Js.isNaN y then 0 else round (y * 100) 0;
     cmyk_k := round (k * 100) 0;
     cmyk_a := rgb_a rgba |}.

(** ** hwb.js *)

Record HsvaColor :=
  mkHsva { hsv_h : float; hsv_s : float; hsv_v : float; hsv_a : float }.

Record HwbaColor :=
  mkHwba { hwb_h : float; hwb_w : float; hwb_b : float; hwb_a : float }.

Definition rgbaToHsva (rgba : RgbaColor) : HsvaColor :=
  let '(mkRgba r g b a) := rgba in
  let max := Js.max r g b in
  let delta := max - Js.min r g b in
  let hh :=
    if Js.truthy delta then
      if max =? r then (g - b) / delta
      else if max =? g then 2 + (b - r) / delta
      else 4 + (r - g) / delta
    else 0 in
  {| hsv_h := 60 * (if hh <? 0 then hh + 6 else hh);
     hsv_s := if Js.truthy max then (delta / max) * 100 else 0;
     hsv_v := (max / 255) * 100;
     hsv_a := a |}.

Definition hsvaToRgba (hsva : HsvaColor) : RgbaColor :=
  let '(mkHsva h s v a) := hsva in
  let h := (h / 360) * 6 in
  let s := s / 100 in
  let v := v / 100 in
  let hh := Js.floor h in
  let b := v * (1 - s) in
  let c := v * (1 - (h - hh) * s) in
  let d := v * (1 - (1 - h + hh) * s) in
  let module := Js.rem hh 6 in
  {| rgb_r := Js.index6 v c b b d v module * 255;
     rgb_g := Js.index6 d v v c b b module * 255;
     rgb_b := Js.index6 b b d v v c module * 255;
     rgb_a := a |}.

Definition clampHwba (hwba : HwbaColor) : HwbaColor :=
  {| hwb_h := clampHue (hwb_h hwba);
     hwb_w := clamp (hwb_w hwba) 0 100;
     hwb_b := clamp (hwb_b hwba) 0 100;
     hwb_a := clamp01 (hwb_a hwba) |}.

Definition roundHwba (hwba : HwbaColor) (digits : nat) : HwbaColor :=
  {| hwb_h := round (hwb_h hwba) digits;
     hwb_w := round (hwb_w hwba) digits;
     hwb_b := round (hwb_b hwba) digits;
     hwb_a := round (hwb_a hwba) (alphaDigits digits) |}.

Definition rgbaToHwba (rgba : RgbaColor) : HwbaColor :=
  let h := hsv_h (rgbaToHsva rgba) in
  let w := (Js.min (rgb_r rgba) (rgb_g rgba) (rgb_b rgba) / 255) * 100 in
  let b := 100 - (Js.max (rgb_r rgba) (rgb_g rgba) (rgb_b rgba) / 255) * 100 in
  {| hwb_h := h; hwb_w := w; hwb_b := b; hwb_a := rgb_a rgba |}.

Definition hwbaToRgba (hwba : HwbaColor) : RgbaColor :=
  hsvaToRgba
    {| hsv_h := hwb_h hwba;
       hsv_s := if hwb_b hwba =? 100 then 0
                else 100 - (hwb_w hwba / (100 - hwb_b hwba)) * 100;
       hsv_v := 100 - hwb_b hwba;
       hsv_a := hwb_a hwba |}.

(** ** The engine's approximated functions

    [Math.pow] (also the [**] operator), [Math.cbrt], [Math.atan2],
    [Math.cos], [Math.sin] and [Math.exp] return implementation-approximated
    values; an [Engine] supplies them. *)

Class Engine := {
  Math_pow : float -> float -> float;
  Math_cbrt : float -> float;
  Math_atan2 : float -> float -> float;
  Math_cos : float -> float;
  Math_sin : float -> float;
  Math_exp : float -> float
}.

(** [Math.PI], the number nearest to pi. *)
Definition Math_PI : float := 0x1.921fb54442d18p+1.

(** ** lch.js and the LAB bundle *)

Record XyzaColor :=
  mkXyza { xyz_x : float; xyz_y : float; xyz_z : float; xyz_a : float }.

Record LabaColor :=
  mkLaba { lab_l : float; lab_a : float; lab_b : float; lab_alpha : float }.

Record LchaColor :=
  mkLcha { lch_l : float; lch_c : float; lch_h : float; lch_a : float }.

Definition clampRgba (rgba : RgbaColor) : RgbaColor :=
  {| rgb_r := clamp (rgb_r rgba) 0 255;
     rgb_g := clamp (rgb_g rgba) 0 255;
     rgb_b := clamp (rgb_b rgba) 0 255;
     rgb_a := clamp01 (rgb_a rgba) |}.

(** [D50]. *)
Definition D50_x : float := 96.422.
Definition D50_y : float := 100.
Definition D50_z : float := 82.521.

Definition clampXyza (xyza : XyzaColor) : XyzaColor :=
  {| xyz_x := clamp (xyz_x xyza) 0 D50_x;
     xyz_y := clamp (xyz_y xyza) 0 D50_y;
     xyz_z := clamp (xyz_z xyza) 0 D50_z;
     xyz_a := clamp01 (xyz_a xyza) |}.

Definition adaptXyzaToD50 (xyza : XyzaColor) : XyzaColor :=
  let '(mkXyza x y z a) := xyza in
  {| xyz_x := x * 1.0478112 + y * 0.0228866 + z * -0.050127;
     xyz_y := x * 0.0295424 + y * 0.9904844 + z * -0.0170491;
     xyz_z := x * -0.0092345 + y * 0.0150436 + z * 0.7521316;
     xyz_a := a |}.

(** [adaptXyzToD65] returns an object without the [a] property; its
    caller reads [x], [y] and [z] only, so the alpha is kept here unread. *)
Definition adaptXyzToD65 (xyza : XyzaColor) : XyzaColor :=
  let '(mkXyza x y z a) := xyza in
  {| xyz_x := x * 0.9555766 + y * -0.0230393 + z * 0.0631636;
     xyz_y := x * -0.0282895 + y * 1.0099416 + z * 0.0210077;
     xyz_z := x * 0.0122982 + y * -0.020483 + z * 1.3299098;
     xyz_a := a |}.

(** The constants [e] and [k] of the CIELAB transfer function. *)
Definition lab_e : float := 216 / 24389.
Definition lab_k : float := 24389 / 27.

Definition clampLaba (laba : LabaColor) : LabaColor :=
  {| lab_l := clamp (lab_l laba) 0 400;
     lab_a := lab_a laba;
     lab_b := lab_b laba;
     lab_alpha := clamp01 (lab_alpha laba) |}.

Definition roundLaba (laba : LabaColor) (digits : nat) : LabaColor :=
  {| lab_l := round (lab_l laba) digits;
     lab_a := round (lab_a laba) digits;
     lab_b := round (lab_b laba) digits;
     lab_alpha := round (lab_alpha laba) (alphaDigits digits) |}.

Definition clampLcha (lcha : LchaColor) : LchaColor :=
  {| lch_l := clamp (lch_l lcha) 0 100;
     lch_c := lch_c lcha;
     lch_h := clampHue (lch_h lcha);
     lch_a := lch_a lcha |}.

Definition roundLcha (lcha : LchaColor) (digits : nat) : LchaColor :=
  {| lch_l := round (lch_l lcha) digits;
     lch_c := round (lch_c lcha) digits;
     lch_h := round (lch_h lcha) digits;
     lch_a := round (lch_a lcha) (alphaDigits digits) |}.

Section Conversions.

Context {engine : Engine}.

Definition linearizeRgbChannel (value : float) : float :=
  let ratio := value / 255 in
  if ratio <? 0.04045 then ratio / 12.92
  else Math_pow ((ratio + 0.055) / 1.055) 2.4.

Definition unlinearizeRgbChannel (ratio : float) : float :=
  let value :=
    if 0.0031308 <? ratio then 1.055 * Math_pow ratio (1 / 2.4) - 0.055
    else 12.92 * ratio in
  value * 255.

Definition xyzaToRgba (sourceXyza : XyzaColor) : RgbaColor :=
  let xyz := adaptXyzToD65 sourceXyza in
  let '(mkXyza x y z _) := xyz in
  clampRgba
    {| rgb_r := unlinearizeRgbChannel
                  (0.032404542 * x - 0.015371385 * y - 0.004985314 * z);
       rgb_g := unlinearizeRgbChannel
                  (-0.00969266 * x + 0.018760108 * y + 0.00041556 * z);
       rgb_b := unlinearizeRgbChannel
                  (0.000556434 * x - 0.002040259 * y + 0.010572252 * z);
       rgb_a := xyz_a sourceXyza |}.

Definition rgbaToXyza (rgba : RgbaColor) : XyzaColor :=
  let sRed := linearizeRgbChannel (rgb_r rgba) in
  let sGreen := linearizeRgbChannel (rgb_g rgba) in
  let sBlue := linearizeRgbChannel (rgb_b rgba) in
  let xyza :=
    {| xyz_x := (sRed * 0.4124564 + sGreen * 0.3575761 + sBlue * 0.1804375) * 100;
       xyz_y := (sRed * 0.2126729 + sGreen * 0.7151522 + sBlue * 0.072175) * 100;
       xyz_z := (sRed * 0.0193339 + sGreen * 0.119192 + sBlue * 0.9503041) * 100;
       xyz_a := rgb_a rgba |} in
  clampXyza (adaptXyzaToD50 xyza).

Definition labTransfer (t : float) : float :=
  if lab_e <? t then Math_cbrt t else (lab_k * t + 16) / 116.

Definition rgbaToLaba (rgba : RgbaColor) : LabaColor :=
  let xyza := rgbaToXyza rgba in
  let x := xyz_x xyza / D50_x in
  let y := xyz_y xyza / D50_y in
  let z := xyz_z xyza / D50_z in
  let x := labTransfer x in
  let y := labTransfer y in
  let z := labTransfer z in
  {| lab_l := 116 * y - 16;
     lab_a := 500 * (x - y);
     lab_b := 200 * (y - z);
     lab_alpha := xyz_a xyza |}.

Definition labaToRgba (laba : LabaColor) : RgbaColor :=
  let y := (lab_l laba + 16) / 116 in
  let x := lab_a laba / 500 + y in
  let z := y - lab_b laba / 200 in
  xyzaToRgba
    {| xyz_x := (if lab_e <? Math_pow x 3 then Math_pow x 3
                 else (116 * x - 16) / lab_k) * D50_x;
       xyz_y := (if lab_k * lab_e <? lab_l laba
                 then Math_pow ((lab_l laba + 16) / 116) 3
                 else lab_l laba / lab_k) * D50_y;
       xyz_z := (if lab_e <? Math_pow z 3 then Math_pow z 3
                 else (116 * z - 16) / lab_k) * D50_z;
       xyz_a := lab_alpha laba |}.

Definition rgbaToLcha (rgba : RgbaColor) : LchaColor :=
  let laba := rgbaToLaba rgba in
  let a := round (lab_a laba) 3 in
  let b := round (lab_b laba) 3 in
  let hue := 180 * (Math_atan2 b a / Math_PI) in
  {| lch_l := lab_l laba;
     lch_c := sqrt (a * a + b * b);
     lch_h := if hue <? 0 then hue + 360 else hue;
     lch_a := lab_alpha laba |}.

Definition lchaToRgba (lcha : LchaColor) : RgbaColor :=
  labaToRgba
    {| lab_l := lch_l lcha;
       lab_a := lch_c lcha * Math_cos ((lch_h lcha * Math_PI) / 180);
       lab_b := lch_c lcha * Math_sin ((lch_h lcha * Math_PI) / 180);
       lab_alpha := lch_a lcha |}.

End Conversions.

(** ** Strings and [Number(value)]

    A string is a sequence of code units; Rocq's [string] covers the code
    units 0..255. *)

Module Str.

Definition code (c : ascii) : nat := nat_of_ascii c.

Definition isDigit (c : ascii) : bool :=
  ((48 <=? code c) && (code c <=? 57))%nat.

(** [\s] (and the white space [Number] trims) within 0..255: TAB, LF, VT,
    FF, CR, SPACE and NO-BREAK SPACE. *)
Definition isSpace (c : ascii) : bool :=
  (((9 <=? code c) && (code c <=? 13)) || (code c =? 32) || (code c =? 160))%nat.

(** Upper-casing of the letters [a-z], the only canonicalisation the
    [i] flag performs that can identify two code units below 128. *)
Definition upper (c : ascii) : ascii :=
  if ((97 <=? code c) && (code c <=? 122))%nat
  then ascii_of_nat (code c - 32) else c.

Definition digitValue (c : ascii) : option Z :=
  if isDigit c then Some (Z.of_nat (code c) - 48)%Z
  else if ((97 <=? code c) && (code c <=? 102))%nat
  then Some (Z.of_nat (code c) - 87)%Z
  else if ((65 <=? code c) && (code c <=? 70))%nat
  then Some (Z.of_nat (code c) - 55)%Z
  else None.

Fixpoint span (p : ascii -> bool) (s : list ascii) : list ascii * list ascii :=
  match s with
  | c :: t => if p c then let (u, v) := span p t in (c :: u, v) else ([], s)
  | [] => ([], [])
  end.

Fixpoint dropWhile (p : ascii -> bool) (s : list ascii) : list ascii :=
  match s with
  | c :: t => if p c then dropWhile p t else s
  | [] => []
  end.

Definition trim (s : list ascii) : list ascii :=
  rev (dropWhile isSpace (rev (dropWhile isSpace s))).

(** The value of a digit string in a base; [None] when it is empty or
    holds a code unit that is not a digit of the base. *)
Fixpoint digits (base : Z) (acc : Z) (s : list ascii) : option Z :=
  match s with
  | [] => Some acc
  | c :: t =>
      match digitValue c with
      | Some d => if (d <? base)%Z then digits base (acc * base + d)%Z t else None
      | None => None
      end
  end.

Definition number (base : Z) (s : list ascii) : option Z :=
  match s with [] => None | _ => digits base 0 s end.

(** The number nearest to [m * 10^e10], for [m >= 0]. *)
Definition ofDecimal (m e10 : Z) : float :=
  match m with
  | Zpos p =>
      if (0 <=? e10)%Z
      then SF2Prim (binary_normalize prec emax (m * 10 ^ e10) 0 false)
      else SF2Prim (SFdiv prec emax (S754_finite false p 0)
                      (S754_finite false (Z.to_pos (10 ^ (- e10))) 0))
  | _ => 0
  end.

(** [ExponentPart] after its [e]: an optional sign and digits. *)
Definition exponent (s : list ascii) : option Z :=
  match s with
  | "-"%char :: t => option_map Z.opp (number 10 t)
  | "+"%char :: t => number 10 t
  | _ => number 10 s
  end.

(** [StrUnsignedDecimalLiteral]. *)
Definition unsignedDecimal (s : list ascii) : option float :=
  if list_eq_dec ascii_dec s (list_ascii_of_string "Infinity") then Some infinity
  else
    let (ip, rest) := span isDigit s in
    let (fp, rest) :=
      match rest with
      | "."%char :: t => span isDigit t
      | _ => ([], rest)
      end in
    match ip ++ fp with
    | [] => None
    | ds =>
        let e10 :=
          match rest with
          | [] => Some 0%Z
          | c :: t => if Ascii.eqb (upper c) "E" then exponent t else None
          end in
        match digits 10 0 ds, e10 with
        | Some m, Some e => Some (ofDecimal m (e - Z.of_nat (List.length fp)))
        | _, _ => None
        end
    end.

(** [StrDecimalLiteral]: an optional sign in front. *)
Definition decimal (s : list ascii) : option float :=
  match s with
  | "-"%char :: t => option_map opp (unsignedDecimal t)
  | "+"%char :: t => unsignedDecimal t
  | _ => unsignedDecimal s
  end.

(** [NonDecimalIntegerLiteral]: [0x], [0o] and [0b] forms, unsigned. *)
Definition nonDecimal (s : list ascii) : option float :=
  match s with
  | "0"%char :: c :: t =>
      let base :=
        if Ascii.eqb (upper c) "X" then Some 16%Z
        else if Ascii.eqb (upper c) "O" then Some 8%Z
        else if Ascii.eqb (upper c) "B" then Some 2%Z
        else None in
      match base with
      | Some b => option_map (fun m => ofDecimal m 0) (number b t)
      | None => None
      end
  | _ => None
  end.

(** [StringToNumber]: white space is trimmed, the empty string is [0],
    a numeric literal is its nearest number, anything else is [NaN]. *)
Definition toNumber (s : string) : float :=
  match trim (list_ascii_of_string s) with
  | [] => 0
  | t =>
      match nonDecimal t with
      | Some x => x
      | None => match decimal t with Some x => x | None => nan end
      end
  end.

End Str.

(** The values a channel of an input object may hold. *)
Inductive JsValue :=
| JsUndefined
| JsNull
| JsBool (b : bool)
| JsNum (x : float)
| JsStr (s : string).

(** [Number(value)]. *)
Definition Number (value : JsValue) : float :=
  match value with
  | JsUndefined => nan
  | JsNull => 0
  | JsBool b => if b then 1 else 0
  | JsNum x => x
  | JsStr s => Str.toNumber s
  end.

Definition isPresent (value : JsValue) : bool :=
  match value with
  | JsStr s => (0 <? String.length s)%nat
  | JsNum _ => true
  | _ => false
  end.

(** An input object: its own properties, first binding first; a property
    that is absent reads as [undefined]. *)
Definition JsObject := list (string * JsValue).

Fixpoint prop (o : JsObject) (key : string) : JsValue :=
  match o with
  | [] => JsUndefined
  | (k, v) :: rest => if String.eqb k key then v else prop rest key
  end.

(** A destructuring default: [{ a = d }]. *)
Definition orDefault (value default : JsValue) : JsValue :=
  match value with JsUndefined => default | _ => value end.

(** ** Regular expressions

    The three matchers are anchored at both ends and carry the [i] flag,
    so [exec] either matches the whole input from its first code unit or
    returns [null].  Matching is the backtracking search of the language:
    alternatives in order, quantifiers greedy, and a group that did not
    take part in the match is [undefined]. *)

Module Re.

Inductive Regex :=
| Eps
| Chr (c : ascii)
| Class (p : ascii -> bool)
| Seq (r1 r2 : Regex)
| Alt (r1 r2 : Regex)
| Star (r : Regex)
| Group (n : nat) (r : Regex).

Definition Opt (r : Regex) : Regex := Alt r Eps.
Definition Plus (r : Regex) : Regex := Seq r (Star r).

Fixpoint Lit (s : string) : Regex :=
  match s with
  | EmptyString => Eps
  | String c t => Seq (Chr c) (Lit t)
  end.

Fixpoint Cat (rs : list Regex) : Regex :=
  match rs with
  | [] => Eps
  | r :: t => Seq r (Cat t)
  end.

(** The groups captured so far, latest first. *)
Definition Captures := list (nat * string).

Fixpoint group (caps : Captures) (n : nat) : option string :=
  match caps with
  | [] => None
  | (k, s) :: rest => if (k =? n)%nat then Some s else group rest n
  end.

Definition consumed (before after : list ascii) : string :=
  string_of_list_ascii (firstn (List.length before - List.length after) before).

Definition Cont := list ascii -> Captures -> option Captures.

(** The greedy loop of a starred pattern: [step] matches the body once;
    an iteration must consume input, so [fuel], the length of the input,
    bounds the iterations. *)
Fixpoint star (step : list ascii -> Captures -> Cont -> option Captures)
    (k : Cont) (fuel : nat) (s : list ascii) (caps : Captures)
    : option Captures :=
  match fuel with
  | O => k s caps
  | S fuel' =>
      match
        step s caps
          (fun s' caps' =>
             if (List.length s' <? List.length s)%nat
             then star step k fuel' s' caps' else None)
      with
      | Some m => Some m
      | None => k s caps
      end
  end.

(** [run r s caps k]: match [r] at the front of [s], then continue with
    [k] on what is left; [None] makes the caller backtrack. *)
Fixpoint run (r : Regex) (s : list ascii) (caps : Captures) (k : Cont)
    {struct r} : option Captures :=
  match r with
  | Eps => k s caps
  | Chr c =>
      match s with
      | x :: t => if Ascii.eqb (Str.upper x) (Str.upper c) then k t caps else None
      | [] => None
      end
  | Class p =>
      match s with
      | x :: t => if p x then k t caps else None
      | [] => None
      end
  | Seq r1 r2 => run r1 s caps (fun s' caps' => run r2 s' caps' k)
  | Alt r1 r2 =>
      match run r1 s caps k with
      | Some m => Some m
      | None => run r2 s caps k
      end
  | Star r1 => star (run r1) k (List.length s) s caps
  | Group n r1 =>
      run r1 s caps (fun s' caps' => k s' ((n, consumed s s') :: caps'))
  end.

(** The end anchor: nothing may be left. *)
Definition atEnd : Cont :=
  fun s caps => match s with [] => Some caps | _ => None end.

(** [regex.exec(input)] for a pattern of the form [^...$]. *)
Definition exec (r : Regex) (input : string) : option Captures :=
  run r (list_ascii_of_string input) [] atEnd.

Definition digit : Regex := Class Str.isDigit.
Definition space : Regex := Class Str.isSpace.
Definition sign : Regex :=
  Class (fun c => Ascii.eqb c "+" || Ascii.eqb c "-").

(** [([+-]?\d*\.?\d+)] as group [n]. *)
Definition num (n : nat) : Regex :=
  Group n (Cat [Opt sign; Star digit; Opt (Chr "."); Plus digit]).

(** [(%)?] as group [n]. *)
Definition percent (n : nat) : Regex := Opt (Group n (Chr "%")).

(** [(deg|rad|grad|turn)?] as group [n]. *)
Definition angleUnit (n : nat) : Regex :=
  Opt (Group n (Alt (Lit "deg") (Alt (Lit "rad") (Alt (Lit "grad") (Lit "turn"))))).

(** The optional alpha part: a slash, optional white space, a number
    as group [n], an optional percent sign as group [n + 1] and optional
    white space. *)
Definition alphaPart (n : nat) : Regex :=
  Opt (Cat [Chr "/"; Star space; num n; percent (S n); Star space]).

End Re.

Import Re.

(** [ANGLE_UNITS[unit] || 1]: the keys are lower case and the group keeps
    the case of the input. *)
Definition angleFactor (unit : string) : float :=
  if String.eqb unit "grad" then 360 / 400
  else if String.eqb unit "turn" then 360
  else if String.eqb unit "rad" then 360 / (Math_PI * 2)
  else 1.

(** [parseHue(value, unit = "deg")]. *)
Definition parseHue (value : string) (unit : option string) : float :=
  Str.toNumber value *
  angleFactor (match unit with Some u => u | None => "deg"%string end).

(** A captured group read where the pattern guarantees it took part. *)
Definition groupText (caps : Captures) (n : nat) : string :=
  match group caps n with Some s => s | None => EmptyString end.

(** The alpha of a string form:
    [match[n] === undefined ? 1 : Number(match[n]) / (match[n+1] ? 100 : 1)]. *)
Definition parseAlpha (caps : Captures) (n : nat) : float :=
  match group caps n with
  | None => 1
  | Some s =>
      Str.toNumber s / (match group caps (S n) with Some _ => 100 | None => 1 end)
  end.

(** *** cmyk.js: parsers and formatter *)

Definition parseCmyka (o : JsObject) : option RgbaColor :=
  let c := prop o "c" in
  let m := prop o "m" in
  let y := prop o "y" in
  let k := prop o "k" in
  let a := orDefault (prop o "a") (JsNum 1) in
  if negb (isPresent c) || negb (isPresent m) || negb (isPresent y)
     || negb (isPresent k)
  then None
  else
    Some (cmykaToRgba
            (clampCmyka {| cmyk_c := Number c; cmyk_m := Number m;
                           cmyk_y := Number y; cmyk_k := Number k;
                           cmyk_a := Number a |})).

Definition cmykMatcher : Regex :=
  Cat [Lit "device-cmyk("; Star space;
       num 1; percent 2; Plus space;
       num 3; percent 4; Plus space;
       num 5; percent 6; Plus space;
       num 7; percent 8; Star space;
       alphaPart 9; Chr ")"].

(** [Number(match[n]) * (match[n+1] ? 1 : 100)]. *)
Definition cmykChannel (caps : Captures) (n : nat) : float :=
  Str.toNumber (groupText caps n) *
  (match group caps (S n) with Some _ => 1 | None => 100 end).

Definition parseCmykaString (input : string) : option RgbaColor :=
  match exec cmykMatcher input with
  | None => None
  | Some caps =>
      Some (cmykaToRgba
              (clampCmyka {| cmyk_c := cmykChannel caps 1;
                             cmyk_m := cmykChannel caps 3;
                             cmyk_y := cmykChannel caps 5;
                             cmyk_k := cmykChannel caps 7;
                             cmyk_a := parseAlpha caps 9 |}))
  end.

(** A template literal: its string chunks and the numbers spliced
    between them, in order. *)
Inductive Piece :=
| Text (s : string)
| Value (x : float).

Definition Template := list Piece.

Definition rgbaToCmykaString (rgb : RgbaColor) (digits : nat) : Template :=
  let '(mkCmyka c m y k a) := roundCmyka (rgbaToCmyka rgb) digits in
  if a <? 1
  then [Text "device-cmyk("; Value c; Text "% "; Value m; Text "% "; Value y;
        Text "% "; Value k; Text "% / "; Value a; Text ")"]
  else [Text "device-cmyk("; Value c; Text "% "; Value m; Text "% "; Value y;
        Text "% "; Value k; Text "%)"].

(** *** hwb.js: parsers and formatter *)

Definition parseHwba (o : JsObject) : option RgbaColor :=
  let h := prop o "h" in
  let w := prop o "w" in
  let b := prop o "b" in
  let a := orDefault (prop o "a") (JsNum 1) in
  if negb (isPresent h) || negb (isPresent w) || negb (isPresent b)
  then None
  else
    Some (hwbaToRgba
            (clampHwba {| hwb_h := Number h; hwb_w := Number w;
                          hwb_b := Number b; hwb_a := Number a |})).

Definition hwbaMatcher : Regex :=
  Cat [Lit "hwb("; Star space;
       num 1; angleUnit 2; Plus space;
       num 3; Chr "%"; Plus space;
       num 4; Chr "%"; Star space;
       alphaPart 5; Chr ")"].

Definition parseHwbaString (input : string) : option RgbaColor :=
  match exec hwbaMatcher input with
  | None => None
  | Some caps =>
      Some (hwbaToRgba
              (clampHwba {| hwb_h := parseHue (groupText caps 1) (group caps 2);
                            hwb_w := Str.toNumber (groupText caps 3);
                            hwb_b := Str.toNumber (groupText caps 4);
                            hwb_a := parseAlpha caps 5 |}))
  end.

Definition rgbaToHwbaString (rgba : RgbaColor) (digits : nat) : Template :=
  let '(mkHwba h w b a) := roundHwba (rgbaToHwba rgba) digits in
  if a <? 1
  then [Text "hwb("; Value h; Text " "; Value w; Text "% "; Value b;
        Text "% / "; Value a; Text ")"]
  else [Text "hwb("; Value h; Text " "; Value w; Text "% "; Value b; Text "%)"].

(** *** lch.js: parsers and formatter *)

Definition lchaMatcher : Regex :=
  Cat [Lit "lch("; Star space;
       num 1; Chr "%"; Plus space;
       num 2; Plus space;
       num 3; angleUnit 4; Star space;
       alphaPart 5; Chr ")"].

Section LchCodec.

Context {engine : Engine}.

Definition parseLcha (o : JsObject) : option RgbaColor :=
  let l := prop o "l" in
  let c := prop o "c" in
  let h := prop o "h" in
  let a := orDefault (prop o "a") (JsNum 1) in
  if negb (isPresent l) || negb (isPresent c) || negb (isPresent h)
  then None
  else
    Some (lchaToRgba
            (clampLcha {| lch_l := Number l; lch_c := Number c;
                          lch_h := Number h; lch_a := Number a |})).

Definition parseLchaString (input : string) : option RgbaColor :=
  match exec lchaMatcher input with
  | None => None
  | Some caps =>
      Some (lchaToRgba
              (clampLcha {| lch_l := Str.toNumber (groupText caps 1);
                            lch_c := Str.toNumber (groupText caps 2);
                            lch_h := parseHue (groupText caps 3) (group caps 4);
                            lch_a := parseAlpha caps 5 |}))
  end.

Definition rgbaToLchaString (rgba : RgbaColor) (digits : nat) : Template :=
  let '(mkLcha l c h a) := roundLcha (rgbaToLcha rgba) digits in
  if a <? 1
  then [Text "lch("; Value l; Text "% "; Value c; Text " "; Value h;
        Text " / "; Value a; Text ")"]
  else [Text "lch("; Value l; Text "% "; Value c; Text " "; Value h; Text ")"].

End LchCodec.

(** ** The LAB bundle: CIEDE2000, and the accessibility bundle *)

Section Metrics.

Context {engine : Engine}.

Definition parseLaba (o : JsObject) : option RgbaColor :=
  let l := prop o "l" in
  let a := prop o "a" in
  let b := prop o "b" in
  let alpha := orDefault (prop o "alpha") (JsNum 1) in
  if negb (isPresent l) || negb (isPresent a) || negb (isPresent b)
  then None
  else
    Some (labaToRgba
            (clampLaba {| lab_l := Number l; lab_a := Number a;
                          lab_b := Number b; lab_alpha := Number alpha |})).

(** The hue angle of [getDeltaE00]:
    [a === 0 && b === 0 ? 0 : Math.atan2(b, a) * rad2deg], then
    [if (h < 0) h += 360]. *)
Definition deltaHue (a b : float) : float :=
  let rad2deg := 180 / Math_PI in
  let h := if (a =? 0) && (b =? 0) then 0 else Math_atan2 b a * rad2deg in
  if h <? 0 then h + 360 else h.

Definition getDeltaE00 (color1 color2 : LabaColor) : float :=
  let '(mkLaba l1 a1 b1 _) := color1 in
  let '(mkLaba l2 a2 b2 _) := color2 in
  let deg2rad := Math_PI / 180 in
  let c1 := Math_pow (Math_pow a1 2 + Math_pow b1 2) 0.5 in
  let c2 := Math_pow (Math_pow a2 2 + Math_pow b2 2) 0.5 in
  let mc := (c1 + c2) / 2 in
  let ml := (l1 + l2) / 2 in
  let c7 := Math_pow mc 7 in
  let g := 0.5 * (1 - Math_pow (c7 / (c7 + Math_pow 25 7)) 0.5) in
  let a11 := a1 * (1 + g) in
  let a22 := a2 * (1 + g) in
  let c11 := Math_pow (Math_pow a11 2 + Math_pow b1 2) 0.5 in
  let c22 := Math_pow (Math_pow a22 2 + Math_pow b2 2) 0.5 in
  let mc1 := (c11 + c22) / 2 in
  let h1 := deltaHue a11 b1 in
  let h2 := deltaHue a22 b2 in
  let dh := h2 - h1 in
  let dhAbs := abs (h2 - h1) in
  let dh :=
    if (180 <? dhAbs) && (h2 <=? h1) then dh + 360
    else if (180 <? dhAbs) && (h1 <? h2) then dh - 360
    else dh in
  let H := h1 + h2 in
  let H :=
    if dhAbs <=? 180 then H / 2
    else (if h1 + h2 <? 360 then H + 360 else H - 360) / 2 in
  let T :=
    1 - 0.17 * Math_cos (deg2rad * (H - 30))
      + 0.24 * Math_cos (deg2rad * 2 * H)
      + 0.32 * Math_cos (deg2rad * (3 * H + 6))
      - 0.2 * Math_cos (deg2rad * (4 * H - 63)) in
  let dL := l2 - l1 in
  let dC := c22 - c11 in
  let dH := 2 * Math_sin ((deg2rad * dh) / 2) * Math_pow (c11 * c22) 0.5 in
  let sL :=
    1 + (0.015 * Math_pow (ml - 50) 2) / Math_pow (20 + Math_pow (ml - 50) 2) 0.5 in
  let sC := 1 + 0.045 * mc1 in
  let sH := 1 + 0.015 * mc1 * T in
  let dTheta := 30 * Math_exp (-1 * Math_pow ((H - 275) / 25) 2) in
  let Rc := 2 * Math_pow (c7 / (c7 + Math_pow 25 7)) 0.5 in
  let Rt := - Rc * Math_sin (deg2rad * 2 * dTheta) in
  let kl := 1 in
  let kc := 1 in
  let kh := 1 in
  Math_pow
    (Math_pow (dL / kl / sL) 2
     + Math_pow (dC / kc / sC) 2
     + Math_pow (dH / kh / sH) 2
     + (Rt * dC * dH) / (kc * sC * kh * sH))
    0.5.

(** [toLab(digits = 2)] of the colour whose canonical value is [rgba]. *)
Definition toLab (rgba : RgbaColor) (digits : nat) : LabaColor :=
  roundLaba (rgbaToLaba rgba) digits.

(** [delta]: [this] holds [rgba], the compared colour holds [rgba2]. *)
Definition delta (rgba rgba2 : RgbaColor) : float :=
  let delta := getDeltaE00 (toLab rgba 2) (toLab rgba2 2) / 100 in
  clamp01 (round delta 3).

Definition getLuminance (rgba : RgbaColor) : float :=
  let sRed := linearizeRgbChannel (rgb_r rgba) in
  let sGreen := linearizeRgbChannel (rgb_g rgba) in
  let sBlue := linearizeRgbChannel (rgb_b rgba) in
  0.2126 * sRed + 0.7152 * sGreen + 0.0722 * sBlue.

Definition getContrast (rgb1 rgb2 : RgbaColor) : float :=
  let l1 := getLuminance rgb1 in
  let l2 := getLuminance rgb2 in
  if l2 <? l1 then (l1 + 0.05) / (l2 + 0.05) else (l2 + 0.05) / (l1 + 0.05).

Definition luminance (rgba : RgbaColor) : float :=
  round (getLuminance rgba) 2.

(** [contrast]: [this] holds [rgba]; [rgb2] is what [toRgb()] of the
    second colour returns. *)
Definition contrast (rgba rgb2 : RgbaColor) : float :=
  floor (getContrast rgba rgb2) 2.

End Metrics.

(** ** mix.js *)

Section Mixing.

Context {engine : Engine}.

Definition mix (rgba1 rgba2 : RgbaColor) (ratio : float) : RgbaColor :=
  let laba1 := rgbaToLaba rgba1 in
  let laba2 := rgbaToLaba rgba2 in
  let mixture :=
    clampLaba
      {| lab_l := lab_l laba1 * (1 - ratio) + lab_l laba2 * ratio;
         lab_a := lab_a laba1 * (1 - ratio) + lab_a laba2 * ratio;
         lab_b := lab_b laba1 * (1 - ratio) + lab_b laba2 * ratio;
         lab_alpha := lab_alpha laba1 * (1 - ratio) + lab_alpha laba2 * ratio |} in
  labaToRgba mixture.

(** [mixPalette(source, hex, count)] for a whole [count]: the loop
    [for (i = 0; i <= count - 1; i++)] runs over [0 .. count - 1].
    [source] and [hex] are the two colours as [toRgb()] gives them, and
    an entry is the mixture [source.mix] hands to the constructor. *)
Definition mixPalette (source hex : RgbaColor) (count : nat)
    : list RgbaColor :=
  let step := 1 / (Js.of_nat count - 1) in
  map (fun i => mix source hex (step * Js.of_nat i)) (seq 0 count).

End Mixing.

(** ** Readability *)

(** [getMinimalContrast({ level = "AA", size = "normal" })]; a missing
    option is [None]. *)
Definition getMinimalContrast (level size : option string) : float :=
  let level := match level with Some l => l | None => "AA"%string end in
  let size := match size with Some s => s | None => "normal"%string end in
  if String.eqb level "AAA" && String.eqb size "normal" then 7
  else if String.eqb level "AA" && String.eqb size "large" then 3
  else 4.5.

Section Readable.

Context {engine : Engine}.

(** [isReadable]: [this.contrast(color2) >= getMinimalContrast(options)];
    [this] holds [rgba] and [rgb2] is what [toRgb()] of the second
    colour returns. *)
Definition isReadable (rgba rgb2 : RgbaColor) (level size : option string)
    : bool :=
  getMinimalContrast level size <=? contrast rgba rgb2.

End Readable.

(** * Vocabulary of the properties *)

(** ** Bounded quantification by evaluation *)

(** [p] holds of every number below [n]. *)
Fixpoint allBelow (n : nat) (p : nat -> bool) : bool :=
  match n with
  | O => true
  | S k => p k && allBelow k p
  end.

(** ** Serialised colours *)

(** The chunk holds a slash. *)
Definition hasSlash (s : string) : bool :=
  existsb (Ascii.eqb "/") (list_ascii_of_string s).

(** The alpha a template ends with: the number spliced between a chunk
    that holds the slash and the closing parenthesis. *)
Definition alphaSuffix (t : Template) : option float :=
  match rev t with
  | Text _ :: Value x :: Text s :: _ => if hasSlash s then Some x else None
  | _ => None
  end.

(** The alpha the string forms print: present only below 1. *)
Definition suffixFor (alpha : float) : option float :=
  if alpha <? 1 then Some alpha else None.

(** The colour with its alpha replaced. *)
Definition withAlpha (rgba : RgbaColor) (alpha : float) : RgbaColor :=
  mkRgba (rgb_r rgba) (rgb_g rgba) (rgb_b rgba) alpha.

(** ** Parser inputs and outcomes *)

(** The parser gave a colour. *)
Definition isSome {A : Type} (x : option A) : bool :=
  match x with Some _ => true | None => false end.

(** Every listed channel of the object is present. *)
Definition present (o : JsObject) (channels : list string) : bool :=
  forallb (fun key => isPresent (prop o key)) channels.

(** An object literal. *)
Definition obj (l : list (string * JsValue)) : JsObject := l.

(** ** Runs of the matcher *)

(** The language of a pattern under the [i] flag. *)
Inductive Matches : Regex -> list ascii -> Prop :=
| MEps : Matches Eps []
| MChr c x : Str.upper x = Str.upper c -> Matches (Chr c) [x]
| MClass (p : ascii -> bool) x : p x = true -> Matches (Class p) [x]
| MSeq r1 r2 s1 s2 :
    Matches r1 s1 -> Matches r2 s2 -> Matches (Seq r1 r2) (s1 ++ s2)
| MAltL r1 r2 s : Matches r1 s -> Matches (Alt r1 r2) s
| MAltR r1 r2 s : Matches r2 s -> Matches (Alt r1 r2) s
| MStarNil r : Matches (Star r) []
| MStarCons r s1 s2 :
    s1 <> [] -> Matches r s1 -> Matches (Star r) s2 ->
    Matches (Star r) (s1 ++ s2)
| MGroup n r s : Matches r s -> Matches (Group n r) s.

(** A continuation that succeeds on [s] whatever was captured. *)
Definition accepts (k : Cont) (s : list ascii) : Prop :=
  forall caps, isSome (k s caps) = true.

(** What a successful run means: a prefix in the language, and the
    continuation succeeded on what is left. *)
Definition sound_at (r : Regex) : Prop :=
  forall s caps k res,
    run r s caps k = Some res ->
    exists s1 s2 caps',
      s = s1 ++ s2 /\ Matches r s1 /\ k s2 caps' = Some res.

(** Completeness: a prefix in the language followed by a rest the
    continuation accepts makes the run succeed. *)
Definition complete_at (r : Regex) : Prop :=
  forall s1, Matches r s1 ->
  forall s2 caps k, accepts k s2 -> isSome (run r (s1 ++ s2) caps k) = true.

(** ** Round trips *)

(** An integer channel value. *)
Definition chan (n : nat) : float := Js.of_nat n.

(** [x] and [y] differ by at most [tol]. *)
Definition within (tol x y : float) : bool := abs (x - y) <=? tol.

(** One channel through [rgbaToCmyka] and back through [cmykaToRgba],
    given the key of the colour. *)
Definition cmykTrip (channel k : float) : float :=
  let c := cmykInk channel k in
  round (255 * (1 - (if Js.isNaN c then 0 else round (c * 100) 0) / 100)
             * (1 - round (k * 100) 0 / 100)) 0.

(** The least and the largest share [1 - p / 100], in units of
    [10^-5], that a percentage rounding to [n] leaves, with a margin of
    [10^-5] for the rounding of the arithmetic. *)
Definition inkLow (n : Z) : Z := Z.max 0 (1000 * (100 - n) - 501).
Definition inkHigh (n : Z) : Z := Z.min 100000 (1000 * (100 - n) + 501).

(** The channel [cmykaToRgba] gives for whole percentages [nc] of ink
    and [nk] of key. *)
Definition tripBack (nc nk : Z) : float :=
  round (255 * (1 - Js.of_Z nc / 100) * (1 - Js.of_Z nk / 100)) 0.

(** [tripBack nc nk] is a whole number within 3 of every channel that
    the two percentages leave, in integer arithmetic scaled by
    [10^13]. *)
Definition tripCheck (nc nk : Z) : bool :=
  let y := (255 * (100 - nc) * (100 - nk))%Z in
  let b0 := ((2 * y + 10000) / 20000)%Z in
  existsb
    (fun b =>
       PrimFloat.Leibniz.eqb (tripBack nc nk) (Js.of_Z b)
       && (0 <=? b)%Z && (b <=? 255)%Z
       && ((b - 3) * 10 ^ 13 <=? 255000 * inkLow nk * inkLow nc - 10 ^ 10)%Z
       && (255000 * inkHigh nk * inkHigh nc + 10 ^ 10 <=? (b + 3) * 10 ^ 13)%Z)
    [b0; (b0 - 1)%Z].

(** ** Hue sectors *)

(** The sector index [hsvaToRgba] computes from a hue. *)
Definition sector (h : float) : float := Js.rem (Js.floor (h / 360 * 6)) 6.

(** The largest number, [Number.MAX_VALUE]. *)
Definition maxNumber : float := 0x1.fffffffffffffp+1023.

(** ** Zeros and NaN *)

Module B64.

(** A zero of either sign. *)
Definition isZero (x : spec_float) : bool :=
  match x with S754_zero _ => true | _ => false end.

(** A zero of either sign, or NaN. *)
Definition isZN (x : spec_float) : bool :=
  match x with S754_zero _ | S754_nan => true | _ => false end.

(** Two zeros behave alike under a product or a quotient with the same
    other operand: both results are zeros, or both are NaN. *)
Definition alike (x y : spec_float) : Prop :=
  (isZero x = true /\ isZero y = true) \/ (x = S754_nan /\ y = S754_nan).

End B64.

Import B64.

(** The same two classes, of numbers. *)
Definition zn (x : float) : Prop := isZN (Prim2SF x) = true.
Definition zeroish (x : float) : Prop := isZero (Prim2SF x) = true.

(** Equal up to the sign of a zero, and opposite up to the sign of a zero. *)
Definition same (x y : float) : Prop := x = y \/ (zeroish x /\ zeroish y).
Definition opposite (x y : float) : Prop := y = - x \/ (zeroish x /\ zeroish y).

(** [+0] or NaN. *)
Definition zn0 (x : float) : Prop := x = 0 \/ x = nan.

(** ** CIEDE2000 *)

(** What the language fixes about [Math.sin] and [Math.pow] at zeros and
    NaN, and the symmetry every implementation has: the sine is odd and
    the square is even. *)
Class EngineLaws (engine : Engine) : Prop := {
  sin_zero : Math_sin 0 = 0;
  sin_nan : Math_sin nan = nan;
  sin_odd : forall x, Math_sin (- x) = - Math_sin x;
  square_zero : Math_pow 0 2 = 0;
  square_nan : Math_pow nan 2 = nan;
  square_even : forall x, Math_pow (- x) 2 = Math_pow x 2;
  root_zero : Math_pow 0 0.5 = 0;
  root_neg_zero : Math_pow (-0) 0.5 = 0;
  root_nan : Math_pow nan 0.5 = nan
}.

Section DeltaParts.

Context {engine : Engine}.

Definition chroma (a b : float) : float :=
  Math_pow (Math_pow a 2 + Math_pow b 2) 0.5.

Definition hueDiff (h1 h2 : float) : float :=
  let dh := h2 - h1 in
  let dhAbs := abs (h2 - h1) in
  if (180 <? dhAbs) && (h2 <=? h1) then dh + 360
  else if (180 <? dhAbs) && (h1 <? h2) then dh - 360
  else dh.

Definition hueMean (h1 h2 : float) : float :=
  let dhAbs := abs (h2 - h1) in
  let H := h1 + h2 in
  if dhAbs <=? 180 then H / 2
  else (if h1 + h2 <? 360 then H + 360 else H - 360) / 2.

Definition deltaSum (dL dC dH sL sC sH Rt : float) : float :=
  Math_pow
    (Math_pow (dL / 1 / sL) 2
     + Math_pow (dC / 1 / sC) 2
     + Math_pow (dH / 1 / sH) 2
     + (Rt * dC * dH) / (1 * sC * 1 * sH))
    0.5.

Definition deltaCore (l1 l2 c11 c22 h1 h2 mc : float) : float :=
  let deg2rad := Math_PI / 180 in
  let ml := (l1 + l2) / 2 in
  let c7 := Math_pow mc 7 in
  let mc1 := (c11 + c22) / 2 in
  let dh := hueDiff h1 h2 in
  let H := hueMean h1 h2 in
  let T :=
    1 - 0.17 * Math_cos (deg2rad * (H - 30))
      + 0.24 * Math_cos (deg2rad * 2 * H)
      + 0.32 * Math_cos (deg2rad * (3 * H + 6))
      - 0.2 * Math_cos (deg2rad * (4 * H - 63)) in
  let dH := 2 * Math_sin ((deg2rad * dh) / 2) * Math_pow (c11 * c22) 0.5 in
  let sL :=
    1 + (0.015 * Math_pow (ml - 50) 2) / Math_pow (20 + Math_pow (ml - 50) 2) 0.5 in
  let sC := 1 + 0.045 * mc1 in
  let sH := 1 + 0.015 * mc1 * T in
  let dTheta := 30 * Math_exp (-1 * Math_pow ((H - 275) / 25) 2) in
  let Rc := 2 * Math_pow (c7 / (c7 + Math_pow 25 7)) 0.5 in
  let Rt := - Rc * Math_sin (deg2rad * 2 * dTheta) in
  deltaSum (l2 - l1) (c22 - c11) dH sL sC sH Rt.

End DeltaParts.

(** An engine on which the laws can be checked: exact squares, the
    correctly rounded square root, and the first-order sine. *)
Definition sampleEngine : Engine :=
  {| Math_pow := fun x y =>
       if y =? 2 then x * x
       else if x =? 0 then 0 else sqrt x;
     Math_cbrt := fun x => x;
     Math_atan2 := fun y x => y;
     Math_cos := fun _ => 1;
     Math_sin := fun x => x;
     Math_exp := fun x => 1 + x |}.

(** ** Magnitudes *)

Module Mag.

(** The number of binary digits of a non-negative integer. *)
Definition dg (m : Z) : Z := Zdigits2 m.

Arguments dg : simpl never.

End Mag.

Import Mag.

Module MagSpec.

Local Open Scope Z_scope.

(** Finite (or zero) with magnitude at most [B]: below [2^B] in absolute
    value. *)
Definition bounded (B : Z) (x : spec_float) : Prop :=
  match x with
  | S754_zero _ => True
  | S754_finite _ m e => dg (Zpos m) + e <= B
  | _ => False
  end.

(** Finite (or zero) and not negative. *)
Definition nonneg (x : spec_float) : Prop :=
  match x with
  | S754_zero _ => True
  | S754_finite s _ _ => s = false
  | _ => False
  end.

End MagSpec.

Import MagSpec.

(** The same bounds, of numbers. *)
Definition fbounded (B : Z) (x : float) : Prop :=
  bounded B (Prim2SF x).

Definition fnonneg (x : float) : Prop := nonneg (Prim2SF x).

(** The magnitude bound as a test. *)
Definition boundedb (B : Z) (x : spec_float) : bool :=
  match x with
  | S754_zero _ => true
  | S754_finite _ m e => (dg (Zpos m) + e <=? B)%Z
  | _ => false
  end.

(** An index into a six-element array. *)
Definition validIndex (i : float) : bool :=
  (i =? 0) || (i =? 1) || (i =? 2) || (i =? 3) || (i =? 4) || (i =? 5).

(** ** Binary64 numbers as reals *)

Module Real64.

Import Reals.

Local Open Scope R_scope.

(** Powers of two with integer exponents. *)
Definition p2 (e : Z) : R := powerRZ 2 e.

(** The real number [m * 2^e]. *)
Definition F2R (m e : Z) : R := IZR m * p2 e.

(** Where a real [u] lies relative to the integer [m] of a shift
    record: on it, in the lower half of the unit above it, in the
    middle, or in the upper half. *)
Definition located (u : R) (mrs : shr_record) : Prop :=
  let m := IZR (shr_m mrs) in
  match shr_r mrs, shr_s mrs with
  | false, false => u = m
  | false, true => m < u < m + / 2
  | true, false => u = m + / 2
  | true, true => m + / 2 < u < m + 1
  end.

(** The real number a finite float stands for. *)
Definition SF2R (x : spec_float) : R :=
  match x with
  | S754_finite s m e => if s then - F2R (Zpos m) e else F2R (Zpos m) e
  | _ => 0
  end.

Section Format.

Variables prec emax : Z.

Local Abbreviation emin := (SpecFloat.emin prec emax).

(** The magnitudes of the format, with no upper limit on the exponent. *)
Definition fmt (v : R) : Prop :=
  exists m e, v = F2R m e /\ (0 <= m < 2 ^ prec)%Z /\ (emin <= e)%Z.

(** [v] is a member of the format nearest to [x]. *)
Definition nearest (x v : R) : Prop :=
  fmt v /\ forall f, fmt f -> Rabs (v - x) <= Rabs (f - x).

(** A mantissa fit for the exponent [e]: below [2^prec], and with the
    leading bit set unless [e] is the least exponent. *)
Definition fits (m e : Z) : Prop :=
  (0 <= m < 2 ^ prec)%Z /\ (emin <= e)%Z /\
  (emin < e -> 2 ^ (prec - 1) <= m)%Z.

(** Zero, or finite, positive, in canonical form and in range. *)
Definition valid (x : spec_float) : Prop :=
  match x with
  | S754_zero _ => True
  | S754_finite s m e =>
      s = false /\ fits (Zpos m) e /\ (e <= emax - prec)%Z
  | _ => False
  end.

(** [z] is what rounding the real [x >= 0] gives: a float whose value
    is a nearest member of the format, or an infinity when that member
    is beyond the finite range. *)
Definition rounds (x : R) (z : spec_float) : Prop :=
  exists v, nearest x v /\ 0 <= v /\
    match z with
    | S754_zero _ => v = 0
    | S754_finite s m e => s = false /\ v = F2R (Zpos m) e
    | S754_infinity _ => p2 emax <= v
    | S754_nan => False
    end.

End Format.

(** The real value of a number. *)
Definition val (a : float) : R := SF2R (Prim2SF a).

(** Zero or finite, and not negative. *)
Definition good (a : float) : Prop := valid prec emax (Prim2SF a).

(** [a] and [b] are valid and [a] is at most [b]. *)
Definition below (a b : float) : Prop := good a /\ good b /\ val a <= val b.

(** Valid and not zero. *)
Definition positive (a : float) : Prop := 0 < val a.

(** The spacing of the numbers between 256 and 512: what is rounded
    below 512 moves by at most this much. *)
Definition spacing : R := p2 (-44).

(** Finite, of either sign. *)
Definition finite (x : float) : Prop := good x \/ good (- x)%float.

(** What is rounded below 4096 moves by at most [2^-41]. *)
Definition slack : R := p2 (-41).

End Real64.

(** ** Contrast *)

(** What the range of the contrast needs of the power function at the
    exponent of the sRGB transfer curve: [1] stays [1], and the unit
    interval is mapped into itself. *)
Class GammaLaws (engine : Engine) : Prop := {
  gamma_one : Math_pow 1 2.4 = 1;
  gamma_unit : forall x,
    (0 <=? x) = true -> (x <=? 1) = true ->
    (0 <=? Math_pow x 2.4) = true /\ (Math_pow x 2.4 <=? 1) = true
}.

(** Channels between 0 and 255. *)
Definition inGamut (c : RgbaColor) : bool :=
  (0 <=? rgb_r c) && (rgb_r c <=? 255) &&
  (0 <=? rgb_g c) && (rgb_g c <=? 255) &&
  (0 <=? rgb_b c) && (rgb_b c <=? 255).

(** The two ends of the luminance scale. *)
Definition white : RgbaColor := mkRgba 255 255 255 1.
Definition black : RgbaColor := mkRgba 0 0 0 1.

(** An engine on which the laws of the transfer curve can be checked:
    its power function squares, whatever the exponent. *)
Definition squareEngine : Engine :=
  {| Math_pow := fun x _ => x * x;
     Math_cbrt := fun x => x;
     Math_atan2 := fun y x => y;
     Math_cos := fun _ => 1;
     Math_sin := fun x => x;
     Math_exp := fun x => 1 + x |}.

(** ** Ranges and whole numbers *)

(** [x] lies between [lo] and [hi]. *)
Definition between (lo hi x : float) : bool := (lo <=? x) && (x <=? hi).

(** Channels between 0 and 255 and an alpha between 0 and 1. *)
Definition validRgba (c : RgbaColor) : bool :=
  inGamut c && between 0 1 (rgb_a c).

(** The colour a parser gave, if any, is valid. *)
Definition allValid (r : option RgbaColor) : bool :=
  match r with Some c => validRgba c | None => true end.

(** A whole number between 0 and [hi]. *)
Definition wholeUpTo (hi : nat) (x : float) : Prop :=
  exists n, (n <= hi)%nat /\ x = chan n.

(** A whole channel value between 0 and 255. *)
Definition wholeChannel (x : float) : Prop := wholeUpTo 255 x.

(** Whole channels and an alpha between 0 and 1. *)
Definition wholeRgba (c : RgbaColor) : Prop :=
  wholeChannel (rgb_r c) /\ wholeChannel (rgb_g c) /\
  wholeChannel (rgb_b c) /\ between 0 1 (rgb_a c) = true.

(** The numbers a template splices in, in order. *)
Definition values (t : Template) : list float :=
  flat_map (fun p => match p with Value x => [x] | Text _ => [] end) t.

(** The colour a parser gave, if any, has the property [P]. *)
Definition parsed (P : RgbaColor -> Prop) (r : option RgbaColor) : Prop :=
  match r with Some c => P c | None => True end.

(** * Properties *)

(** ** Bounded quantification by evaluation *)

Lemma allBelow_spec (n : nat) (p : nat -> bool) :
  allBelow n p = true -> forall k, (k < n)%nat -> p k = true.
Proof.
  induction n as [|n IH]; simpl; intros H k Hk; [lia|].
  apply andb_prop in H as [Hn Hrest].
  destruct (Nat.eq_dec k n) as [->|Hne]; [exact Hn|].
  apply IH; [exact Hrest|lia].
Qed.

(** ** Hue normalisation *)

(** C1.  [clampHue] at the values the claim names: a hue that is not
    finite comes out as 360, not 0, and so do 0 and 360 themselves (the
    range is (0,360], not [0,360)); -1 and 361 wrap to 359 and 1. *)
Theorem clampHue_values :
  clampHue nan = 360 /\ clampHue infinity = 360 /\
  clampHue neg_infinity = 360 /\ clampHue 0 = 360 /\ clampHue 360 = 360 /\
  clampHue (-1) = 359 /\ clampHue 361 = 1.
Proof. repeat split; vm_compute; reflexivity. Qed.

(** ** Degenerate CMYK *)

(** C3.  RGB black, whatever its alpha, converts to CMYK (0, 0, 0, 100)
    with the alpha unchanged: the key is 1, each raw ink ratio is the
    NaN of 0/0, and [isNaN] replaces it by 0. *)
Theorem rgbaToCmyka_black (alpha : float) :
  let black := mkRgba 0 0 0 alpha in
  cmykKey black = 1 /\
  Js.isNaN (cmykInk (rgb_r black) (cmykKey black)) = true /\
  Js.isNaN (cmykInk (rgb_g black) (cmykKey black)) = true /\
  Js.isNaN (cmykInk (rgb_b black) (cmykKey black)) = true /\
  rgbaToCmyka black = mkCmyka 0 0 0 100 alpha.
Proof. repeat split; vm_compute; reflexivity. Qed.

(** ** Alpha precision *)

Lemma alphaDigits_max (digits : nat) : alphaDigits digits = Nat.max 3 digits.
Proof.
  unfold alphaDigits, ALPHA_PRECISION.
  destruct (Nat.ltb_spec digits 3); lia.
Qed.

(** C9.  Whatever digit count is requested, the three rounding functions
    round alpha with [max 3 digits] digits, hence with at least 3. *)
Theorem alpha_precision_floor (digits : nat) :
  (forall lcha, lch_a (roundLcha lcha digits)
                = round (lch_a lcha) (Nat.max 3 digits)) /\
  (forall hwba, hwb_a (roundHwba hwba digits)
                = round (hwb_a hwba) (Nat.max 3 digits)) /\
  (forall cmyka, cmyk_a (roundCmyka cmyka digits)
                 = round (cmyk_a cmyka) (Nat.max 3 digits)) /\
  (3 <= Nat.max 3 digits)%nat.
Proof.
  repeat split; intros.
  - unfold roundLcha; cbn [lch_a]; now rewrite alphaDigits_max.
  - unfold roundHwba; cbn [hwb_a]; now rewrite alphaDigits_max.
  - unfold roundCmyka; cbn [cmyk_a]; now rewrite alphaDigits_max.
  - lia.
Qed.

(** ** Alpha suffix of the string forms *)

Lemma round_one_small :
  allBelow 309 (fun d => negb (round 1 d <? 1)) = true.
Proof. vm_compute. reflexivity. Qed.

(** An alpha of exactly 1 is never below 1 after rounding, at any digit
    count: the power of ten is integral up to [10^308] and [Infinity]
    beyond, where the quotient is [NaN]. *)
Lemma round_one_not_below (digits : nat) : (round 1 digits <? 1) = false.
Proof.
  destruct (Nat.lt_ge_cases digits 309) as [Hlt|Hge].
  - apply negb_true_iff.
    exact (allBelow_spec 309 _ round_one_small digits Hlt).
  - unfold round, Js.pow10.
    replace (digits <=? 22)%nat with false by (symmetry; apply Nat.leb_gt; lia).
    replace (308 <? digits)%nat with true by (symmetry; apply Nat.ltb_lt; lia).
    vm_compute. reflexivity.
Qed.

Lemma suffixFor_round_one (digits : nat) : suffixFor (round 1 digits) = None.
Proof. unfold suffixFor. now rewrite round_one_not_below. Qed.

Lemma alphaSuffix_cmyk (rgb : RgbaColor) (digits : nat) :
  alphaSuffix (rgbaToCmykaString rgb digits)
  = suffixFor (round (rgb_a rgb) (alphaDigits digits)).
Proof.
  unfold rgbaToCmykaString, suffixFor, roundCmyka, rgbaToCmyka; simpl.
  destruct (round (rgb_a rgb) (alphaDigits digits) <? 1); reflexivity.
Qed.

Lemma alphaSuffix_hwb (rgba : RgbaColor) (digits : nat) :
  alphaSuffix (rgbaToHwbaString rgba digits)
  = suffixFor (round (rgb_a rgba) (alphaDigits digits)).
Proof.
  unfold rgbaToHwbaString, suffixFor, roundHwba, rgbaToHwba; simpl.
  destruct (round (rgb_a rgba) (alphaDigits digits) <? 1); reflexivity.
Qed.

Lemma alphaSuffix_lch {engine : Engine} (rgba : RgbaColor) (digits : nat) :
  alphaSuffix (rgbaToLchaString rgba digits)
  = suffixFor (round (clamp01 (rgb_a rgba)) (alphaDigits digits)).
Proof.
  unfold rgbaToLchaString, suffixFor, roundLcha, rgbaToLcha, rgbaToLaba,
    rgbaToXyza, clampXyza; simpl.
  destruct (round (clamp01 (rgb_a rgba)) (alphaDigits digits) <? 1); reflexivity.
Qed.

Lemma alphaDigits_min3 (digits : nat) : alphaDigits (Nat.min digits 3) = 3%nat.
Proof. rewrite alphaDigits_max. lia. Qed.

(** C5.  For every colour and digit count each formatter ends with the
    alpha suffix exactly when the alpha rounded with [max 3 digits] digits
    is below 1, and then splices that rounded alpha (the LCH path clamps
    alpha first).  An alpha of exactly 1 never gets a suffix; 0.999995
    rounds to 1 at three digits, so at any digit count up to 3 it gets
    none either. *)
Theorem alpha_suffix_only_below_one {engine : Engine}
    (rgba : RgbaColor) (digits : nat) :
  (alphaSuffix (rgbaToLchaString rgba digits)
   = suffixFor (round (clamp01 (rgb_a rgba)) (Nat.max 3 digits)) /\
   alphaSuffix (rgbaToHwbaString rgba digits)
   = suffixFor (round (rgb_a rgba) (Nat.max 3 digits)) /\
   alphaSuffix (rgbaToCmykaString rgba digits)
   = suffixFor (round (rgb_a rgba) (Nat.max 3 digits))) /\
  (alphaSuffix (rgbaToLchaString (withAlpha rgba 1) digits) = None /\
   alphaSuffix (rgbaToHwbaString (withAlpha rgba 1) digits) = None /\
   alphaSuffix (rgbaToCmykaString (withAlpha rgba 1) digits) = None) /\
  (round 0.999995 3 = 1 /\
   alphaSuffix (rgbaToLchaString (withAlpha rgba 0.999995) (Nat.min digits 3)) = None /\
   alphaSuffix (rgbaToHwbaString (withAlpha rgba 0.999995) (Nat.min digits 3)) = None /\
   alphaSuffix (rgbaToCmykaString (withAlpha rgba 0.999995) (Nat.min digits 3)) = None).
Proof.
  rewrite <- !alphaDigits_max.
  split; [|split].
  - now rewrite alphaSuffix_lch, alphaSuffix_hwb, alphaSuffix_cmyk.
  - rewrite alphaSuffix_lch, alphaSuffix_hwb, alphaSuffix_cmyk.
    cbn [withAlpha rgb_a].
    replace (clamp01 1) with 1 by (vm_compute; reflexivity).
    now rewrite suffixFor_round_one.
  - rewrite alphaSuffix_lch, alphaSuffix_hwb, alphaSuffix_cmyk.
    cbn [withAlpha rgb_a]. rewrite alphaDigits_min3.
    repeat split; vm_compute; reflexivity.
Qed.

(** ** Object parsers *)

(** A channel is present exactly when it is a number or a non-empty
    string. *)
Lemma isPresent_spec (value : JsValue) :
  isPresent value = true <->
  (exists x, value = JsNum x) \/
  (exists s, value = JsStr s /\ s <> EmptyString).
Proof.
  split.
  - destruct value as [| |b|x|s]; simpl; try discriminate.
    + intros _. left. now exists x.
    + intros H. right. exists s. split; [reflexivity|].
      intros ->. discriminate.
  - intros [[x ->]|[s [-> Hs]]]; simpl; [reflexivity|].
    destruct s; [contradiction|reflexivity].
Qed.

(** C10.  An object parser answers with a colour exactly when every
    required channel is present, whatever the present channels hold: a
    string that is not numeric becomes NaN under [Number] and is clamped
    (to the lower bound, or to hue 360) or carried on.  With the channel
    ["abc"] the CMYK and HWB parsers return the colours shown; an empty
    string or a missing channel gives [None]. *)
Theorem object_parsers_total {engine : Engine} (o : JsObject) :
  (isSome (parseLcha o) = present o ["l"; "c"; "h"]%string /\
   isSome (parseHwba o) = present o ["h"; "w"; "b"]%string /\
   isSome (parseCmyka o) = present o ["c"; "m"; "y"; "k"]%string) /\
  (Number (JsStr "abc") = nan /\
   parseCmyka (obj [("c", JsStr "abc"); ("m", JsNum 0); ("y", JsNum 0);
                    ("k", JsNum 0)]%string)
   = Some (mkRgba 255 255 255 1) /\
   parseHwba (obj [("h", JsStr "abc"); ("w", JsStr "abc"); ("b", JsNum 0)]%string)
   = Some (mkRgba 255 0 0 1) /\
   isSome (parseLcha (obj [("l", JsStr "abc"); ("c", JsStr "abc");
                           ("h", JsStr "abc")]%string)) = true) /\
  (parseCmyka (obj [("c", JsStr ""); ("m", JsNum 0); ("y", JsNum 0);
                    ("k", JsNum 0)]%string) = None /\
   parseHwba (obj [("h", JsNum 0); ("w", JsNum 0)]%string) = None /\
   parseLcha (obj [("l", JsNull); ("c", JsNum 0); ("h", JsNum 0)]%string) = None).
Proof.
  split; [|split].
  - unfold parseLcha, parseHwba, parseCmyka, present; simpl.
    repeat split;
      repeat match goal with
             | |- context [isPresent ?v] => destruct (isPresent v)
             end; reflexivity.
  - repeat split; vm_compute; reflexivity.
  - repeat split; vm_compute; reflexivity.
Qed.

(** ** String parsers *)

Lemma star_sound r :
  sound_at r ->
  forall k fuel s caps res,
    star (run r) k fuel s caps = Some res ->
    exists s1 s2 caps',
      s = s1 ++ s2 /\ Matches (Star r) s1 /\ k s2 caps' = Some res.
Proof.
  intros Hr k fuel. induction fuel as [|fuel IH]; intros s caps res H; simpl in H.
  - exists [], s, caps. repeat split; [constructor|assumption].
  - destruct (run r s caps _) as [m|] eqn:Hrun.
    + injection H as ->.
      apply Hr in Hrun as (s1 & s2 & caps' & -> & Hm & Hk).
      destruct (List.length s2 <? List.length (s1 ++ s2))%nat eqn:Hlen;
        [|discriminate].
      apply IH in Hk as (t1 & t2 & caps'' & -> & Hm' & Hk').
      exists (s1 ++ t1), t2, caps''. rewrite app_assoc.
      repeat split; [|assumption].
      constructor; try assumption.
      intros ->. apply Nat.ltb_lt in Hlen. simpl in Hlen. lia.
    + exists [], s, caps. repeat split; [constructor|assumption].
Qed.

Lemma run_sound r : sound_at r.
Proof.
  induction r as [|c|p|r1 IH1 r2 IH2|r1 IH1 r2 IH2|r IH|n r IH];
    intros s caps k res H; simpl in H.
  - exists [], s, caps. repeat split; [constructor|assumption].
  - destruct s as [|x t]; [discriminate|].
    destruct (Ascii.eqb (Str.upper x) (Str.upper c)) eqn:E; [|discriminate].
    apply Ascii.eqb_eq in E.
    exists [x], t, caps. repeat split; [now constructor|assumption].
  - destruct s as [|x t]; [discriminate|].
    destruct (p x) eqn:E; [|discriminate].
    exists [x], t, caps. repeat split; [now constructor|assumption].
  - apply IH1 in H as (s1 & s2 & caps' & -> & Hm1 & Hk).
    apply IH2 in Hk as (t1 & t2 & caps'' & -> & Hm2 & Hk).
    exists (s1 ++ t1), t2, caps''. rewrite app_assoc.
    repeat split; [now constructor|assumption].
  - destruct (run r1 s caps k) as [m|] eqn:E1.
    + injection H as ->.
      apply IH1 in E1 as (s1 & s2 & caps' & -> & Hm & Hk).
      exists s1, s2, caps'. repeat split; [now apply MAltL|assumption].
    + apply IH2 in H as (s1 & s2 & caps' & -> & Hm & Hk).
      exists s1, s2, caps'. repeat split; [now apply MAltR|assumption].
  - now apply (star_sound r IH) in H.
  - apply IH in H as (s1 & s2 & caps' & -> & Hm & Hk).
    exists s1, s2, ((n, consumed (s1 ++ s2) s2) :: caps').
    repeat split; [now constructor|assumption].
Qed.

Lemma star_complete r :
  complete_at r ->
  forall s1, Matches (Star r) s1 ->
  forall k s2 fuel caps,
    accepts k s2 -> (List.length (s1 ++ s2) <= fuel)%nat ->
    isSome (star (run r) k fuel (s1 ++ s2) caps) = true.
Proof.
  intros Hr s1 Hm.
  remember (Star r) as sr eqn:Esr.
  induction Hm as [| | | | | |r'|r' t1 t2 Hne Hm1 _ Hm2 IH|]; try discriminate;
    injection Esr as ->; intros k s2 fuel caps Hk Hfuel.
  - destruct fuel as [|fuel]; simpl; [apply Hk|].
    destruct (run r s2 caps _); [reflexivity|apply Hk].
  - destruct fuel as [|fuel]; simpl.
    + destruct t1; [contradiction|simpl in Hfuel; lia].
    + rewrite <- app_assoc.
      match goal with |- context [run r _ caps ?k'] => set (kk := k') end.
      assert (Hacc : accepts kk (t2 ++ s2)).
      { intros caps'. unfold kk.
        replace (List.length (t2 ++ s2) <? List.length (t1 ++ t2 ++ s2))%nat
          with true.
        - apply (IH eq_refl). assumption.
          rewrite <- app_assoc, length_app in Hfuel.
          destruct t1; [contradiction|simpl in Hfuel]. lia.
        - symmetry. apply Nat.ltb_lt. rewrite (length_app t1).
          destruct t1; [contradiction|simpl; lia]. }
      pose proof (Hr t1 Hm1 (t2 ++ s2) caps kk Hacc) as H.
      destruct (run r (t1 ++ t2 ++ s2) caps kk); [reflexivity|discriminate].
Qed.

Lemma run_complete r : complete_at r.
Proof.
  induction r as [|c|p|r1 IH1 r2 IH2|r1 IH1 r2 IH2|r IH|n r IH];
    intros s1 Hm; inversion Hm; subst; intros s2' caps k Hk; simpl.
  - apply Hk.
  - match goal with H : Str.upper _ = Str.upper _ |- _ => rewrite H end.
    rewrite Ascii.eqb_refl. apply Hk.
  - match goal with H : p _ = true |- _ => rewrite H end. apply Hk.
  - rewrite <- app_assoc. apply IH1; [assumption|].
    intros caps'. now apply IH2.
  - match goal with H : Matches r1 _ |- _ =>
      pose proof (IH1 _ H s2' caps k Hk) as E end.
    destruct (run r1 _ caps k); [reflexivity|discriminate].
  - destruct (run r1 _ caps k); [reflexivity|]. now apply IH2.
  - destruct (List.length s2'); simpl; [apply Hk|].
    destruct (run r s2' caps _); [reflexivity|apply Hk].
  - apply (star_complete r IH); [assumption..|lia].
  - apply IH; [assumption|]. intros caps'. apply Hk.
Qed.

(** [exec] succeeds exactly on the inputs in the language of the
    pattern. *)
Theorem exec_spec r input :
  isSome (exec r input) = true <-> Matches r (list_ascii_of_string input).
Proof.
  unfold exec. split.
  - destruct (run r _ [] atEnd) as [res|] eqn:H; [intros _|discriminate].
    apply run_sound in H as (s1 & s2 & caps' & E & Hm & Hk).
    destruct s2; [|discriminate]. rewrite app_nil_r in E. now rewrite E.
  - intros Hm.
    rewrite <- (app_nil_r (list_ascii_of_string input)).
    apply run_complete; [assumption|]. intros caps. reflexivity.
Qed.

Lemma parse_none_iff {A : Type} (r : Regex) (input : string)
    (parse : option A) :
  isSome parse = isSome (exec r input) ->
  (parse = None <-> ~ Matches r (list_ascii_of_string input)).
Proof.
  intros E. rewrite <- exec_spec, <- E.
  destruct parse; simpl; split; try discriminate; try reflexivity.
  intros H. now contradiction H.
Qed.

(** C8.  Each string parser answers [None] exactly on the inputs outside
    the language of its anchored, case-insensitive pattern; the parsers
    are total functions into [option], so a malformed input has no other
    outcome.  The three inputs shown miss a percent sign, a channel and
    the closing parenthesis. *)
Theorem string_parsers_null_on_mismatch {engine : Engine} (input : string) :
  ((parseLchaString input = None
    <-> ~ Matches lchaMatcher (list_ascii_of_string input)) /\
   (parseHwbaString input = None
    <-> ~ Matches hwbaMatcher (list_ascii_of_string input)) /\
   (parseCmykaString input = None
    <-> ~ Matches cmykMatcher (list_ascii_of_string input))) /\
  (parseLchaString "lch(50 20 30)" = None /\
   parseHwbaString "hwb(120 10%)" = None /\
   parseCmykaString "device-cmyk(0% 100% 0% 0%" = None).
Proof.
  split; [split; [|split]|].
  - apply parse_none_iff. unfold parseLchaString.
    now destruct (exec lchaMatcher input).
  - apply parse_none_iff. unfold parseHwbaString.
    now destruct (exec hwbaMatcher input).
  - apply parse_none_iff. unfold parseCmykaString.
    now destruct (exec cmykMatcher input).
  - split; [|split]; vm_compute; reflexivity.
Qed.

(** ** Round trips *)

Lemma leibniz_eq (x y : float) : PrimFloat.Leibniz.eqb x y = true -> x = y.
Proof. apply FloatAxioms.Leibniz.eqb_spec. Qed.

Lemma allBelow2_spec (n m : nat) (p : nat -> nat -> bool) :
  allBelow n (fun i => allBelow m (p i)) = true ->
  forall i j, (i < n)%nat -> (j < m)%nat -> p i j = true.
Proof.
  intros H i j Hi Hj.
  apply (allBelow_spec m (p i)); [|exact Hj].
  exact (allBelow_spec n _ H i Hi).
Qed.

(** On integer channels [Math.max] of the scaled channels is the scaled
    largest channel: checked on all pairs. *)
Lemma max2_chan_table :
  allBelow 256 (fun i => allBelow 256 (fun j =>
    PrimFloat.Leibniz.eqb (Js.max2 (chan i / 255) (chan j / 255))
                          (chan (Nat.max i j) / 255))) = true.
Proof. vm_compute. reflexivity. Qed.

Lemma max2_chan (i j : nat) :
  (i < 256)%nat -> (j < 256)%nat ->
  Js.max2 (chan i / 255) (chan j / 255) = chan (Nat.max i j) / 255.
Proof.
  intros Hi Hj. apply leibniz_eq.
  exact (allBelow2_spec 256 256 _ max2_chan_table i j Hi Hj).
Qed.

Lemma cmykKey_chan (i j l : nat) (alpha : float) :
  (i < 256)%nat -> (j < 256)%nat -> (l < 256)%nat ->
  cmykKey (mkRgba (chan i) (chan j) (chan l) alpha)
  = 1 - chan (Nat.max (Nat.max i j) l) / 255.
Proof.
  intros Hi Hj Hl. unfold cmykKey, Js.max; cbn [rgb_r rgb_g rgb_b].
  rewrite (max2_chan i j Hi Hj), max2_chan by lia.
  reflexivity.
Qed.

Lemma cmyk_round_trip_channels (rgba : RgbaColor) :
  cmykaToRgba (rgbaToCmyka rgba)
  = mkRgba (cmykTrip (rgb_r rgba) (cmykKey rgba))
           (cmykTrip (rgb_g rgba) (cmykKey rgba))
           (cmykTrip (rgb_b rgba) (cmykKey rgba))
           (rgb_a rgba).
Proof. reflexivity. Qed.

(** Every channel value under every largest channel value comes back
    within 2 units. *)
Lemma cmykTrip_table :
  allBelow 256 (fun x => allBelow 256 (fun m =>
    within 2 (cmykTrip (chan x) (1 - chan (Nat.max x m) / 255)) (chan x))) = true.
Proof. vm_compute. reflexivity. Qed.

Lemma cmykTrip_within (x m : nat) :
  (x <= m)%nat -> (m < 256)%nat ->
  within 2 (cmykTrip (chan x) (1 - chan m / 255)) (chan x) = true.
Proof.
  intros Hx Hm.
  pose proof (allBelow2_spec 256 256 _ cmykTrip_table x m ltac:(lia) Hm) as H.
  cbv beta in H. now replace (Nat.max x m) with m in H by lia.
Qed.

(** For whole channels in 0..255 and any alpha, RGBA to CMYK and back
    gives each channel within 2 units of the original, and the alpha
    itself. *)
Theorem cmyk_round_trip_within_2 (i j l : nat) (alpha : float) :
  (i < 256)%nat -> (j < 256)%nat -> (l < 256)%nat ->
  let rgba := mkRgba (chan i) (chan j) (chan l) alpha in
  let back := cmykaToRgba (rgbaToCmyka rgba) in
  within 2 (rgb_r back) (rgb_r rgba) = true /\
  within 2 (rgb_g back) (rgb_g rgba) = true /\
  within 2 (rgb_b back) (rgb_b rgba) = true /\
  rgb_a back = alpha.
Proof.
  intros Hi Hj Hl rgba back. subst back.
  rewrite cmyk_round_trip_channels. subst rgba.
  rewrite cmykKey_chan by assumption. cbn [rgb_r rgb_g rgb_b rgb_a].
  repeat split; apply cmykTrip_within; lia.
Qed.

(** The bound 2 is reached at (253, 254, 254), which comes back white. *)
Lemma cmyk_round_trip_witness :
  let rgba := mkRgba (chan 253) (chan 254) (chan 254) 1 in
  let back := cmykaToRgba (rgbaToCmyka rgba) in
  within 2 (rgb_r back) (rgb_r rgba) = true /\
  within 2 (rgb_g back) (rgb_g rgba) = true /\
  within 2 (rgb_b back) (rgb_b rgba) = true /\
  rgb_a back = 1.
Proof. apply (cmyk_round_trip_within_2 253 254 254 1); lia. Defined.

(** ** Binary64 facts for symbolic arguments *)

Module B64Facts.

Section Spec.

Variables prec emax : Z.

Lemma binary_round_aux_opp s m e l :
  binary_round_aux prec emax (negb s) m e l
  = SFopp (binary_round_aux prec emax s m e l).
Proof.
  unfold binary_round_aux.
  destruct (shr_fexp prec emax m e l) as [mrs' e'].
  destruct (shr_fexp prec emax _ e' loc_Exact) as [mrs'' e''].
  destruct (shr_m mrs''); try reflexivity.
  destruct (e'' <=? emax - prec)%Z; reflexivity.
Qed.

Lemma binary_round_opp s m e :
  binary_round prec emax (negb s) m e = SFopp (binary_round prec emax s m e).
Proof.
  unfold binary_round.
  destruct (shl_align m e _) as [mz ez].
  apply binary_round_aux_opp.
Qed.

(** Normalising the opposite integer gives the opposite number, or both
    are the zero of the zero integer. *)
Lemma binary_normalize_opp m e :
  binary_normalize prec emax (- m) e false
  = match m with
    | Z0 => S754_zero false
    | _ => SFopp (binary_normalize prec emax m e false)
    end.
Proof.
  destruct m as [|p|p]; simpl; [reflexivity| |].
  - apply (binary_round_opp false).
  - now rewrite (binary_round_opp false), 
      (match binary_round prec emax false p e as x return SFopp (SFopp x) = x with
       | S754_zero s | S754_infinity s => ltac:(simpl; now rewrite negb_involutive)
       | S754_nan => eq_refl
       | S754_finite s _ _ => ltac:(simpl; now rewrite negb_involutive)
       end).
Qed.

Lemma SFopp_involutive x : SFopp (SFopp x) = x.
Proof. destruct x; simpl; now rewrite ?negb_involutive. Qed.

Lemma SFmul_comm x y : SFmul prec emax x y = SFmul prec emax y x.
Proof.
  destruct x as [sx|sx| |sx mx ex], y as [sy|sy| |sy my ey]; simpl;
    try reflexivity; try (now rewrite xorb_comm).
  unfold SFmul. now rewrite xorb_comm, Pos.mul_comm, Z.add_comm.
Qed.

Lemma SFmul_opp_l x y :
  SFmul prec emax (SFopp x) y = SFopp (SFmul prec emax x y).
Proof.
  destruct x as [sx|sx| |sx mx ex], y as [sy|sy| |sy my ey]; simpl;
    try reflexivity; try (now rewrite negb_xorb_l).
  unfold SFmul. rewrite <- negb_xorb_l. apply binary_round_aux_opp.
Qed.

Lemma SFdiv_opp_l x y :
  SFdiv prec emax (SFopp x) y = SFopp (SFdiv prec emax x y).
Proof.
  destruct x as [sx|sx| |sx mx ex], y as [sy|sy| |sy my ey]; simpl;
    try reflexivity; try (now rewrite negb_xorb_l).
  unfold SFdiv.
  destruct (SFdiv_core_binary prec emax _ ex _ ey) as [[mz ez] lz].
  rewrite <- negb_xorb_l. apply binary_round_aux_opp.
Qed.

Lemma SFadd_comm x y : SFadd prec emax x y = SFadd prec emax y x.
Proof.
  destruct x as [sx|sx| |sx mx ex], y as [sy|sy| |sy my ey]; simpl;
    try reflexivity;
    try (destruct sx, sy; reflexivity).
  unfold SFadd. now rewrite Z.min_comm, Z.add_comm.
Qed.

Lemma SFsub_swap x y :
  SFsub prec emax y x = SFopp (SFsub prec emax x y)
  \/ (isZero (SFsub prec emax x y) = true /\ isZero (SFsub prec emax y x) = true).
Proof.
  destruct x as [sx|sx| |sx mx ex], y as [sy|sy| |sy my ey];
    try (left; reflexivity);
    try (destruct sx, sy; simpl; auto; fail);
    try (left; simpl; now rewrite ?negb_involutive).
  unfold SFsub. rewrite (Z.min_comm ey ex).
  set (ez := Z.min ex ey).
  set (A := cond_Zopp sx (Zpos (fst (shl_align mx ex ez)))).
  set (B := cond_Zopp sy (Zpos (fst (shl_align my ey ez)))).
  replace (B - A)%Z with (- (A - B))%Z by lia.
  rewrite binary_normalize_opp.
  destruct (A - B)%Z; [right; split; reflexivity|left; reflexivity..].
Qed.

Lemma SFsub_diag x : isZN (SFsub prec emax x x) = true.
Proof.
  destruct x as [s|s| |s m e]; try reflexivity; try (destruct s; reflexivity).
  unfold SFsub.
  set (A := cond_Zopp s _).
  now replace (A - A)%Z with 0%Z by lia.
Qed.

Lemma cond_Zopp_negb s m : cond_Zopp (negb s) m = (- cond_Zopp s m)%Z.
Proof. destruct s; simpl; lia. Qed.

(** [(-x) - y] against [x + y], and [(-x) + y] against [x - y]. *)
Lemma SFsub_opp_l x y :
  SFsub prec emax (SFopp x) y = SFopp (SFadd prec emax x y)
  \/ (isZero (SFadd prec emax x y) = true
      /\ isZero (SFsub prec emax (SFopp x) y) = true).
Proof.
  destruct x as [sx|sx| |sx mx ex], y as [sy|sy| |sy my ey];
    try (left; reflexivity);
    try (destruct sx, sy; simpl; auto; fail).
  unfold SFsub, SFadd, SFopp. rewrite cond_Zopp_negb.
  set (ez := Z.min ex ey).
  set (A := cond_Zopp sx (Zpos (fst (shl_align mx ex ez)))).
  set (B := cond_Zopp sy (Zpos (fst (shl_align my ey ez)))).
  replace (- A - B)%Z with (- (A + B))%Z by lia.
  rewrite binary_normalize_opp.
  destruct (A + B)%Z; [right; split; reflexivity|left; reflexivity..].
Qed.

Lemma SFadd_opp_l x y :
  SFadd prec emax (SFopp x) y = SFopp (SFsub prec emax x y)
  \/ (isZero (SFsub prec emax x y) = true
      /\ isZero (SFadd prec emax (SFopp x) y) = true).
Proof.
  destruct x as [sx|sx| |sx mx ex], y as [sy|sy| |sy my ey];
    try (left; reflexivity);
    try (destruct sx, sy; simpl; auto; fail);
    try (left; simpl; now rewrite ?negb_involutive).
  unfold SFsub, SFadd, SFopp. rewrite cond_Zopp_negb.
  set (ez := Z.min ex ey).
  set (A := cond_Zopp sx (Zpos (fst (shl_align mx ex ez)))).
  set (B := cond_Zopp sy (Zpos (fst (shl_align my ey ez)))).
  replace (- A + B)%Z with (- (A - B))%Z by lia.
  rewrite binary_normalize_opp.
  destruct (A - B)%Z; [right; split; reflexivity|left; reflexivity..].
Qed.

Lemma SFopp_isZero x : isZero (SFopp x) = isZero x.
Proof. now destruct x. Qed.

Lemma SFabs_isZN x : isZN (SFabs x) = isZN x.
Proof. now destruct x. Qed.

Lemma SFabs_opp x : SFabs (SFopp x) = SFabs x.
Proof. now destruct x. Qed.

Lemma SFabs_isZero_eq x y :
  isZero x = true -> isZero y = true -> SFabs x = SFabs y.
Proof. now destruct x, y. Qed.

Lemma isZero_isZN x : isZero x = true -> isZN x = true.
Proof. now destruct x. Qed.

Lemma SFmul_isZN_l x y : isZN x = true -> isZN (SFmul prec emax x y) = true.
Proof. destruct x, y; simpl; try discriminate; reflexivity. Qed.

Lemma SFmul_isZN_r x y : isZN y = true -> isZN (SFmul prec emax x y) = true.
Proof. rewrite SFmul_comm. apply SFmul_isZN_l. Qed.

Lemma SFdiv_isZN_l x y : isZN x = true -> isZN (SFdiv prec emax x y) = true.
Proof. destruct x, y; simpl; try discriminate; reflexivity. Qed.

Lemma SFadd_isZN x y :
  isZN x = true -> isZN y = true -> isZN (SFadd prec emax x y) = true.
Proof.
  destruct x as [sx|sx| |sx mx ex], y as [sy|sy| |sy my ey]; simpl;
    try discriminate; try reflexivity.
  now destruct sx, sy.
Qed.

Lemma SFmul_zeros_l u v c :
  isZero u = true -> isZero v = true ->
  alike (SFmul prec emax u c) (SFmul prec emax v c).
Proof.
  unfold alike.
  destruct u, v, c; simpl; try discriminate; intros _ _; auto.
Qed.

Lemma SFmul_zeros_r u v c :
  isZero u = true -> isZero v = true ->
  alike (SFmul prec emax c u) (SFmul prec emax c v).
Proof. rewrite !(SFmul_comm c). apply SFmul_zeros_l. Qed.

Lemma SFdiv_zeros_l u v c :
  isZero u = true -> isZero v = true ->
  alike (SFdiv prec emax u c) (SFdiv prec emax v c).
Proof.
  unfold alike.
  destruct u, v, c; simpl; try discriminate; intros _ _; auto.
Qed.

Lemma SFadd_zeros_r x u v :
  isZero u = true -> isZero v = true ->
  SFadd prec emax x u = SFadd prec emax x v
  \/ (isZero (SFadd prec emax x u) = true /\ isZero (SFadd prec emax x v) = true).
Proof.
  destruct u as [su| | |], v as [sv| | |]; try discriminate; intros _ _.
  destruct x as [sx|sx| |sx mx ex]; simpl; auto.
  right. destruct sx, su, sv; auto.
Qed.

(** *** Order *)

Lemma SFcompare_swap x y :
  SFcompare y x = option_map CompOpp (SFcompare x y).
Proof.
  destruct x as [sx|sx| |sx mx ex], y as [sy|sy| |sy my ey]; simpl;
    try reflexivity; try (destruct sx; reflexivity);
    try (destruct sy; reflexivity); try (destruct sx, sy; reflexivity).
  f_equal. destruct sx, sy; try reflexivity;
    rewrite (Z.compare_antisym ex ey);
    destruct (ex ?= ey)%Z; simpl; try reflexivity;
    rewrite ?CompOpp_involutive;
    now rewrite Pos.compare_cont_antisym.
Qed.

Lemma SFcompare_None x y :
  SFcompare x y = None -> x = S754_nan \/ y = S754_nan.
Proof.
  destruct x as [sx|sx| |sx mx ex], y as [sy|sy| |sy my ey]; simpl;
    try discriminate; auto.
Qed.

Lemma SFcompare_Eq_sub x y :
  SFcompare x y = Some Eq -> isZN (SFsub prec emax x y) = true.
Proof.
  destruct x as [sx|sx| |sx mx ex], y as [sy|sy| |sy my ey]; simpl;
    try discriminate; try reflexivity;
    try (destruct sx; discriminate); try (destruct sy; discriminate);
    try (destruct sx, sy; (discriminate || reflexivity)).
  intros H.
  assert (sx = sy /\ ex = ey /\ mx = my) as (-> & -> & ->).
  { destruct sx, sy; try discriminate;
      destruct (Z.compare_spec ex ey) as [->| |]; try discriminate;
      injection H as H;
      [apply (f_equal CompOpp) in H; rewrite CompOpp_involutive in H; simpl in H|];
      apply Pos.compare_eq in H; auto. }
  exact (SFsub_diag (S754_finite sy my ey)).
Qed.

(** Unless one number is strictly below the other, their difference is
    a zero or NaN. *)
Lemma SFcompare_sub x y :
  isZN (SFsub prec emax x y) = false ->
  SFcompare x y = Some Lt \/ SFcompare x y = Some Gt.
Proof.
  intros H.
  destruct (SFcompare x y) as [[| |]|] eqn:Hc; auto.
  - now rewrite (SFcompare_Eq_sub _ _ Hc) in H.
  - destruct (SFcompare_None _ _ Hc) as [-> | ->]; [discriminate|].
    now destruct x.
Qed.

End Spec.
End B64Facts.

Import B64Facts.

(** *** From the specification to the numbers *)

Ltac to_spec :=
  apply Prim2SF_inj;
  rewrite ?opp_spec, ?abs_spec, ?mul_spec, ?add_spec, ?sub_spec, ?div_spec,
    ?opp_spec, ?abs_spec.

Lemma of_spec (x : float) : x = SF2Prim (Prim2SF x).
Proof. symmetry. apply SF2Prim_Prim2SF. Qed.

Lemma zeroish_cases x : zeroish x -> x = 0 \/ x = -0.
Proof.
  unfold zeroish. intros H. rewrite (of_spec x).
  destruct (Prim2SF x) as [[|]| | |]; try discriminate; auto.
Qed.

Lemma zn_cases x : zn x -> x = 0 \/ x = -0 \/ x = nan.
Proof.
  unfold zn. intros H. rewrite (of_spec x).
  destruct (Prim2SF x) as [[|]| | |]; try discriminate; auto.
Qed.

Lemma zeroish_zn x : zeroish x -> zn x.
Proof. apply isZero_isZN. Qed.

Lemma zn_0 : zn 0. Proof. reflexivity. Qed.
Lemma zn_nan : zn nan. Proof. reflexivity. Qed.

Lemma nan_spec x : Prim2SF x = S754_nan -> x = nan.
Proof. intros H. now rewrite (of_spec x), H. Qed.

Lemma mul_comm x y : x * y = y * x.
Proof. to_spec. apply SFmul_comm. Qed.

Lemma add_comm x y : x + y = y + x.
Proof. to_spec. apply SFadd_comm. Qed.

Lemma mul_opp_l x y : (- x) * y = - (x * y).
Proof. to_spec. apply SFmul_opp_l. Qed.

Lemma mul_opp_r x y : x * (- y) = - (x * y).
Proof. now rewrite mul_comm, mul_opp_l, mul_comm. Qed.

Lemma div_opp_l x y : (- x) / y = - (x / y).
Proof. to_spec. apply SFdiv_opp_l. Qed.

Lemma opp_involutive x : - - x = x.
Proof. to_spec. apply SFopp_involutive. Qed.

Lemma abs_opp x : abs (- x) = abs x.
Proof. to_spec. apply SFabs_opp. Qed.

Lemma zeroish_opp x : zeroish x -> zeroish (- x).
Proof. unfold zeroish. now rewrite opp_spec, SFopp_isZero. Qed.

Lemma mul_zn_l x y : zn x -> zn (x * y).
Proof. unfold zn. rewrite mul_spec. apply SFmul_isZN_l. Qed.

Lemma mul_zn_r x y : zn y -> zn (x * y).
Proof. unfold zn. rewrite mul_spec. apply SFmul_isZN_r. Qed.

Lemma div_zn_l x y : zn x -> zn (x / y).
Proof. unfold zn. rewrite div_spec. apply SFdiv_isZN_l. Qed.

Lemma add_zn x y : zn x -> zn y -> zn (x + y).
Proof. unfold zn. rewrite add_spec. apply SFadd_isZN. Qed.

Lemma abs_zn x : zn x -> zn (abs x).
Proof. unfold zn. now rewrite abs_spec, SFabs_isZN. Qed.

Lemma sub_diag_zn x : zn (x - x).
Proof. unfold zn. rewrite sub_spec. apply SFsub_diag. Qed.

Lemma opposite_sym_abs x y : opposite x y -> abs x = abs y.
Proof.
  intros [->|[Hx Hy]]; [now rewrite abs_opp|].
  to_spec. now apply SFabs_isZero_eq.
Qed.

Lemma sub_swap x y : opposite (x - y) (y - x).
Proof.
  unfold opposite, zeroish.
  destruct (SFsub_swap prec emax (Prim2SF x) (Prim2SF y)) as [H|H].
  - left. to_spec. exact H.
  - right. now rewrite !sub_spec.
Qed.

Lemma sub_opp_l x y : opposite (x + y) ((- x) - y).
Proof.
  unfold opposite, zeroish.
  destruct (SFsub_opp_l prec emax (Prim2SF x) (Prim2SF y)) as [H|H].
  - left. to_spec. exact H.
  - right. now rewrite sub_spec, add_spec, opp_spec.
Qed.

Lemma add_opp_l x y : opposite (x - y) ((- x) + y).
Proof.
  unfold opposite, zeroish.
  destruct (SFadd_opp_l prec emax (Prim2SF x) (Prim2SF y)) as [H|H].
  - left. to_spec. exact H.
  - right. now rewrite sub_spec, add_spec, opp_spec.
Qed.

Lemma opp_nan : - nan = nan. Proof. reflexivity. Qed.

Lemma alike_opposite x y : alike (Prim2SF x) (Prim2SF y) -> opposite x y.
Proof.
  intros [H|[Hx Hy]]; [now right|].
  left. now rewrite (nan_spec _ Hx), (nan_spec _ Hy).
Qed.

Lemma alike_same x y : alike (Prim2SF x) (Prim2SF y) -> same x y.
Proof.
  intros [H|[Hx Hy]]; [now right|].
  left. now rewrite (nan_spec _ Hx), (nan_spec _ Hy).
Qed.

Lemma opposite_mul_l c u v : opposite u v -> opposite (c * u) (c * v).
Proof.
  intros [->|[Hu Hv]]; [left; apply mul_opp_r|].
  apply alike_opposite. rewrite !mul_spec. now apply SFmul_zeros_r.
Qed.

Lemma opposite_mul_r c u v : opposite u v -> opposite (u * c) (v * c).
Proof. rewrite !(mul_comm _ c). apply opposite_mul_l. Qed.

Lemma opposite_div_r d u v : opposite u v -> opposite (u / d) (v / d).
Proof.
  intros [->|[Hu Hv]]; [left; apply div_opp_l|].
  apply alike_opposite. rewrite !div_spec. now apply SFdiv_zeros_l.
Qed.

Lemma same_div_r d u v : same u v -> same (u / d) (v / d).
Proof.
  intros [->|[Hu Hv]]; [now left|].
  apply alike_same. rewrite !div_spec. now apply SFdiv_zeros_l.
Qed.

Lemma same_add_r x u v : same u v -> same (x + u) (x + v).
Proof.
  intros [->|[Hu Hv]]; [now left|].
  unfold same, zeroish. rewrite !add_spec.
  destruct (SFadd_zeros_r prec emax (Prim2SF x) _ _ Hu Hv) as [H|H].
  - left. to_spec. exact H.
  - now right.
Qed.

(** The product of two pairs of opposites. *)
Lemma opposite_mul p p' q q' :
  opposite p p' -> opposite q q' -> same (p * q) (p' * q').
Proof.
  intros [->|[Hp Hp']] [->|[Hq Hq']].
  - left. now rewrite mul_opp_l, mul_opp_r, opp_involutive.
  - (* q, q' zeros *)
    apply alike_same. rewrite !mul_spec, opp_spec.
    unfold zeroish in Hq, Hq'.
    destruct (Prim2SF p), (Prim2SF q), (Prim2SF q'); try discriminate;
      unfold alike; simpl; auto.
  - apply alike_same. rewrite !mul_spec, opp_spec.
    unfold zeroish in Hp, Hp'.
    destruct (Prim2SF p), (Prim2SF p'), (Prim2SF q); try discriminate;
      unfold alike; simpl; auto.
  - apply alike_same. rewrite !mul_spec.
    unfold zeroish in *.
    destruct (Prim2SF p), (Prim2SF p'), (Prim2SF q), (Prim2SF q');
      try discriminate; unfold alike; simpl; auto.
Qed.

(** *** Order *)

Lemma ltb_compare x y :
  (x <? y) = match SFcompare (Prim2SF x) (Prim2SF y) with
             | Some Lt => true | _ => false end.
Proof. rewrite ltb_spec. reflexivity. Qed.

Lemma leb_compare x y :
  (x <=? y) = match SFcompare (Prim2SF x) (Prim2SF y) with
              | Some (Lt | Eq) => true | _ => false end.
Proof. rewrite leb_spec. reflexivity. Qed.

Lemma zn_not_above_180 x : zn x -> (180 <? abs x) = false.
Proof.
  intros H. destruct (zn_cases _ H) as [->|[->| ->]]; reflexivity.
Qed.

(** When two numbers are more than 180 apart one is strictly below the
    other. *)
Lemma far_apart x y :
  (180 <? abs (x - y)) = true ->
  ((x <? y) = true /\ (x <=? y) = true /\ (y <? x) = false /\ (y <=? x) = false)
  \/ ((y <? x) = true /\ (y <=? x) = true /\ (x <? y) = false /\ (x <=? y) = false).
Proof.
  intros H.
  assert (Hsub : isZN (SFsub prec emax (Prim2SF x) (Prim2SF y)) = false).
  { destruct (isZN (SFsub prec emax (Prim2SF x) (Prim2SF y))) eqn:Hz; [|reflexivity].
    rewrite zn_not_above_180 in H; [discriminate|].
    unfold zn. now rewrite sub_spec. }
  rewrite !ltb_compare, !leb_compare.
  rewrite (SFcompare_swap (Prim2SF x) (Prim2SF y)).
  destruct (SFcompare_sub _ _ _ _ Hsub) as [-> | ->]; simpl; auto.
Qed.

(** ** CIEDE2000 *)

Section Delta.

Context {engine : Engine} {laws : EngineLaws engine}.

Lemma zn0_zn x : zn0 x -> zn x.
Proof. intros [-> | ->]; reflexivity. Qed.

Lemma sin_neg_zero : Math_sin (-0) = -0.
Proof. change (-0) with (- 0). now rewrite sin_odd, sin_zero. Qed.

Lemma square_neg_zero : Math_pow (-0) 2 = 0.
Proof. change (-0) with (- 0). now rewrite square_even, square_zero. Qed.

Lemma sin_zn x : zn x -> zn (Math_sin x).
Proof.
  intros H. destruct (zn_cases _ H) as [->|[->| ->]];
    rewrite ?sin_zero, ?sin_neg_zero, ?sin_nan; reflexivity.
Qed.

Lemma square_zn x : zn x -> zn0 (Math_pow x 2).
Proof.
  intros H. destruct (zn_cases _ H) as [->|[->| ->]];
    rewrite ?square_zero, ?square_neg_zero, ?square_nan; [left|left|right];
    reflexivity.
Qed.

Lemma root_zn x : zn x -> zn0 (Math_pow x 0.5).
Proof.
  intros H. destruct (zn_cases _ H) as [->|[->| ->]];
    rewrite ?root_zero, ?root_neg_zero, ?root_nan; [left|left|right];
    reflexivity.
Qed.

Lemma add_zn0 x y : zn0 x -> zn y -> zn0 (x + y).
Proof.
  intros [-> | ->] H; destruct (zn_cases _ H) as [->|[->| ->]];
    ((left; reflexivity) || (right; reflexivity)).
Qed.

Lemma sin_opposite u v : opposite u v -> opposite (Math_sin u) (Math_sin v).
Proof.
  intros [->|[Hu Hv]]; [left; apply sin_odd|right].
  split; unfold zeroish;
    [destruct (zeroish_cases _ Hu) as [-> | ->]
    |destruct (zeroish_cases _ Hv) as [-> | ->]];
    rewrite ?sin_zero, ?sin_neg_zero; reflexivity.
Qed.

Lemma square_opposite u v : opposite u v -> Math_pow v 2 = Math_pow u 2.
Proof.
  intros [->|[Hu Hv]]; [apply square_even|].
  destruct (zeroish_cases _ Hu) as [-> | ->],
    (zeroish_cases _ Hv) as [-> | ->];
    now rewrite ?square_zero, ?square_neg_zero.
Qed.

Lemma root_same u v : same u v -> Math_pow u 0.5 = Math_pow v 0.5.
Proof.
  intros [->|[Hu Hv]]; [reflexivity|].
  destruct (zeroish_cases _ Hu) as [-> | ->],
    (zeroish_cases _ Hv) as [-> | ->];
    now rewrite ?root_zero, ?root_neg_zero.
Qed.

(** *** The parts of [getDeltaE00] *)

Lemma getDeltaE00_core (color1 color2 : LabaColor) :
  getDeltaE00 color1 color2
  = let mc := (chroma (lab_a color1) (lab_b color1)
               + chroma (lab_a color2) (lab_b color2)) / 2 in
    let c7 := Math_pow mc 7 in
    let g := 0.5 * (1 - Math_pow (c7 / (c7 + Math_pow 25 7)) 0.5) in
    let a11 := lab_a color1 * (1 + g) in
    let a22 := lab_a color2 * (1 + g) in
    deltaCore (lab_l color1) (lab_l color2)
      (chroma a11 (lab_b color1)) (chroma a22 (lab_b color2))
      (deltaHue a11 (lab_b color1)) (deltaHue a22 (lab_b color2)) mc.
Proof. destruct color1, color2. reflexivity. Qed.

Lemma hueDiff_diag h : zn (hueDiff h h).
Proof.
  unfold hueDiff. cbv zeta.
  rewrite (zn_not_above_180 (h - h)) by apply sub_diag_zn.
  apply sub_diag_zn.
Qed.

Lemma hueMean_sym h1 h2 : hueMean h2 h1 = hueMean h1 h2.
Proof.
  unfold hueMean. cbv zeta.
  rewrite (opposite_sym_abs _ _ (sub_swap h1 h2)), (add_comm h2 h1).
  reflexivity.
Qed.

Lemma opposite_zeros_shift u v :
  zeroish u -> zeroish v ->
  opposite (u + 360) (v - 360) /\ opposite (u - 360) (v + 360).
Proof.
  intros Hu Hv.
  destruct (zeroish_cases _ Hu) as [-> | ->],
    (zeroish_cases _ Hv) as [-> | ->]; split; left; reflexivity.
Qed.

Lemma hueDiff_sym h1 h2 : opposite (hueDiff h1 h2) (hueDiff h2 h1).
Proof.
  unfold hueDiff. cbv zeta.
  pose proof (sub_swap h2 h1) as Hopp.
  rewrite <- (opposite_sym_abs _ _ Hopp).
  destruct (180 <? abs (h2 - h1)) eqn:Hfar; cbn [andb]; [|exact Hopp].
  destruct (far_apart _ _ Hfar) as [(H1 & H2 & H3 & H4)|(H1 & H2 & H3 & H4)];
    rewrite ?H1, ?H2, ?H3, ?H4.
  - destruct Hopp as [->|[Hu Hv]]; [apply sub_opp_l|].
    now apply opposite_zeros_shift.
  - destruct Hopp as [->|[Hu Hv]]; [apply add_opp_l|].
    now apply opposite_zeros_shift.
Qed.

Lemma deltaSum_diag dL dC dH sL sC sH Rt :
  zn dL -> zn dC -> zn dH -> zn0 (deltaSum dL dC dH sL sC sH Rt).
Proof.
  intros HL HC HH. unfold deltaSum.
  assert (Hsq : forall d s, zn d -> zn0 (Math_pow (d / 1 / s) 2))
    by (intros d s Hd; now apply square_zn, div_zn_l, div_zn_l).
  apply root_zn, zn0_zn.
  apply add_zn0; [|apply div_zn_l, mul_zn_r, HH].
  apply add_zn0; [|apply zn0_zn; now apply Hsq].
  apply add_zn0; [|apply zn0_zn]; now apply Hsq.
Qed.

Lemma deltaSum_sym dL dL' dC dC' dH dH' sL sC sH Rt :
  opposite dL dL' -> opposite dC dC' -> opposite dH dH' ->
  deltaSum dL' dC' dH' sL sC sH Rt = deltaSum dL dC dH sL sC sH Rt.
Proof.
  intros HL HC HH. unfold deltaSum.
  rewrite (square_opposite (dL / 1 / sL) (dL' / 1 / sL))
    by now repeat apply opposite_div_r.
  rewrite (square_opposite (dC / 1 / sC) (dC' / 1 / sC))
    by now repeat apply opposite_div_r.
  rewrite (square_opposite (dH / 1 / sH) (dH' / 1 / sH))
    by now repeat apply opposite_div_r.
  symmetry. apply root_same, same_add_r, same_div_r.
  apply opposite_mul; [now apply opposite_mul_l|assumption].
Qed.

Lemma deltaCore_diag l c h mc : zn0 (deltaCore l l c c h h mc).
Proof.
  unfold deltaCore. cbv zeta.
  apply deltaSum_diag; try apply sub_diag_zn.
  apply mul_zn_l, mul_zn_r, sin_zn, div_zn_l, mul_zn_r, hueDiff_diag.
Qed.

Lemma deltaCore_sym l1 l2 c11 c22 h1 h2 mc :
  deltaCore l2 l1 c22 c11 h2 h1 mc = deltaCore l1 l2 c11 c22 h1 h2 mc.
Proof.
  unfold deltaCore. cbv zeta.
  rewrite (hueMean_sym h1 h2), (add_comm l2 l1), (add_comm c22 c11),
    (mul_comm c22 c11).
  apply deltaSum_sym; try apply sub_swap.
  apply opposite_mul_r, opposite_mul_l, sin_opposite, opposite_div_r,
    opposite_mul_l, hueDiff_sym.
Qed.

Lemma getDeltaE00_diag color : zn0 (getDeltaE00 color color).
Proof. rewrite getDeltaE00_core. cbv zeta. apply deltaCore_diag. Qed.

Lemma getDeltaE00_sym color1 color2 :
  getDeltaE00 color2 color1 = getDeltaE00 color1 color2.
Proof.
  rewrite !getDeltaE00_core. cbv zeta.
  rewrite (add_comm (chroma (lab_a color2) (lab_b color2))).
  apply deltaCore_sym.
Qed.

End Delta.

(** The clamp to [0,1] lands in [0,1], NaN included. *)
Lemma clamp01_range (x : float) :
  (0 <=? clamp01 x) = true /\ (clamp01 x <=? 1) = true.
Proof.
  unfold clamp01, clamp.
  destruct (1 <? x) eqn:H1; [split; reflexivity|].
  destruct (0 <? x) eqn:H0; [|split; reflexivity].
  rewrite ltb_compare in H0, H1. rewrite !leb_compare.
  rewrite (SFcompare_swap (Prim2SF 1) (Prim2SF x)).
  destruct (SFcompare (Prim2SF 0) (Prim2SF x)) as [[| |]|] eqn:Hc0;
    try discriminate.
  split; [reflexivity|].
  destruct (SFcompare (Prim2SF 1) (Prim2SF x)) as [[| |]|] eqn:Hc1;
    try discriminate; try reflexivity.
  destruct (SFcompare_None _ _ Hc1) as [H|H]; [discriminate|].
  rewrite H in Hc0. discriminate.
Qed.

Lemma delta_of_zn0 (x : float) : zn0 x -> clamp01 (round (x / 100) 3) = 0.
Proof. intros [-> | ->]; vm_compute; reflexivity. Qed.

Lemma sampleEngine_laws : EngineLaws sampleEngine.
Proof.
  split; try (intros x; cbn; now rewrite mul_opp_l, mul_opp_r, opp_involutive);
    reflexivity.
Qed.

(** C6.  On an engine that obeys the laws, for all colours [A] and [B]
    (whatever their channels hold): the delta of a colour with itself is
    0, the delta is symmetric, and it is CIEDE2000 divided by 100,
    rounded to 3 digits and clamped, hence in [0,1]. *)
Theorem delta_properties {engine : Engine} (laws : EngineLaws engine)
    (A B : RgbaColor) :
  delta A A = 0 /\
  delta A B = delta B A /\
  delta A B = clamp01 (round (getDeltaE00 (toLab A 2) (toLab B 2) / 100) 3) /\
  (0 <=? delta A B) = true /\ (delta A B <=? 1) = true.
Proof.
  unfold delta. cbv zeta.
  split; [|split; [|split; [|apply clamp01_range]]].
  - apply delta_of_zn0, getDeltaE00_diag.
  - now rewrite (getDeltaE00_sym (toLab A 2) (toLab B 2)).
  - reflexivity.
Qed.

Lemma delta_properties_witness :
  let A := mkRgba 255 0 0 1 in
  let B := mkRgba 0 0 255 0.5 in
  @delta sampleEngine A A = 0 /\
  @delta sampleEngine A B = @delta sampleEngine B A /\
  @delta sampleEngine A B
  = clamp01 (round (@getDeltaE00 sampleEngine (@toLab sampleEngine A 2)
                      (@toLab sampleEngine B 2) / 100) 3) /\
  (0 <=? @delta sampleEngine A B) = true /\
  (@delta sampleEngine A B <=? 1) = true.
Proof. exact (delta_properties sampleEngine_laws _ _). Defined.

Local Open Scope Z_scope.

(** ** Magnitudes *)

Module MagFacts.

Lemma digits2_size p : digits2_pos p = Pos.size p.
Proof. induction p; simpl; now rewrite ?IHp. Qed.

Lemma dg_nonneg m : 0 <= dg m.
Proof. destruct m; unfold dg; simpl; lia. Qed.

Lemma dg_pos p : dg (Zpos p) = Zpos (digits2_pos p).
Proof. reflexivity. Qed.

Lemma dg_gt m : 0 <= m -> m < 2 ^ dg m.
Proof.
  destruct m as [|p|p]; intros H; try lia; [reflexivity|].
  rewrite dg_pos, digits2_size.
  pose proof (Pos.size_gt p) as Hp.
  rewrite <- Pos2Z.inj_pow. lia.
Qed.

Lemma dg_lower p : 2 ^ (dg (Zpos p) - 1) <= Zpos p.
Proof.
  rewrite dg_pos, digits2_size.
  pose proof (Pos.size_le p) as Hp.
  assert (H : 2 ^ Zpos (Pos.size p) <= 2 * Zpos p).
  { rewrite <- Pos2Z.inj_pow. lia. }
  replace (Zpos (Pos.size p)) with (Z.succ (Zpos (Pos.size p) - 1)) in H by lia.
  rewrite Z.pow_succ_r in H by lia. lia.
Qed.

(** A non-negative integer below [2^k] has at most [k] digits. *)
Lemma dg_le m k : 0 <= m -> 0 <= k -> m < 2 ^ k -> dg m <= k.
Proof.
  intros Hm Hk H. destruct m as [|p|p]; try lia; [unfold dg; simpl; lia|].
  pose proof (dg_lower p) as Hl.
  destruct (Z_le_gt_dec (dg (Zpos p)) k) as [|Hgt]; [assumption|exfalso].
  assert (2 ^ k <= 2 ^ (dg (Zpos p) - 1)) by (apply Z.pow_le_mono_r; lia).
  lia.
Qed.

Lemma dg_succ m : 0 <= m -> dg (m + 1) <= dg m + 1.
Proof.
  intros Hm. pose proof (dg_gt m Hm) as H. pose proof (dg_nonneg m).
  apply dg_le; try lia.
  rewrite Z.pow_add_r by lia. change (2 ^ 1) with 2. lia.
Qed.

Lemma dg_mul a b : 0 <= a -> 0 <= b -> dg (a * b) <= dg a + dg b.
Proof.
  intros Ha Hb.
  pose proof (dg_gt a Ha). pose proof (dg_gt b Hb).
  pose proof (dg_nonneg a). pose proof (dg_nonneg b).
  apply dg_le; try nia.
  rewrite Z.pow_add_r by lia. nia.
Qed.

Lemma dg_add a b k :
  0 <= k -> Z.abs a < 2 ^ k -> Z.abs b < 2 ^ k -> dg (Z.abs (a + b)) <= k + 1.
Proof.
  intros Hk Ha Hb. apply dg_le; try lia.
  rewrite Z.pow_add_r by lia. change (2 ^ 1) with 2. lia.
Qed.

Lemma dg_mono a b : 0 <= a <= b -> dg a <= dg b.
Proof.
  intros [Ha Hab]. pose proof (dg_gt b ltac:(lia)). pose proof (dg_nonneg b).
  apply dg_le; lia.
Qed.

(** Dividing by [2^n] removes [n] digits. *)
Lemma dg_shift_right m n :
  0 <= m -> 0 <= n -> dg (m / 2 ^ n) <= Z.max 0 (dg m - n).
Proof.
  intros Hm Hn.
  pose proof (dg_gt m Hm) as H. pose proof (dg_nonneg m) as Hd.
  assert (0 < 2 ^ n) by (apply Z.pow_pos_nonneg; lia).
  destruct (Z_le_gt_dec n (dg m)) as [Hle|Hgt].
  - apply dg_le; [apply Z.div_pos; lia|lia|].
    rewrite Z.max_r by lia.
    apply Z.div_lt_upper_bound; [lia|].
    rewrite <- Z.pow_add_r by lia. now replace (n + (dg m - n)) with (dg m) by lia.
  - rewrite Z.div_small; [unfold dg; simpl; lia|].
    split; [lia|].
    assert (2 ^ dg m <= 2 ^ n) by (apply Z.pow_le_mono_r; lia). lia.
Qed.

Lemma dg_shift_left m n : 0 < m -> 0 <= n -> dg (m * 2 ^ n) = dg m + n.
Proof.
  intros Hm Hn. destruct m as [|p|p]; try lia.
  assert (0 < 2 ^ n) by (apply Z.pow_pos_nonneg; lia).
  pose proof (dg_gt (Zpos p) ltac:(lia)) as Hu.
  pose proof (dg_lower p) as Hl.
  pose proof (dg_nonneg (Zpos p)).
  assert (Hd : 1 <= dg (Zpos p)) by (rewrite dg_pos; lia).
  apply Z.le_antisymm.
  - apply dg_le; try nia.
    rewrite Z.pow_add_r by lia. nia.
  - destruct (Zpos p * 2 ^ n) as [|q|q] eqn:Hq; try nia.
    pose proof (dg_gt (Zpos q) ltac:(lia)) as Hqu.
    pose proof (dg_nonneg (Zpos q)).
    destruct (Z_le_gt_dec (dg (Zpos p) + n) (dg (Zpos q))); [assumption|exfalso].
    assert (2 ^ dg (Zpos q) <= 2 ^ (dg (Zpos p) - 1 + n))
      by (apply Z.pow_le_mono_r; lia).
    rewrite Z.pow_add_r in * by lia. nia.
Qed.

End MagFacts.

Import MagFacts.

Module MagSpecFacts.

Section Rounding.

Variables prec emax : Z.
Hypothesis prec_pos : 0 < prec.

Local Abbreviation emin := (SpecFloat.emin prec emax).
Local Abbreviation fexp := (SpecFloat.fexp prec emax).

Lemma fexp_le X : fexp X <= Z.max X emin.
Proof. unfold SpecFloat.fexp. lia. Qed.

Lemma shr_1_m mrs : 0 <= shr_m mrs -> shr_m (shr_1 mrs) = shr_m mrs / 2.
Proof.
  destruct mrs as [m r s]. cbn [shr_m]. intros H.
  destruct m as [|[p|p|]|p]; cbn [shr_1 shr_m]; try lia;
    Z.div_mod_to_equations; lia.
Qed.

Lemma iter_shr_m p mrs :
  0 <= shr_m mrs ->
  shr_m (iter_pos shr_1 p mrs) = shr_m mrs / 2 ^ Zpos p.
Proof.
  revert mrs. induction p as [p IH|p IH|]; intros mrs Hm; simpl iter_pos.
  - assert (H1 : 0 <= shr_m (shr_1 mrs))
      by (rewrite shr_1_m by assumption; apply Z.div_pos; lia).
    assert (H2 : 0 <= shr_m (iter_pos shr_1 p (shr_1 mrs)))
      by (rewrite IH by assumption; apply Z.div_pos; [lia|apply Z.pow_pos_nonneg; lia]).
    rewrite IH, IH, shr_1_m by assumption.
    assert (0 < 2 ^ Zpos p) by (apply Z.pow_pos_nonneg; lia).
    rewrite !Z.div_div by lia. f_equal.
    replace (Zpos p~1) with (Zpos p + Zpos p + 1) by lia.
    rewrite !Z.pow_add_r by lia. change (2 ^ 1) with 2. lia.
  - assert (H2 : 0 <= shr_m (iter_pos shr_1 p mrs))
      by (rewrite IH by assumption; apply Z.div_pos; [lia|apply Z.pow_pos_nonneg; lia]).
    rewrite IH, IH by assumption.
    assert (0 < 2 ^ Zpos p) by (apply Z.pow_pos_nonneg; lia).
    rewrite !Z.div_div by lia. f_equal.
    replace (Zpos p~0) with (Zpos p + Zpos p) by lia.
    now rewrite Z.pow_add_r by lia.
  - rewrite shr_1_m by assumption. reflexivity.
Qed.

Lemma shr_record_of_loc_m m l : shr_m (shr_record_of_loc m l) = m.
Proof. destruct l as [|[]]; reflexivity. Qed.

(** Truncation to the format keeps the mantissa non-negative and does
    not raise the magnitude above that of the format's exponent. *)
Lemma shr_fexp_bound m e l :
  0 <= m ->
  let '(mrs, e') := shr_fexp prec emax m e l in
  0 <= shr_m mrs /\ dg (shr_m mrs) + e' <= Z.max (dg m + e) emin.
Proof.
  intros Hm. unfold shr_fexp, shr.
  pose proof (fexp_le (Zdigits2 m + e)) as Hf.
  fold (dg m) in *.
  destruct (fexp (dg m + e) - e) as [|p|p] eqn:Hn;
    rewrite ?shr_record_of_loc_m; try (split; [assumption|lia]).
  rewrite iter_shr_m; rewrite shr_record_of_loc_m; [|assumption].
  assert (0 < 2 ^ Zpos p) by (apply Z.pow_pos_nonneg; lia).
  split; [apply Z.div_pos; lia|].
  pose proof (dg_shift_right m (Zpos p) Hm ltac:(lia)). lia.
Qed.

Lemma round_nearest_even_bounds m l :
  0 <= m -> 0 <= round_nearest_even m l <= m + 1.
Proof.
  intros Hm. destruct l as [|[]]; simpl; try lia.
  destruct (Z.even m); lia.
Qed.

(** Rounding a non-negative integer [mx * 2^ex] of magnitude at most
    [B - 1]: the result is a zero or finite, with the sign asked for and
    magnitude at most [B]. *)
Lemma binary_round_aux_bounded sx mx ex lx B :
  0 <= mx ->
  Z.max (dg mx + ex) emin + 1 <= B -> B <= emax - prec + 1 ->
  match binary_round_aux prec emax sx mx ex lx with
  | S754_zero s => s = sx
  | S754_finite s m e => s = sx /\ dg (Zpos m) + e <= B
  | _ => False
  end.
Proof.
  intros Hm HB Hmax. unfold binary_round_aux.
  pose proof (shr_fexp_bound mx ex lx Hm) as H1.
  destruct (shr_fexp prec emax mx ex lx) as [mrs' e'].
  destruct H1 as [H1m H1d].
  set (m1 := round_nearest_even (shr_m mrs') (loc_of_shr_record mrs')).
  pose proof (round_nearest_even_bounds (shr_m mrs') (loc_of_shr_record mrs') H1m)
    as Hr. fold m1 in Hr.
  pose proof (shr_fexp_bound m1 e' loc_Exact ltac:(lia)) as H2.
  destruct (shr_fexp prec emax m1 e' loc_Exact) as [mrs'' e''].
  destruct H2 as [H2m H2d].
  assert (Hd1 : dg m1 <= dg (shr_m mrs') + 1).
  { etransitivity; [apply (dg_mono m1 (shr_m mrs' + 1)); lia|].
    now apply dg_succ. }
  destruct (shr_m mrs'') as [|m|m] eqn:Hm''; [reflexivity| |lia].
  assert (1 <= dg (Zpos m)) by (rewrite dg_pos; lia).
  assert (He : (e'' <=? emax - prec) = true) by (apply Z.leb_le; lia).
  rewrite He. split; [reflexivity|lia].
Qed.

Lemma iter_xO m d : Zpos (Pos.iter xO m d) = Zpos m * 2 ^ Zpos d.
Proof.
  induction d as [|d IH] using Pos.peano_ind.
  - simpl. lia.
  - rewrite Pos.iter_succ, Pos2Z.inj_xO, IH, Pos2Z.inj_succ, Z.pow_succ_r by lia.
    lia.
Qed.

Lemma shl_align_spec mx ex ex' :
  let '(m', e') := shl_align mx ex ex' in
  e' <= ex /\ Zpos m' = Zpos mx * 2 ^ (ex - e') /\ (ex' <= ex -> e' = ex').
Proof.
  unfold shl_align.
  destruct (ex' - ex) as [|d|d] eqn:Hd.
  - rewrite Z.sub_diag. simpl. split; [|split]; lia.
  - rewrite Z.sub_diag. simpl. split; [|split]; lia.
  - rewrite iter_xO. replace (ex - ex') with (Zpos d) by lia.
    split; [|split]; lia.
Qed.

Lemma shl_align_dg mx ex ex' :
  let '(m', e') := shl_align mx ex ex' in
  dg (Zpos m') + e' = dg (Zpos mx) + ex.
Proof.
  pose proof (shl_align_spec mx ex ex') as H.
  destruct (shl_align mx ex ex') as [m' e']. destruct H as (He & Hm & _).
  rewrite Hm, dg_shift_left by lia. lia.
Qed.

Lemma binary_round_bounded sx mx ex B :
  Z.max (dg (Zpos mx) + ex) emin + 1 <= B -> B <= emax - prec + 1 ->
  match binary_round prec emax sx mx ex with
  | S754_zero s => s = sx
  | S754_finite s m e => s = sx /\ dg (Zpos m) + e <= B
  | _ => False
  end.
Proof.
  intros HB Hmax. unfold binary_round.
  pose proof (shl_align_dg mx ex (fexp (Zpos (digits2_pos mx) + ex))) as H.
  destruct (shl_align mx ex _) as [mz ez].
  apply binary_round_aux_bounded; lia.
Qed.

Lemma binary_normalize_bounded m e B :
  Z.max (dg (Z.abs m) + e) emin + 1 <= B -> B <= emax - prec + 1 ->
  bounded B (binary_normalize prec emax m e false).
Proof.
  intros HB Hmax.
  destruct m as [|p|p]; cbn [binary_normalize Z.abs] in *; [exact I| |].
  - pose proof (binary_round_bounded false p e B HB Hmax) as H.
    destruct (binary_round prec emax false p e); cbn [bounded]; tauto.
  - pose proof (binary_round_bounded true p e B HB Hmax) as H.
    destruct (binary_round prec emax true p e); cbn [bounded]; tauto.
Qed.

(** *** The operations *)

Lemma SFmul_bounded x y Bx By B :
  bounded Bx x -> bounded By y ->
  Z.max (Bx + By) emin + 1 <= B -> B <= emax - prec + 1 ->
  bounded B (SFmul prec emax x y).
Proof.
  destruct x as [sx|sx| |sx mx ex], y as [sy|sy| |sy my ey];
    cbn [bounded SFmul]; try contradiction; try (intros; exact I).
  intros Hx Hy HB Hmax.
  pose proof (dg_mul (Zpos mx) (Zpos my) ltac:(lia) ltac:(lia)) as Hd.
  pose proof (binary_round_aux_bounded (xorb sx sy) (Zpos (mx * my)) (ex + ey)
                loc_Exact B ltac:(lia)) as H.
  rewrite Pos2Z.inj_mul in H.
  specialize (H ltac:(lia) Hmax).
  destruct (binary_round_aux _ _ _ _ _ _); cbn [bounded]; tauto.
Qed.

Lemma SFmul_nonneg x y Bx By :
  nonneg x -> nonneg y -> bounded Bx x -> bounded By y ->
  Z.max (Bx + By) emin + 1 <= emax - prec + 1 ->
  nonneg (SFmul prec emax x y).
Proof.
  destruct x as [sx|sx| |sx mx ex], y as [sy|sy| |sy my ey];
    cbn [bounded nonneg SFmul]; try contradiction; try (intros; exact I).
  intros -> -> Hx Hy HB.
  pose proof (dg_mul (Zpos mx) (Zpos my) ltac:(lia) ltac:(lia)) as Hd.
  pose proof (binary_round_aux_bounded false (Zpos (mx * my)) (ex + ey)
                loc_Exact (emax - prec + 1) ltac:(lia)) as H.
  rewrite Pos2Z.inj_mul in H.
  specialize (H ltac:(lia) ltac:(lia)).
  cbn [xorb].
  destruct (binary_round_aux _ _ _ _ _ _); cbn [nonneg]; tauto.
Qed.

Lemma SFdiv_core_bound m1 e1 m2 e2 :
  let '(q, e', _) := SFdiv_core_binary prec emax (Zpos m1) e1 (Zpos m2) e2 in
  0 <= q /\
  dg q + e' <= Z.max (dg (Zpos m1) + e1 - (dg (Zpos m2) + e2) + 1) emin.
Proof.
  unfold SFdiv_core_binary. fold (dg (Zpos m1)) (dg (Zpos m2)).
  set (d1 := dg (Zpos m1)). set (d2 := dg (Zpos m2)).
  pose proof (fexp_le (d1 + e1 - (d2 + e2))) as Hf.
  set (e' := Z.min (fexp (d1 + e1 - (d2 + e2))) (e1 - e2)) in *.
  set (s := e1 - e2 - e').
  assert (Hs : 0 <= s) by (unfold s, e'; lia).
  set (m' := match s with Zpos _ => Z.shiftl (Zpos m1) s | Z0 => Zpos m1
             | Zneg _ => 0 end).
  assert (Hm' : m' = Zpos m1 * 2 ^ s).
  { unfold m'. destruct s as [|p|p] eqn:Es; try lia.
    apply Z.shiftl_mul_pow2. lia. }
  destruct (Z.div_eucl m' (Zpos m2)) as [q r] eqn:Ediv.
  assert (Hq : q = m' / Zpos m2) by (unfold Z.div; now rewrite Ediv).
  assert (Hpow : 0 < 2 ^ s) by (apply Z.pow_pos_nonneg; lia).
  assert (Hq0 : 0 <= q) by (rewrite Hq; apply Z.div_pos; nia).
  split; [assumption|].
  pose proof (dg_gt (Zpos m1) ltac:(lia)) as Hu. fold d1 in Hu.
  pose proof (dg_lower m2) as Hl. fold d2 in Hl.
  assert (Hd1 : 1 <= d1) by (unfold d1; rewrite dg_pos; lia).
  assert (Hd2 : 1 <= d2) by (unfold d2; rewrite dg_pos; lia).
  pose proof (Z.mul_div_le m' (Zpos m2) ltac:(lia)) as Hle. rewrite <- Hq in Hle.
  assert (Hlt : m' < 2 ^ (d1 + s)) by (rewrite Z.pow_add_r by lia; nia).
  destruct (Z_le_gt_dec 0 (d1 + s - d2 + 1)) as [Hk|Hk].
  - assert (dg q <= d1 + s - d2 + 1).
    { apply dg_le; try assumption.
      destruct (Z_lt_le_dec q (2 ^ (d1 + s - d2 + 1))) as [|Hge]; [assumption|exfalso].
      assert (0 < 2 ^ (d2 - 1)) by (apply Z.pow_pos_nonneg; lia).
      assert (Heq : 2 ^ (d1 + s - d2 + 1) * 2 ^ (d2 - 1) = 2 ^ (d1 + s)).
      { rewrite <- Z.pow_add_r by lia. f_equal. lia. }
      nia. }
    unfold s in *. lia.
  - assert (Hz : q = 0).
    { rewrite Hq. apply Z.div_small. split; [nia|].
      assert (2 ^ (d1 + s) <= 2 ^ (d2 - 1)) by (apply Z.pow_le_mono_r; lia).
      lia. }
    rewrite Hz. replace (dg 0) with 0 by reflexivity. unfold e'. lia.
Qed.

Lemma SFdiv_finite sx mx ex sy my ey B :
  Z.max (dg (Zpos mx) + ex - (dg (Zpos my) + ey) + 1) emin + 1 <= B ->
  B <= emax - prec + 1 ->
  match SFdiv prec emax (S754_finite sx mx ex) (S754_finite sy my ey) with
  | S754_zero s => s = xorb sx sy
  | S754_finite s m e => s = xorb sx sy /\ dg (Zpos m) + e <= B
  | _ => False
  end.
Proof.
  intros HB Hmax. cbn [SFdiv].
  pose proof (SFdiv_core_bound mx ex my ey) as H.
  destruct (SFdiv_core_binary prec emax (Zpos mx) ex (Zpos my) ey) as [[q e'] l].
  destruct H as [Hq Hd].
  apply binary_round_aux_bounded; lia.
Qed.

(** Division by a finite number of magnitude at least [By]. *)
Lemma SFdiv_bounded x sy my ey Bx By B :
  bounded Bx x -> By <= dg (Zpos my) + ey ->
  Z.max (Bx - By + 1) emin + 1 <= B -> B <= emax - prec + 1 ->
  bounded B (SFdiv prec emax x (S754_finite sy my ey)).
Proof.
  destruct x as [sx|sx| |sx mx ex]; cbn [bounded]; try contradiction;
    [intros; exact I|].
  intros Hx Hy HB Hmax.
  pose proof (SFdiv_finite sx mx ex sy my ey B ltac:(lia) Hmax) as H.
  destruct (SFdiv _ _ _ _); cbn [bounded]; tauto.
Qed.

Lemma SFdiv_nonneg x my ey Bx By :
  nonneg x -> bounded Bx x -> By <= dg (Zpos my) + ey ->
  Z.max (Bx - By + 1) emin + 1 <= emax - prec + 1 ->
  nonneg (SFdiv prec emax x (S754_finite false my ey)).
Proof.
  destruct x as [sx|sx| |sx mx ex]; cbn [bounded nonneg]; try contradiction;
    [intros; exact I|].
  intros -> Hx Hy HB.
  pose proof (SFdiv_finite false mx ex false my ey (emax - prec + 1)
                ltac:(lia) ltac:(lia)) as H.
  destruct (SFdiv _ _ _ _); cbn [nonneg xorb] in *; tauto.
Qed.

Lemma aligned_abs s m e ez :
  ez <= e ->
  Z.abs (cond_Zopp s (Zpos (fst (shl_align m e ez)))) < 2 ^ (dg (Zpos m) + e - ez).
Proof.
  intros Hez.
  pose proof (shl_align_spec m e ez) as H.
  destruct (shl_align m e ez) as [m' e']. destruct H as (_ & Hm & He).
  specialize (He Hez). subst e'. cbn [fst].
  pose proof (dg_gt (Zpos m) ltac:(lia)) as Hu.
  assert (0 < 2 ^ (e - ez)) by (apply Z.pow_pos_nonneg; lia).
  assert (1 <= dg (Zpos m)) by (rewrite dg_pos; lia).
  replace (dg (Zpos m) + e - ez) with (dg (Zpos m) + (e - ez)) by lia.
  rewrite Z.pow_add_r by lia.
  destruct s; cbn [cond_Zopp]; nia.
Qed.

Lemma aligned_sum_bounded sx mx ex sy my ey Bx By B (sub : bool) :
  dg (Zpos mx) + ex <= Bx -> dg (Zpos my) + ey <= By ->
  Z.max (Z.max Bx By + 1) emin + 1 <= B -> B <= emax - prec + 1 ->
  let ez := Z.min ex ey in
  let a := cond_Zopp sx (Zpos (fst (shl_align mx ex ez))) in
  let b := cond_Zopp sy (Zpos (fst (shl_align my ey ez))) in
  bounded B (binary_normalize prec emax (if sub then a - b else a + b) ez false).
Proof.
  intros Hx Hy HB Hmax ez a b.
  pose proof (aligned_abs sx mx ex ez ltac:(unfold ez; lia)) as Ha. fold a in Ha.
  pose proof (aligned_abs sy my ey ez ltac:(unfold ez; lia)) as Hb. fold b in Hb.
  assert (1 <= dg (Zpos mx)) by (rewrite dg_pos; lia).
  assert (1 <= dg (Zpos my)) by (rewrite dg_pos; lia).
  set (K := Z.max (dg (Zpos mx) + ex) (dg (Zpos my) + ey) - ez).
  assert (HK : 0 <= K) by (unfold K, ez; lia).
  assert (Ha' : Z.abs a < 2 ^ K).
  { eapply Z.lt_le_trans; [exact Ha|]. apply Z.pow_le_mono_r; unfold K; lia. }
  assert (Hb' : Z.abs b < 2 ^ K).
  { eapply Z.lt_le_trans; [exact Hb|]. apply Z.pow_le_mono_r; unfold K; lia. }
  apply binary_normalize_bounded; [|assumption].
  assert (dg (Z.abs (if sub then a - b else a + b)) <= K + 1).
  { destruct sub.
    - replace (a - b) with (a + - b) by lia.
      apply dg_add; [assumption..|]. now rewrite Z.abs_opp.
    - now apply dg_add. }
  unfold K in *. lia.
Qed.

Lemma SFadd_bounded x y Bx By B :
  bounded Bx x -> bounded By y ->
  Z.max (Z.max Bx By + 1) emin + 1 <= B -> B <= emax - prec + 1 ->
  bounded B (SFadd prec emax x y).
Proof.
  destruct x as [sx|sx| |sx mx ex], y as [sy|sy| |sy my ey];
    cbn [bounded SFadd]; try contradiction;
    try (intros; exact I); try (intros; lia);
    try (intros; destruct sx, sy; exact I).
  intros Hx Hy HB Hmax.
  exact (aligned_sum_bounded sx mx ex sy my ey Bx By B false Hx Hy HB Hmax).
Qed.

Lemma SFsub_bounded x y Bx By B :
  bounded Bx x -> bounded By y ->
  Z.max (Z.max Bx By + 1) emin + 1 <= B -> B <= emax - prec + 1 ->
  bounded B (SFsub prec emax x y).
Proof.
  destruct x as [sx|sx| |sx mx ex], y as [sy|sy| |sy my ey];
    cbn [bounded SFsub]; try contradiction;
    try (intros; exact I); try (intros; lia);
    try (intros; destruct sx, sy; exact I).
  intros Hx Hy HB Hmax.
  exact (aligned_sum_bounded sx mx ex sy my ey Bx By B true Hx Hy HB Hmax).
Qed.

(** A bounded number times a zero is a zero. *)
Lemma SFmul_zero_r x B s :
  bounded B x ->
  match SFmul prec emax x (S754_zero s) with S754_zero _ => True | _ => False end.
Proof. destruct x; cbn [bounded SFmul]; try contradiction; intros; exact I. Qed.

End Rounding.
End MagSpecFacts.

Import MagSpecFacts.

Local Close Scope Z_scope.
Local Open Scope float_scope.

(** ** Magnitudes of binary64 numbers *)

Lemma prec_pos : (0 < prec)%Z.
Proof. reflexivity. Qed.

Lemma boundedb_spec B x : boundedb B x = true -> bounded B x.
Proof.
  destruct x; cbn [boundedb bounded]; try discriminate; try tauto.
  apply Z.leb_le.
Qed.

Lemma fbounded_of_const B x : boundedb B (Prim2SF x) = true -> fbounded B x.
Proof. apply boundedb_spec. Qed.

(** A valid finite number has at most 53 digits. *)
Lemma valid_digits s m e :
  valid_binary (S754_finite s m e) = true ->
  (dg (Zpos m) <= 53 /\ (e = dg (Zpos m) + e - 53 \/ e = -1074))%Z.
Proof.
  cbn [SpecFloat.valid_binary]. unfold SpecFloat.bounded, canonical_mantissa.
  intros H. apply andb_prop in H as [H _]. apply Z.eqb_eq in H.
  unfold fexp, SpecFloat.emin in H. fold (dg (Zpos m)) in H.
  change prec with 53%Z in H. change emax with 1024%Z in H.
  rewrite dg_pos in *. lia.
Qed.

(** A hue in [0, 360] is finite, not negative and below [2^9]. *)
Lemma hue_range h :
  (0 <=? h) = true -> (h <=? 360) = true -> fnonneg h /\ fbounded 9 h.
Proof.
  rewrite !leb_compare. unfold fnonneg, fbounded.
  pose proof (Prim2SF_valid h) as Hv.
  change (Prim2SF 0) with (S754_zero false).
  change (Prim2SF 360) with (S754_finite false 6333186975989760 (-44)).
  destruct (Prim2SF h) as [s|s| |s m e]; cbn [SFcompare nonneg bounded].
  - tauto.
  - destruct s; discriminate.
  - discriminate.
  - destruct s; [discriminate|]. intros _ H. split; [reflexivity|].
    apply valid_digits in Hv as [Hd _].
    destruct (Z.compare_spec e (-44)); try discriminate; lia.
Qed.

Lemma div_360 h :
  fnonneg h -> fbounded 9 h -> fnonneg (h / 360) /\ fbounded 2 (h / 360).
Proof.
  unfold fnonneg, fbounded. rewrite div_spec.
  change (Prim2SF 360) with (S754_finite false 6333186975989760 (-44)).
  intros Hn Hb. split.
  - apply (SFdiv_nonneg prec emax prec_pos _ _ _ 9 9); try assumption;
      vm_compute; first [exact I|congruence].
  - apply (SFdiv_bounded prec emax prec_pos _ _ _ _ 9 9); try assumption;
      vm_compute; first [exact I|congruence].
Qed.

Lemma mul_6 t :
  fnonneg t -> fbounded 2 t -> fnonneg (t * 6) /\ fbounded 6 (t * 6).
Proof.
  unfold fnonneg, fbounded. rewrite mul_spec.
  intros Hn Hb.
  assert (H6n : nonneg (Prim2SF 6)) by reflexivity.
  assert (H6b : bounded 3 (Prim2SF 6)) by (vm_compute; first [exact I|congruence]).
  split.
  - apply (SFmul_nonneg prec emax prec_pos _ _ 2 3); try assumption;
      vm_compute; first [exact I|congruence].
  - apply (SFmul_bounded prec emax prec_pos _ _ 2 3); try assumption;
      vm_compute; first [exact I|congruence].
Qed.

Lemma sub_fbounded x y Bx By B :
  fbounded Bx x -> fbounded By y ->
  (Z.max (Z.max Bx By + 1) (-1074) + 1 <= B)%Z -> (B <= 972)%Z ->
  fbounded B (x - y).
Proof.
  unfold fbounded. rewrite sub_spec. intros.
  now apply (SFsub_bounded prec emax prec_pos _ _ Bx By).
Qed.

Lemma add_fbounded x y Bx By B :
  fbounded Bx x -> fbounded By y ->
  (Z.max (Z.max Bx By + 1) (-1074) + 1 <= B)%Z -> (B <= 972)%Z ->
  fbounded B (x + y).
Proof.
  unfold fbounded. rewrite add_spec. intros.
  now apply (SFadd_bounded prec emax prec_pos _ _ Bx By).
Qed.

(** Multiplying a finite number by the saturation 0 cancels the term:
    [0 * (1 - t * 0)] is [0]. *)
Lemma absorb t B : fbounded B t -> 0 * (1 - t * 0) = 0.
Proof.
  intros Hb.
  assert (Hz : zeroish (t * 0)).
  { unfold zeroish. rewrite mul_spec. unfold SF64mul.
    change (Prim2SF 0) with (S754_zero false).
    pose proof (SFmul_zero_r prec emax _ B false Hb) as H.
    destruct (SFmul prec emax (Prim2SF t) (S754_zero false));
      try contradiction; reflexivity. }
  destruct (zeroish_cases _ Hz) as [-> | ->]; reflexivity.
Qed.

(** *** [Math.floor] of a small non-negative number *)

Lemma floor_small x B :
  fnonneg x -> fbounded B x -> (0 <= B <= 52)%Z ->
  (zeroish x /\ Js.floor x = x)
  \/ exists n : nat, (n < Z.to_nat (2 ^ B))%nat /\ Js.floor x = Js.of_nat n.
Proof.
  unfold fnonneg, fbounded, zeroish, Js.floor. intros Hn Hb HB.
  pose proof (Prim2SF_valid x) as Hv.
  destruct (Prim2SF x) as [s|s| |s m e]; cbn [nonneg bounded] in *;
    try contradiction; [left; split; reflexivity|right].
  subst s. apply valid_digits in Hv as [Hd53 He].
  assert (He0 : (e < 0)%Z) by lia.
  replace (0 <=? e)%Z with false by (symmetry; apply Z.leb_gt; lia).
  set (q := Z.shiftr (Zpos m) (- e)).
  assert (Hq : (0 <= q < 2 ^ B)%Z).
  { unfold q. rewrite Z.shiftr_div_pow2 by lia.
    assert (0 < 2 ^ (- e))%Z by (apply Z.pow_pos_nonneg; lia).
    split; [apply Z.div_pos; lia|].
    pose proof (dg_gt (Zpos m) ltac:(lia)) as Hu.
    assert (1 <= dg (Zpos m))%Z by (rewrite dg_pos; lia).
    destruct (Z_le_gt_dec 0 (dg (Zpos m) + e)) as [Hk|Hk].
    - apply Z.div_lt_upper_bound; [lia|].
      eapply Z.lt_le_trans; [exact Hu|].
      rewrite <- Z.pow_add_r by lia. apply Z.pow_le_mono_r; lia.
    - rewrite Z.div_small; [apply Z.pow_pos_nonneg; lia|].
      split; [lia|]. eapply Z.lt_le_trans; [exact Hu|].
      apply Z.pow_le_mono_r; lia. }
  exists (Z.to_nat q). split.
  - apply Z2Nat.inj_lt; lia.
  - unfold Js.of_nat. now rewrite Z2Nat.id by lia.
Qed.

(** *** The sector index *)

Lemma index6_const a i : validIndex i = true -> Js.index6 a a a a a a i = a.
Proof.
  unfold validIndex, Js.index6. intros H.
  destruct (i =? 0); [reflexivity|]. destruct (i =? 1); [reflexivity|].
  destruct (i =? 2); [reflexivity|]. destruct (i =? 3); [reflexivity|].
  destruct (i =? 4); [reflexivity|]. destruct (i =? 5); [reflexivity|].
  discriminate.
Qed.

(** Every integral number below 64 has a sector in 0..5 and is below
    [2^7]. *)
Lemma sector_table :
  allBelow 64 (fun n =>
    validIndex (Js.rem (Js.of_nat n) 6) && boundedb 7 (Prim2SF (Js.of_nat n)))
  = true.
Proof. vm_compute. reflexivity. Qed.

Lemma hsvaToRgba_black h a :
  (0 <=? h) = true -> (h <=? 360) = true ->
  hsvaToRgba (mkHsva h 0 0 a) = mkRgba 0 0 0 a.
Proof.
  intros H0 H360.
  destruct (hue_range h H0 H360) as [Hn Hb].
  destruct (div_360 h Hn Hb) as [Hn1 Hb1].
  destruct (mul_6 _ Hn1 Hb1) as [Hn2 Hb2].
  unfold hsvaToRgba.
  change (0 / 100) with 0. change (1 - 0) with 1. change (0 * 1) with 0.
  set (h1 := h / 360 * 6) in *.
  assert (Hfl : exists hh, Js.floor h1 = hh /\ fbounded 7 hh
                           /\ validIndex (Js.rem hh 6) = true).
  { destruct (floor_small h1 6 Hn2 Hb2 ltac:(lia)) as [[Hz Hf]|[n [Hlt Hf]]].
    - exists h1. split; [assumption|].
      destruct (zeroish_cases _ Hz) as [-> | ->]; split; vm_compute; first [exact I|congruence].
    - exists (Js.of_nat n). split; [assumption|].
      change (Z.to_nat (2 ^ 6)) with 64%nat in Hlt.
      pose proof (allBelow_spec 64 _ sector_table n Hlt) as Ht.
      cbv beta in Ht. apply andb_prop in Ht as [Hi Hbd].
      split; [now apply boundedb_spec|assumption]. }
  destruct Hfl as (hh & -> & Hbh & Hidx).
  rewrite (absorb (h1 - hh) 9)
    by (apply (sub_fbounded _ _ 6 7); [assumption..|lia|lia]).
  rewrite (absorb (1 - h1 + hh) 11).
  2:{ apply (add_fbounded _ _ 8 7); [|assumption|lia|lia].
      apply (sub_fbounded _ _ 1 6); [|assumption|lia|lia].
      vm_compute; first [exact I|congruence]. }
  rewrite !index6_const by assumption.
  reflexivity.
Qed.

(** ** Binary64 rounding over the reals *)

Module Real64Facts.

Import Reals Lra.
Import Real64.

Local Open Scope R_scope.

Lemma p2_pos e : 0 < p2 e.
Proof. apply powerRZ_lt. lra. Qed.

Lemma p2_add a b : p2 (a + b) = p2 a * p2 b.
Proof. apply powerRZ_add. lra. Qed.

Lemma p2_0 : p2 0 = 1.
Proof. reflexivity. Qed.

Lemma p2_1 : p2 1 = 2.
Proof. unfold p2. simpl. lra. Qed.

Lemma p2_succ e : p2 (e + 1) = 2 * p2 e.
Proof. rewrite p2_add, p2_1. lra. Qed.

Lemma p2_pred e : p2 (e - 1) = p2 e / 2.
Proof.
  replace e with ((e - 1) + 1)%Z at 2 by lia. rewrite p2_succ. lra.
Qed.

Lemma p2_Z n : (0 <= n)%Z -> p2 n = IZR (2 ^ n).
Proof.
  intros H. destruct n as [|p|p]; try lia; [reflexivity|].
  unfold p2. change (2 ^ Zpos p)%Z with (Z.pow_pos 2 p).
  now rewrite Zpower_pos_powerRZ.
Qed.

Lemma p2_le a b : (a <= b)%Z -> p2 a <= p2 b.
Proof.
  intros H. replace b with (a + (b - a))%Z by lia.
  rewrite p2_add, (p2_Z (b - a)) by lia.
  assert (1 <= 2 ^ (b - a))%Z by (apply (Z.pow_le_mono_r 2 0); lia).
  apply IZR_le in H0. pose proof (p2_pos a). nra.
Qed.

Lemma p2_lt a b : (a < b)%Z -> p2 a < p2 b.
Proof.
  intros H. apply Rlt_le_trans with (p2 (a + 1)); [|apply p2_le; lia].
  rewrite p2_succ. pose proof (p2_pos a). lra.
Qed.

Lemma F2R_shift m e k : (0 <= k)%Z -> F2R (m * 2 ^ k) (e - k) = F2R m e.
Proof.
  intros H. unfold F2R. rewrite mult_IZR, <- p2_Z by assumption.
  replace e with ((e - k) + k)%Z at 2 by lia. rewrite p2_add. ring.
Qed.

Lemma F2R_mul m1 e1 m2 e2 : F2R (m1 * m2) (e1 + e2) = F2R m1 e1 * F2R m2 e2.
Proof. unfold F2R. rewrite mult_IZR, p2_add. ring. Qed.

Lemma F2R_add m1 m2 e : F2R (m1 + m2) e = F2R m1 e + F2R m2 e.
Proof. unfold F2R. rewrite plus_IZR. ring. Qed.

Lemma located_shr_1 u mrs :
  (0 <= shr_m mrs)%Z -> located u mrs -> located (u / 2) (shr_1 mrs).
Proof.
  destruct mrs as [m r s]. unfold located. cbn [shr_m shr_r shr_s].
  intros Hm H.
  assert (HI : forall p, IZR (Zpos p~1) = 2 * IZR (Zpos p) + 1)
    by (intros p; rewrite Pos2Z.inj_xI, plus_IZR, mult_IZR; reflexivity).
  assert (HO : forall p, IZR (Zpos p~0) = 2 * IZR (Zpos p))
    by (intros p; rewrite Pos2Z.inj_xO, mult_IZR; reflexivity).
  destruct m as [|[p|p|]|p]; try lia;
    destruct r, s; cbn [shr_1 shr_m shr_r shr_s orb];
    try rewrite HI in H; try rewrite HO in H; lra.
Qed.

Lemma located_iter p : forall u mrs,
  (0 <= shr_m mrs)%Z -> located u mrs ->
  located (u / p2 (Zpos p)) (SpecFloat.iter_pos shr_1 p mrs).
Proof.
  induction p as [p IH|p IH|]; intros u mrs Hm H; simpl SpecFloat.iter_pos.
  - assert (H1 : (0 <= shr_m (shr_1 mrs))%Z)
      by (rewrite shr_1_m by assumption; apply Z.div_pos; lia).
    assert (H2 : (0 <= shr_m (SpecFloat.iter_pos shr_1 p (shr_1 mrs)))%Z)
      by (rewrite iter_shr_m by assumption; apply Z.div_pos;
          [lia|apply Z.pow_pos_nonneg; lia]).
    apply located_shr_1 in H; [|assumption].
    apply IH in H; [|assumption]. apply IH in H; [|assumption].
    replace (u / p2 (Zpos p~1)) with (u / 2 / p2 (Zpos p) / p2 (Zpos p));
      [assumption|].
    replace (Zpos p~1) with (Zpos p + Zpos p + 1)%Z by lia.
    rewrite p2_succ, p2_add. pose proof (p2_pos (Zpos p)). field. lra.
  - assert (H2 : (0 <= shr_m (SpecFloat.iter_pos shr_1 p mrs))%Z)
      by (rewrite iter_shr_m by assumption; apply Z.div_pos;
          [lia|apply Z.pow_pos_nonneg; lia]).
    apply IH in H; [|assumption]. apply IH in H; [|assumption].
    replace (u / p2 (Zpos p~0)) with (u / p2 (Zpos p) / p2 (Zpos p));
      [assumption|].
    replace (Zpos p~0) with (Zpos p + Zpos p)%Z by lia.
    rewrite p2_add. pose proof (p2_pos (Zpos p)). field. lra.
  - rewrite p2_1. now apply located_shr_1.
Qed.

Section Rounding.

Variables prec emax : Z.
Hypothesis prec_pos : (0 < prec)%Z.
Hypothesis prec_emax : (prec < emax)%Z.

Local Abbreviation emin := (SpecFloat.emin prec emax).
Local Abbreviation fexp := (SpecFloat.fexp prec emax).
Local Abbreviation fmt := (Real64.fmt prec emax).
Local Abbreviation nearest := (Real64.nearest prec emax).
Local Abbreviation fits := (Real64.fits prec emax).
Local Abbreviation valid := (Real64.valid prec emax).
Local Abbreviation rounds := (Real64.rounds prec emax).

Lemma fexp_cases X :
  (fexp X = X - prec /\ emin <= X - prec)%Z \/
  (fexp X = emin /\ X - prec <= emin)%Z.
Proof. unfold SpecFloat.fexp. lia. Qed.

Lemma dg_exact m k : (0 < k)%Z -> (0 <= m)%Z -> dg m = k ->
  (2 ^ (k - 1) <= m < 2 ^ k)%Z.
Proof.
  intros Hk Hm H. destruct m as [|p|p]; try lia.
  - unfold dg in H. simpl in H. lia.
  - pose proof (dg_lower p). pose proof (dg_gt (Zpos p) ltac:(lia)).
    rewrite H in *. lia.
Qed.

Lemma dg_below m k : (0 <= k)%Z -> (0 <= m)%Z -> (dg m <= k)%Z ->
  (m < 2 ^ k)%Z.
Proof.
  intros Hk Hm H. pose proof (dg_gt m Hm). pose proof (dg_nonneg m).
  assert (2 ^ dg m <= 2 ^ k)%Z by (apply Z.pow_le_mono_r; lia). lia.
Qed.

(** Truncation to the exponent of the format. *)
Lemma shr_fexp_located m e l x :
  (0 <= m)%Z -> (e <= fexp (dg m + e))%Z ->
  located (x / p2 e) (shr_record_of_loc m l) ->
  let '(mrs, e') := shr_fexp prec emax m e l in
  located (x / p2 e') mrs /\ fits (shr_m mrs) e'.
Proof.
  intros Hm He Hx. unfold shr_fexp, shr. fold (dg m).
  pose proof (dg_nonneg m) as Hd.
  destruct (fexp_cases (dg m + e)) as [[Hf Hf']|[Hf Hf']].
  - destruct (fexp (dg m + e) - e)%Z as [|p|p] eqn:Hn; try lia.
    + split; [assumption|]. rewrite shr_record_of_loc_m.
      assert (dg m = prec) by lia.
      pose proof (dg_exact m prec prec_pos Hm H). unfold fits. lia.
    + split.
      * rewrite p2_add.
        replace (x / (p2 e * p2 (Zpos p))) with (x / p2 e / p2 (Zpos p)).
        -- apply located_iter; [now rewrite shr_record_of_loc_m|assumption].
        -- pose proof (p2_pos e). pose proof (p2_pos (Zpos p)). field. lra.
      * rewrite iter_shr_m, shr_record_of_loc_m
          by now rewrite shr_record_of_loc_m.
        assert (Hdg : dg m = (prec + Zpos p)%Z) by lia.
        pose proof (dg_exact m (prec + Zpos p) ltac:(lia) Hm Hdg) as [Hlo Hhi].
        assert (Hp : (0 < 2 ^ Zpos p)%Z) by (apply Z.pow_pos_nonneg; lia).
        replace (prec + Zpos p - 1)%Z with ((prec - 1) + Zpos p)%Z in Hlo by lia.
        rewrite Z.pow_add_r in Hlo, Hhi by lia.
        unfold fits. split; [|split]; try lia.
        -- split; [apply Z.div_pos; lia|].
           apply Z.div_lt_upper_bound; lia.
        -- intros _. apply Z.div_le_lower_bound; lia.
  - destruct (fexp (dg m + e) - e)%Z as [|p|p] eqn:Hn; try lia.
    + split; [assumption|]. rewrite shr_record_of_loc_m.
      pose proof (dg_below m prec ltac:(lia) Hm ltac:(lia)).
      unfold fits. lia.
    + split.
      * rewrite p2_add.
        replace (x / (p2 e * p2 (Zpos p))) with (x / p2 e / p2 (Zpos p)).
        -- apply located_iter; [now rewrite shr_record_of_loc_m|assumption].
        -- pose proof (p2_pos e). pose proof (p2_pos (Zpos p)). field. lra.
      * rewrite iter_shr_m, shr_record_of_loc_m
          by now rewrite shr_record_of_loc_m.
        assert (Hp : (0 < 2 ^ Zpos p)%Z) by (apply Z.pow_pos_nonneg; lia).
        pose proof (dg_below m (prec + Zpos p) ltac:(lia) Hm ltac:(lia)) as Hhi.
        rewrite Z.pow_add_r in Hhi by lia.
        unfold fits. split; [|split]; try lia.
        split; [apply Z.div_pos; lia|].
        apply Z.div_lt_upper_bound; lia.
Qed.

(** The integer chosen by round-to-nearest-even is the unit below or
    the unit above, and no further from [u] than either. *)
Lemma round_nearest_even_near u mrs :
  located u mrs ->
  let m := shr_m mrs in
  let m1 := round_nearest_even m (loc_of_shr_record mrs) in
  (m <= m1 <= m + 1)%Z /\ IZR m <= u < IZR m + 1 /\
  Rabs (IZR m1 - u) <= u - IZR m /\ Rabs (IZR m1 - u) <= IZR m + 1 - u.
Proof.
  destruct mrs as [m r s]. unfold located. cbn [shr_m shr_r shr_s].
  intros H. cbv zeta.
  destruct r, s; cbn [loc_of_shr_record round_nearest_even];
    try destruct (Z.even m);
    rewrite ?plus_IZR; (split; [lia|]); (split; [lra|]);
    split; apply Rabs_le; lra.
Qed.

(** After the choice, at most one more halving is needed, and it is
    exact. *)
Lemma carry_fits m m1 e :
  fits m e -> (m <= m1 <= m + 1)%Z ->
  let '(mrs, e') := shr_fexp prec emax m1 e loc_Exact in
  F2R (shr_m mrs) e' = F2R m1 e /\ fits (shr_m mrs) e'.
Proof.
  intros (Hm & He & Hn) H1. unfold shr_fexp, shr. fold (dg m1).
  cbn [shr_record_of_loc].
  destruct (Z_lt_le_dec m1 (2 ^ prec)) as [Hlt|Hge].
  - (* no carry *)
    assert (Hd : (dg m1 <= prec)%Z) by (apply dg_le; lia).
    assert (Hfe : fexp (dg m1 + e) = e).
    { destruct (Z.eq_dec e emin) as [->|Hne].
      - unfold SpecFloat.fexp. lia.
      - assert (H2 : (2 ^ (prec - 1) <= m1)%Z) by lia.
        assert (prec <= dg m1)%Z.
        { destruct (Z_lt_le_dec (dg m1) prec) as [Hc|]; [|assumption].
          pose proof (dg_below m1 (prec - 1) ltac:(lia) ltac:(lia) ltac:(lia)).
          lia. }
        unfold SpecFloat.fexp. lia. }
    rewrite Hfe, Z.sub_diag. cbn [shr_m]. split; [reflexivity|].
    unfold fits. split; [lia|split; [lia|]]. intros Hc. specialize (Hn Hc). lia.
  - (* carry *)
    assert (Hm1 : m1 = (2 ^ prec)%Z) by lia.
    assert (Hd : dg m1 = (prec + 1)%Z).
    { rewrite Hm1. replace (2 ^ prec)%Z with (1 * 2 ^ prec)%Z by lia.
      rewrite dg_shift_left by lia. change (dg 1) with 1%Z. lia. }
    assert (Hfe : (fexp (dg m1 + e) - e = 1)%Z)
      by (unfold SpecFloat.fexp; lia).
    rewrite Hfe. cbn [SpecFloat.iter_pos].
    rewrite shr_1_m by (cbn [shr_m]; lia). cbn [shr_m].
    assert (Hhalf : (m1 / 2 = 2 ^ (prec - 1))%Z).
    { rewrite Hm1. replace prec with ((prec - 1) + 1)%Z at 1 by lia.
      rewrite Z.pow_add_r by lia. change (2 ^ 1)%Z with 2%Z.
      apply Z.div_mul. lia. }
    rewrite Hhalf. split.
    + rewrite <- (F2R_shift (2 ^ (prec - 1)) (e + 1) 1) by lia.
      f_equal; [|lia]. rewrite Hm1.
      replace prec with ((prec - 1) + 1)%Z at 2 by lia.
      now rewrite Z.pow_add_r by lia.
    + assert (0 < 2 ^ (prec - 1))%Z by (apply Z.pow_pos_nonneg; lia).
      assert (2 ^ (prec - 1) < 2 ^ prec)%Z by (apply Z.pow_lt_mono_r; lia).
      unfold fits. lia.
Qed.

Lemma fits_fmt m e : fits m e -> fmt (F2R m e).
Proof. intros (H1 & H2 & _). now exists m, e. Qed.

(** Every member of the format is an integer at the scale of [e], or
    lies at or below a fitting mantissa of that scale. *)
Lemma fmt_at_scale f m e :
  fmt f -> fits m e ->
  (exists k : Z, f / p2 e = IZR k) \/ f / p2 e <= IZR m.
Proof.
  intros (mf & ef & -> & Hmf & Hef) (Hm & He & Hn).
  pose proof (p2_pos e) as Hpe.
  destruct (Z_le_gt_dec e ef) as [Hle|Hgt].
  - left. exists (mf * 2 ^ (ef - e))%Z.
    rewrite <- (F2R_shift mf ef (ef - e)) by lia.
    replace (ef - (ef - e))%Z with e by lia.
    unfold F2R. field. lra.
  - right. specialize (Hn ltac:(lia)).
    unfold F2R.
    replace ef with (e + (ef - e))%Z by lia. rewrite p2_add.
    replace (IZR mf * (p2 e * p2 (ef - e)) / p2 e) with (IZR mf * p2 (ef - e))
      by (field; lra).
    assert (Hh : p2 (ef - e) <= / 2).
    { replace (/ 2) with (p2 (-1)) by (unfold p2; simpl; lra).
      apply p2_le. lia. }
    pose proof (p2_pos (ef - e)).
    assert (H1 : (mf <= 2 ^ prec - 1)%Z) by lia. apply IZR_le in H1.
    assert (H0 : (0 <= mf)%Z) by lia. apply IZR_le in H0.
    assert (H2 : (2 * 2 ^ (prec - 1) = 2 ^ prec)%Z).
    { replace prec with ((prec - 1) + 1)%Z at 2 by lia.
      rewrite Z.pow_add_r by lia. change (2 ^ 1)%Z with 2%Z. lia. }
    apply IZR_le in Hn. rewrite minus_IZR in H1.
    rewrite <- H2, mult_IZR in H1.
    apply Rle_trans with (IZR mf * / 2); [apply Rmult_le_compat_l; lra|lra].
Qed.

(** Rounding a located non-negative real: the value behind the result
    is a nearest member of the format; the result is an infinity only
    when that value is [2^emax] or more. *)
Theorem binary_round_aux_nearest sx m e l x :
  (0 <= m)%Z -> (e <= fexp (dg m + e))%Z ->
  located (x / p2 e) (shr_record_of_loc m l) ->
  exists v, nearest x v /\ 0 <= v /\
    match binary_round_aux prec emax sx m e l with
    | S754_zero s => s = sx /\ v = 0
    | S754_finite s m' e' => s = sx /\ v = F2R (Zpos m') e'
    | S754_infinity _ => p2 emax <= v
    | S754_nan => False
    end.
Proof.
  intros Hm He Hx. unfold binary_round_aux.
  pose proof (shr_fexp_located m e l x Hm He Hx) as H1.
  destruct (shr_fexp prec emax m e l) as [mrs1 e1].
  destruct H1 as [Hloc Hfit].
  pose proof (round_nearest_even_near _ _ Hloc) as H2. cbv zeta in H2.
  set (m1 := round_nearest_even (shr_m mrs1) (loc_of_shr_record mrs1)) in *.
  destruct H2 as (Hm1 & Hu & Hlo & Hhi).
  pose proof (carry_fits _ m1 e1 Hfit Hm1) as H3.
  destruct (shr_fexp prec emax m1 e1 loc_Exact) as [mrs2 e2].
  destruct H3 as [Hval Hfit2].
  pose proof (p2_pos e1) as Hp1.
  exists (F2R m1 e1). split; [|split].
  - split; [rewrite <- Hval; now apply fits_fmt|].
    intros f Hf.
    assert (Hs : forall g, g * p2 e1 - x = (g - x / p2 e1) * p2 e1)
      by (intros g; field; lra).
    replace f with (f / p2 e1 * p2 e1) by (field; lra).
    unfold F2R. rewrite !Hs, !Rabs_mult, (Rabs_pos_eq (p2 e1)) by lra.
    apply Rmult_le_compat_r; [lra|].
    set (u := x / p2 e1) in *.
    assert (Hg : f / p2 e1 <= IZR (shr_m mrs1) \/ IZR (shr_m mrs1) + 1 <= f / p2 e1).
    { destruct (fmt_at_scale f _ _ Hf Hfit) as [[k Hk]|Hk]; [|now left].
      rewrite Hk. destruct (Z_le_gt_dec k (shr_m mrs1)) as [Hc|Hc].
      - left. now apply IZR_le.
      - right. rewrite <- plus_IZR. apply IZR_le. lia. }
    destruct Hg as [Hg|Hg].
    + apply Rle_trans with (u - IZR (shr_m mrs1)); [assumption|].
      rewrite Rabs_left1 by lra. lra.
    + apply Rle_trans with (IZR (shr_m mrs1) + 1 - u); [assumption|].
      rewrite Rabs_pos_eq by lra. lra.
  - unfold F2R. destruct Hfit as ((Hn & _) & _).
    assert (0 <= m1)%Z by lia. apply IZR_le in H. nra.
  - rewrite <- Hval. destruct Hfit2 as ((Hn2 & Hb2) & He2 & Hl2).
    destruct (shr_m mrs2) as [|p|p] eqn:Em; try lia.
    + split; [reflexivity|]. unfold F2R. lra.
    + destruct (e2 <=? emax - prec)%Z eqn:Hov.
      * split; reflexivity.
      * apply Z.leb_gt in Hov.
        assert (Hem : (emin < e2)%Z) by (unfold SpecFloat.emin; lia).
        specialize (Hl2 Hem). apply IZR_le in Hl2.
        unfold F2R. rewrite <- p2_Z in Hl2 by lia.
        apply Rle_trans with (p2 (prec - 1) * p2 e2).
        -- rewrite <- p2_add. apply p2_le. lia.
        -- apply Rmult_le_compat_r; [pose proof (p2_pos e2); lra|assumption].
Qed.

Lemma rounds_aux m e l x :
  (0 <= m)%Z -> (e <= fexp (dg m + e))%Z ->
  located (x / p2 e) (shr_record_of_loc m l) ->
  rounds x (binary_round_aux prec emax false m e l).
Proof.
  intros Hm He Hx.
  destruct (binary_round_aux_nearest false m e l x Hm He Hx)
    as (v & Hn & Hv & H).
  exists v. split; [assumption|split; [assumption|]].
  destruct (binary_round_aux prec emax false m e l); intuition.
Qed.

Lemma located_exact m e :
  located (F2R m e / p2 e) (shr_record_of_loc m loc_Exact).
Proof.
  unfold located, F2R. cbn. pose proof (p2_pos e). field. lra.
Qed.

Lemma emin_nonpos : (emin <= 0)%Z.
Proof. unfold SpecFloat.emin. lia. Qed.

Lemma dg_ge m k : (0 <= k)%Z -> (2 ^ k <= m)%Z -> (k + 1 <= dg m)%Z.
Proof.
  intros Hk H. pose proof (dg_nonneg m).
  assert (0 < 2 ^ k)%Z by (apply Z.pow_pos_nonneg; lia).
  pose proof (dg_gt m ltac:(lia)).
  destruct (Z_lt_le_dec k (dg m)) as [|Hc]; [lia|].
  assert (2 ^ dg m <= 2 ^ k)%Z by (apply Z.pow_le_mono_r; lia). lia.
Qed.

Lemma fexp_mono X Y : (X <= Y)%Z -> (fexp X <= fexp Y)%Z.
Proof. unfold SpecFloat.fexp. lia. Qed.

Lemma binary_round_rounds m e :
  rounds (F2R (Zpos m) e) (binary_round prec emax false m e).
Proof.
  unfold binary_round. change (Zpos (digits2_pos m)) with (dg (Zpos m)).
  pose proof (shl_align_spec m e (fexp (dg (Zpos m) + e))) as Hs.
  pose proof (shl_align_dg m e (fexp (dg (Zpos m) + e))) as Hd.
  destruct (shl_align m e (fexp (dg (Zpos m) + e))) as [m' e'].
  destruct Hs as (He' & Hm' & Hex).
  replace (F2R (Zpos m) e) with (F2R (Zpos m') e').
  - apply rounds_aux; [lia| |apply located_exact].
    rewrite Hd.
    destruct (Z_le_gt_dec (fexp (dg (Zpos m) + e)) e) as [Hc|Hc]; [|lia].
    rewrite (Hex Hc). lia.
  - rewrite Hm'. replace e' with (e - (e - e'))%Z at 2 by lia.
    apply F2R_shift. lia.
Qed.

Lemma dg_mul_lower a b :
  (dg (Zpos a) + dg (Zpos b) - 1 <= dg (Zpos (a * b)))%Z.
Proof.
  pose proof (dg_lower a) as Ha. pose proof (dg_lower b) as Hb.
  assert (1 <= dg (Zpos a))%Z by (rewrite dg_pos; lia).
  assert (1 <= dg (Zpos b))%Z by (rewrite dg_pos; lia).
  assert (0 < 2 ^ (dg (Zpos a) - 1))%Z by (apply Z.pow_pos_nonneg; lia).
  assert (0 < 2 ^ (dg (Zpos b) - 1))%Z by (apply Z.pow_pos_nonneg; lia).
  pose proof (dg_ge (Zpos (a * b)) (dg (Zpos a) - 1 + (dg (Zpos b) - 1))
                ltac:(lia)) as H3.
  rewrite Z.pow_add_r in H3 by lia.
  rewrite Pos2Z.inj_mul in *.
  specialize (H3 ltac:(nia)). lia.
Qed.

Lemma fits_dg m e : fits (Zpos m) e ->
  (dg (Zpos m) <= prec /\ (e = emin \/ dg (Zpos m) = prec))%Z.
Proof.
  intros (Hm & He & Hn).
  assert (dg (Zpos m) <= prec)%Z by (apply dg_le; lia).
  split; [assumption|].
  destruct (Z.eq_dec e emin) as [|Hne]; [now left|right].
  specialize (Hn ltac:(lia)).
  pose proof (dg_ge (Zpos m) (prec - 1) ltac:(lia) Hn). lia.
Qed.

Lemma rounds_zero s : rounds 0 (S754_zero s).
Proof.
  exists 0. split; [|split; [lra|reflexivity]].
  split.
  - exists 0%Z, emin. unfold F2R. split; [simpl; lra|].
    assert (0 < 2 ^ prec)%Z by (apply Z.pow_pos_nonneg; lia). lia.
  - intros f _. replace (0 - 0) with 0 by lra. rewrite Rabs_R0.
    apply Rabs_pos.
Qed.

(** Multiplication of valid floats rounds the real product. *)
Lemma SFmul_rounds x y :
  valid x -> valid y -> rounds (SF2R x * SF2R y) (SFmul prec emax x y).
Proof.
  destruct x as [sx| | |sx mx ex], y as [sy| | |sy my ey]; cbn [valid];
    try contradiction; cbn [SFmul SF2R]; intros Hx Hy;
    try (rewrite ?Rmult_0_l, ?Rmult_0_r; apply rounds_zero).
  destruct Hx as (-> & Hx & _), Hy as (-> & Hy & _). cbn [xorb].
  rewrite <- F2R_mul, <- Pos2Z.inj_mul.
  apply rounds_aux; [lia| |apply located_exact].
  pose proof (fits_dg _ _ Hx) as [Hdx Hcx].
  pose proof (fits_dg _ _ Hy) as [Hdy Hcy].
  pose proof (dg_mul_lower mx my) as Hl.
  assert (1 <= dg (Zpos mx))%Z by (rewrite dg_pos; lia).
  assert (1 <= dg (Zpos my))%Z by (rewrite dg_pos; lia).
  pose proof emin_nonpos.
  unfold SpecFloat.fexp. destruct Hcx, Hcy; lia.
Qed.

Lemma rounds_self x : valid x -> rounds (SF2R x) x.
Proof.
  destruct x as [s| | |s m e]; cbn [valid]; try contradiction.
  - intros _. apply rounds_zero.
  - intros (-> & Hf & _). cbn [SF2R]. exists (F2R (Zpos m) e).
    split; [|split].
    + split; [now apply fits_fmt|].
      intros f _. replace (F2R (Zpos m) e - F2R (Zpos m) e) with 0 by lra.
      rewrite Rabs_R0. apply Rabs_pos.
    + unfold F2R. pose proof (p2_pos e).
      assert (0 < IZR (Zpos m)) by (apply IZR_lt; lia). nra.
    + now split.
Qed.

(** Addition of valid floats rounds the real sum. *)
Lemma SFadd_rounds x y :
  valid x -> valid y -> rounds (SF2R x + SF2R y) (SFadd prec emax x y).
Proof.
  destruct x as [sx| | |sx mx ex], y as [sy| | |sy my ey]; cbn [valid];
    try contradiction; intros Hx Hy.
  - cbn [SFadd SF2R]. rewrite Rplus_0_l.
    destruct sx, sy; apply rounds_zero.
  - cbn [SFadd]. replace (SF2R (S754_zero sx)) with 0 by reflexivity.
    rewrite Rplus_0_l. now apply rounds_self.
  - cbn [SFadd]. replace (SF2R (S754_zero sy)) with 0 by reflexivity.
    rewrite Rplus_0_r. now apply rounds_self.
  - destruct Hx as (-> & Hx & _), Hy as (-> & Hy & _).
    cbn [SFadd SF2R cond_Zopp].
    set (ez := IntDef.Z.min ex ey).
    assert (Hez : ez = Z.min ex ey) by reflexivity.
    pose proof (shl_align_spec mx ex ez) as H1.
    pose proof (shl_align_spec my ey ez) as H2.
    destruct (shl_align mx ex ez) as [m1 e1], (shl_align my ey ez) as [m2 e2].
    destruct H1 as (_ & Hm1 & He1), H2 as (_ & Hm2 & He2).
    specialize (He1 ltac:(lia)). specialize (He2 ltac:(lia)). subst e1 e2.
    cbn [fst].
    replace (F2R (Zpos mx) ex + F2R (Zpos my) ey)
      with (F2R (Zpos (m1 + m2)) ez).
    + change (IntDef.Z.add (Zpos m1) (Zpos m2)) with (Zpos (m1 + m2)).
      cbn [binary_normalize]. apply binary_round_rounds.
    + rewrite Pos2Z.inj_add, F2R_add, Hm1, Hm2.
      f_equal.
      * replace ez with (ex - (ex - ez))%Z at 2 by lia. apply F2R_shift. lia.
      * replace ez with (ey - (ey - ez))%Z at 2 by lia. apply F2R_shift. lia.
Qed.

(** The quotient and remainder of the long division locate the real
    quotient. *)
Lemma new_location_located (q r d : Z) (u : R) :
  (0 < d)%Z -> (0 <= r < d)%Z -> u = IZR q + IZR r / IZR d ->
  located u (shr_record_of_loc q (new_location d r)).
Proof.
  intros Hd Hr ->.
  assert (Hd' : 0 < IZR d) by (apply IZR_lt; lia).
  assert (Hhalf : forall c : comparison,
            (2 * r ?= d)%Z = c -> r <> 0%Z ->
            located (IZR q + IZR r / IZR d)
                    (shr_record_of_loc q (loc_Inexact c))).
  { intros c Hc Hr0.
    assert (Hr1 : 0 < IZR r) by (apply IZR_lt; lia).
    assert (Hr2 : IZR r < IZR d) by (apply IZR_lt; lia).
    assert (Hq1 : 0 < IZR r / IZR d) by (apply Rdiv_lt_0_compat; lra).
    assert (Hq2 : IZR r / IZR d < 1).
    { apply Rmult_lt_reg_r with (IZR d); [lra|].
      replace (IZR r / IZR d * IZR d) with (IZR r) by (field; lra). lra. }
    assert (Hcmp : forall a b : R, a * IZR d = b -> a = b / IZR d)
      by (intros a b <-; field; lra).
    unfold located. destruct c; cbn.
    - apply Z.compare_eq in Hc.
      assert (H2 : 2 * IZR r = IZR d) by (rewrite <- Hc, mult_IZR; reflexivity).
      replace (IZR r / IZR d) with (/ 2); [reflexivity|].
      rewrite <- H2. field. lra.
    - apply Z.compare_lt_iff in Hc. apply IZR_lt in Hc. rewrite mult_IZR in Hc.
      split; [lra|].
      assert (IZR r / IZR d < / 2); [|lra].
      apply Rmult_lt_reg_r with (IZR d); [lra|].
      replace (IZR r / IZR d * IZR d) with (IZR r) by (field; lra). lra.
    - apply Z.compare_gt_iff in Hc. apply IZR_lt in Hc. rewrite mult_IZR in Hc.
      split; [|lra].
      assert (/ 2 < IZR r / IZR d); [|lra].
      apply Rmult_lt_reg_r with (IZR d); [lra|].
      replace (IZR r / IZR d * IZR d) with (IZR r) by (field; lra). lra. }
  unfold new_location.
  destruct (Z.eq_dec r 0) as [->|Hr0].
  - assert (Hex : located (IZR q + 0 / IZR d) (shr_record_of_loc q loc_Exact)).
    { unfold located. cbn. unfold Rdiv. lra. }
    now destruct (IntDef.Z.even d).
  - assert (Hrb : IntDef.Z.eqb r 0 = false) by now apply Z.eqb_neq.
    destruct (IntDef.Z.even d) eqn:Hev;
      unfold new_location_even, new_location_odd; rewrite Hrb;
      [now apply Hhalf|].
    assert (Hodd : Z.odd d = true) by (rewrite <- Z.negb_even; now rewrite Hev).
    apply Z.odd_spec in Hodd. destruct Hodd as [k Hk].
    destruct (Z.compare_spec (2 * r + 1) d) as [Hc|Hc|Hc];
      (apply Hhalf; [|assumption]).
    + apply Z.compare_lt_iff. lia.
    + apply Z.compare_lt_iff. lia.
    + apply Z.compare_gt_iff. lia.
Qed.

Lemma SFdiv_core_located m1 e1 m2 e2 :
  let '(q, e', l) := SFdiv_core_binary prec emax (Zpos m1) e1 (Zpos m2) e2 in
  (0 <= q)%Z /\ (e' <= fexp (dg q + e'))%Z /\
  located (F2R (Zpos m1) e1 / F2R (Zpos m2) e2 / p2 e')
          (shr_record_of_loc q l).
Proof.
  unfold SFdiv_core_binary. fold (dg (Zpos m1)) (dg (Zpos m2)).
  set (d1 := dg (Zpos m1)). set (d2 := dg (Zpos m2)).
  set (e' := IntDef.Z.min (fexp (d1 + e1 - (d2 + e2))) (e1 - e2)).
  assert (He' : e' = Z.min (fexp (d1 + e1 - (d2 + e2))) (e1 - e2))
    by reflexivity.
  set (s := (e1 - e2 - e')%Z).
  assert (Hs : (0 <= s)%Z) by (unfold s; lia).
  set (m' := match s with Zpos _ => IntDef.Z.shiftl (Zpos m1) s | Z0 => Zpos m1
             | Zneg _ => 0%Z end).
  assert (Hm' : m' = (Zpos m1 * 2 ^ s)%Z).
  { unfold m'. destruct s as [|p|p] eqn:Es; try lia.
    apply Z.shiftl_mul_pow2. lia. }
  destruct (IntDef.Z.div_eucl m' (Zpos m2)) as [q r] eqn:Ediv.
  pose proof (Z.div_eucl_eq m' (Zpos m2) ltac:(lia)) as Heq.
  pose proof (Z.mod_pos_bound m' (Zpos m2) ltac:(lia)) as Hr.
  unfold Z.modulo in Hr.
  change (Z.div_eucl m' (Zpos m2)) with (IntDef.Z.div_eucl m' (Zpos m2)) in *.
  rewrite Ediv in Heq, Hr.
  assert (Hpow : (0 < 2 ^ s)%Z) by (apply Z.pow_pos_nonneg; lia).
  assert (Hq0 : (0 <= q)%Z) by nia.
  split; [assumption|split].
  - (* the quotient has enough digits *)
    apply Z.le_trans with (fexp (d1 + e1 - (d2 + e2))); [lia|].
    apply fexp_mono.
    pose proof (dg_nonneg q).
    destruct (Z_le_gt_dec (d1 + s - d2) 0) as [Hk|Hk]; [unfold s in *; lia|].
    pose proof (dg_lower m1) as Hl. fold d1 in Hl.
    pose proof (dg_gt (Zpos m2) ltac:(lia)) as Hu. fold d2 in Hu.
    assert (Hd1 : (1 <= d1)%Z) by (unfold d1; rewrite dg_pos; lia).
    assert (Hd2 : (1 <= d2)%Z) by (unfold d2; rewrite dg_pos; lia).
    assert (Hq : (2 ^ (d1 + s - d2 - 1) <= q)%Z).
    { assert (Hp1 : (0 < 2 ^ (d1 + s - d2 - 1))%Z)
        by (apply Z.pow_pos_nonneg; lia).
      assert (Hp2 : (2 ^ (d1 + s - d2 - 1) * 2 ^ d2 = 2 ^ (d1 - 1) * 2 ^ s)%Z).
      { rewrite <- !Z.pow_add_r by lia. f_equal. lia. }
      destruct (Z_le_gt_dec (2 ^ (d1 + s - d2 - 1)) q) as [|Hc]; [assumption|].
      exfalso. nia. }
    pose proof (dg_ge q (d1 + s - d2 - 1) ltac:(lia) Hq). unfold s in *. lia.
  - apply new_location_located; [lia|lia|].
    unfold F2R.
    assert (H2 : 0 < IZR (Zpos m2)) by (apply IZR_lt; lia).
    pose proof (p2_pos e1). pose proof (p2_pos e2). pose proof (p2_pos e').
    apply (f_equal IZR) in Heq.
    rewrite Hm', plus_IZR, !mult_IZR, <- p2_Z in Heq by lia.
    assert (Hp : p2 e1 = p2 s * p2 e2 * p2 e').
    { rewrite <- !p2_add. f_equal. unfold s. lia. }
    rewrite Hp.
    replace (IZR (Zpos m1) * (p2 s * p2 e2 * p2 e') / (IZR (Zpos m2) * p2 e2) / p2 e')
      with (IZR (Zpos m1) * p2 s / IZR (Zpos m2)) by (field; lra).
    rewrite Heq. field. lra.
Qed.

(** Division of a valid float by a positive valid float rounds the
    real quotient. *)
Lemma SFdiv_rounds x s m e :
  valid x -> valid (S754_finite s m e) ->
  rounds (SF2R x / SF2R (S754_finite s m e))
         (SFdiv prec emax x (S754_finite s m e)).
Proof.
  destruct x as [sx| | |sx mx ex]; cbn [valid]; try contradiction;
    intros Hx (-> & Hy & _).
  - cbn [SFdiv SF2R]. unfold Rdiv. rewrite Rmult_0_l. apply rounds_zero.
  - destruct Hx as (-> & Hx & _). cbn [SFdiv SF2R xorb].
    pose proof (SFdiv_core_located mx ex m e) as H.
    destruct (SFdiv_core_binary prec emax (Zpos mx) ex (Zpos m) e)
      as [[q e'] l].
    destruct H as (Hq & He & Hl). now apply rounds_aux.
Qed.

(** *** Order *)

Lemma nearest_mono x y vx vy :
  nearest x vx -> nearest y vy -> x < y -> vx <= vy.
Proof.
  intros [Fx Nx] [Fy Ny] Hxy.
  specialize (Nx vy Fy). specialize (Ny vx Fx).
  destruct (Rle_lt_dec vx vy) as [|Hc]; [assumption|exfalso].
  unfold Rabs in Nx, Ny.
  destruct (Rcase_abs (vx - x)), (Rcase_abs (vy - x)),
           (Rcase_abs (vy - y)), (Rcase_abs (vx - y)); lra.
Qed.

Lemma nearest_le x v f : nearest x v -> fmt f -> x <= f -> v <= f.
Proof.
  intros [_ N] Ff Hx. specialize (N f Ff).
  destruct (Rle_lt_dec v f) as [|Hc]; [assumption|exfalso].
  unfold Rabs in N.
  destruct (Rcase_abs (v - x)), (Rcase_abs (f - x)); lra.
Qed.

Lemma nearest_ge x v f : nearest x v -> fmt f -> f <= x -> f <= v.
Proof.
  intros [_ N] Ff Hx. specialize (N f Ff).
  destruct (Rle_lt_dec f v) as [|Hc]; [assumption|exfalso].
  unfold Rabs in N.
  destruct (Rcase_abs (v - x)), (Rcase_abs (f - x)); lra.
Qed.

Lemma nearest_exact x v : nearest x v -> fmt x -> v = x.
Proof.
  intros N F. apply Rle_antisym.
  - apply (nearest_le x v x N F). lra.
  - apply (nearest_ge x v x N F). lra.
Qed.

Lemma valid_fmt x : valid x -> fmt (SF2R x).
Proof.
  destruct x as [s| | |s m e]; cbn [valid]; try contradiction.
  - intros _. destruct (rounds_zero false) as (v & [F N] & _ & ->). exact F.
  - intros (-> & Hf & _). now apply fits_fmt.
Qed.

Lemma valid_nonneg x : valid x -> 0 <= SF2R x.
Proof.
  destruct x as [s| | |s m e]; cbn [valid SF2R]; try contradiction;
    [lra|].
  intros (-> & _). unfold F2R. pose proof (p2_pos e).
  assert (0 < IZR (Zpos m)) by (apply IZR_lt; lia). nra.
Qed.

Lemma valid_below x : valid x -> SF2R x < p2 emax.
Proof.
  destruct x as [s| | |s m e]; cbn [valid SF2R]; try contradiction;
    [intros _; apply p2_pos|].
  intros (-> & ((_ & Hm) & _) & He). unfold F2R.
  apply IZR_lt in Hm. rewrite <- p2_Z in Hm by lia.
  pose proof (p2_pos e).
  apply Rlt_le_trans with (p2 prec * p2 e); [nra|].
  rewrite <- p2_add. apply p2_le. lia.
Qed.

Lemma finite_pos m e : 0 < F2R (Zpos m) e.
Proof.
  unfold F2R. pose proof (p2_pos e).
  assert (0 < IZR (Zpos m)) by (apply IZR_lt; lia). nra.
Qed.

(** Canonical forms are ordered as their values. *)
Lemma fits_lt m1 e1 m2 e2 :
  fits (Zpos m1) e1 -> fits (Zpos m2) e2 -> (e1 < e2)%Z ->
  F2R (Zpos m1) e1 < F2R (Zpos m2) e2.
Proof.
  intros ((_ & H1) & He1 & _) (_ & _ & H2) He.
  specialize (H2 ltac:(lia)). unfold F2R.
  apply IZR_lt in H1. apply IZR_le in H2.
  rewrite <- p2_Z in H1, H2 by lia.
  pose proof (p2_pos e1). pose proof (p2_pos e2).
  apply Rlt_le_trans with (p2 prec * p2 e1); [nra|].
  apply Rle_trans with (p2 (prec - 1) * p2 e2); [|nra].
  rewrite <- !p2_add. apply p2_le. lia.
Qed.

Lemma SFcompare_valid x y :
  valid x -> valid y ->
  match SFcompare x y with
  | Some Lt => SF2R x < SF2R y
  | Some Eq => SF2R x = SF2R y /\
               (x = y \/ exists s s', x = S754_zero s /\ y = S754_zero s')
  | Some Gt => SF2R y < SF2R x
  | None => False
  end.
Proof.
  destruct x as [sx| | |sx mx ex], y as [sy| | |sy my ey]; cbn [valid];
    try contradiction; intros Hx Hy; cbn [SFcompare SF2R].
  - split; [reflexivity|]. right. now exists sx, sy.
  - destruct Hy as (-> & _). apply finite_pos.
  - destruct Hx as (-> & _). apply finite_pos.
  - destruct Hx as (-> & Hx & _), Hy as (-> & Hy & _).
    destruct (Z.compare_spec ex ey) as [He|He|He].
    + subst ey. rewrite Pos.compare_cont_spec.
      pose proof (p2_pos ex).
      destruct (Pos.compare_spec mx my) as [Hm|Hm|Hm]; cbn [Pos.switch_Eq].
      * subst my. split; [reflexivity|now left].
      * unfold F2R. assert (IZR (Zpos mx) < IZR (Zpos my))
          by (apply IZR_lt; lia). nra.
      * unfold F2R. assert (IZR (Zpos my) < IZR (Zpos mx))
          by (apply IZR_lt; lia). nra.
    + now apply fits_lt.
    + now apply fits_lt.
Qed.

(** The outcome of a rounding is below every valid float above the
    real it rounds, so it is finite when there is one. *)
Lemma rounds_valid x z y :
  rounds x z -> valid y -> x <= SF2R y ->
  match z with S754_zero _ | S754_finite _ _ _ => True | _ => False end /\
  SF2R z <= SF2R y.
Proof.
  intros (v & N & Hv & Hz) Hy Hxy.
  pose proof (nearest_le x v _ N (valid_fmt y Hy) Hxy) as Hle.
  pose proof (valid_below y Hy).
  destruct z as [s| | |s m e]; cbn [SF2R]; try contradiction.
  - subst v. now split.
  - exfalso. lra.
  - destruct Hz as [-> ->]. now split.
Qed.

Lemma rounds_above x z y :
  rounds x z -> valid y -> SF2R y <= x ->
  match z with S754_zero _ | S754_finite _ _ _ => True | _ => False end ->
  SF2R y <= SF2R z.
Proof.
  intros (v & N & Hv & Hz) Hy Hxy Hfin.
  pose proof (nearest_ge x v _ N (valid_fmt y Hy) Hxy) as Hle.
  destruct z as [s| | |s m e]; cbn [SF2R]; try contradiction.
  - now subst v.
  - now destruct Hz as [-> ->].
Qed.

Lemma rounds_mono x y zx zy :
  rounds x zx -> rounds y zy -> x < y -> valid zy ->
  match zx with S754_zero _ | S754_finite _ _ _ => True | _ => False end /\
  SF2R zx <= SF2R zy.
Proof.
  intros (vx & Nx & Hvx & Hzx) (vy & Ny & Hvy & Hzy) Hxy Hy.
  pose proof (nearest_mono _ _ _ _ Nx Ny Hxy) as Hle.
  pose proof (valid_below zy Hy) as Hb.
  assert (Ey : SF2R zy = vy).
  { destruct zy as [s| | |s m e]; cbn [valid] in Hy; try contradiction.
    - now subst vy.
    - now destruct Hzy as [-> ->]. }
  rewrite Ey in *.
  destruct zx as [s| | |s m e]; cbn [SF2R]; try contradiction.
  - subst vx. now split.
  - exfalso. lra.
  - destruct Hzx as [-> ->]. now split.
Qed.

Lemma rounds_finite x z :
  rounds x z -> match z with S754_zero _ | S754_finite _ _ _ => True
                | _ => False end ->
  MagSpec.nonneg z.
Proof.
  intros (v & _ & _ & H) Hf.
  destruct z as [s| | |s m e]; cbn [MagSpec.nonneg]; try contradiction; tauto.
Qed.

Lemma rounds_exact x z :
  rounds x z -> fmt x -> x < p2 emax ->
  match z with S754_zero _ | S754_finite _ _ _ => True | _ => False end /\
  SF2R z = x.
Proof.
  intros (v & N & Hv & Hz) F Hx.
  pose proof (nearest_exact x v N F) as ->.
  destruct z as [s| | |s m e]; cbn [SF2R]; try contradiction.
  - now split.
  - exfalso. lra.
  - destruct Hz as [-> ->]. now split.
Qed.

Lemma valid_binary_fits s m e :
  SpecFloat.valid_binary prec emax (S754_finite s m e) = true ->
  fits (Zpos m) e /\ (e <= emax - prec)%Z.
Proof.
  cbn [SpecFloat.valid_binary]. unfold SpecFloat.bounded, canonical_mantissa.
  intros H. apply andb_prop in H as [H1 H2].
  apply Z.eqb_eq in H1. apply Z.leb_le in H2.
  change (Zpos (digits2_pos m)) with (dg (Zpos m)) in H1.
  split; [|assumption].
  destruct (fexp_cases (dg (Zpos m) + e)) as [[Hf Hf']|[Hf Hf']].
  - assert (Hd : dg (Zpos m) = prec) by lia.
    pose proof (dg_exact (Zpos m) prec prec_pos ltac:(lia) Hd).
    unfold fits. lia.
  - pose proof (dg_below (Zpos m) prec ltac:(lia) ltac:(lia) ltac:(lia)).
    unfold fits. lia.
Qed.

End Rounding.

(** ** Binary64 numbers as reals *)

Lemma prec_emax : (prec < emax)%Z.
Proof. reflexivity. Qed.

Local Abbreviation rounds64 := (rounds prec emax).

Lemma good_intro a : MagSpec.nonneg (Prim2SF a) -> good a.
Proof.
  unfold good. pose proof (Prim2SF_valid a) as H.
  destruct (Prim2SF a) as [s| | |s m e]; cbn [MagSpec.nonneg valid]; try tauto.
  intros ->. split; [reflexivity|].
  exact (valid_binary_fits prec emax prec_pos _ _ _ H).
Qed.

Lemma good_nonneg a : good a -> MagSpec.nonneg (Prim2SF a).
Proof.
  unfold good. destruct (Prim2SF a); cbn [MagSpec.nonneg valid]; tauto.
Qed.

Lemma good_val a : good a -> 0 <= val a.
Proof. apply valid_nonneg. Qed.

Lemma leb_val a b :
  good a -> good b -> ((a <=? b)%float = true <-> val a <= val b).
Proof.
  intros Ha Hb. rewrite leb_compare.
  pose proof (SFcompare_valid prec emax prec_pos _ _ Ha Hb) as H.
  unfold val.
  destruct (SFcompare (Prim2SF a) (Prim2SF b)) as [[| |]|];
    try contradiction; split; intros; try reflexivity; try discriminate; lra.
Qed.

Lemma ltb_val a b :
  good a -> good b -> ((a <? b)%float = true <-> val a < val b).
Proof.
  intros Ha Hb. rewrite ltb_compare.
  pose proof (SFcompare_valid prec emax prec_pos _ _ Ha Hb) as H.
  unfold val.
  destruct (SFcompare (Prim2SF a) (Prim2SF b)) as [[| |]|];
    try contradiction; split; intros; try reflexivity; try discriminate; lra.
Qed.

(** Valid numbers with the same positive value are the same number. *)
Lemma same_float a b :
  good a -> good b -> val a = val b -> 0 < val a -> a = b.
Proof.
  intros Ha Hb E Hp.
  pose proof (SFcompare_valid prec emax prec_pos _ _ Ha Hb) as H.
  unfold val in *.
  destruct (SFcompare (Prim2SF a) (Prim2SF b)) as [[| |]|];
    try contradiction; try lra.
  destruct H as [_ [H|(s & s' & H1 & H2)]].
  - rewrite <- (SF2Prim_Prim2SF a), <- (SF2Prim_Prim2SF b). now rewrite H.
  - rewrite H1 in Hp. cbn in Hp. lra.
Qed.

Lemma mul_rounds a b :
  good a -> good b -> rounds64 (val a * val b) (Prim2SF (a * b)).
Proof.
  intros Ha Hb. rewrite mul_spec.
  now apply (SFmul_rounds prec emax prec_pos prec_emax).
Qed.

Lemma add_rounds a b :
  good a -> good b -> rounds64 (val a + val b) (Prim2SF (a + b)).
Proof.
  intros Ha Hb. rewrite add_spec.
  now apply (SFadd_rounds prec emax prec_pos prec_emax).
Qed.

Lemma div_rounds a b :
  good a -> good b -> 0 < val b -> rounds64 (val a / val b) (Prim2SF (a / b)).
Proof.
  intros Ha Hb Hp. rewrite div_spec. unfold val in *. unfold good in Hb.
  destruct (Prim2SF b) as [s| | |s m e] eqn:E; cbn [valid] in Hb;
    try contradiction; [cbn in Hp; lra|].
  now apply (SFdiv_rounds prec emax prec_pos prec_emax).
Qed.

(** The result of an operation whose exact result is [x]: it is valid
    and no greater than the result of one whose exact result is a
    greater [y], when that one is valid. *)
Lemma mono_step x y zx zy :
  rounds64 x (Prim2SF zx) -> rounds64 y (Prim2SF zy) -> x < y -> good zy ->
  good zx /\ val zx <= val zy.
Proof.
  intros Hx Hy Hxy Gy.
  destruct (rounds_mono prec emax prec_pos _ _ _ _ Hx Hy Hxy Gy) as [Hf Hle].
  split; [|assumption]. apply good_intro.
  now apply (rounds_finite prec emax x).
Qed.

Lemma exact_step x z :
  rounds64 x (Prim2SF z) -> fmt prec emax x -> x < p2 emax ->
  good z /\ val z = x.
Proof.
  intros Hr F Hx.
  destruct (rounds_exact prec emax _ _ Hr F Hx) as [Hf E].
  split; [|assumption]. apply good_intro.
  now apply (rounds_finite prec emax x).
Qed.

Lemma good_fmt a : good a -> fmt prec emax (val a).
Proof. apply (valid_fmt prec emax prec_pos). Qed.

Lemma good_below a : good a -> val a < p2 emax.
Proof. apply (valid_below prec emax prec_pos). Qed.

Lemma fmt_zero : fmt prec emax 0.
Proof.
  exists 0%Z, (SpecFloat.emin prec emax). unfold F2R.
  split; [simpl; lra|]. split; [split; [lia|reflexivity]|lia].
Qed.

Lemma product_eq A B C D :
  0 <= A <= B -> 0 <= C <= D -> A * C = B * D -> 0 < A * C ->
  A = B /\ C = D.
Proof.
  intros [HA HAB] [HC HCD] E P.
  assert (PA : 0 < A).
  { destruct HA as [|<-]; [assumption|]. rewrite Rmult_0_l in P. lra. }
  assert (PC : 0 < C).
  { destruct HC as [|<-]; [assumption|]. rewrite Rmult_0_r in P. lra. }
  assert (H1 : (B - A) * C = 0).
  { apply Rle_antisym; [|apply Rmult_le_pos; lra].
    replace ((B - A) * C) with (B * (C - D)) by (ring_simplify; lra).
    assert (0 <= B * (D - C)) by (apply Rmult_le_pos; lra). lra. }
  apply Rmult_integral in H1. destruct H1 as [H1|H1]; [|lra].
  assert (EB : A = B) by lra. split; [assumption|].
  subst B. apply Rmult_eq_reg_l with A; lra.
Qed.

Theorem mul_mono a b c d :
  good a -> good b -> good c -> good d ->
  val a <= val b -> val c <= val d -> good (b * d) ->
  good (a * c) /\ val (a * c) <= val (b * d).
Proof.
  intros Ha Hb Hc Hd Hab Hcd Hbd.
  pose proof (good_val a Ha). pose proof (good_val c Hc).
  pose proof (mul_rounds a c Ha Hc) as Rx.
  pose proof (mul_rounds b d Hb Hd) as Ry.
  assert (Hxy : val a * val c <= val b * val d) by nra.
  destruct Hxy as [Hlt|Heq]; [now apply (mono_step _ _ _ _ Rx Ry)|].
  destruct (Rle_lt_or_eq_dec 0 (val a * val c) ltac:(nra)) as [Hp|Hz].
  - destruct (product_eq (val a) (val b) (val c) (val d)) as [Ea Ec];
      try lra.
    assert (0 < val a).
    { destruct H as [|E0]; [assumption|]. rewrite <- E0, Rmult_0_l in Hp. lra. }
    assert (0 < val c).
    { destruct H0 as [|E0]; [assumption|]. rewrite <- E0, Rmult_0_r in Hp. lra. }
    rewrite (same_float a b), (same_float c d); try assumption.
    split; [assumption|lra].
  - rewrite <- Hz in Rx.
    destruct (exact_step _ _ Rx fmt_zero (p2_pos emax)) as [G E].
    split; [assumption|]. rewrite E. now apply good_val.
Qed.

Theorem add_mono a b c d :
  good a -> good b -> good c -> good d ->
  val a <= val b -> val c <= val d -> good (b + d) ->
  good (a + c) /\ val (a + c) <= val (b + d).
Proof.
  intros Ha Hb Hc Hd Hab Hcd Hbd.
  pose proof (good_val a Ha). pose proof (good_val c Hc).
  pose proof (add_rounds a c Ha Hc) as Rx.
  pose proof (add_rounds b d Hb Hd) as Ry.
  assert (Hxy : val a + val c <= val b + val d) by lra.
  destruct Hxy as [Hlt|Heq]; [now apply (mono_step _ _ _ _ Rx Ry)|].
  assert (Ea : val a = val b) by lra.
  assert (Ec : val c = val d) by lra.
  destruct (Rle_lt_or_eq_dec 0 (val a) ltac:(lra)) as [Hpa|Hza];
    destruct (Rle_lt_or_eq_dec 0 (val c) ltac:(lra)) as [Hpc|Hzc].
  - rewrite (same_float a b), (same_float c d); try assumption.
    split; [assumption|lra].
  - (* c and d are zeros: both sums are [a] *)
    assert (Ex : val a + val c = val a) by lra.
    assert (Ey : val b + val d = val a) by lra.
    rewrite Ex in Rx. rewrite Ey in Ry.
    destruct (exact_step _ _ Rx (good_fmt a Ha) (good_below a Ha)) as [G E].
    destruct (exact_step _ _ Ry (good_fmt a Ha) (good_below a Ha)) as [_ E'].
    split; [assumption|lra].
  - assert (Ex : val a + val c = val c) by lra.
    assert (Ey : val b + val d = val c) by lra.
    rewrite Ex in Rx. rewrite Ey in Ry.
    destruct (exact_step _ _ Rx (good_fmt c Hc) (good_below c Hc)) as [G E].
    destruct (exact_step _ _ Ry (good_fmt c Hc) (good_below c Hc)) as [_ E'].
    split; [assumption|lra].
  - assert (Ex : val a + val c = 0) by lra.
    rewrite Ex in Rx.
    destruct (exact_step _ _ Rx fmt_zero (p2_pos emax)) as [G E].
    split; [assumption|]. rewrite E. now apply good_val.
Qed.

Lemma Rdiv_le_mono a b c d :
  0 <= a <= b -> 0 < d <= c -> a / c <= b / d.
Proof.
  intros [Ha Hab] [Hd Hdc].
  apply Rmult_le_reg_r with (c * d); [nra|].
  replace (a / c * (c * d)) with (a * d) by (field; lra).
  replace (b / d * (c * d)) with (b * c) by (field; lra).
  nra.
Qed.

Theorem div_mono a b c d :
  good a -> good b -> good c -> good d ->
  val a <= val b -> 0 < val d -> val d <= val c -> good (b / d) ->
  good (a / c) /\ val (a / c) <= val (b / d).
Proof.
  intros Ha Hb Hc Hd Hab Hd0 Hdc Hbd.
  pose proof (good_val a Ha) as Ha0.
  pose proof (div_rounds a c Ha Hc ltac:(lra)) as Rx.
  pose proof (div_rounds b d Hb Hd Hd0) as Ry.
  pose proof (Rdiv_le_mono (val a) (val b) (val c) (val d)
                ltac:(lra) ltac:(lra)) as Hxy.
  destruct Hxy as [Hlt|Heq]; [now apply (mono_step _ _ _ _ Rx Ry)|].
  destruct (Rle_lt_or_eq_dec 0 (val a) Ha0) as [Hp|Hz].
  - assert (Hx : val a * val d = val b * val c).
    { apply (f_equal (fun t => t * (val c * val d))) in Heq.
      replace (val a / val c * (val c * val d)) with (val a * val d) in Heq
        by (field; lra).
      replace (val b / val d * (val c * val d)) with (val b * val c) in Heq
        by (field; lra).
      exact Heq. }
    destruct (product_eq (val a) (val b) (val d) (val c)) as [Ea Ec];
      try lra.
    { apply Rmult_lt_0_compat; lra. }
    rewrite (same_float a b), (same_float c d); try assumption; try lra.
    split; [assumption|lra].
  - assert (Ex : val a / val c = 0) by (rewrite <- Hz; unfold Rdiv; lra).
    rewrite Ex in Rx.
    destruct (exact_step _ _ Rx fmt_zero (p2_pos emax)) as [G E].
    split; [assumption|]. rewrite E. now apply good_val.
Qed.

Lemma good_one : good 1.
Proof. apply good_intro. vm_compute. reflexivity. Qed.

Lemma val_one : val 1 = 1.
Proof.
  unfold val. replace (Prim2SF 1) with (S754_finite false 4503599627370496 (-52))
    by (vm_compute; reflexivity).
  cbn [SF2R]. unfold F2R, p2. simpl. lra.
Qed.

(** A quotient of a number by a smaller positive one is at least 1. *)
Theorem div_ge_one a b :
  good a -> good b -> 0 < val b -> val b <= val a -> good (a / b) ->
  1 <= val (a / b).
Proof.
  intros Ha Hb Hb0 Hba Hab. rewrite <- val_one.
  apply (rounds_above prec emax prec_pos (val a / val b)).
  - now apply div_rounds.
  - exact good_one.
  - fold (val 1). rewrite val_one.
    apply Rmult_le_reg_r with (val b); [assumption|].
    replace (val a / val b * val b) with (val a) by (field; lra). lra.
  - apply good_nonneg in Hab.
    destruct (Prim2SF (a / b)); cbn [MagSpec.nonneg] in Hab; tauto.
Qed.

(** *** Ordered pairs of valid numbers *)

Ltac good_const := apply good_intro; vm_compute; first [exact I|reflexivity].

Lemma good_zero : good 0.
Proof. good_const. Qed.

Lemma val_zero : val 0 = 0.
Proof. reflexivity. Qed.

Lemma below_refl a : good a -> below a a.
Proof. intros H. split; [assumption|split; [assumption|lra]]. Qed.

Lemma below_trans a b c : below a b -> below b c -> below a c.
Proof. intros (Ha & _ & H1) (_ & Hc & H2). repeat split; try assumption; lra. Qed.

Lemma below_zero a : good a -> below 0 a.
Proof.
  intros H. split; [exact good_zero|split; [assumption|]].
  rewrite val_zero. now apply good_val.
Qed.

(** The comparisons of the language decide the order of valid numbers. *)
Lemma below_leb a b : below a b -> (a <=? b)%float = true.
Proof. intros (Ha & Hb & H). now apply leb_val. Qed.

Lemma leb_below a b :
  (0 <=? a)%float = true -> (a <=? b)%float = true -> good b -> below a b.
Proof.
  intros H0 Hab Hb.
  assert (Ha : good a).
  { apply good_intro. rewrite leb_compare in H0, Hab.
    apply good_nonneg in Hb.
    change (Prim2SF 0) with (S754_zero false) in H0.
    destruct (Prim2SF a) as [s| | |s m e]; cbn [MagSpec.nonneg SFcompare] in *;
      try exact I; try discriminate.
    - destruct s; [discriminate|].
      destruct (Prim2SF b); cbn [MagSpec.nonneg] in Hb; try contradiction;
        discriminate.
    - now destruct s. }
  split; [assumption|split; [assumption|]]. now apply leb_val.
Qed.

Lemma below_mul a b c d :
  below a b -> below c d -> good (b * d) -> below (a * c) (b * d).
Proof.
  intros (Ha & Hb & Hab) (Hc & Hd & Hcd) G.
  destruct (mul_mono a b c d) as [G' H]; try assumption.
  now repeat split.
Qed.

Lemma below_add a b c d :
  below a b -> below c d -> good (b + d) -> below (a + c) (b + d).
Proof.
  intros (Ha & Hb & Hab) (Hc & Hd & Hcd) G.
  destruct (add_mono a b c d) as [G' H]; try assumption.
  now repeat split.
Qed.

Lemma below_div a b c d :
  below a b -> below d c -> positive d -> good (b / d) ->
  below (a / c) (b / d).
Proof.
  unfold positive. intros (Ha & Hb & Hab) (Hd & Hc & Hdc) Hp G.
  destruct (div_mono a b c d) as [G' H]; try assumption.
  now repeat split.
Qed.

Lemma below_to a b c : b = c -> below a b -> below a c.
Proof. now intros ->. Qed.

Lemma val_pos a : good a -> (0 <? a)%float = true -> positive a.
Proof.
  intros Ha H. apply (ltb_val 0 a good_zero Ha) in H.
  now rewrite val_zero in H.
Qed.

Ltac pos_const := apply val_pos; [good_const|vm_compute; reflexivity].

Lemma ltb_below a b : good a -> good b -> (a <? b)%float = true -> below a b.
Proof.
  intros Ha Hb H. apply (ltb_val _ _ Ha Hb) in H.
  split; [assumption|split; [assumption|lra]].
Qed.

Lemma not_ltb_below a b :
  good a -> good b -> (a <? b)%float = false -> below b a.
Proof.
  intros Ha Hb H. split; [assumption|split; [assumption|]].
  destruct (Rle_lt_dec (val b) (val a)) as [|Hc]; [assumption|].
  apply (ltb_val _ _ Ha Hb) in Hc. congruence.
Qed.

(** A quotient by a smaller positive number is at least 1. *)
Lemma one_below_div a b c :
  below c b -> positive c -> below b a -> good (a / b) -> below 1 (a / b).
Proof.
  unfold positive. intros (_ & _ & Hc) Hp (Gb & Ga & Hba) G.
  split; [exact good_one|split; [assumption|]].
  rewrite val_one. apply div_ge_one; try assumption. lra.
Qed.

(** *** Math.floor *)

(** On a valid number below [2^53], [Math.floor] gives the integer at or
    just below it. *)
Lemma floor_spec x :
  good x -> val x < IZR (2 ^ 53) ->
  exists q : Z, good (Js.floor x) /\ val (Js.floor x) = IZR q /\
                IZR q <= val x < IZR q + 1.
Proof.
  intros Hx Hb. unfold Js.floor, val in *. unfold good in Hx.
  destruct (Prim2SF x) as [s| | |s m e] eqn:E; cbn [valid] in Hx;
    try contradiction.
  - exists 0%Z. unfold good. rewrite E. cbn. repeat split; lra.
  - destruct Hx as (-> & Hf & He). cbn [SF2R] in *.
    destruct (Z.leb_spec 0 e) as [He0|He0].
    + exists (Zpos m * 2 ^ e)%Z. unfold good. rewrite E. cbn [valid SF2R].
      unfold F2R. rewrite mult_IZR, <- p2_Z by assumption.
      split; [split; [reflexivity|split; assumption]|split; [reflexivity|lra]].
    + set (q := Z.shiftr (Zpos m) (- e)).
      assert (Hq : q = (Zpos m / 2 ^ (- e))%Z)
        by (apply Z.shiftr_div_pow2; lia).
      assert (Hp : (0 < 2 ^ (- e))%Z) by (apply Z.pow_pos_nonneg; lia).
      pose proof (Z.div_mod (Zpos m) (2 ^ (- e)) ltac:(lia)) as Hdm.
      pose proof (Z.mod_pos_bound (Zpos m) (2 ^ (- e)) Hp) as Hr.
      rewrite <- Hq in Hdm.
      assert (Hq0 : (0 <= q)%Z) by (rewrite Hq; apply Z.div_pos; lia).
      destruct Hf as ((_ & Hm) & _).
      assert (Hq53 : (q < 2 ^ 53)%Z).
      { change prec with 53%Z in Hm. nia. }
      exists q.
      assert (Hloc : IZR q <= F2R (Zpos m) e < IZR q + 1).
      { unfold F2R. rewrite Hdm at 1 2.
        rewrite plus_IZR, mult_IZR, <- p2_Z by lia.
        assert (Hinv : p2 (- e) * p2 e = 1)
          by (rewrite <- p2_add, Z.add_opp_diag_l; reflexivity).
        pose proof (p2_pos e) as Hpe.
        assert (H0 : 0 <= IZR (Zpos m mod 2 ^ (- e))) by (apply IZR_le; lia).
        assert (H1 : IZR (Zpos m mod 2 ^ (- e)) < p2 (- e))
          by (rewrite p2_Z by lia; apply IZR_lt; lia).
        replace ((p2 (- e) * IZR q + IZR (Zpos m mod 2 ^ (- e))) * p2 e)
          with (IZR q * (p2 (- e) * p2 e) + IZR (Zpos m mod 2 ^ (- e)) * p2 e)
          by ring.
        rewrite Hinv. split; [nra|].
        assert (IZR (Zpos m mod 2 ^ (- e)) * p2 e < p2 (- e) * p2 e) by nra.
        lra. }
      assert (Hs : Prim2SF (Js.of_Z q) = binary_normalize prec emax q 0 false).
      { unfold Js.of_Z. rewrite of_uint63_spec, Uint63.of_Z_spec.
        rewrite Z.mod_small; [reflexivity|].
        split; [assumption|]. apply Z.lt_trans with (2 ^ 53)%Z; [assumption|].
        reflexivity. }
      destruct q as [|p|p] eqn:Eq; try lia.
      * unfold good. rewrite Hs. cbn.
        split; [exact I|split; [reflexivity|exact Hloc]].
      * pose proof (binary_round_rounds prec emax prec_pos prec_emax p 0) as R.
        cbn [binary_normalize] in Hs. rewrite <- Hs in R.
        assert (F : fmt prec emax (F2R (Zpos p) 0)).
        { exists (Zpos p), 0%Z. split; [reflexivity|].
          change prec with 53%Z. split; [lia|]. now vm_compute. }
        assert (B : F2R (Zpos p) 0 < p2 emax).
        { unfold F2R. rewrite p2_0, Rmult_1_r.
          apply Rlt_trans with (IZR (2 ^ 53)); [apply IZR_lt; assumption|].
          rewrite (p2_Z emax) by now vm_compute. apply IZR_lt. reflexivity. }
        destruct (exact_step _ _ R F B) as [G V].
        split; [assumption|]. unfold val in V. rewrite V.
        unfold F2R. rewrite p2_0, Rmult_1_r. split; [reflexivity|assumption].
Qed.

Lemma val_100 : val 100 = 100.
Proof.
  unfold val.
  replace (Prim2SF 100) with (S754_finite false 7036874417766400 (-46))
    by (vm_compute; reflexivity).
  cbn [SF2R]. unfold F2R, p2. simpl. lra.
Qed.

Lemma val_2100 : val 2100 = 2100.
Proof.
  unfold val.
  replace (Prim2SF 2100) with (S754_finite false 4617948836659200 (-41))
    by (vm_compute; reflexivity).
  cbn [SF2R]. unfold F2R, p2. simpl. lra.
Qed.

Lemma floor_range x :
  below 100 x -> below x 2100 ->
  below 100 (Js.floor x) /\ below (Js.floor x) 2100.
Proof.
  intros (G100 & Gx & Hlo) (_ & G2100 & Hhi).
  rewrite val_100 in Hlo. rewrite val_2100 in Hhi.
  assert (Hb : val x < IZR (2 ^ 53)).
  { apply Rle_lt_trans with 2100; [assumption|]. apply IZR_lt. reflexivity. }
  destruct (floor_spec x Gx Hb) as (q & G & V & Hq1 & Hq2).
  assert (Hq : (100 <= q)%Z).
  { assert (IZR 99 < IZR q) by lra. apply lt_IZR in H. lia. }
  apply IZR_le in Hq.
  split; (split; [|split]); try assumption.
  - rewrite val_100, V. assumption.
  - rewrite val_2100, V. lra.
Qed.

End Real64Facts.

(** ** Contrast *)

Section Contrast.

Context {engine : Engine} {laws : GammaLaws engine}.

Import Real64 Real64Facts.

Lemma linearize_unit v :
  (0 <=? v) = true -> (v <=? 255) = true ->
  below (linearizeRgbChannel v) 1.
Proof.
  intros H0 H1.
  assert (Hv : below v 255) by (apply leb_below; [assumption..|good_const]).
  assert (Hr : below (v / 255) 1).
  { apply (below_to _ (255 / 255)); [reflexivity|].
    apply below_div; [assumption|apply below_refl; good_const|pos_const|
                      good_const]. }
  unfold linearizeRgbChannel.
  destruct (v / 255 <? 0.04045).
  - apply below_trans with (1 / 12.92).
    + apply below_div; [assumption|apply below_refl; good_const|pos_const|
                        good_const].
    + apply leb_below; [reflexivity|reflexivity|good_const].
  - assert (Hw : below ((v / 255 + 0.055) / 1.055) 1).
    { apply (below_to _ ((1 + 0.055) / 1.055)); [reflexivity|].
      apply below_div; [|apply below_refl; good_const|pos_const|good_const].
      apply below_add; [assumption|apply below_refl; good_const|good_const]. }
    destruct (gamma_unit ((v / 255 + 0.055) / 1.055)) as [G0 G1].
    + apply below_leb, below_zero, Hw.
    + now apply below_leb.
    + apply leb_below; [assumption|assumption|good_const].
Qed.

Lemma luminance_unit c : inGamut c = true -> below (getLuminance c) 1.
Proof.
  unfold inGamut. intros H.
  repeat (apply andb_prop in H; destruct H as [H ?]).
  pose proof (linearize_unit (rgb_r c) ltac:(assumption) ltac:(assumption)).
  pose proof (linearize_unit (rgb_g c) ltac:(assumption) ltac:(assumption)).
  pose proof (linearize_unit (rgb_b c) ltac:(assumption) ltac:(assumption)).
  unfold getLuminance. cbv zeta.
  apply (below_to _ (0.2126 * 1 + 0.7152 * 1 + 0.0722 * 1)); [reflexivity|].
  apply below_add; [apply below_add| |]; try good_const;
    (apply below_mul; [apply below_refl; good_const|assumption|good_const]).
Qed.

(** The ratio of the lighter to the darker, each offset by 0.05. *)
Lemma ratio_below hi lo :
  below lo hi -> below hi 1 ->
  below 1 ((hi + 0.05) / (lo + 0.05)) /\
  below ((hi + 0.05) / (lo + 0.05)) 21.
Proof.
  intros Hlo Hhi.
  assert (Ha : below (hi + 0.05) (1 + 0.05))
    by (apply below_add; [assumption|apply below_refl; good_const|good_const]).
  assert (Hb : below (lo + 0.05) (hi + 0.05))
    by (apply below_add; [assumption|apply below_refl; good_const|apply Ha]).
  assert (Hc : below (0 + 0.05) (lo + 0.05)).
  { apply below_add; [apply below_zero, Hlo|apply below_refl; good_const|
                      apply Hb]. }
  assert (Hp : positive (0 + 0.05)) by pos_const.
  assert (Hq : below ((hi + 0.05) / (lo + 0.05)) 21).
  { apply (below_to _ ((1 + 0.05) / (0 + 0.05))); [reflexivity|].
    apply below_div; [assumption|assumption|assumption|good_const]. }
  split; [|assumption].
  apply (one_below_div _ _ (0 + 0.05)); try assumption. apply Hq.
Qed.

Lemma getContrast_below c1 c2 :
  inGamut c1 = true -> inGamut c2 = true ->
  below 1 (getContrast c1 c2) /\ below (getContrast c1 c2) 21.
Proof.
  intros H1 H2.
  pose proof (luminance_unit c1 H1) as L1.
  pose proof (luminance_unit c2 H2) as L2.
  unfold getContrast. cbv zeta.
  destruct (getLuminance c2 <? getLuminance c1) eqn:E;
    apply ratio_below; try assumption.
  - apply ltb_below; [apply L2|apply L1|assumption].
  - apply not_ltb_below; [apply L2|apply L1|assumption].
Qed.

(** Flooring to two digits keeps the range. *)
Lemma contrast_below c1 c2 :
  inGamut c1 = true -> inGamut c2 = true ->
  below 1 (contrast c1 c2) /\ below (contrast c1 c2) 21.
Proof.
  intros H1 H2.
  destruct (getContrast_below c1 c2 H1 H2) as [Hlo Hhi].
  unfold contrast, floor. cbv zeta.
  change (Js.pow10 2) with 100.
  set (c := getContrast c1 c2) in *.
  assert (G100 : below 100 100) by (apply below_refl; good_const).
  assert (P100 : positive 100) by pos_const.
  assert (B1 : below (100 * c) 2100).
  { apply (below_to _ (100 * 21)); [reflexivity|].
    apply below_mul; [assumption|assumption|good_const]. }
  assert (B2 : below 100 (100 * c)).
  { change 100 with (100 * 1) at 1.
    apply below_mul; [assumption|assumption|apply B1]. }
  destruct (floor_range _ B2 B1) as [F2 F1].
  set (f := Js.floor (100 * c)) in *.
  assert (D1 : below (f / 100) (2100 / 100))
    by (apply below_div; [assumption|assumption|assumption|good_const]).
  assert (D2 : below (100 / 100) (f / 100))
    by (apply below_div; [assumption|assumption|assumption|apply D1]).
  assert (Z0 : below 0 0) by (apply below_refl; good_const).
  assert (A1 : below (f / 100 + 0) (2100 / 100 + 0))
    by (apply below_add; [assumption|assumption|good_const]).
  assert (A2 : below (100 / 100 + 0) (f / 100 + 0))
    by (apply below_add; [assumption|assumption|apply A1]).
  split; [exact A2|exact A1].
Qed.

Lemma linearize_255 : linearizeRgbChannel 255 = 1.
Proof.
  unfold linearizeRgbChannel. cbv zeta.
  change (255 / 255 <? 0.04045) with false. cbv iota.
  change ((255 / 255 + 0.055) / 1.055) with 1.
  apply gamma_one.
Qed.

Lemma linearize_0 : linearizeRgbChannel 0 = 0.
Proof. reflexivity. Qed.

Lemma luminance_white : getLuminance white = 1.
Proof.
  unfold getLuminance, white. cbn [rgb_r rgb_g rgb_b]. cbv zeta.
  rewrite linearize_255. reflexivity.
Qed.

Lemma luminance_black : getLuminance black = 0.
Proof.
  unfold getLuminance, black. cbn [rgb_r rgb_g rgb_b]. cbv zeta.
  rewrite linearize_0. reflexivity.
Qed.

Lemma contrast_white_white : contrast white white = 1.
Proof.
  unfold contrast, getContrast. cbv zeta. rewrite luminance_white.
  reflexivity.
Qed.

Lemma contrast_white_black : contrast white black = 21.
Proof.
  unfold contrast, getContrast. cbv zeta.
  rewrite luminance_white, luminance_black. reflexivity.
Qed.

End Contrast.

Lemma squareEngine_laws : GammaLaws squareEngine.
Proof.
  split; [reflexivity|].
  intros x H0 H1. cbn [Math_pow squareEngine].
  assert (Hx : Real64.below x 1)
    by (apply Real64Facts.leb_below; [assumption|assumption|exact Real64Facts.good_one]).
  assert (Hxx : Real64.below (x * x) (1 * 1))
    by (apply Real64Facts.below_mul; [assumption|assumption|Real64Facts.good_const]).
  split.
  - apply Real64Facts.below_leb, Real64Facts.below_zero, Hxx.
  - apply (Real64Facts.below_leb _ _ Hxx).
Qed.

(** C7.  On an engine whose power function obeys the laws of the
    transfer curve, for all colours with channels between 0 and 255:
    the ratio [(L_lighter + 0.05) / (L_darker + 0.05)] lies in [1, 21],
    and so does the published contrast, its floor at two digits; the
    contrast of white with white is 1, and that of white with black is
    21 exactly. *)
Theorem contrast_range {engine : Engine} (laws : GammaLaws engine)
    (c1 c2 : RgbaColor) :
  inGamut c1 = true -> inGamut c2 = true ->
  ((1 <=? getContrast c1 c2) = true /\ (getContrast c1 c2 <=? 21) = true) /\
  ((1 <=? contrast c1 c2) = true /\ (contrast c1 c2 <=? 21) = true) /\
  contrast white white = 1 /\
  contrast white black = 21.
Proof.
  intros H1 H2.
  destruct (getContrast_below c1 c2 H1 H2) as [G1 G2].
  destruct (contrast_below c1 c2 H1 H2) as [K1 K2].
  split; [split; now apply Real64Facts.below_leb|].
  split; [split; now apply Real64Facts.below_leb|].
  split; [apply contrast_white_white|apply contrast_white_black].
Qed.

Lemma contrast_range_witness :
  let red := mkRgba 255 0 0 1 in
  let blue := mkRgba 0 0 255 0.5 in
  ((1 <=? @getContrast squareEngine red blue) = true /\
   (@getContrast squareEngine red blue <=? 21) = true) /\
  ((1 <=? @contrast squareEngine red blue) = true /\
   (@contrast squareEngine red blue <=? 21) = true) /\
  @contrast squareEngine white white = 1 /\
  @contrast squareEngine white black = 21.
Proof.
  exact (contrast_range squareEngine_laws (mkRgba 255 0 0 1)
           (mkRgba 0 0 255 0.5) eq_refl eq_refl).
Defined.

(** * Further properties of the conversions *)

(** ** Comparisons that end in equality *)

Lemma SFcompare_Eq x y :
  SFcompare x y = Some Eq -> x = y \/ (isZero x = true /\ isZero y = true).
Proof.
  destruct x as [s|s| |s m e], y as [s'|s'| |s' m' e']; cbn;
    try discriminate; try (destruct s; discriminate);
    try (destruct s'; discriminate); auto.
  - destruct s, s'; try discriminate; auto.
  - destruct s, s'; try discriminate;
      destruct (Z.compare_spec e e') as [He|He|He]; try discriminate;
      intros H; left; subst e'; f_equal.
    + apply Pos.compare_eq. unfold Pos.compare.
      destruct (PosDef.Pos.compare_cont Eq m m'); try discriminate.
      reflexivity.
    + apply Pos.compare_eq. injection H as H. exact H.
Qed.

(** A number that is at least [hi], itself above 0, is clamped to
    [hi]. *)
Lemma clamp_top x hi :
  (hi <=? x) = true -> (0 <? hi) = true -> clamp x 0 hi = hi.
Proof.
  intros H L. unfold clamp.
  destruct (hi <? x) eqn:E; [reflexivity|].
  rewrite leb_compare in H. rewrite ltb_compare in E.
  destruct (SFcompare (Prim2SF hi) (Prim2SF x)) as [[| |]|] eqn:C;
    try discriminate.
  apply SFcompare_Eq in C. destruct C as [C|[Z1 Z2]].
  - assert (x = hi) as -> by (apply Prim2SF_inj; symmetry; exact C).
    now rewrite L.
  - exfalso. rewrite ltb_compare in L.
    change (Prim2SF 0) with (S754_zero false) in L.
    destruct (Prim2SF hi) as [s| | |]; try discriminate.
Qed.

(** Adding [+0] never leaves a negative zero. *)
Lemma add_zero_sign y : Prim2SF (y + 0) <> S754_zero true.
Proof.
  rewrite add_spec. change (Prim2SF 0) with (S754_zero false).
  destruct (Prim2SF y) as [[|]|s| |s m e]; cbn; discriminate.
Qed.

Lemma ltb_irrefl x : (x <? x) = false.
Proof.
  rewrite ltb_compare.
  pose proof (SFcompare_swap (Prim2SF x) (Prim2SF x)) as Hs.
  destruct (SFcompare (Prim2SF x) (Prim2SF x)) as [[| |]|];
    try reflexivity; discriminate.
Qed.

Lemma ltb_asym x y : (x <? y) = true -> (y <? x) = false.
Proof.
  rewrite !ltb_compare, (SFcompare_swap (Prim2SF x) (Prim2SF y)).
  destruct (SFcompare (Prim2SF x) (Prim2SF y)) as [[| |]|];
    try discriminate; reflexivity.
Qed.

(** Clamping what is clamped changes nothing. *)
Lemma clamp_idem x hi :
  (0 <? hi) = true -> clamp (clamp x 0 hi) 0 hi = clamp x 0 hi.
Proof.
  intros H. unfold clamp.
  destruct (hi <? x) eqn:E1.
  - now rewrite ltb_irrefl, H.
  - destruct (0 <? x) eqn:E2.
    + now rewrite E1, E2.
    + now rewrite (ltb_asym 0 hi H), ltb_irrefl.
Qed.

(** ** More of binary64 over the reals *)

Module Real64More.

Import Reals Lra.
Import Real64 Real64Facts.

Local Open Scope R_scope.

Section Validity.

Variables prec emax : Z.
Hypothesis prec_pos : (0 < prec)%Z.
Hypothesis prec_emax : (prec < emax)%Z.

Local Abbreviation emin := (SpecFloat.emin prec emax).
Local Abbreviation fexp := (SpecFloat.fexp prec emax).
Local Abbreviation fits := (Real64.fits prec emax).
Local Abbreviation valid := (Real64.valid prec emax).
Local Abbreviation rounds := (Real64.rounds prec emax).

(** Every location is the location of some real. *)
Lemma located_inhabited m l :
  exists u, located u (shr_record_of_loc m l).
Proof.
  destruct l as [|[| |]]; unfold located; cbn.
  - exists (IZR m). reflexivity.
  - exists (IZR m + / 2). reflexivity.
  - exists (IZR m + / 4). lra.
  - exists (IZR m + 3 / 4). lra.
Qed.

Lemma shr_fexp_fits m e l :
  (0 <= m)%Z -> (e <= fexp (dg m + e))%Z ->
  let '(mrs, e') := shr_fexp prec emax m e l in fits (shr_m mrs) e'.
Proof.
  intros Hm He. destruct (located_inhabited m l) as [u Hu].
  pose proof (p2_pos e) as Hp.
  pose proof (shr_fexp_located prec emax prec_pos m e l (u * p2 e) Hm He) as H.
  replace (u * p2 e / p2 e) with u in H by (field; lra).
  specialize (H Hu).
  destruct (shr_fexp prec emax m e l) as [mrs e']. apply H.
Qed.

Lemma round_nearest_even_range m l :
  (m <= round_nearest_even m l <= m + 1)%Z.
Proof.
  destruct l as [|[| |]]; cbn [round_nearest_even]; try lia.
  destruct (Z.even m); lia.
Qed.

Lemma fits_canonical m e :
  fits (Zpos m) e -> canonical_mantissa prec emax m e = true.
Proof.
  intros H. pose proof (fits_dg prec emax prec_pos _ _ H) as [Hd Hc].
  destruct H as (_ & He & _).
  unfold canonical_mantissa. apply Z.eqb_eq.
  change (Zpos (digits2_pos m)) with (dg (Zpos m)).
  unfold SpecFloat.fexp. destruct Hc; lia.
Qed.

(** Rounding always yields a float of the format. *)
Lemma binary_round_aux_valid sx m e l :
  (0 <= m)%Z -> (e <= fexp (dg m + e))%Z ->
  SpecFloat.valid_binary prec emax (binary_round_aux prec emax sx m e l) = true.
Proof.
  intros Hm He. unfold binary_round_aux.
  pose proof (shr_fexp_fits m e l Hm He) as H1.
  destruct (shr_fexp prec emax m e l) as [mrs1 e1].
  pose proof (carry_fits prec emax prec_pos _ _ e1 H1
                (round_nearest_even_range (shr_m mrs1) (loc_of_shr_record mrs1)))
    as H2.
  destruct (shr_fexp prec emax _ e1 loc_Exact) as [mrs2 e2].
  destruct H2 as [_ H2].
  destruct (shr_m mrs2) as [|p|p] eqn:E; try reflexivity.
  destruct (e2 <=? emax - prec)%Z eqn:Hb; [|reflexivity].
  cbn [SpecFloat.valid_binary]. unfold SpecFloat.bounded.
  now rewrite fits_canonical, Hb.
Qed.

Lemma binary_round_valid sx m e :
  SpecFloat.valid_binary prec emax (binary_round prec emax sx m e) = true.
Proof.
  unfold binary_round. change (Zpos (digits2_pos m)) with (dg (Zpos m)).
  pose proof (MagSpecFacts.shl_align_spec m e (fexp (dg (Zpos m) + e))) as Hs.
  pose proof (MagSpecFacts.shl_align_dg m e (fexp (dg (Zpos m) + e))) as Hd.
  destruct (shl_align m e (fexp (dg (Zpos m) + e))) as [m' e'].
  destruct Hs as (He' & Hm' & Hex).
  apply binary_round_aux_valid; [lia|].
  rewrite Hd.
  destruct (Z_le_gt_dec (fexp (dg (Zpos m) + e)) e) as [Hc|Hc]; [|lia].
  rewrite (Hex Hc). lia.
Qed.

Lemma F2R_align m e ez :
  (ez <= e)%Z -> F2R (m * 2 ^ (e - ez)) ez = F2R m e.
Proof.
  intros H. rewrite <- (F2R_shift m e (e - ez)) by lia. f_equal. lia.
Qed.

(** A number minus a smaller one: the sum with the opposite rounds the
    real difference. *)
Lemma SFadd_opp_rounds x y :
  valid x -> valid y -> SF2R x <= SF2R y ->
  rounds (SF2R y - SF2R x) (SFadd prec emax (SFopp x) y).
Proof.
  destruct x as [sx| | |sx mx ex], y as [sy| | |sy my ey]; cbn [Real64.valid];
    try contradiction; intros Hx Hy Hle.
  - cbn [SFopp SFadd SF2R]. rewrite Rminus_0_r.
    destruct (negb sx), sy; apply (rounds_zero prec emax prec_pos).
  - cbn [SFopp SFadd]. replace (SF2R (S754_zero sx)) with 0 by reflexivity.
    rewrite Rminus_0_r. now apply (rounds_self prec emax prec_pos).
  - exfalso. destruct Hx as (-> & _). cbn [SF2R] in Hle.
    pose proof (finite_pos mx ex). lra.
  - destruct Hx as (-> & Hx & _), Hy as (-> & Hy & _).
    cbn [SFopp negb SFadd SF2R cond_Zopp] in *.
    set (ez := IntDef.Z.min ex ey).
    assert (Hez : ez = Z.min ex ey) by reflexivity.
    pose proof (MagSpecFacts.shl_align_spec mx ex ez) as H1.
    pose proof (MagSpecFacts.shl_align_spec my ey ez) as H2.
    destruct (shl_align mx ex ez) as [m1 e1], (shl_align my ey ez) as [m2 e2].
    destruct H1 as (_ & Hm1 & He1), H2 as (_ & Hm2 & He2).
    specialize (He1 ltac:(lia)). specialize (He2 ltac:(lia)). subst e1 e2.
    cbn [fst].
    assert (E1 : F2R (Zpos mx) ex = F2R (Zpos m1) ez).
    { rewrite Hm1. symmetry. apply F2R_align. lia. }
    assert (E2 : F2R (Zpos my) ey = F2R (Zpos m2) ez).
    { rewrite Hm2. symmetry. apply F2R_align. lia. }
    rewrite E1, E2 in *.
    assert (Hd : F2R (Zpos m2) ez - F2R (Zpos m1) ez = F2R (Zpos m2 - Zpos m1) ez).
    { unfold F2R. rewrite minus_IZR. ring. }
    rewrite Hd.
    assert (Hge : (Zpos m1 <= Zpos m2)%Z).
    { unfold F2R in Hle. pose proof (p2_pos ez).
      apply le_IZR. nra. }
    match goal with
    | |- context [binary_normalize _ _ ?d _ _] =>
        replace d with (Zpos m2 - Zpos m1)%Z by (simpl; lia)
    end.
    destruct (Zpos m2 - Zpos m1)%Z as [|p|p] eqn:Ed; try lia.
    + cbn [binary_normalize]. unfold F2R. rewrite Rmult_0_l.
      apply (rounds_zero prec emax prec_pos).
    + cbn [binary_normalize].
      apply (binary_round_rounds prec emax prec_pos prec_emax).
Qed.


(** A number minus a smaller one rounds the real difference. *)
Lemma SFsub_rounds x y :
  valid x -> valid y -> SF2R y <= SF2R x ->
  rounds (SF2R x - SF2R y) (SFsub prec emax x y).
Proof.
  destruct x as [sx| | |sx mx ex], y as [sy| | |sy my ey]; cbn [Real64.valid];
    try contradiction; intros Hx Hy Hle.
  - cbn [SFsub SF2R]. rewrite Rminus_0_r.
    destruct sx, sy; apply (rounds_zero prec emax prec_pos).
  - exfalso. destruct Hy as (-> & _). cbn [SF2R] in Hle.
    pose proof (finite_pos my ey). lra.
  - cbn [SFsub]. replace (SF2R (S754_zero sy)) with 0 by reflexivity.
    rewrite Rminus_0_r. now apply (rounds_self prec emax prec_pos).
  - destruct Hx as (-> & Hx & _), Hy as (-> & Hy & _).
    cbn [SFsub SF2R cond_Zopp] in *.
    set (ez := IntDef.Z.min ex ey).
    assert (Hez : ez = Z.min ex ey) by reflexivity.
    pose proof (MagSpecFacts.shl_align_spec mx ex ez) as H1.
    pose proof (MagSpecFacts.shl_align_spec my ey ez) as H2.
    destruct (shl_align mx ex ez) as [m1 e1], (shl_align my ey ez) as [m2 e2].
    destruct H1 as (_ & Hm1 & He1), H2 as (_ & Hm2 & He2).
    specialize (He1 ltac:(lia)). specialize (He2 ltac:(lia)). subst e1 e2.
    cbn [fst].
    assert (E1 : F2R (Zpos mx) ex = F2R (Zpos m1) ez).
    { rewrite Hm1. symmetry. apply F2R_align. lia. }
    assert (E2 : F2R (Zpos my) ey = F2R (Zpos m2) ez).
    { rewrite Hm2. symmetry. apply F2R_align. lia. }
    rewrite E1, E2 in *.
    assert (Hd : F2R (Zpos m1) ez - F2R (Zpos m2) ez = F2R (Zpos m1 - Zpos m2) ez).
    { unfold F2R. rewrite minus_IZR. ring. }
    rewrite Hd.
    assert (Hge : (Zpos m2 <= Zpos m1)%Z).
    { unfold F2R in Hle. pose proof (p2_pos ez).
      apply le_IZR. nra. }
    match goal with
    | |- context [binary_normalize _ _ ?d _ _] =>
        replace d with (Zpos m1 - Zpos m2)%Z by (simpl; lia)
    end.
    destruct (Zpos m1 - Zpos m2)%Z as [|p|p] eqn:Ed; try lia.
    + cbn [binary_normalize]. unfold F2R. rewrite Rmult_0_l.
      apply (rounds_zero prec emax prec_pos).
    + cbn [binary_normalize].
      apply (binary_round_rounds prec emax prec_pos prec_emax).
Qed.

End Validity.

(** ** The range of [clampHue] *)

Lemma isFinite_cases x :
  Js.isFinite x = true ->
  match Prim2SF x with
  | S754_zero _ | S754_finite _ _ _ => True
  | _ => False
  end.
Proof.
  unfold Js.isFinite, is_finite, is_nan, is_infinity.
  rewrite !eqb_spec, abs_spec.
  change (Prim2SF infinity) with (S754_infinity false).
  destruct (Prim2SF x) as [s|[|]| |s m e]; try exact (fun _ => I);
    cbn; discriminate.
Qed.

Lemma good_360 : good 360.
Proof. good_const. Qed.

(** A number whose magnitude rounds a real at most 360. *)
Lemma rounds_good x zs :
  rounds prec emax x zs -> x <= val 360 ->
  SpecFloat.valid_binary prec emax zs = true ->
  good (SF2Prim zs) /\ val (SF2Prim zs) <= val 360 /\
  Prim2SF (SF2Prim zs) = zs.
Proof.
  intros Hr Hx Hv.
  pose proof (Prim2SF_SF2Prim zs Hv) as E.
  destruct (rounds_valid prec emax prec_pos x zs (Prim2SF 360) Hr good_360 Hx)
    as [Hf Hle].
  unfold good, val. rewrite E. split; [|split; [assumption|reflexivity]].
  destruct Hr as (v & _ & _ & Hz).
  destruct zs as [s| | |s m e]; cbn [valid]; try contradiction; [exact I|].
  destruct Hz as [-> _]. split; [reflexivity|].
  now apply (valid_binary_fits prec emax prec_pos false).
Qed.

Lemma positive_360 : positive 360.
Proof. pos_const. Qed.

(** The remainder by 360 of a finite number is, up to its sign, a valid
    number below 360. *)
Lemma rem_360 x :
  Js.isFinite x = true ->
  exists a, good a /\ val a < val 360 /\
            (Js.rem x 360 = a \/ Js.rem x 360 = (- a)%float).
Proof.
  intros Hfin. apply isFinite_cases in Hfin. unfold Js.rem.
  pose proof positive_360 as P360. unfold positive in P360.
  pose proof (Prim2SF_valid x) as Vx.
  destruct (Prim2SF x) as [s| | |sx mx ex] eqn:Ex; try contradiction.
  - exists x. split; [unfold good; rewrite Ex; exact I|].
    split; [|now left].
    unfold val at 1. rewrite Ex. exact P360.
  - change (Prim2SF 360) with (S754_finite false 6333186975989760 (-44)).
    cbv iota beta.
    set (my := 6333186975989760%positive). set (ey := (-44)%Z).
    set (e := Z.min ex ey).
    assert (He : (e <= ex /\ e <= ey)%Z) by (unfold e; lia).
    rewrite !Z.shiftl_mul_pow2 by lia.
    set (nx := (Zpos mx * 2 ^ (ex - e))%Z).
    set (ny := (Zpos my * 2 ^ (ey - e))%Z).
    assert (Hnx : (0 < nx)%Z)
      by (unfold nx; apply Z.mul_pos_pos; [lia|apply Z.pow_pos_nonneg; lia]).
    assert (Hny : (0 < ny)%Z)
      by (unfold ny; apply Z.mul_pos_pos; [lia|apply Z.pow_pos_nonneg; lia]).
    pose proof (Z.rem_bound_pos nx ny ltac:(lia) Hny) as Hr.
    pose proof (Z.rem_le nx ny ltac:(lia) Hny) as Hr'.
    assert (V360 : val 360 = F2R ny e).
    { unfold ny. rewrite F2R_align by lia. reflexivity. }
    destruct (Z.rem nx ny) as [|p|p] eqn:Er; try lia.
    + exists 0%float. split; [exact good_zero|]. split.
      * rewrite val_zero. exact P360.
      * destruct sx; [right|left]; reflexivity.
    + pose proof (binary_round_rounds prec emax prec_pos prec_emax p e) as R.
      pose proof (binary_round_valid prec emax prec_pos false p e) as V.
      assert (Hx : F2R (Zpos p) e < val 360).
      { rewrite V360. unfold F2R. pose proof (p2_pos e).
        assert (IZR (Zpos p) < IZR ny) by (apply IZR_lt; lia). nra. }
      destruct (rounds_good _ _ R (Rlt_le _ _ Hx) V) as (G & _ & E).
      (* the remainder is a number of the format: nothing is rounded *)
      destruct (valid_binary_fits prec emax prec_pos _ _ _ Vx)
        as (((_ & Hmx) & Hex & _) & _).
      assert (F : fmt prec emax (F2R (Zpos p) e)).
      { exists (Zpos p), e. split; [reflexivity|]. split.
        - split; [lia|].
          destruct (Z.min_spec ex ey) as [[_ Hm]|[_ Hm]]; fold e in Hm.
          + apply Z.le_lt_trans with nx; [assumption|].
            unfold nx. rewrite Hm, Z.sub_diag, Z.mul_1_r. assumption.
          + apply Z.lt_trans with ny; [lia|].
            unfold ny. rewrite Hm, Z.sub_diag, Z.mul_1_r. reflexivity.
        - destruct (Z.min_spec ex ey) as [[_ Hm]|[_ Hm]]; fold e in Hm;
            rewrite Hm; [assumption|].
          unfold ey. discriminate. }
      assert (B : F2R (Zpos p) e < p2 emax)
        by (apply Rlt_trans with (val 360); [assumption|apply good_below, good_360]).
      rewrite <- E in R.
      destruct (exact_step _ _ R F B) as [_ Ev].
      exists (SF2Prim (binary_round prec emax false p e)).
      split; [assumption|split; [now rewrite Ev|]].
      destruct sx; [right|left].
      * cbn [Z.opp binary_normalize].
        change true with (negb false).
        rewrite (binary_round_opp prec emax false p e).
        rewrite <- E at 1. rewrite <- opp_spec. apply SF2Prim_Prim2SF.
      * reflexivity.
Qed.

Lemma ltb_zero_opp a : good a -> (0 <? - a)%float = false.
Proof.
  intros Ha. rewrite ltb_compare, opp_spec.
  change (Prim2SF 0) with (S754_zero false).
  unfold good in Ha.
  destruct (Prim2SF a) as [s| | |s m e]; cbn [valid] in Ha; try contradiction.
  - reflexivity.
  - destruct Ha as (-> & _). reflexivity.
Qed.

(** Every valid number is an integer multiple of the least positive
    one. *)
Lemma good_grid a : good a -> exists k : Z, val a = IZR k * p2 (SpecFloat.emin prec emax).
Proof.
  intros Ha. destruct (good_fmt a Ha) as (m & e & -> & _ & He).
  exists (m * 2 ^ (e - SpecFloat.emin prec emax))%Z.
  rewrite <- (F2R_align m e (SpecFloat.emin prec emax)) by assumption. reflexivity.
Qed.

Lemma ulp_valid : valid prec emax (S754_finite false 1 (SpecFloat.emin prec emax)).
Proof. cbn [valid]. unfold fits. now vm_compute. Qed.

(** [clampHue] yields a hue above 0 and at most 360, whatever it is
    given. *)
Lemma clampHue_below h : below (clampHue h) 360 /\ positive (clampHue h).
Proof.
  unfold clampHue. pose proof positive_360 as P360.
  destruct (Js.isFinite h) eqn:Hf.
  - destruct (rem_360 h Hf) as (a & Ga & Hlt & [-> | ->]).
    + destruct (0 <? a)%float eqn:Hp.
      * split; [|now apply val_pos].
        split; [assumption|split; [exact good_360|lra]].
      * (* a zero: the sum is 360 *)
        assert (Hz : val a = 0).
        { pose proof (good_val a Ga).
          destruct (Rle_lt_or_eq_dec 0 (val a) H) as [Hc|]; [|lra].
          apply (ltb_val 0 a good_zero Ga) in Hc. congruence. }
        pose proof (add_rounds a 360 Ga good_360) as R.
        rewrite Hz, Rplus_0_l in R.
        destruct (exact_step _ _ R (good_fmt 360 good_360)
                    (good_below 360 good_360)) as [G E].
        unfold positive. rewrite E. split; [|exact P360].
        split; [assumption|split; [exact good_360|lra]].
    + rewrite (ltb_zero_opp a Ga).
      pose proof (SFadd_opp_rounds prec emax prec_pos prec_emax
                    (Prim2SF a) (Prim2SF 360) Ga good_360 (Rlt_le _ _ Hlt)) as R.
      rewrite <- opp_spec, <- add_spec in R.
      fold (val 360) (val a) in R.
      pose proof (good_val a Ga).
      destruct (rounds_valid prec emax prec_pos _ _ (Prim2SF 360) R good_360
                  ltac:(fold (val 360); lra)) as [Hfin Hv].
      assert (G : good (- a + 360)).
      { apply good_intro. now apply (rounds_finite prec emax (val 360 - val a)). }
      split; [split; [assumption|split; [exact good_360|assumption]]|].
      (* the difference is at least the least positive number *)
      destruct (good_grid a Ga) as [ka Ea].
      destruct (good_grid 360 good_360) as [kb Eb].
      pose proof (p2_pos (SpecFloat.emin prec emax)) as Hu.
      assert (Hk : (ka + 1 <= kb)%Z).
      { assert (IZR ka < IZR kb) by (rewrite Ea, Eb in Hlt; nra).
        apply lt_IZR in H0. lia. }
      apply IZR_le in Hk. rewrite plus_IZR in Hk.
      pose proof (rounds_above prec emax prec_pos _ _ _ R ulp_valid) as Hlow.
      cbn [SF2R] in Hlow. unfold F2R in Hlow. rewrite Rmult_1_l in Hlow.
      specialize (Hlow ltac:(rewrite Ea, Eb; nra) Hfin).
      unfold positive. fold (val (- a + 360)) in Hlow. lra.
  - split; [apply below_refl; exact good_360|exact P360].
Qed.


(** *** Subtraction and clamping *)

Lemma sub_rounds a b :
  good a -> good b -> val b <= val a ->
  rounds prec emax (val a - val b) (Prim2SF (a - b)).
Proof.
  intros Ha Hb H. rewrite sub_spec.
  now apply (SFsub_rounds prec emax prec_pos prec_emax).
Qed.

(** Taking a smaller number away leaves a valid number that is no
    greater. *)
Lemma sub_below a b : below b a -> below (a - b)%float a.
Proof.
  intros (Hb & Ha & H).
  pose proof (sub_rounds a b Ha Hb H) as R.
  pose proof (good_val b Hb).
  destruct (rounds_valid prec emax prec_pos _ _ (Prim2SF a) R Ha
              ltac:(fold (val a); lra)) as [Hfin Hv].
  split; [|split; [assumption|exact Hv]].
  apply good_intro. now apply (rounds_finite prec emax (val a - val b)).
Qed.

(** A number strictly above a valid one and not above another valid one
    is valid. *)
Lemma between_good lo hi x :
  good lo -> good hi ->
  (lo <? x)%float = true -> (hi <? x)%float = false ->
  below lo x /\ below x hi.
Proof.
  intros Hlo Hhi H1 H2.
  assert (Hx : good x).
  { apply good_intro. rewrite ltb_compare in H1, H2.
    apply good_nonneg in Hlo, Hhi.
    destruct (Prim2SF x) as [s|s| |s m e]; cbn [MagSpec.nonneg]; try exact I.
    - destruct (Prim2SF hi) as [s'| | |s' m' e']; cbn [MagSpec.nonneg] in Hhi;
        try contradiction; destruct s; cbn in H2; try discriminate;
        destruct (Prim2SF lo) as [s''| | |s'' m'' e'']; cbn [MagSpec.nonneg] in Hlo;
        try contradiction; cbn in H1; discriminate.
    - destruct (Prim2SF lo); cbn in H1; discriminate.
    - destruct (Prim2SF lo) as [s''| | |s'' m'' e'']; cbn [MagSpec.nonneg] in Hlo;
        try contradiction; destruct s; try reflexivity; cbn in H1;
        try discriminate.
      subst s''. discriminate. }
  split.
  - now apply ltb_below.
  - now apply not_ltb_below.
Qed.

(** [clamp] between two valid bounds: the result lies between them
    whatever the number is. *)
Lemma clamp_below x lo hi :
  below lo hi -> below lo (clamp x lo hi) /\ below (clamp x lo hi) hi.
Proof.
  intros B. pose proof B as (Hlo & Hhi & Hle). unfold clamp.
  destruct (hi <? x)%float eqn:H2.
  - split; [assumption|now apply below_refl].
  - destruct (lo <? x)%float eqn:H1.
    + now apply between_good.
    + split; [now apply below_refl|assumption].
Qed.

(** *** Integers and [Math.round] *)

Lemma fmt_int q : (0 <= q < 2 ^ 53)%Z -> fmt prec emax (IZR q).
Proof.
  intros H. exists q, 0%Z. unfold F2R. rewrite p2_0, Rmult_1_r.
  split; [reflexivity|]. split; [exact H|discriminate].
Qed.

Lemma int_below_max q : (0 <= q < 2 ^ 53)%Z -> IZR q < p2 emax.
Proof.
  intros H. apply Rlt_trans with (IZR (2 ^ 53)); [apply IZR_lt; lia|].
  rewrite (p2_Z emax) by discriminate. apply IZR_lt. reflexivity.
Qed.

(** An integer below [2^53] is a number. *)
Lemma of_Z_val q :
  (0 <= q < 2 ^ 53)%Z -> good (Js.of_Z q) /\ val (Js.of_Z q) = IZR q.
Proof.
  intros H.
  assert (Hs : Prim2SF (Js.of_Z q) = binary_normalize prec emax q 0 false).
  { unfold Js.of_Z. rewrite of_uint63_spec, Uint63.of_Z_spec.
    rewrite Z.mod_small; [reflexivity|].
    split; [lia|]. apply Z.lt_trans with (2 ^ 53)%Z; [lia|reflexivity]. }
  destruct q as [|p|p]; try lia.
  - unfold good, val. rewrite Hs. cbn. split; [exact I|reflexivity].
  - pose proof (binary_round_rounds prec emax prec_pos prec_emax p 0) as R.
    cbn [binary_normalize] in Hs. rewrite <- Hs in R.
    unfold F2R in R. rewrite p2_0, Rmult_1_r in R.
    exact (exact_step _ _ R (fmt_int _ H) (int_below_max _ H)).
Qed.

Lemma good_not_nan x : good x -> is_nan x = false.
Proof.
  unfold good, is_nan. rewrite eqb_spec. unfold SFeqb.
  intros H. pose proof (SFcompare_valid prec emax prec_pos _ _ H H) as Hc.
  destruct (SFcompare (Prim2SF x) (Prim2SF x)) as [[| |]|]; try reflexivity;
    try contradiction; exfalso; lra.
Qed.

Lemma good_not_negative x : good x -> (x <? 0)%float = false.
Proof.
  intros H. destruct (x <? 0)%float eqn:E; [|reflexivity].
  apply (ltb_val x 0 H good_zero) in E. rewrite val_zero in E.
  pose proof (good_val x H). lra.
Qed.

Lemma positive_half : positive 0.5.
Proof. pos_const. Qed.

(** [Math.round] of a valid number at most [N]: an integer between 0
    and [N]. *)
Lemma round_spec x N :
  good x -> val x <= IZR N -> (N < 2 ^ 52)%Z ->
  exists q, (0 <= q <= N)%Z /\ good (Js.round x) /\ val (Js.round x) = IZR q.
Proof.
  intros Hx Hle HN. unfold Js.round.
  rewrite (good_not_nan x Hx), (good_not_negative x Hx). cbn [andb].
  pose proof (good_val x Hx) as H0.
  assert (Hb : val x < IZR (2 ^ 53)).
  { apply Rle_lt_trans with (IZR N); [assumption|]. apply IZR_lt. lia. }
  destruct (floor_spec x Hx Hb) as (q & Gf & Vf & Hq1 & Hq2).
  assert (Hq0 : (0 <= q)%Z).
  { assert (IZR (-1) < IZR q) by lra. apply lt_IZR in H. lia. }
  assert (HqN : (q <= N)%Z) by (apply le_IZR; lra).
  set (f := Js.floor x) in *.
  assert (Bf : below f x) by (split; [assumption|split; [assumption|lra]]).
  pose proof (sub_below x f Bf) as (Gd & _ & _).
  pose proof (sub_rounds x f Hx Gf ltac:(lra)) as Rd.
  destruct (0.5 <=? x - f)%float eqn:E.
  - assert (Hlt : (q < N)%Z).
    { destruct (Z.eq_dec q N) as [->|]; [exfalso|lia].
      assert (Ez : val x - val f = 0) by lra.
      rewrite Ez in Rd.
      destruct (exact_step _ _ Rd fmt_zero (p2_pos emax)) as [_ Ev].
      assert (G5 : good 0.5) by good_const.
      apply (leb_val 0.5 _ G5 Gd) in E.
      pose proof positive_half as P. unfold positive in P. lra. }
    exists (q + 1)%Z. split; [lia|].
    pose proof (add_rounds f 1 Gf good_one) as R.
    rewrite Vf, val_one, <- plus_IZR in R.
    apply (exact_step _ _ R); [apply fmt_int; lia|apply int_below_max; lia].
  - exists q. split; [lia|]. split; assumption.
Qed.

(** The helper [round(number)] at zero digits: the same integer. *)
Lemma round0_spec x N :
  good x -> val x <= IZR N -> (N < 2 ^ 52)%Z ->
  exists q, (0 <= q <= N)%Z /\ good (round x 0) /\ val (round x 0) = IZR q.
Proof.
  intros Hx Hle HN. unfold round. change (Js.pow10 0) with 1%float.
  pose proof (mul_rounds 1 x good_one Hx) as R1.
  rewrite val_one, Rmult_1_l in R1.
  destruct (exact_step _ _ R1 (good_fmt x Hx) (good_below x Hx)) as [G1 V1].
  destruct (round_spec (1 * x) N G1 ltac:(lra) HN) as (q & Hq & G2 & V2).
  exists q. split; [assumption|].
  assert (Fq : fmt prec emax (IZR q)) by (apply fmt_int; lia).
  assert (Bq : IZR q < p2 emax) by (apply int_below_max; lia).
  pose proof (div_rounds _ 1 G2 good_one ltac:(rewrite val_one; lra)) as R3.
  rewrite V2, val_one in R3. replace (IZR q / 1) with (IZR q) in R3 by field.
  destruct (exact_step _ _ R3 Fq Bq) as [G3 V3].
  pose proof (add_rounds _ 0 G3 good_zero) as R4.
  rewrite V3, val_zero, Rplus_0_r in R4.
  exact (exact_step _ _ R4 Fq Bq).
Qed.

(** A valid number with an integral value that is not the negative zero
    is the number made from that integer. *)
Lemma int_float r q :
  good r -> val r = IZR q -> (0 <= q < 2 ^ 53)%Z ->
  Prim2SF r <> S754_zero true -> r = Js.of_Z q.
Proof.
  intros Gr Vr Hq Hs.
  destruct (of_Z_val q Hq) as [Gz Vz].
  destruct (Z.eq_dec q 0) as [->|Hne].
  - rewrite <- (SF2Prim_Prim2SF r). unfold good, val in *.
    destruct (Prim2SF r) as [[|]| | |s m e]; cbn [valid] in Gr;
      try contradiction; try reflexivity; try congruence.
    destruct Gr as (-> & _). cbn [SF2R] in Vr.
    pose proof (finite_pos m e). lra.
  - apply same_float; try assumption; [lra|].
    rewrite Vr. apply IZR_lt. lia.
Qed.

(** *** Channels *)

Lemma between_intro lo hi x :
  below lo x -> below x hi -> between lo hi x = true.
Proof.
  intros H1 H2. unfold between.
  now rewrite (below_leb _ _ H1), (below_leb _ _ H2).
Qed.

Lemma clamp_between x hi :
  good hi -> between 0 hi (clamp x 0 hi) = true.
Proof.
  intros G. destruct (clamp_below x 0 hi (below_zero hi G)).
  now apply between_intro.
Qed.

Lemma chan_val n :
  (n <= 255)%nat -> good (chan n) /\ val (chan n) = IZR (Z.of_nat n).
Proof. intros H. apply of_Z_val. lia. Qed.

Lemma val_255 : val 255 = 255.
Proof. exact (proj2 (chan_val 255 (le_n _))). Qed.

Lemma chan_between n : (n <= 255)%nat -> between 0 255 (chan n) = true.
Proof.
  intros H. destruct (chan_val n H) as [G V].
  apply between_intro; [now apply below_zero|].
  split; [assumption|split; [good_const|]].
  rewrite V, val_255. apply IZR_le. lia.
Qed.

(** The helper [round] gives a whole number up to [N] when its
    argument is a valid number at most [N]. *)
Lemma round_whole_upto (N : nat) x :
  (N <= 1000)%nat -> good x -> val x <= IZR (Z.of_nat N) ->
  wholeUpTo N (round x 0).
Proof.
  intros HN Gx Hx.
  assert (HN' : (Z.of_nat N < 2 ^ 52)%Z).
  { apply Z.le_lt_trans with 1000%Z; [lia|reflexivity]. }
  destruct (round0_spec x (Z.of_nat N) Gx Hx HN') as (q & Hq & G & V).
  exists (Z.to_nat q). split; [lia|].
  unfold chan, Js.of_nat. rewrite Z2Nat.id by lia.
  apply int_float; try assumption.
  - split; [lia|]. apply Z.le_lt_trans with 1000%Z; [lia|reflexivity].
  - unfold round. apply add_zero_sign.
Qed.

Lemma round_whole x : below x 255 -> wholeChannel (round x 0).
Proof.
  intros (Gx & _ & Hx). rewrite val_255 in Hx.
  apply round_whole_upto; [lia|assumption|exact Hx].
Qed.

(** The share [1 - x / 100] of a clamped percentage is a valid number
    at most 1. *)
Lemma share_below x : below (1 - clamp x 0 100 / 100)%float 1.
Proof.
  assert (G100 : good 100) by good_const.
  destruct (clamp_below x 0 100 (below_zero 100 G100)) as [_ B].
  apply sub_below.
  apply (below_to _ (100 / 100)%float); [reflexivity|].
  apply below_div; [assumption|apply below_refl; assumption|pos_const|
                    good_const].
Qed.

(** One channel of [cmykaToRgba] on clamped inks. *)
Lemma cmyk_channel_whole x k :
  wholeChannel
    (round (255 * (1 - clamp x 0 100 / 100) * (1 - clamp k 0 100 / 100)) 0).
Proof.
  apply round_whole.
  apply (below_to _ (255 * 1 * 1)%float); [reflexivity|].
  apply below_mul; [|apply share_below|good_const].
  apply below_mul; [apply below_refl; good_const|apply share_below|good_const].
Qed.

Lemma whole_between x : wholeChannel x -> between 0 255 x = true.
Proof. intros (n & Hn & ->). now apply chan_between. Qed.

(** A valid number times [+0] is a zero. *)
Lemma mul_zero_zeroish x : good x -> zeroish (x * 0).
Proof.
  unfold good, zeroish. rewrite mul_spec.
  change (Prim2SF 0) with (S754_zero false).
  destruct (Prim2SF x); cbn [valid]; try contradiction; reflexivity.
Qed.

Lemma share_good x : good (255 * (1 - clamp x 0 100 / 100))%float.
Proof.
  assert (B : below (255 * (1 - clamp x 0 100 / 100))%float (255 * 1)%float).
  { apply below_mul; [apply below_refl; good_const|apply share_below|
                      good_const]. }
  apply B.
Qed.

Lemma clampRgba_valid rgba : validRgba (clampRgba rgba) = true.
Proof.
  assert (G1 : good 1) by good_const.
  assert (G255 : good 255) by good_const.
  unfold validRgba, inGamut, clampRgba, clamp01. cbn [rgb_r rgb_g rgb_b rgb_a].
  pose proof (clamp_between (rgb_r rgba) 255 G255) as Hr.
  pose proof (clamp_between (rgb_g rgba) 255 G255) as Hg.
  pose proof (clamp_between (rgb_b rgba) 255 G255) as Hb.
  rewrite (clamp_between (rgb_a rgba) 1 G1).
  unfold between in Hr, Hg, Hb.
  apply andb_prop in Hr as [-> ->]. apply andb_prop in Hg as [-> ->].
  apply andb_prop in Hb as [-> ->]. reflexivity.
Qed.

Lemma clampHue_leb h :
  (0 <? clampHue h) = true /\ (0 <=? clampHue h) = true /\
  (clampHue h <=? 360) = true.
Proof.
  destruct (clampHue_below h) as [B P].
  split; [|split].
  - apply (ltb_val 0 _ good_zero); [apply B|]. now rewrite val_zero.
  - apply below_leb, below_zero, B.
  - now apply below_leb.
Qed.

Lemma round_zeroish z : zeroish z -> round z 0 = 0%float.
Proof. intros H. destruct (zeroish_cases _ H) as [->| ->]; reflexivity. Qed.

(** One channel of [cmykaToRgba] under a full key. *)
Lemma cmyk_channel_black x :
  round (255 * (1 - clamp x 0 100 / 100) * (1 - 100 / 100))%float 0
  = 0%float.
Proof.
  change (1 - 100 / 100)%float with 0%float.
  apply round_zeroish, mul_zero_zeroish, share_good.
Qed.

Lemma cmykaToRgba_whole cmyka : wholeRgba (cmykaToRgba (clampCmyka cmyka)).
Proof.
  unfold wholeRgba, cmykaToRgba, clampCmyka, clamp01.
  cbn [rgb_r rgb_g rgb_b rgb_a cmyk_c cmyk_m cmyk_y cmyk_k cmyk_a].
  split; [|split; [|split]]; try apply cmyk_channel_whole.
  apply clamp_between. good_const.
Qed.

(** *** A number divided by itself *)

Lemma div_diag_good x : good x -> positive x -> (x / x)%float = 1%float.
Proof.
  intros G P. unfold positive in P.
  pose proof (div_rounds x x G G P) as Hr.
  replace (val x / val x) with 1 in Hr by (field; lra).
  assert (F1 : fmt prec emax 1) by (rewrite <- val_one; apply good_fmt, good_one).
  assert (B1 : 1 < p2 emax) by (rewrite <- val_one; apply good_below, good_one).
  destruct (exact_step _ _ Hr F1 B1) as [Gz Vz].
  apply same_float; [assumption|exact good_one|now rewrite val_one|lra].
Qed.

Lemma div_diag x : (x / x)%float = 1%float \/ (x / x)%float = nan.
Proof.
  destruct (Prim2SF x) as [s|s| |s m e] eqn:E.
  - right. to_spec. rewrite E. reflexivity.
  - right. to_spec. rewrite E. now destruct s.
  - right. to_spec. rewrite E. reflexivity.
  - left. assert (Ha : (x / x)%float = (abs x / abs x)%float).
    { to_spec. rewrite E. now destruct s. }
    rewrite Ha. apply div_diag_good.
    + apply good_intro. rewrite abs_spec, E. reflexivity.
    + unfold positive, val. rewrite abs_spec, E. cbn [SFabs SF2R].
      apply finite_pos.
Qed.

(** *** Order *)

Lemma leb_weaken a b x :
  below a b -> (b <=? x)%float = true -> (a <=? x)%float = true.
Proof.
  intros (Ga & Gb & Hab) H.
  assert (C : good x \/ x = infinity).
  { rewrite leb_compare in H. unfold good in Gb.
    destruct (Prim2SF x) as [s|[|]| |[|] m e] eqn:E.
    - left. apply good_intro. now rewrite E.
    - exfalso.
      destruct (Prim2SF b) as [s'|s'| |s' m' e']; cbn [valid] in Gb;
        try contradiction; [discriminate|].
      destruct Gb as [-> _]. discriminate.
    - right. apply Prim2SF_inj. now rewrite E.
    - exfalso. destruct (Prim2SF b) as [s'|s'| |s' m' e']; discriminate.
    - exfalso.
      destruct (Prim2SF b) as [s'|s'| |s' m' e']; cbn [valid] in Gb;
        try contradiction; [discriminate|].
      destruct Gb as [-> _]. discriminate.
    - left. apply good_intro. now rewrite E. }
  destruct C as [Gx| ->].
  - apply (leb_val a x Ga Gx). apply (leb_val b x Gb Gx) in H. lra.
  - rewrite leb_compare. unfold good in Ga.
    change (Prim2SF infinity) with (S754_infinity false).
    destruct (Prim2SF a) as [s'|s'| |s' m' e']; cbn [valid] in Ga;
      try contradiction; reflexivity.
Qed.

(** *** The rounded luminance *)

Lemma round2_unit x : below x 1 -> below (round x 2) 1.
Proof.
  intros L. assert (G100 : good 100) by good_const.
  unfold round. change (Js.pow10 2) with 100%float.
  assert (B : below (100 * x)%float 100).
  { apply (below_to _ (100 * 1)%float); [reflexivity|].
    apply below_mul; [now apply below_refl|assumption|good_const]. }
  destruct B as (G & _ & V). rewrite val_100 in V.
  destruct (round_spec _ 100 G V ltac:(reflexivity)) as (q & Hq & Gr & Vr).
  assert (Br : below (Js.round (100 * x)) 100).
  { split; [assumption|split; [assumption|]].
    rewrite Vr, val_100. apply IZR_le. lia. }
  apply (below_to _ (100 / 100 + 0)%float); [reflexivity|].
  apply below_add; [|apply below_refl; good_const|good_const].
  apply below_div; [assumption|now apply below_refl|pos_const|good_const].
Qed.

(** *** Subtraction is monotone *)

Lemma sub_mono_l a b c :
  below c a -> below a b -> below (a - c)%float (b - c)%float.
Proof.
  intros (Gc & Ga & Hca) (_ & Gb & Hab).
  assert (Bcb : below c b) by (split; [assumption|split; [assumption|lra]]).
  pose proof (sub_below b c Bcb) as (Gy & _ & _).
  pose proof (sub_rounds a c Ga Gc Hca) as Rx.
  pose proof (sub_rounds b c Gb Gc ltac:(lra)) as Ry.
  pose proof (good_val c Gc) as Hc0.
  enough (good (a - c)%float /\ val (a - c)%float <= val (b - c)%float)
    by (split; [tauto|split; [assumption|tauto]]).
  destruct Hab as [Hlt|Heq].
  - apply (mono_step _ _ _ _ Rx Ry); [lra|assumption].
  - destruct (Rle_lt_or_eq_dec 0 (val a) ltac:(lra)) as [Hp|Hz].
    + rewrite (same_float a b); try assumption. split; [assumption|lra].
    + assert (E0 : val a - val c = 0) by lra.
      assert (E1 : val b - val c = 0) by lra.
      rewrite E0 in Rx. rewrite E1 in Ry.
      destruct (exact_step _ _ Rx fmt_zero (p2_pos emax)) as [G E].
      destruct (exact_step _ _ Ry fmt_zero (p2_pos emax)) as [_ E'].
      split; [assumption|lra].
Qed.

Lemma sub_anti_r a b c :
  below b c -> below c a -> below (a - c)%float (a - b)%float.
Proof.
  intros (Gb & Gc & Hbc) (_ & Ga & Hca).
  assert (Bba : below b a) by (split; [assumption|split; [assumption|lra]]).
  pose proof (sub_below a b Bba) as (Gy & _ & _).
  pose proof (sub_rounds a c Ga Gc Hca) as Rx.
  pose proof (sub_rounds a b Ga Gb ltac:(lra)) as Ry.
  pose proof (good_val b Gb) as Hb0.
  enough (good (a - c)%float /\ val (a - c)%float <= val (a - b)%float)
    by (split; [tauto|split; [assumption|tauto]]).
  destruct Hbc as [Hlt|Heq].
  - apply (mono_step _ _ _ _ Rx Ry); [lra|assumption].
  - destruct (Rle_lt_or_eq_dec 0 (val b) Hb0) as [Hp|Hz].
    + rewrite <- (same_float b c); try assumption. split; [assumption|lra].
    + assert (E0 : val a - val c = val a) by lra.
      assert (E1 : val a - val b = val a) by lra.
      rewrite E0 in Rx. rewrite E1 in Ry.
      destruct (exact_step _ _ Rx (good_fmt a Ga) (good_below a Ga)) as [G E].
      destruct (exact_step _ _ Ry (good_fmt a Ga) (good_below a Ga)) as [_ E'].
      split; [assumption|lra].
Qed.

(** *** The largest of valid numbers *)

Lemma max2_good a b :
  good a -> good b ->
  below a (Js.max2 a b) /\ below b (Js.max2 a b).
Proof.
  intros Ga Gb. unfold Js.max2.
  rewrite (good_not_nan a Ga), (good_not_nan b Gb). cbn [orb].
  destruct (a <? b)%float eqn:E1.
  - apply (ltb_val a b Ga Gb) in E1.
    split; [split; [assumption|split; [assumption|lra]]|now apply below_refl].
  - destruct (b <? a)%float eqn:E2.
    + apply (ltb_val b a Gb Ga) in E2.
      split; [now apply below_refl|split; [assumption|split; [assumption|lra]]].
    + assert (E : val a = val b).
      { apply Rle_antisym.
        - apply Rnot_lt_le. intros H. apply (ltb_val b a Gb Ga) in H. congruence.
        - apply Rnot_lt_le. intros H. apply (ltb_val a b Ga Gb) in H. congruence. }
      destruct (get_sign a).
      * split; [split; [assumption|split; [assumption|lra]]|now apply below_refl].
      * split; [now apply below_refl|split; [assumption|split; [assumption|lra]]].
Qed.

Lemma max_good a b c :
  good a -> good b -> good c ->
  below a (Js.max a b c) /\ below b (Js.max a b c) /\ below c (Js.max a b c).
Proof.
  intros Ga Gb Gc. unfold Js.max.
  destruct (max2_good a b Ga Gb) as [H1 H2].
  assert (Gm : good (Js.max2 a b)) by apply H1.
  destruct (max2_good _ c Gm Gc) as [H3 H4].
  split; [|split]; try assumption; eapply below_trans; eassumption.
Qed.

Lemma max_below a b c d :
  below a d -> below b d -> below c d -> below (Js.max a b c) d.
Proof.
  intros Ha Hb Hc. unfold Js.max, Js.max2.
  rewrite (good_not_nan a (proj1 Ha)), (good_not_nan b (proj1 Hb)). cbn [orb].
  assert (Hm : below (if (a <? b)%float then b
                      else if (b <? a)%float then a
                      else if get_sign a then b else a) d).
  { destruct (a <? b)%float; [assumption|].
    destruct (b <? a)%float; [assumption|].
    now destruct (get_sign a). }
  set (m := if (a <? b)%float then _ else _) in *.
  rewrite (good_not_nan m (proj1 Hm)), (good_not_nan c (proj1 Hc)). cbn [orb].
  destruct (m <? c)%float; [assumption|].
  destruct (c <? m)%float; [assumption|].
  now destruct (get_sign m).
Qed.

(** *** Inks *)

Lemma ratio255 v : below v 255 -> below (v / 255)%float 1.
Proof.
  intros Hv. apply (below_to _ (255 / 255)%float); [reflexivity|].
  apply below_div; [assumption|apply below_refl; good_const|pos_const|
                    good_const].
Qed.

(** A valid share of at most 1 is a whole percentage after rounding. *)
Lemma percent_whole x : below x 1 -> wholeUpTo 100 (round (x * 100) 0).
Proof.
  intros Hx.
  assert (B : below (x * 100)%float 100).
  { apply (below_to _ (1 * 100)%float); [reflexivity|].
    apply below_mul; [assumption|apply below_refl; good_const|good_const]. }
  destruct B as (G & _ & V). rewrite val_100 in V.
  apply round_whole_upto; [lia|assumption|exact V].
Qed.

(** The ink of a channel whose share [x] is at most the largest share
    [m]. *)
Lemma ink_whole x m :
  below x m -> below m 1 ->
  let k := (1 - m)%float in
  let c := ((1 - x - k) / (1 - k))%float in
  wholeUpTo 100 (if Js.isNaN c then 0%float else round (c * 100) 0).
Proof.
  intros Hxm Hm1 k c.
  assert (G1 : good 1) by exact good_one.
  assert (Hx1 : below x 1) by (eapply below_trans; eassumption).
  assert (Bk : below k 1) by (apply sub_below; assumption).
  assert (BA : below (1 - x)%float 1) by (apply sub_below; assumption).
  assert (BkA : below k (1 - x)%float) by (apply sub_anti_r; assumption).
  assert (Bn : below (1 - x - k)%float (1 - k)%float)
    by (apply sub_mono_l; assumption).
  assert (GD : good (1 - k)%float) by apply Bn.
  destruct (Rle_lt_or_eq_dec 0 (val (1 - k)%float) (good_val _ GD)) as [Hp|Hz].
  - assert (Bc : below c 1).
    { unfold c.
      apply (below_to _ ((1 - k) / (1 - k))%float);
        [now apply div_diag_good|].
      apply below_div; [assumption|now apply below_refl|exact Hp|].
      rewrite (div_diag_good _ GD Hp). exact G1. }
    unfold Js.isNaN. rewrite (good_not_nan c (proj1 Bc)).
    now apply percent_whole.
  - assert (Zd : zeroish (1 - k)%float).
    { unfold zeroish, val in *. unfold good in GD.
      destruct (Prim2SF (1 - k)%float) as [s| | |s e' m']; cbn [valid] in GD;
        try contradiction; [reflexivity|].
      destruct GD as [-> _]. cbn [SF2R] in Hz.
      pose proof (finite_pos e' m'). lra. }
    assert (Zn : zeroish (1 - x - k)%float).
    { destruct Bn as (Gn & _ & Hn). pose proof (good_val _ Gn) as Hn0.
      unfold zeroish, val in *. unfold good in Gn.
      destruct (Prim2SF (1 - x - k)%float) as [s| | |s e' m'];
        cbn [valid] in Gn; try contradiction; [reflexivity|].
      destruct Gn as [-> _]. cbn [SF2R] in Hn, Hn0.
      pose proof (finite_pos e' m'). lra. }
    assert (Ec : c = nan).
    { unfold c. destruct (zeroish_cases _ Zd) as [-> | ->],
        (zeroish_cases _ Zn) as [-> | ->]; reflexivity. }
    rewrite Ec. exists 0%nat. split; [lia|reflexivity].
Qed.

(** *** The hue of a clamped hue *)

Lemma good_isFinite x : good x -> Js.isFinite x = true.
Proof.
  intros G. unfold Js.isFinite, is_finite. rewrite (good_not_nan x G).
  unfold is_infinity. rewrite eqb_spec, abs_spec. unfold good in G.
  change (Prim2SF infinity) with (S754_infinity false).
  destruct (Prim2SF x) as [s| | |s m e]; cbn [valid] in G; try contradiction;
    reflexivity.
Qed.

(** The remainder by 360 of a valid number between 0 and 360 is the
    number itself. *)
Lemma rem_small r :
  good r -> 0 < val r < val 360 -> Js.rem r 360 = r.
Proof.
  intros G [H0 H1]. unfold Js.rem.
  pose proof (Prim2SF_valid r) as Vx.
  pose proof G as G'. unfold good in G'. unfold val in H0, H1.
  destruct (Prim2SF r) as [s| | |sx mx ex] eqn:Ex; cbn [valid] in G';
    try contradiction; [cbn [SF2R] in H0; lra|].
  destruct G' as (-> & _). cbn [SF2R] in H0, H1.
  change (Prim2SF 360) with (S754_finite false 6333186975989760 (-44)) in *.
  cbv iota beta. cbn [SF2R] in H1.
  set (my := 6333186975989760%positive) in *. set (ey := (-44)%Z) in *.
  set (e := Z.min ex ey).
  assert (He : (e <= ex /\ e <= ey)%Z) by (unfold e; lia).
  rewrite !Z.shiftl_mul_pow2 by lia.
  set (nx := (Zpos mx * 2 ^ (ex - e))%Z).
  set (ny := (Zpos my * 2 ^ (ey - e))%Z).
  assert (Hnx : (0 < nx)%Z)
    by (unfold nx; apply Z.mul_pos_pos; [lia|apply Z.pow_pos_nonneg; lia]).
  assert (Vx' : F2R (Zpos mx) ex = F2R nx e)
    by (unfold nx; now rewrite F2R_align by lia).
  assert (Vy' : F2R (Zpos my) ey = F2R ny e)
    by (unfold ny; now rewrite F2R_align by lia).
  assert (Hlt : (nx < ny)%Z).
  { rewrite Vx', Vy' in H1. unfold F2R in H1. pose proof (p2_pos e).
    apply lt_IZR. nra. }
  rewrite (Z.rem_small nx ny) by lia.
  destruct nx as [|p|p] eqn:En; try lia.
  cbn [binary_normalize].
  pose proof (binary_round_rounds prec emax prec_pos prec_emax p e) as R.
  pose proof (binary_round_valid prec emax prec_pos false p e) as V.
  assert (Hx : F2R (Zpos p) e <= val 360).
  { rewrite <- Vx'. unfold val.
    change (Prim2SF 360) with (S754_finite false my ey). cbn [SF2R]. lra. }
  destruct (rounds_good _ _ R Hx V) as (Ga & _ & E).
  rewrite <- E in R.
  assert (Vr : val r = F2R (Zpos p) e).
  { unfold val. rewrite Ex. cbn [SF2R]. exact Vx'. }
  rewrite <- Vr in R.
  destruct (exact_step _ _ R (good_fmt r G) (good_below r G)) as [_ Ev].
  apply same_float; try assumption. rewrite Ev. unfold val. rewrite Ex.
  cbn [SF2R]. exact H0.
Qed.

Lemma clampHue_idem h : clampHue (clampHue h) = clampHue h.
Proof.
  destruct (clampHue_below h) as [(G & G360 & Hle) P].
  unfold positive in P. set (r := clampHue h) in *.
  destruct Hle as [Hlt|Heq].
  - unfold clampHue at 1. rewrite (good_isFinite r G).
    rewrite (rem_small r G (conj P Hlt)).
    assert (H : (0 <? r)%float = true)
      by (apply (ltb_val 0 r good_zero G); now rewrite val_zero).
    now rewrite H.
  - rewrite (same_float r 360 G G360 Heq P). reflexivity.
Qed.

(** *** The smallest of valid numbers *)

Lemma min2_good a b :
  good a -> good b ->
  below (Js.min2 a b) a /\ below (Js.min2 a b) b.
Proof.
  intros Ga Gb. unfold Js.min2.
  rewrite (good_not_nan a Ga), (good_not_nan b Gb). cbn [orb].
  destruct (a <? b)%float eqn:E1.
  - apply (ltb_val a b Ga Gb) in E1.
    split; [now apply below_refl|split; [assumption|split; [assumption|lra]]].
  - destruct (b <? a)%float eqn:E2.
    + apply (ltb_val b a Gb Ga) in E2.
      split; [split; [assumption|split; [assumption|lra]]|now apply below_refl].
    + assert (E : val a = val b).
      { apply Rle_antisym.
        - apply Rnot_lt_le. intros H. apply (ltb_val b a Gb Ga) in H. congruence.
        - apply Rnot_lt_le. intros H. apply (ltb_val a b Ga Gb) in H. congruence. }
      destruct (get_sign a).
      * split; [now apply below_refl|split; [assumption|split; [assumption|lra]]].
      * split; [split; [assumption|split; [assumption|lra]]|now apply below_refl].
Qed.

Lemma min_good a b c :
  good a -> good b -> good c -> below (Js.min a b c) a.
Proof.
  intros Ga Gb Gc. unfold Js.min.
  destruct (min2_good a b Ga Gb) as [H1 H2].
  assert (Gm : good (Js.min2 a b)) by apply H1.
  destruct (min2_good _ c Gm Gc) as [H3 H4].
  exact (below_trans _ _ _ H3 H1).
Qed.

Lemma truthy_positive x : good x -> Js.truthy x = true -> positive x.
Proof.
  unfold Js.truthy, positive, val, good, is_zero. rewrite eqb_spec.
  change (Prim2SF 0%float) with (S754_zero false).
  intros G H. apply negb_true_iff, orb_false_iff in H. destruct H as [_ H].
  destruct (Prim2SF x) as [s| | |s m e]; cbn [valid] in G; try contradiction.
  - destruct s; discriminate.
  - destruct G as (-> & _). cbn [SF2R]. apply finite_pos.
Qed.

(** A valid share of at most 1 is a percentage. *)
Lemma percent_between x : below x 1 -> between 0 100 (x * 100)%float = true.
Proof.
  intros Hx.
  assert (B : below (x * 100)%float 100).
  { apply (below_to _ (1 * 100)%float); [reflexivity|].
    apply below_mul; [assumption|apply below_refl; good_const|good_const]. }
  apply between_intro; [apply below_zero, B|exact B].
Qed.

End Real64More.

(** ** The range of the clamps *)

(** [clamp(number, 0, max)] lies between 0 and [max] for every number:
    NaN and the negative numbers go to 0, the numbers above to [max]. *)
Theorem clamp_range (x hi : float) :
  (0 <=? hi) = true -> Js.isFinite hi = true ->
  (0 <=? clamp x 0 hi) = true /\ (clamp x 0 hi <=? hi) = true /\
  clamp nan 0 hi = 0.
Proof.
  intros H0 Hf.
  assert (G : Real64.good hi).
  { apply Real64Facts.good_intro.
    apply Real64More.isFinite_cases in Hf. rewrite leb_compare in H0.
    change (Prim2SF 0) with (S754_zero false) in H0.
    destruct (Prim2SF hi) as [s|s| |s m e]; cbn [nonneg]; try contradiction;
      try exact I.
    destruct s; [discriminate|reflexivity]. }
  destruct (Real64More.clamp_below x 0 hi (Real64Facts.below_zero hi G))
    as [B1 B2].
  split; [now apply Real64Facts.below_leb|].
  split; [now apply Real64Facts.below_leb|].
  unfold clamp. rewrite !ltb_compare.
  change (Prim2SF nan) with S754_nan.
  destruct (Prim2SF hi); reflexivity.
Qed.

Lemma clamp_range_witness :
  (0 <=? clamp (-3) 0 255) = true /\ (clamp (-3) 0 255 <=? 255) = true /\
  clamp nan 0 255 = 0.
Proof. exact (clamp_range (-3) 255 eq_refl eq_refl). Defined.

(** [clampHue] yields a hue above 0 and at most 360 for every number,
    NaN and the infinities included. *)
Theorem clampHue_range (h : float) :
  (0 <? clampHue h) = true /\ (clampHue h <=? 360) = true.
Proof.
  destruct (Real64More.clampHue_below h) as [B P]. split.
  - apply (Real64Facts.ltb_val 0 _ Real64Facts.good_zero); [apply B|].
    now rewrite Real64Facts.val_zero.
  - now apply Real64Facts.below_leb.
Qed.

(** ** Colours in range *)

Section Gamut.

Import Real64 Real64Facts Real64More.

(** Whatever numbers a colour holds, NaN included, its clamped form is
    in range: the hue above 0 and at most 360, percentages between 0
    and 100, channels between 0 and 255, alpha between 0 and 1, and the
    XYZ axes inside the D50 white point. *)
Theorem clamped_colours_in_range
    (hwba : HwbaColor) (cmyka : CmykaColor) (lcha : LchaColor)
    (laba : LabaColor) (rgba : RgbaColor) (xyza : XyzaColor) :
  ((0 <? hwb_h (clampHwba hwba)) = true /\
   (hwb_h (clampHwba hwba) <=? 360) = true /\
   between 0 100 (hwb_w (clampHwba hwba)) = true /\
   between 0 100 (hwb_b (clampHwba hwba)) = true /\
   between 0 1 (hwb_a (clampHwba hwba)) = true) /\
  (between 0 100 (cmyk_c (clampCmyka cmyka)) = true /\
   between 0 100 (cmyk_m (clampCmyka cmyka)) = true /\
   between 0 100 (cmyk_y (clampCmyka cmyka)) = true /\
   between 0 100 (cmyk_k (clampCmyka cmyka)) = true /\
   between 0 1 (cmyk_a (clampCmyka cmyka)) = true) /\
  (between 0 100 (lch_l (clampLcha lcha)) = true /\
   (0 <? lch_h (clampLcha lcha)) = true /\
   (lch_h (clampLcha lcha) <=? 360) = true) /\
  (between 0 400 (lab_l (clampLaba laba)) = true /\
   between 0 1 (lab_alpha (clampLaba laba)) = true) /\
  validRgba (clampRgba rgba) = true /\
  (between 0 D50_x (xyz_x (clampXyza xyza)) = true /\
   between 0 D50_y (xyz_y (clampXyza xyza)) = true /\
   between 0 D50_z (xyz_z (clampXyza xyza)) = true /\
   between 0 1 (xyz_a (clampXyza xyza)) = true).
Proof.
  assert (G1 : good 1) by good_const.
  assert (G100 : good 100) by good_const.
  assert (G400 : good 400) by good_const.
  assert (Gx : good D50_x) by good_const.
  assert (Gy : good D50_y) by good_const.
  assert (Gz : good D50_z) by good_const.
  pose proof (fun h => proj1 (clampHue_leb h)) as Hlo.
  pose proof (fun h => proj2 (proj2 (clampHue_leb h))) as Hhi.
  pose proof (fun x => clamp_between x 1 G1) as C1.
  pose proof (fun x => clamp_between x 100 G100) as C100.
  pose proof (fun x => clamp_between x 400 G400) as C400.
  pose proof (fun x => clamp_between x _ Gx) as Cx.
  pose proof (fun x => clamp_between x _ Gy) as Cy.
  pose proof (fun x => clamp_between x _ Gz) as Cz.
  pose proof (clampRgba_valid rgba) as R.
  unfold clampHwba, clampCmyka, clampLcha, clampLaba, clampXyza, clamp01.
  cbn [hwb_h hwb_w hwb_b hwb_a cmyk_c cmyk_m cmyk_y cmyk_k cmyk_a
       lch_l lch_h lab_l lab_alpha xyz_x xyz_y xyz_z xyz_a].
  split; [|split; [|split; [|split; [|split]]]]; auto 10.
Qed.

End Gamut.

(** ** The LAB family stays in gamut *)

Section LabFamily.

Import Real64 Real64Facts Real64More.

Context {engine : Engine}.

Lemma xyzaToRgba_valid xyza : validRgba (xyzaToRgba xyza) = true.
Proof.
  unfold xyzaToRgba. destruct (adaptXyzToD65 xyza). apply clampRgba_valid.
Qed.

Lemma labaToRgba_valid laba : validRgba (labaToRgba laba) = true.
Proof. apply xyzaToRgba_valid. Qed.

Lemma lchaToRgba_valid lcha : validRgba (lchaToRgba lcha) = true.
Proof. apply labaToRgba_valid. Qed.

(** Whatever the engine's [Math.pow], [Math.cos] and [Math.sin] return
    and whatever numbers the input holds, the conversions from XYZ, LAB
    and LCH to RGB give channels between 0 and 255 and an alpha between
    0 and 1, and so do the LCH and LAB parsers whenever they give a
    colour. *)
Theorem lab_conversions_stay_in_gamut
    (xyza : XyzaColor) (laba : LabaColor) (lcha : LchaColor)
    (o : JsObject) (input : string) :
  validRgba (xyzaToRgba xyza) = true /\
  validRgba (labaToRgba laba) = true /\
  validRgba (lchaToRgba lcha) = true /\
  allValid (parseLcha o) = true /\
  allValid (parseLchaString input) = true /\
  allValid (parseLaba o) = true.
Proof.
  split; [apply xyzaToRgba_valid|].
  split; [apply labaToRgba_valid|].
  split; [apply lchaToRgba_valid|].
  split; [|split].
  - unfold parseLcha. cbv zeta.
    destruct (_ || _); [reflexivity|apply lchaToRgba_valid].
  - unfold parseLchaString.
    destruct (exec lchaMatcher input); [apply lchaToRgba_valid|reflexivity].
  - unfold parseLaba. cbv zeta.
    destruct (_ || _); [reflexivity|apply labaToRgba_valid].
Qed.

(** Mixing two colours, whatever they and the ratio hold, gives a
    colour with channels between 0 and 255 and an alpha between 0 and
    1; a palette has as many colours as were asked for, all of them
    such. *)
Theorem mix_stays_in_gamut (rgba1 rgba2 : RgbaColor) (ratio : float)
    (count : nat) :
  validRgba (mix rgba1 rgba2 ratio) = true /\
  List.length (mixPalette rgba1 rgba2 count) = count /\
  forallb validRgba (mixPalette rgba1 rgba2 count) = true.
Proof.
  split; [apply labaToRgba_valid|]. unfold mixPalette. cbv zeta.
  split; [now rewrite length_map, length_seq|].
  apply forallb_forall. intros c Hc. apply in_map_iff in Hc.
  destruct Hc as (i & <- & _). apply labaToRgba_valid.
Qed.

End LabFamily.

(** ** Whole channels, full key and full blackness *)

Section Black.

Import Real64 Real64Facts Real64More.

(** Whatever numbers the inks hold, NaN included, a clamped CMYK colour
    converts to whole RGB channels between 0 and 255 with an alpha
    between 0 and 1; so does every colour the CMYK parsers give. *)
Theorem cmyk_results_are_whole
    (cmyka : CmykaColor) (o : JsObject) (input : string) :
  wholeRgba (cmykaToRgba (clampCmyka cmyka)) /\
  parsed wholeRgba (parseCmyka o) /\
  parsed wholeRgba (parseCmykaString input).
Proof.
  split; [apply cmykaToRgba_whole|split].
  - unfold parseCmyka. cbv zeta.
    destruct (_ || _); [exact I|apply cmykaToRgba_whole].
  - unfold parseCmykaString.
    destruct (exec cmykMatcher input); [apply cmykaToRgba_whole|exact I].
Qed.

(** A key of 100 or more is clamped to 100 and gives black, whatever
    the three inks hold; the alpha is the clamped alpha. *)
Theorem cmyk_full_key_is_black (cmyka : CmykaColor) :
  (100 <=? cmyk_k cmyka) = true ->
  cmykaToRgba (clampCmyka cmyka) = mkRgba 0 0 0 (clamp01 (cmyk_a cmyka)).
Proof.
  intros H. unfold cmykaToRgba, clampCmyka.
  cbn [cmyk_c cmyk_m cmyk_y cmyk_k cmyk_a].
  rewrite (clamp_top _ 100 H eq_refl), !cmyk_channel_black. reflexivity.
Qed.

Lemma cmyk_full_key_witness :
  cmykaToRgba (clampCmyka (mkCmyka 20 nan 80 150 0.5)) = mkRgba 0 0 0 0.5.
Proof. exact (cmyk_full_key_is_black (mkCmyka 20 nan 80 150 0.5) eq_refl). Defined.

(** A blackness of 100 or more is clamped to 100 and gives black,
    whatever the hue (NaN and the infinities included) and the
    whiteness hold; the alpha is the clamped alpha. *)
Theorem hwb_clamped_blackness_is_black (hwba : HwbaColor) :
  (100 <=? hwb_b hwba) = true ->
  hwbaToRgba (clampHwba hwba) = mkRgba 0 0 0 (clamp01 (hwb_a hwba)).
Proof.
  intros H. unfold hwbaToRgba, clampHwba. cbn [hwb_h hwb_w hwb_b hwb_a].
  rewrite (clamp_top _ 100 H eq_refl).
  change (100 =? 100) with true. cbv iota. change (100 - 100) with 0.
  destruct (clampHue_leb (hwb_h hwba)) as (_ & H0 & H360).
  now apply hsvaToRgba_black.
Qed.

Lemma hwb_clamped_blackness_witness :
  hwbaToRgba (clampHwba (mkHwba (-725) 40 250 2)) = mkRgba 0 0 0 1.
Proof. exact (hwb_clamped_blackness_is_black (mkHwba (-725) 40 250 2) eq_refl). Defined.

End Black.

(** ** Greys *)

Lemma SFcompare_refl x : SFcompare x x = None -> x = S754_nan.
Proof.
  destruct x as [s|s| |s m e]; cbn; try discriminate; reflexivity.
Qed.

Lemma is_nan_true x : is_nan x = true -> x = nan.
Proof.
  unfold is_nan. rewrite eqb_spec. unfold SFeqb. intros H.
  apply nan_spec.
  pose proof (SFcompare_swap (Prim2SF x) (Prim2SF x)) as Hs.
  destruct (SFcompare (Prim2SF x) (Prim2SF x)) as [[| |]|] eqn:E;
    try discriminate.
  now apply SFcompare_refl.
Qed.

Lemma max2_diag x : Js.max2 x x = x.
Proof.
  unfold Js.max2. destruct (is_nan x) eqn:N; cbn [orb].
  - symmetry. now apply is_nan_true.
  - rewrite ltb_irrefl. now destruct (get_sign x).
Qed.

Lemma min2_diag x : Js.min2 x x = x.
Proof.
  unfold Js.min2. destruct (is_nan x) eqn:N; cbn [orb].
  - symmetry. now apply is_nan_true.
  - rewrite ltb_irrefl. now destruct (get_sign x).
Qed.

Lemma truthy_zn x : zn x -> Js.truthy x = false.
Proof. intros H. destruct (zn_cases _ H) as [->|[->| ->]]; reflexivity. Qed.

Lemma ink_zn c : zn c -> (if Js.isNaN c then 0 else round (c * 100) 0) = 0.
Proof. intros H. destruct (zn_cases _ H) as [->|[->| ->]]; reflexivity. Qed.

(** A grey, whatever number its three equal channels hold, has hue 0 in
    HSV and HWB and no cyan, magenta or yellow ink. *)
Theorem grey_has_no_hue_and_no_ink (v alpha : float) :
  hsv_h (rgbaToHsva (mkRgba v v v alpha)) = 0 /\
  hwb_h (rgbaToHwba (mkRgba v v v alpha)) = 0 /\
  cmyk_c (rgbaToCmyka (mkRgba v v v alpha)) = 0 /\
  cmyk_m (rgbaToCmyka (mkRgba v v v alpha)) = 0 /\
  cmyk_y (rgbaToCmyka (mkRgba v v v alpha)) = 0.
Proof.
  assert (Hh : hsv_h (rgbaToHsva (mkRgba v v v alpha)) = 0).
  { unfold rgbaToHsva, Js.max, Js.min. cbv zeta.
    rewrite !max2_diag, !min2_diag. cbn [hsv_h].
    now rewrite (truthy_zn _ (sub_diag_zn v)). }
  split; [exact Hh|split; [exact Hh|]].
  unfold rgbaToCmyka, cmykKey, cmykInk, Js.max. cbv zeta.
  cbn [rgb_r rgb_g rgb_b cmyk_c cmyk_m cmyk_y].
  rewrite !max2_diag.
  rewrite (ink_zn _ (div_zn_l _ _ (sub_diag_zn (1 - v / 255)))).
  repeat split.
Qed.

(** ** Contrast and readability *)

Lemma div_nan_r x : x / nan = nan.
Proof. to_spec. now destruct (Prim2SF x). Qed.

Lemma div_nan_l x : nan / x = nan.
Proof. to_spec. now destruct (Prim2SF x). Qed.

(** The ratio of the lighter to the darker does not depend on the
    order of the two luminances. *)
Lemma ratio_sym l1 l2 :
  (if l2 <? l1 then (l1 + 0.05) / (l2 + 0.05) else (l2 + 0.05) / (l1 + 0.05))
  = (if l1 <? l2 then (l2 + 0.05) / (l1 + 0.05) else (l1 + 0.05) / (l2 + 0.05)).
Proof.
  rewrite !ltb_compare, (SFcompare_swap (Prim2SF l1) (Prim2SF l2)).
  destruct (SFcompare (Prim2SF l1) (Prim2SF l2)) as [[| |]|] eqn:C;
    cbn [option_map CompOpp]; try reflexivity.
  - apply SFcompare_Eq in C. destruct C as [C|[Z1 Z2]].
    + now rewrite (Prim2SF_inj _ _ C).
    + destruct (zeroish_cases l1 Z1) as [->| ->],
        (zeroish_cases l2 Z2) as [->| ->]; reflexivity.
  - apply SFcompare_None in C. destruct C as [C|C]; apply nan_spec in C;
      subst; change (nan + 0.05) with nan;
      now rewrite div_nan_l, div_nan_r.
Qed.

Section Symmetry.

Context {engine : Engine}.

(** Whatever the engine and the channels, [getContrast] of two colours
    does not depend on their order. *)
Theorem getContrast_is_symmetric (rgba1 rgba2 : RgbaColor) :
  getContrast rgba1 rgba2 = getContrast rgba2 rgba1.
Proof. apply ratio_sym. Qed.

End Symmetry.

Section Readability.

Import Real64 Real64Facts Real64More.

Context {engine : Engine}.

Lemma getContrast_diag rgba :
  getContrast rgba rgba = 1 \/ getContrast rgba rgba = nan.
Proof.
  unfold getContrast. cbv zeta. rewrite ltb_irrefl. apply div_diag.
Qed.

(** Whatever the engine and the channels, no colour is readable on
    itself, at any level and size. *)
Theorem never_readable_on_itself (rgba : RgbaColor)
    (level size : option string) :
  isReadable rgba rgba level size = false.
Proof.
  unfold isReadable, contrast, getMinimalContrast. cbv zeta.
  destruct (getContrast_diag rgba) as [-> | ->];
    destruct (_ && _); try reflexivity; destruct (_ && _); reflexivity.
Qed.

(** Readability is ordered by strictness: a pair readable at level AAA
    and normal size is readable under every option, and a pair
    readable under any option is readable at level AA and large
    size. *)
Theorem readability_levels_are_ordered (rgba rgb2 : RgbaColor)
    (level size : option string) :
  implb (isReadable rgba rgb2 (Some "AAA"%string) (Some "normal"%string))
        (isReadable rgba rgb2 level size) = true /\
  implb (isReadable rgba rgb2 level size)
        (isReadable rgba rgb2 (Some "AA"%string) (Some "large"%string)) = true.
Proof.
  assert (B37 : below 3 7) by (apply leb_below; [reflexivity..|good_const]).
  assert (B47 : below 4.5 7) by (apply leb_below; [reflexivity..|good_const]).
  assert (B34 : below 3 4.5) by (apply leb_below; [reflexivity..|good_const]).
  unfold isReadable.
  change (getMinimalContrast (Some "AAA"%string) (Some "normal"%string)) with 7.
  change (getMinimalContrast (Some "AA"%string) (Some "large"%string)) with 3.
  set (x := contrast rgba rgb2).
  assert (H3 : (7 <=? x) = true -> (3 <=? x) = true) by apply (leb_weaken _ _ _ B37).
  assert (H4 : (7 <=? x) = true -> (4.5 <=? x) = true) by apply (leb_weaken _ _ _ B47).
  assert (H5 : (4.5 <=? x) = true -> (3 <=? x) = true) by apply (leb_weaken _ _ _ B34).
  unfold getMinimalContrast. cbv zeta. revert H3 H4 H5.
  destruct (_ && _); [|destruct (_ && _)];
    destruct (7 <=? x), (4.5 <=? x), (3 <=? x); cbn [implb];
    intros H3 H4 H5; try (split; reflexivity);
    try discriminate (H3 eq_refl); try discriminate (H4 eq_refl);
    try discriminate (H5 eq_refl).
Qed.

End Readability.

(** ** Luminance *)

Section Luminance.

Import Real64 Real64Facts Real64More.

Context {engine : Engine} {laws : GammaLaws engine}.

Lemma luminance_between c :
  inGamut c = true ->
  between 0 1 (getLuminance c) = true /\ between 0 1 (luminance c) = true.
Proof.
  intros H. pose proof (luminance_unit c H) as L.
  pose proof (round2_unit _ L) as L2.
  split; (apply between_intro; [apply below_zero|assumption]).
  - apply L.
  - apply L2.
Qed.

Lemma luminance_ends : luminance white = 1 /\ luminance black = 0.
Proof.
  unfold luminance. rewrite luminance_white, luminance_black.
  split; reflexivity.
Qed.

End Luminance.

(** On an engine whose power function keeps 1 at 1 and the unit
    interval inside itself at the exponent 2.4, the relative luminance
    of a colour with channels between 0 and 255 lies between 0 and 1,
    before and after rounding to two digits; white has luminance 1 and
    black 0. *)
Theorem luminance_range {engine : Engine} (laws : GammaLaws engine)
    (rgba : RgbaColor) :
  inGamut rgba = true ->
  between 0 1 (getLuminance rgba) = true /\
  between 0 1 (luminance rgba) = true /\
  luminance white = 1 /\ luminance black = 0.
Proof.
  intros H. destruct (luminance_between rgba H) as [H1 H2].
  destruct luminance_ends as [H3 H4]. auto.
Qed.

Lemma luminance_range_witness :
  between 0 1 (@getLuminance squareEngine (mkRgba 255 0 0 1)) = true /\
  between 0 1 (@luminance squareEngine (mkRgba 255 0 0 1)) = true /\
  @luminance squareEngine white = 1 /\ @luminance squareEngine black = 0.
Proof.
  exact (luminance_range squareEngine_laws (mkRgba 255 0 0 1) eq_refl).
Defined.

(** ** Negative zero *)

Lemma plus_zero_nz y : y + 0 <> -0.
Proof.
  intros H. apply (add_zero_sign y). rewrite H. reflexivity.
Qed.

Lemma round_nz x d : round x d <> -0.
Proof. apply plus_zero_nz. Qed.

Section Formatters.

Context {engine : Engine}.

(** The helpers [round] and [floor] never return negative zero,
    whatever the number and the digit count; hence no number spliced
    by the CMYK, HWB and LCH formatters is negative zero. *)
Theorem rounding_never_gives_negative_zero
    (x : float) (digits : nat) (rgba : RgbaColor) :
  round x digits <> -0 /\ floor x digits <> -0 /\
  Forall (fun v => v <> -0) (values (rgbaToCmykaString rgba digits)) /\
  Forall (fun v => v <> -0) (values (rgbaToHwbaString rgba digits)) /\
  Forall (fun v => v <> -0) (values (rgbaToLchaString rgba digits)).
Proof.
  split; [apply round_nz|]. split; [apply plus_zero_nz|].
  unfold rgbaToCmykaString, rgbaToHwbaString, rgbaToLchaString,
    roundCmyka, roundHwba, roundLcha.
  split; [|split]; destruct (_ <? 1); cbn [values flat_map app];
    repeat constructor; apply round_nz.
Qed.

End Formatters.

(** ** Mixing with a ratio that is not a number *)

Section MixNaN.

Context {engine : Engine}.

Lemma mul_nan_r x : x * nan = nan.
Proof. to_spec. now destruct (Prim2SF x). Qed.

Lemma blend_nan x y : x * (1 - nan) + y * nan = nan.
Proof. change (1 - nan) with nan. now rewrite !mul_nan_r. Qed.

Lemma unlinearize_nan t : t = nan -> unlinearizeRgbChannel t = nan.
Proof.
  intros ->. unfold unlinearizeRgbChannel. cbv zeta.
  change (0.0031308 <? nan) with false. reflexivity.
Qed.

Lemma mix_nan rgba1 rgba2 :
  Math_pow nan 3 = nan -> mix rgba1 rgba2 nan = mkRgba 0 0 0 0.
Proof.
  intros Hn. unfold mix. cbv zeta. rewrite !blend_nan.
  unfold clampLaba, labaToRgba. cbn [lab_l lab_a lab_b lab_alpha].
  change (clamp nan 0 400) with 0. change (clamp01 nan) with 0.
  change (nan / 500 + (0 + 16) / 116) with nan.
  change ((0 + 16) / 116 - nan / 200) with nan.
  rewrite Hn.
  change (lab_e <? nan) with false. change (lab_k * lab_e <? 0) with false.
  cbv iota.
  change ((116 * nan - 16) / lab_k * D50_x) with nan.
  change ((116 * nan - 16) / lab_k * D50_z) with nan.
  unfold xyzaToRgba, adaptXyzToD65. cbn [xyz_a].
  rewrite !unlinearize_nan by reflexivity. reflexivity.
Qed.

End MixNaN.

(** When the engine's power function gives NaN at NaN, mixing any two
    colours with a ratio that is NaN gives transparent black; a
    palette of one colour asks for the ratio [(1 / 0) * 0], which is
    NaN, and so holds transparent black only. *)
Theorem mix_nan_ratio_is_transparent_black {engine : Engine}
    (rgba1 rgba2 : RgbaColor) :
  Math_pow nan 3 = nan ->
  mix rgba1 rgba2 nan = mkRgba 0 0 0 0 /\
  mixPalette rgba1 rgba2 1 = [mkRgba 0 0 0 0].
Proof.
  intros Hn. split; [now apply mix_nan|].
  unfold mixPalette. cbn [seq map].
  change (1 / (Js.of_nat 1 - 1) * Js.of_nat 0) with nan.
  now rewrite mix_nan.
Qed.

Lemma mix_nan_ratio_witness :
  @mix sampleEngine (mkRgba 255 0 0 1) (mkRgba 0 0 255 1) nan
  = mkRgba 0 0 0 0 /\
  @mixPalette sampleEngine (mkRgba 255 0 0 1) (mkRgba 0 0 255 1) 1
  = [mkRgba 0 0 0 0].
Proof.
  exact (@mix_nan_ratio_is_transparent_black sampleEngine
           (mkRgba 255 0 0 1) (mkRgba 0 0 255 1) eq_refl).
Defined.

(** ** Inks of a colour in gamut *)

Section Inks.

Import Real64 Real64Facts Real64More.

(** A colour with channels between 0 and 255, whole or not, has whole
    percentages between 0 and 100 for its three inks and its key; the
    alpha is kept. *)
Theorem rgbaToCmyka_gives_whole_percents (rgba : RgbaColor) :
  inGamut rgba = true ->
  wholeUpTo 100 (cmyk_c (rgbaToCmyka rgba)) /\
  wholeUpTo 100 (cmyk_m (rgbaToCmyka rgba)) /\
  wholeUpTo 100 (cmyk_y (rgbaToCmyka rgba)) /\
  wholeUpTo 100 (cmyk_k (rgbaToCmyka rgba)) /\
  cmyk_a (rgbaToCmyka rgba) = rgb_a rgba.
Proof.
  unfold inGamut. intros H.
  repeat (apply andb_prop in H; destruct H as [H ?]).
  assert (G255 : good 255) by good_const.
  assert (Br : below (rgb_r rgba / 255) 1)
    by (apply ratio255, leb_below; assumption).
  assert (Bg : below (rgb_g rgba / 255) 1)
    by (apply ratio255, leb_below; assumption).
  assert (Bb : below (rgb_b rgba / 255) 1)
    by (apply ratio255, leb_below; assumption).
  destruct (max_good _ _ _ (proj1 Br) (proj1 Bg) (proj1 Bb)) as (Mr & Mg & Mb).
  pose proof (max_below _ _ _ _ Br Bg Bb) as M1.
  unfold rgbaToCmyka, cmykKey, cmykInk. cbv zeta.
  cbn [cmyk_c cmyk_m cmyk_y cmyk_k cmyk_a].
  split; [exact (ink_whole _ _ Mr M1)|].
  split; [exact (ink_whole _ _ Mg M1)|].
  split; [exact (ink_whole _ _ Mb M1)|].
  split; [|reflexivity].
  apply percent_whole, sub_below, M1.
Qed.

Lemma rgbaToCmyka_whole_percents_witness :
  wholeUpTo 100 (cmyk_c (rgbaToCmyka (mkRgba 12.5 200 0.1 1))) /\
  wholeUpTo 100 (cmyk_m (rgbaToCmyka (mkRgba 12.5 200 0.1 1))) /\
  wholeUpTo 100 (cmyk_y (rgbaToCmyka (mkRgba 12.5 200 0.1 1))) /\
  wholeUpTo 100 (cmyk_k (rgbaToCmyka (mkRgba 12.5 200 0.1 1))) /\
  cmyk_a (rgbaToCmyka (mkRgba 12.5 200 0.1 1)) = 1.
Proof.
  exact (rgbaToCmyka_gives_whole_percents (mkRgba 12.5 200 0.1 1) eq_refl).
Defined.

End Inks.

(** ** Clamping twice *)

Section Idempotence.

Import Real64 Real64Facts Real64More.

(** Clamping is idempotent: a hue, and a colour of any of the six
    models, is not changed by being clamped a second time, whatever
    numbers it held at first. *)
Theorem clamping_is_idempotent
    (h : float) (hwba : HwbaColor) (cmyka : CmykaColor) (lcha : LchaColor)
    (laba : LabaColor) (rgba : RgbaColor) (xyza : XyzaColor) :
  clampHue (clampHue h) = clampHue h /\
  clampHwba (clampHwba hwba) = clampHwba hwba /\
  clampCmyka (clampCmyka cmyka) = clampCmyka cmyka /\
  clampLcha (clampLcha lcha) = clampLcha lcha /\
  clampLaba (clampLaba laba) = clampLaba laba /\
  clampRgba (clampRgba rgba) = clampRgba rgba /\
  clampXyza (clampXyza xyza) = clampXyza xyza.
Proof.
  unfold clampHwba, clampCmyka, clampLcha, clampLaba, clampRgba, clampXyza,
    clamp01.
  cbn [hwb_h hwb_w hwb_b hwb_a cmyk_c cmyk_m cmyk_y cmyk_k cmyk_a
       lch_l lch_c lch_h lch_a lab_l lab_a lab_b lab_alpha
       rgb_r rgb_g rgb_b rgb_a xyz_x xyz_y xyz_z xyz_a].
  rewrite !clampHue_idem, !clamp_idem by reflexivity.
  repeat split.
Qed.

End Idempotence.

(** ** Percentages of a colour in gamut *)

Section Percentages.

Import Real64 Real64Facts Real64More.

(** A colour with channels between 0 and 255 has a saturation and a
    value, and a whiteness and a blackness, between 0 and 100. *)
Theorem hsv_and_hwb_percentages (rgba : RgbaColor) :
  inGamut rgba = true ->
  between 0 100 (hsv_s (rgbaToHsva rgba)) = true /\
  between 0 100 (hsv_v (rgbaToHsva rgba)) = true /\
  between 0 100 (hwb_w (rgbaToHwba rgba)) = true /\
  between 0 100 (hwb_b (rgbaToHwba rgba)) = true.
Proof.
  unfold inGamut. intros H.
  repeat (apply andb_prop in H; destruct H as [H ?]).
  assert (G255 : good 255) by good_const.
  assert (G100 : good 100) by good_const.
  destruct rgba as [r g b a]. cbn [rgb_r rgb_g rgb_b] in *.
  assert (Br : below r 255) by (apply leb_below; assumption).
  assert (Bg : below g 255) by (apply leb_below; assumption).
  assert (Bb : below b 255) by (apply leb_below; assumption).
  pose proof (max_below _ _ _ _ Br Bg Bb) as M.
  destruct (max_good r g b (proj1 Br) (proj1 Bg) (proj1 Bb)) as (Mr & _ & _).
  pose proof (min_good r g b (proj1 Br) (proj1 Bg) (proj1 Bb)) as Nr.
  assert (NM : below (Js.min r g b) (Js.max r g b))
    by exact (below_trans _ _ _ Nr Mr).
  assert (N : below (Js.min r g b) 255) by exact (below_trans _ _ _ Nr Br).
  unfold rgbaToHwba, rgbaToHsva. cbv zeta.
  cbn [hsv_s hsv_v hwb_w hwb_b rgb_r rgb_g rgb_b].
  set (mx := Js.max r g b) in *. set (mn := Js.min r g b) in *.
  assert (V : below (mx / 255 * 100) 100).
  { apply (below_to _ (1 * 100)); [reflexivity|].
    apply below_mul; [now apply ratio255|now apply below_refl|good_const]. }
  split; [|split; [|split]].
  - destruct (Js.truthy mx) eqn:T; [|reflexivity].
    pose proof (truthy_positive mx (proj1 M) T) as P.
    apply percent_between.
    apply (below_to _ (mx / mx)); [now apply div_diag_good; [apply M|]|].
    apply below_div; [now apply sub_below|apply below_refl, M|exact P|].
    rewrite div_diag_good; [exact good_one|apply M|exact P].
  - apply percent_between. now apply ratio255.
  - apply percent_between. now apply ratio255.
  - apply between_intro; [apply below_zero|]; now apply sub_below.
Qed.

Lemma hsv_and_hwb_percentages_witness :
  between 0 100 (hsv_s (rgbaToHsva (mkRgba 12.5 200 0.1 1))) = true /\
  between 0 100 (hsv_v (rgbaToHsva (mkRgba 12.5 200 0.1 1))) = true /\
  between 0 100 (hwb_w (rgbaToHwba (mkRgba 12.5 200 0.1 1))) = true /\
  between 0 100 (hwb_b (rgbaToHwba (mkRgba 12.5 200 0.1 1))) = true.
Proof.
  exact (hsv_and_hwb_percentages (mkRgba 12.5 200 0.1 1) eq_refl).
Defined.

End Percentages.

(** * Round trips and full blackness on every input *)

(** ** Full blackness at any hue *)

(** Multiplying a finite number by the saturation 0 cancels the term. *)
Lemma absorb_finite t : Js.isFinite t = true -> 0 * (1 - t * 0) = 0.
Proof.
  intros H. apply Real64More.isFinite_cases in H.
  assert (Hz : zeroish (t * 0)).
  { unfold zeroish. rewrite mul_spec. unfold SF64mul.
    change (Prim2SF 0) with (S754_zero false).
    destruct (Prim2SF t); try contradiction; reflexivity. }
  destruct (zeroish_cases _ Hz) as [-> | ->]; reflexivity.
Qed.

Lemma fbounded_isFinite B t : fbounded B t -> Js.isFinite t = true.
Proof.
  unfold fbounded, Js.isFinite, is_finite, is_nan, is_infinity.
  rewrite !eqb_spec, abs_spec.
  change (Prim2SF infinity) with (S754_infinity false).
  pose proof (SFcompare_swap (Prim2SF t) (Prim2SF t)) as Hs.
  destruct (Prim2SF t) as [s|s| |s m e] eqn:E; cbn [bounded]; try contradiction;
    intros _.
  - reflexivity.
  - assert (Hc : SFcompare (S754_finite s m e) (S754_finite s m e) = Some Eq).
    { destruct (SFcompare (S754_finite s m e) (S754_finite s m e))
        as [[| |]|] eqn:C; try reflexivity; discriminate. }
    unfold SFeqb. rewrite Hc. reflexivity.
Qed.

Lemma sub_self_finite x : Js.isFinite x = true -> Js.isFinite (x - x) = true.
Proof.
  intros H. apply Real64More.isFinite_cases in H.
  assert (Hz : zeroish (x - x)).
  { unfold zeroish. rewrite sub_spec. unfold SF64sub.
    destruct (Prim2SF x) as [s|s| |s m e]; try contradiction.
    - now destruct s.
    - unfold SFsub. set (A := cond_Zopp s _).
      now replace (A - A)%Z with 0%Z by lia. }
  destruct (zeroish_cases _ Hz) as [-> | ->]; reflexivity.
Qed.

(** [x - (- y)] is [x + y]. *)
Lemma SFsub_opp_r x y :
  SFsub prec emax x (SFopp y) = SFadd prec emax x y.
Proof.
  destruct x as [sx|sx| |sx mx ex], y as [sy|sy| |sy my ey];
    try reflexivity; destruct sx, sy; reflexivity.
Qed.

Lemma sub_opp_r x y : x - (- y) = x + y.
Proof. to_spec. apply SFsub_opp_r. Qed.

Lemma add_zeroish_l z x :
  zeroish z -> Js.isFinite x = true -> Js.isFinite (z + x) = true.
Proof.
  intros Hz Hx. apply Real64More.isFinite_cases in Hx.
  destruct (Prim2SF x) as [s|s| |s m e] eqn:E; try contradiction.
  - assert (Hx' : zeroish x) by (unfold zeroish; now rewrite E).
    destruct (zeroish_cases _ Hz) as [-> | ->],
      (zeroish_cases _ Hx') as [-> | ->]; reflexivity.
  - assert (Es : z + x = x).
    { to_spec. unfold zeroish in Hz. rewrite E.
      destruct (Prim2SF z); try discriminate. reflexivity. }
    rewrite Es. apply (fbounded_isFinite (dg (Zpos m) + e)).
    unfold fbounded. rewrite E. cbn [bounded]. lia.
Qed.

Lemma add_zero_l x : Js.isFinite x = true -> Prim2SF x <> S754_zero true ->
  0 + x = x.
Proof.
  intros H Hn. apply Real64More.isFinite_cases in H. to_spec.
  change (Prim2SF 0) with (S754_zero false).
  destruct (Prim2SF x) as [[|]| | |s m e]; try contradiction; try reflexivity.
Qed.

Lemma fbounded_opp B x : fbounded B x -> fbounded B (- x).
Proof.
  unfold fbounded. rewrite opp_spec.
  destruct (Prim2SF x); cbn [SFopp bounded]; auto.
Qed.

(** A whole number up to [2^53] as a number is below [2^55]. *)
Lemma of_Z_fbounded q : (0 <= q <= 2 ^ 53)%Z -> fbounded 55 (Js.of_Z q).
Proof.
  intros H.
  assert (Hs : Prim2SF (Js.of_Z q) = binary_normalize prec emax q 0 false).
  { unfold Js.of_Z. rewrite of_uint63_spec, Uint63.of_Z_spec.
    rewrite Z.mod_small; [reflexivity|].
    split; [lia|]. apply Z.le_lt_trans with (2 ^ 53)%Z; [lia|reflexivity]. }
  unfold fbounded. rewrite Hs.
  apply (binary_normalize_bounded prec emax prec_pos); [|vm_compute; congruence].
  rewrite Z.abs_eq by lia.
  assert (dg q <= 54)%Z.
  { destruct (Z.eq_dec q 0) as [->|]; [vm_compute; congruence|].
    apply dg_le; [lia|lia|].
    apply Z.le_lt_trans with (2 ^ 53)%Z; [lia|reflexivity]. }
  change emin with (-1074)%Z. lia.
Qed.

(** [Math.floor] of a number with a fraction part is below [2^55]. *)
Lemma floor_fbounded x s m e :
  Prim2SF x = S754_finite s m e -> (e < 0)%Z -> fbounded 55 (Js.floor x).
Proof.
  intros E He. unfold Js.floor. rewrite E.
  replace (0 <=? e)%Z with false by (symmetry; apply Z.leb_gt; lia).
  pose proof (Prim2SF_valid x) as Hv. rewrite E in Hv.
  apply valid_digits in Hv as [Hd _].
  set (q := Z.shiftr (Zpos m) (- e)).
  assert (Hq : (0 <= q < 2 ^ 53)%Z).
  { unfold q. rewrite Z.shiftr_div_pow2 by lia.
    assert (0 < 2 ^ (- e))%Z by (apply Z.pow_pos_nonneg; lia).
    split; [apply Z.div_pos; lia|].
    apply Z.div_lt_upper_bound; [lia|].
    pose proof (dg_gt (Zpos m) ltac:(lia)) as Hu.
    assert (2 ^ dg (Zpos m) <= 2 ^ 53)%Z by (apply Z.pow_le_mono_r; lia).
    assert (1 <= 2 ^ (- e))%Z by lia. nia. }
  destruct s; [|apply of_Z_fbounded; lia].
  destruct (_ =? _)%Z; apply fbounded_opp, of_Z_fbounded; lia.
Qed.

Module Real64Hue.

Import Reals Lra.
Import Real64 Real64Facts Real64More.

Local Open Scope R_scope.

Lemma good_le_max a : good a -> below a maxNumber.
Proof.
  intros G. split; [assumption|]. split; [unfold maxNumber; good_const|].
  unfold val, good in *.
  replace (Prim2SF maxNumber) with (S754_finite false 9007199254740991 971)
    by (vm_compute; reflexivity).
  cbn [SF2R].
  destruct (Prim2SF a) as [s| | |s m e]; cbn [valid SF2R] in *;
    try contradiction.
  - apply Rlt_le, finite_pos.
  - destruct G as (-> & ((_ & Hm) & _) & He). unfold F2R.
    change prec with 53%Z in Hm. change (emax - prec)%Z with 971%Z in He.
    assert (H1 : IZR (Zpos m) <= IZR 9007199254740991) by (apply IZR_le; lia).
    pose proof (p2_le e 971 He) as H2. pose proof (p2_pos e) as H3.
    assert (0 < IZR (Zpos m)) by (apply IZR_lt; lia).
    apply Rle_trans with (IZR (Zpos m) * p2 971); nra.
Qed.

(** A smaller valid number taken from a valid one by adding its
    opposite: the result is valid. *)
Lemma opp_add_good g y : below g y -> good (- g + y)%float.
Proof.
  intros (Gg & Gy & H).
  pose proof (SFadd_opp_rounds prec emax prec_pos prec_emax
                (Prim2SF g) (Prim2SF y) Gg Gy H) as R.
  rewrite <- opp_spec, <- add_spec in R.
  fold (val y) (val g) in R.
  pose proof (good_val g Gg).
  destruct (rounds_valid prec emax prec_pos _ _ (Prim2SF y) R Gy
              ltac:(fold (val y); lra)) as [Hfin _].
  apply good_intro. now apply (rounds_finite prec emax (val y - val g)).
Qed.

Lemma good_finite x : good x -> Js.isFinite x = true.
Proof. apply good_isFinite. Qed.

Lemma finite_split x :
  Js.isFinite x = true -> good x \/ (good (- x)%float /\ positive (- x)%float).
Proof.
  intros H. apply isFinite_cases in H.
  destruct (Prim2SF x) as [s| | |s m e] eqn:E; try contradiction.
  - left. unfold good. now rewrite E.
  - destruct s.
    + right. split.
      * apply good_intro. rewrite opp_spec, E. reflexivity.
      * unfold positive, val. rewrite opp_spec, E. cbn [SFopp SF2R negb].
        apply finite_pos.
    + left. apply good_intro. rewrite E. reflexivity.
Qed.

(** The two terms [hsvaToRgba] multiplies by the saturation are finite
    whenever the scaled hue is. *)
Lemma hue_terms_finite x :
  Js.isFinite x = true ->
  Js.isFinite (x - Js.floor x)%float = true /\
  Js.isFinite (1 - x + Js.floor x)%float = true.
Proof.
  intros Hf. pose proof (isFinite_cases x Hf) as Hc.
  destruct (Prim2SF x) as [s| | |s m e] eqn:E; try contradiction.
  - assert (Hz : zeroish x) by (unfold zeroish; now rewrite E).
    destruct (zeroish_cases _ Hz) as [-> | ->]; split; reflexivity.
  - destruct (Z.leb_spec 0 e) as [He|He].
    + assert (Efl : Js.floor x = x).
      { unfold Js.floor. rewrite E.
        now replace (0 <=? e)%Z with true by (symmetry; apply Z.leb_le; lia). }
      rewrite Efl. split; [now apply sub_self_finite|].
      assert (Hge : 1 <= F2R (Zpos m) e).
      { unfold F2R. rewrite p2_Z by assumption. rewrite <- mult_IZR.
        apply IZR_le. assert (1 <= 2 ^ e)%Z by (apply (Z.pow_le_mono_r 2 0); lia).
        nia. }
      destruct s.
      * (* x is the opposite of a valid number a: (1 + a) - a *)
        set (a := (- x)%float).
        assert (Ga : good a)
          by (apply good_intro; unfold a; rewrite opp_spec, E; reflexivity).
        assert (Ex : x = (- a)%float) by (unfold a; now rewrite opp_involutive).
        rewrite Ex, sub_opp_r, add_comm.
        apply good_finite, opp_add_good.
        assert (B1 : below (1 + a)%float (1 + maxNumber)%float).
        { apply below_add; [apply below_refl, good_one|now apply good_le_max|].
          unfold maxNumber. good_const. }
        assert (Ea : (0 + a)%float = a).
        { apply add_zero_l; [now apply good_finite|].
          unfold a. rewrite opp_spec, E. discriminate. }
        rewrite <- Ea at 1.
        apply below_add; [apply below_zero, good_one|now apply below_refl|].
        apply B1.
      * assert (Gx : good x) by (apply good_intro; rewrite E; reflexivity).
        assert (B1 : below 1 x).
        { split; [exact good_one|split; [assumption|]].
          rewrite val_one. unfold val. rewrite E. exact Hge. }
        destruct (sub_swap x 1) as [Es|[_ Hz]].
        -- rewrite Es. apply good_finite, opp_add_good. now apply sub_below.
        -- now apply add_zeroish_l.
    + pose proof (Prim2SF_valid x) as Hv. rewrite E in Hv.
      apply valid_digits in Hv as [Hd _].
      assert (Bx : fbounded 53 x).
      { unfold fbounded. rewrite E. cbn [MagSpec.bounded]. lia. }
      pose proof (floor_fbounded x s m e E He) as Bf.
      split.
      * apply (fbounded_isFinite 57).
        apply (sub_fbounded _ _ 53 55); [assumption..|lia|lia].
      * apply (fbounded_isFinite 59).
        apply (add_fbounded _ _ 55 55); [|assumption|lia|lia].
        apply (sub_fbounded _ _ 1 53); [|assumption|lia|lia].
        vm_compute; first [exact I|congruence].
Qed.

(** [Math.floor] of a valid number is a whole number. *)
Lemma floor_whole x :
  good x -> exists q : Z, good (Js.floor x) /\ val (Js.floor x) = IZR q.
Proof.
  intros G.
  destruct (Rlt_or_le (val x) (IZR (2 ^ 53))) as [Hlt|Hge].
  - destruct (floor_spec x G Hlt) as (q & Gf & Vf & _). now exists q.
  - unfold Js.floor, val in *. pose proof G as G'. unfold good in G'.
    destruct (Prim2SF x) as [s| | |s m e] eqn:E; cbn [valid] in G';
      try contradiction.
    + exists 0%Z. split; [assumption|]. rewrite E. reflexivity.
    + destruct G' as (-> & ((_ & Hm) & _) & _). cbn [SF2R] in Hge.
      destruct (Z.leb_spec 0 e) as [He|He].
      * exists (Zpos m * 2 ^ e)%Z. split; [assumption|]. rewrite E.
        cbn [SF2R]. unfold F2R. now rewrite mult_IZR, <- p2_Z by assumption.
      * exfalso. unfold F2R in Hge. change prec with 53%Z in Hm.
        apply IZR_lt in Hm.
        assert (p2 e < 1) by (change 1 with (p2 0); apply p2_lt; lia).
        pose proof (p2_pos e).
        assert (0 < IZR (Zpos m)) by (apply IZR_lt; lia). nra.
Qed.

Lemma val_6 : val 6 = 6.
Proof. exact (proj2 (of_Z_val 6 ltac:(split; [lia|reflexivity]))). Qed.

(** The remainder by 6 of a valid whole number is an index in 0..5. *)
Lemma rem6_whole y n :
  good y -> val y = IZR n -> validIndex (Js.rem y 6) = true.
Proof.
  intros G Vn. unfold Js.rem.
  pose proof (Prim2SF_valid y) as Vy.
  pose proof G as G'. unfold good in G'. unfold val in Vn.
  pose proof val_6 as V6. unfold val in V6.
  change (Prim2SF 6) with (S754_finite false 6755399441055744 (-50)) in *.
  destruct (Prim2SF y) as [s| | |sx mx ex] eqn:Ex; cbn [valid] in G';
    try contradiction.
  - assert (Hz : zeroish y) by (unfold zeroish; now rewrite Ex).
    destruct (zeroish_cases _ Hz) as [-> | ->]; reflexivity.
  - destruct G' as (-> & _). cbn [SF2R] in Vn, V6. cbv iota beta.
    set (my := 6755399441055744%positive) in *. set (ey := (-50)%Z) in *.
    set (e := Z.min ex ey).
    assert (He : (e <= ex /\ e <= ey)%Z) by (unfold e; lia).
    rewrite !Z.shiftl_mul_pow2 by lia.
    set (nx := (Zpos mx * 2 ^ (ex - e))%Z).
    set (ny := (Zpos my * 2 ^ (ey - e))%Z).
    assert (Hnx : (0 < nx)%Z)
      by (unfold nx; apply Z.mul_pos_pos; [lia|apply Z.pow_pos_nonneg; lia]).
    assert (Hny : (0 < ny)%Z)
      by (unfold ny; apply Z.mul_pos_pos; [lia|apply Z.pow_pos_nonneg; lia]).
    assert (Vx' : F2R nx e = IZR n)
      by (unfold nx; now rewrite F2R_align by lia).
    assert (Vy' : F2R ny e = 6)
      by (unfold ny; now rewrite F2R_align by lia).
    pose proof (Z.rem_bound_pos nx ny ltac:(lia) Hny) as Hr.
    pose proof (Z.quot_rem' nx ny) as Hqr.
    set (q := Z.quot nx ny) in *.
    destruct (Z.rem nx ny) as [|p|p] eqn:Er; try lia; [reflexivity|].
    cbn [binary_normalize].
    pose proof (binary_round_rounds prec emax prec_pos prec_emax p e) as R.
    pose proof (binary_round_valid prec emax prec_pos false p e) as V.
    assert (Hk : F2R (Zpos p) e = IZR (n - 6 * q)).
    { rewrite minus_IZR, mult_IZR, <- Vx', <- Vy'. unfold F2R.
      rewrite Hqr, plus_IZR, mult_IZR. ring. }
    assert (Hlt : 0 < F2R (Zpos p) e < 6).
    { split; [apply finite_pos|]. rewrite <- Vy'. unfold F2R.
      pose proof (p2_pos e).
      assert (IZR (Zpos p) < IZR ny) by (apply IZR_lt; lia). nra. }
    set (k := (n - 6 * q)%Z) in *.
    assert (Hk' : (1 <= k <= 5)%Z).
    { rewrite Hk in Hlt. destruct Hlt as [H0 H6].
      apply lt_IZR in H0. apply lt_IZR in H6. lia. }
    assert (Hx : F2R (Zpos p) e <= val 360).
    { apply Rle_trans with 6; [lra|].
      rewrite <- val_6. apply (leb_val 6 360); [good_const|exact good_360|].
      reflexivity. }
    destruct (rounds_good _ _ R Hx V) as (Ga & _ & E).
    rewrite <- E in R. rewrite Hk in R.
    assert (Hk53 : (0 <= k < 2 ^ 53)%Z)
      by (split; [lia|apply Z.le_lt_trans with 5%Z; [lia|reflexivity]]).
    destruct (exact_step _ _ R (fmt_int k Hk53) (int_below_max k Hk53))
      as [_ Ev].
    destruct (of_Z_val k Hk53) as [Gz Vz].
    rewrite (same_float _ (Js.of_Z k) Ga Gz);
      [|now rewrite Ev, Vz|rewrite Ev; apply IZR_lt; lia].
    assert (Hc : k = 1%Z \/ k = 2%Z \/ k = 3%Z \/ k = 4%Z \/ k = 5%Z) by lia.
    destruct Hc as [-> |[-> |[-> |[-> | ->]]]]; reflexivity.
Qed.

(** A finite number that is not negative is valid. *)
Lemma finite_nonneg_good h :
  Js.isFinite h = true -> (0 <=? h)%float = true -> good h.
Proof.
  intros Hf H0. apply good_intro. apply isFinite_cases in Hf.
  rewrite leb_compare in H0.
  change (Prim2SF 0%float) with (S754_zero false) in H0.
  destruct (Prim2SF h) as [s|s| |s m e]; cbn [MagSpec.nonneg];
    try contradiction; try exact I.
  destruct s; [discriminate|reflexivity].
Qed.

(** The scaled hue [h / 360 * 6] of a valid hue is valid. *)
Lemma scaled_hue_good h : good h -> good (h / 360 * 6)%float.
Proof.
  intros G. pose proof (good_le_max h G) as B.
  assert (B1 : below (h / 360)%float (maxNumber / 360)%float).
  { apply below_div; [assumption|apply below_refl, good_360|
                      exact positive_360|unfold maxNumber; good_const]. }
  assert (B2 : below (h / 360 * 6)%float (maxNumber / 360 * 6)%float).
  { apply below_mul; [assumption|apply below_refl; good_const|
                      unfold maxNumber; good_const]. }
  apply B2.
Qed.

End Real64Hue.

Section Blackness.

Import Real64 Real64Facts Real64More Real64Hue.

Lemma index6_invalid a0 a1 a2 a3 a4 a5 i :
  validIndex i = false -> Js.index6 a0 a1 a2 a3 a4 a5 i = nan.
Proof.
  unfold validIndex, Js.index6. intros H.
  destruct (i =? 0); [discriminate|]. destruct (i =? 1); [discriminate|].
  destruct (i =? 2); [discriminate|]. destruct (i =? 3); [discriminate|].
  destruct (i =? 4); [discriminate|]. destruct (i =? 5); [discriminate|].
  reflexivity.
Qed.

Lemma nan_not_zero : nan <> 0.
Proof. intros H. apply (f_equal Prim2SF) in H. discriminate. Qed.

(** A valid sector index needs a finite scaled hue. *)
Lemma sector_finite x :
  validIndex (Js.rem (Js.floor x) 6) = true -> Js.isFinite x = true.
Proof.
  unfold Js.floor. intros H.
  destruct (Prim2SF x) as [s|s| |s m e] eqn:E.
  - apply (fbounded_isFinite 0). unfold fbounded. now rewrite E.
  - exfalso. unfold Js.rem in H. rewrite E in H. discriminate.
  - exfalso. unfold Js.rem in H. rewrite E in H. discriminate.
  - apply (fbounded_isFinite (dg (Zpos m) + e)). unfold fbounded.
    rewrite E. cbn [bounded]. lia.
Qed.

(** With saturation 0 and value 0, [hsvaToRgba] gives black exactly
    when the sector index it computes from the hue is one of 0..5. *)
Lemma hsvaToRgba_black_iff h a :
  hsvaToRgba (mkHsva h 0 0 a) = mkRgba 0 0 0 a
  <-> validIndex (sector h) = true.
Proof.
  unfold sector, hsvaToRgba.
  change (0 / 100) with 0. change (1 - 0) with 1. change (0 * 1) with 0.
  set (h1 := h / 360 * 6). split.
  - intros H. destruct (validIndex (Js.rem (Js.floor h1) 6)) eqn:V;
      [reflexivity|exfalso].
    apply (f_equal rgb_r) in H. cbn [rgb_r] in H.
    rewrite index6_invalid in H by exact V.
    exact (nan_not_zero H).
  - intros V. pose proof (sector_finite h1 V) as Hf.
    destruct (hue_terms_finite h1 Hf) as [F1 F2].
    rewrite (absorb_finite _ F1), (absorb_finite _ F2).
    rewrite !index6_const by assumption.
    reflexivity.
Qed.

(** The sector index of a finite hue that is not negative is one of
    0..5. *)
Lemma sector_valid h :
  Js.isFinite h = true -> (0 <=? h) = true -> validIndex (sector h) = true.
Proof.
  intros Hf H0. unfold sector.
  pose proof (scaled_hue_good h (finite_nonneg_good h Hf H0)) as G.
  destruct (floor_whole _ G) as (q & Gq & Vq).
  exact (rem6_whole _ q Gq Vq).
Qed.

End Blackness.

(** ** From RGBA to CMYK and back *)

Module Real64Error.

Import Reals Lra.
Import Real64 Real64Facts Real64More.

Local Open Scope R_scope.

Lemma abs_le_inv x a : Rabs x <= a -> - a <= x <= a.
Proof. unfold Rabs. destruct (Rcase_abs x); lra. Qed.

(** *** How far rounding moves a real *)

(** Below [2^(prec + e)] the format has a member within [2^e] under
    every real. *)
Lemma fmt_under x e :
  0 <= x -> x < p2 (prec + e) -> (SpecFloat.emin prec emax <= e)%Z ->
  exists f, fmt prec emax f /\ f <= x /\ x - f < p2 e.
Proof.
  intros H0 Hx He.
  pose proof (p2_pos e) as Hp. pose proof (p2_pos (- e)) as Hn.
  assert (Hinv : p2 e * p2 (- e) = 1)
    by (rewrite <- p2_add, Z.add_opp_diag_r; reflexivity).
  set (t := x * p2 (- e)).
  destruct (archimed t) as [Hu1 Hu2].
  set (m := (up t - 1)%Z).
  assert (Hm1 : IZR m <= t) by (unfold m; rewrite minus_IZR; lra).
  assert (Hm2 : t < IZR m + 1) by (unfold m; rewrite minus_IZR; lra).
  assert (Ht0 : 0 <= t) by (unfold t; nra).
  assert (Hm0 : (0 <= m)%Z).
  { assert (IZR (-1) < IZR m) by lra. apply lt_IZR in H. lia. }
  assert (Htp : t < p2 prec).
  { unfold t. rewrite p2_add in Hx.
    apply Rmult_lt_reg_r with (p2 e); [assumption|].
    replace (x * p2 (- e) * p2 e) with (x * (p2 e * p2 (- e))) by ring.
    rewrite Hinv. lra. }
  assert (Hmp : (m < 2 ^ prec)%Z).
  { apply lt_IZR. rewrite <- p2_Z by (change prec with 53%Z; lia). lra. }
  assert (Ex : x = t * p2 e).
  { unfold t. replace (x * p2 (- e) * p2 e) with (x * (p2 e * p2 (- e))) by ring.
    rewrite Hinv. ring. }
  exists (F2R m e). split; [|unfold F2R; split; nra].
  exists m, e. split; [reflexivity|]. split; [lia|assumption].
Qed.

(** The value of a valid float that rounds a real. *)
Lemma rounds_val x z :
  rounds prec emax x (Prim2SF z) -> good z -> nearest prec emax x (val z).
Proof.
  intros (v & N & _ & Hz) G. unfold val, good in *.
  destruct (Prim2SF z) as [s| | |s m e]; cbn [valid SF2R] in *;
    try contradiction.
  - now subst v.
  - destruct Hz as [-> ->]. exact N.
Qed.

(** What is rounded below 512 moves by at most [2^-44]. *)
Lemma near_step x z :
  rounds prec emax x (Prim2SF z) -> good z -> 0 <= x < 512 ->
  Rabs (val z - x) <= spacing.
Proof.
  intros R G [H0 Hx].
  destruct (rounds_val x z R G) as [_ Hn].
  destruct (fmt_under x (-44) H0) as (f & Ff & Hf1 & Hf2).
  - change (prec + -44)%Z with 9%Z. rewrite (p2_Z 9) by lia.
    change (2 ^ 9)%Z with 512%Z. exact Hx.
  - vm_compute. congruence.
  - apply Rle_trans with (Rabs (f - x)); [now apply Hn|].
    rewrite Rabs_left1 by lra. unfold spacing. lra.
Qed.

Lemma spacing_small : 0 < spacing < / 1000000000000.
Proof.
  unfold spacing. split; [apply p2_pos|].
  assert (Hinv : p2 44 * p2 (-44) = 1)
    by (rewrite <- p2_add; reflexivity).
  pose proof (p2_pos (-44)) as Hp.
  assert (H44 : 1000000000000 < p2 44).
  { rewrite (p2_Z 44) by lia. apply IZR_lt. reflexivity. }
  apply Rmult_lt_reg_l with 1000000000000; [lra|].
  rewrite Rinv_r by lra. nra.
Qed.

Lemma mul_near a b :
  good a -> good b -> good (a * b)%float -> val a * val b < 512 ->
  Rabs (val (a * b)%float - val a * val b) <= spacing.
Proof.
  intros Ga Gb G H. apply near_step; [now apply mul_rounds|assumption|].
  pose proof (good_val a Ga). pose proof (good_val b Gb). split; [nra|lra].
Qed.

Lemma sub_near a b :
  below b a -> val a < 512 ->
  Rabs (val (a - b)%float - (val a - val b)) <= spacing.
Proof.
  intros B H. pose proof (sub_below a b B) as (G & _ & _).
  destruct B as (Gb & Ga & Hle). pose proof (good_val b Gb).
  apply near_step; [now apply sub_rounds|assumption|lra].
Qed.

Lemma div_near a b :
  good a -> good b -> 0 < val b -> good (a / b)%float ->
  val a / val b < 512 ->
  Rabs (val (a / b)%float - val a / val b) <= spacing.
Proof.
  intros Ga Gb Hp G H. apply near_step; [now apply div_rounds|assumption|].
  split; [|assumption]. pose proof (good_val a Ga).
  apply Rmult_le_pos; [assumption|]. apply Rlt_le, Rinv_0_lt_compat, Hp.
Qed.

(** *** [Math.round] is within a half *)

Lemma round_near x N :
  good x -> val x <= IZR N -> (N <= 500)%Z ->
  exists q, (0 <= q <= N)%Z /\ good (Js.round x) /\
            val (Js.round x) = IZR q /\ Rabs (IZR q - val x) <= / 2 + spacing.
Proof.
  intros Hx Hle HN. unfold Js.round.
  rewrite (good_not_nan x Hx), (good_not_negative x Hx). cbn [andb].
  pose proof (good_val x Hx) as H0. pose proof spacing_small as Hu.
  assert (HN' : IZR N <= 500) by (apply IZR_le; lia).
  assert (Hb : val x < IZR (2 ^ 53)).
  { apply Rle_lt_trans with 500; [lra|]. apply IZR_lt. reflexivity. }
  destruct (floor_spec x Hx Hb) as (q & Gf & Vf & Hq1 & Hq2).
  assert (Hq0 : (0 <= q)%Z).
  { assert (IZR (-1) < IZR q) by lra. apply lt_IZR in H. lia. }
  assert (HqN : (q <= N)%Z) by (apply le_IZR; lra).
  set (f := Js.floor x) in *.
  assert (Bf : below f x) by (split; [assumption|split; [assumption|lra]]).
  pose proof (sub_below x f Bf) as (Gd & _ & _).
  pose proof (sub_near x f Bf ltac:(lra)) as Nd.
  apply abs_le_inv in Nd. rewrite Vf in Nd.
  assert (G5 : good 0.5) by good_const.
  assert (V5 : val 0.5 = / 2).
  { unfold val. replace (Prim2SF 0.5)
      with (S754_finite false 4503599627370496 (-53)) by (vm_compute; reflexivity).
    cbn [SF2R]. unfold F2R, p2. simpl. lra. }
  destruct (0.5 <=? x - f)%float eqn:E.
  - apply (leb_val 0.5 _ G5 Gd) in E. rewrite V5 in E.
    assert (Hlt : (q < N)%Z).
    { destruct (Z.eq_dec q N) as [->|]; [exfalso|lia]. lra. }
    exists (q + 1)%Z. split; [lia|].
    pose proof (add_rounds f 1 Gf good_one) as R.
    rewrite Vf, val_one, <- plus_IZR in R.
    assert (Hq53 : (0 <= q + 1 < 2 ^ 53)%Z)
      by (split; [lia|apply Z.le_lt_trans with 1000%Z; [lia|reflexivity]]).
    destruct (exact_step _ _ R (fmt_int _ Hq53) (int_below_max _ Hq53))
      as [G E'].
    split; [assumption|split; [assumption|]].
    rewrite plus_IZR. apply Rabs_le. lra.
  - assert (E' : val (x - f)%float < / 2).
    { apply Rnot_le_lt. intros H. rewrite <- V5 in H.
      apply (leb_val 0.5 _ G5 Gd) in H. congruence. }
    exists q. split; [lia|]. split; [assumption|split; [assumption|]].
    apply Rabs_le. lra.
Qed.

(** The helper [round(number)] at zero digits: the whole number
    within a half of its argument. *)
Lemma round0_near x N :
  good x -> val x <= IZR N -> (N <= 500)%Z ->
  exists q, (0 <= q <= N)%Z /\ round x 0 = Js.of_Z q /\
            Rabs (IZR q - val x) <= / 2 + spacing.
Proof.
  intros Hx Hle HN. unfold round. change (Js.pow10 0) with 1%float.
  pose proof (mul_rounds 1 x good_one Hx) as R1.
  rewrite val_one, Rmult_1_l in R1.
  destruct (exact_step _ _ R1 (good_fmt x Hx) (good_below x Hx)) as [G1 V1].
  destruct (round_near (1 * x) N G1 ltac:(lra) HN) as (q & Hq & G2 & V2 & Hn).
  rewrite V1 in Hn.
  exists q. split; [assumption|]. split; [|assumption].
  assert (Hq53 : (0 <= q < 2 ^ 53)%Z)
    by (split; [lia|apply Z.le_lt_trans with 1000%Z; [lia|reflexivity]]).
  assert (Fq : fmt prec emax (IZR q)) by (apply fmt_int; lia).
  assert (Bq : IZR q < p2 emax) by (apply int_below_max; lia).
  pose proof (div_rounds _ 1 G2 good_one ltac:(rewrite val_one; lra)) as R3.
  rewrite V2, val_one in R3. replace (IZR q / 1) with (IZR q) in R3 by field.
  destruct (exact_step _ _ R3 Fq Bq) as [G3 V3].
  pose proof (add_rounds _ 0 G3 good_zero) as R4.
  rewrite V3, val_zero, Rplus_0_r in R4.
  destruct (exact_step _ _ R4 Fq Bq) as [G4 V4].
  apply int_float; try assumption. apply add_zero_sign.
Qed.

(** *** The channel behind a pair of percentages *)

Lemma scaled_error t e b c :
  0 <= t <= c -> 0 <= b -> - b <= e <= b -> - (c * b) <= t * e <= c * b.
Proof. intros. split; nra. Qed.


Lemma share_bounds t n :
  0 <= t <= 1 -> Rabs (t - IZR n / 100) <= 501 / 100000 ->
  0 <= IZR (inkLow n) / 100000 <= 1 - t /\
  1 - t <= IZR (inkHigh n) / 100000.
Proof.
  intros Ht Hn. apply abs_le_inv in Hn. unfold inkLow, inkHigh.
  assert (E1 : IZR (1000 * (100 - n) - 501) = 1000 * (100 - IZR n) - 501)
    by (rewrite minus_IZR, mult_IZR, minus_IZR; reflexivity).
  assert (E2 : IZR (1000 * (100 - n) + 501) = 1000 * (100 - IZR n) + 501)
    by (rewrite plus_IZR, mult_IZR, minus_IZR; reflexivity).
  destruct (Z.max_spec 0 (1000 * (100 - n) - 501)) as [[H1 ->]|[H1 ->]];
    destruct (Z.min_spec 100000 (1000 * (100 - n) + 501)) as [[H2 ->]|[H2 ->]];
    try rewrite E1; try rewrite E2;
    apply IZR_lt in H1 || apply IZR_le in H1;
    apply IZR_lt in H2 || apply IZR_le in H2;
    rewrite ?E1, ?E2 in *; lra.
Qed.

Lemma product_bounds l1 s1 h1 l2 s2 h2 :
  0 <= l1 <= s1 -> s1 <= h1 -> 0 <= l2 <= s2 -> s2 <= h2 ->
  l1 * l2 <= s1 * s2 <= h1 * h2.
Proof. intros. split; nra. Qed.

Lemma percent_near t :
  below t 1 ->
  exists n, (0 <= n <= 100)%Z /\ round (t * 100) 0 = Js.of_Z n /\
            Rabs (val t - IZR n / 100) <= 501 / 100000.
Proof.
  intros Bt. pose proof spacing_small as Hu.
  assert (G100 : good 100%float) by good_const.
  assert (B : below (t * 100)%float 100).
  { apply (below_to _ (1 * 100)%float); [reflexivity|].
    apply below_mul; [assumption|now apply below_refl|good_const]. }
  destruct Bt as (Gt & _ & Ht). rewrite val_one in Ht.
  pose proof (good_val t Gt) as Ht0.
  pose proof (mul_near t 100 Gt G100 (proj1 B)
                ltac:(rewrite val_100; lra)) as Nm.
  rewrite val_100 in Nm. apply abs_le_inv in Nm.
  destruct B as (G & _ & V). rewrite val_100 in V.
  destruct (round0_near _ 100 G V ltac:(lia)) as (n & Hn & En & Nn).
  apply abs_le_inv in Nn.
  exists n. split; [assumption|split; [assumption|]].
  apply Rabs_le. lra.
Qed.

(** The channel [X] of a colour whose largest scaled channel is [M]
    lies in the interval that its rounded ink and key leave. *)
Lemma trip_interval X M :
  below X 255 -> below (X / 255)%float M -> below M 1 ->
  exists nc nk : Z,
    (0 <= nc <= 100)%Z /\ (0 <= nk <= 100)%Z /\
    (if Js.isNaN (cmykInk X (1 - M))
     then 0%float else round (cmykInk X (1 - M) * 100) 0) = Js.of_Z nc /\
    round ((1 - M) * 100) 0 = Js.of_Z nk /\
    IZR (inkLow nk) / 100000 * (IZR (inkLow nc) / 100000) * 255 - / 1000
    <= val X
    <= IZR (inkHigh nk) / 100000 * (IZR (inkHigh nc) / 100000) * 255 + / 1000.
Proof.
  intros BX Bxm Bm1. pose proof spacing_small as Hu.
  assert (G1 : good 1%float) by exact good_one.
  assert (G255 : good 255%float) by good_const.
  pose proof BX as (GX & _ & HX). rewrite val_255 in HX.
  pose proof (good_val X GX) as HX0.
  set (k := (1 - M)%float).
  assert (Hx1 : below (X / 255)%float 1) by (eapply below_trans; eassumption).
  assert (Bk : below k 1) by (apply sub_below; assumption).
  assert (BA : below (1 - X / 255)%float 1) by (apply sub_below; assumption).
  assert (BkA : below k (1 - X / 255)%float) by (apply sub_anti_r; assumption).
  assert (Bn : below (1 - X / 255 - k)%float (1 - k)%float)
    by (apply sub_mono_l; assumption).
  (* the errors of the five operations *)
  pose proof (div_near X 255 GX G255 ltac:(rewrite val_255; lra) (proj1 Hx1)
                ltac:(rewrite val_255; lra)) as E1.
  rewrite val_255 in E1. apply abs_le_inv in E1.
  pose proof (sub_near 1 M Bm1 ltac:(rewrite val_one; lra)) as E3.
  rewrite val_one in E3. apply abs_le_inv in E3. fold k in E3.
  pose proof (sub_near 1 (X / 255) Hx1 ltac:(rewrite val_one; lra)) as E4.
  rewrite val_one in E4. apply abs_le_inv in E4.
  pose proof (proj2 (proj2 BA)) as HA1. rewrite val_one in HA1.
  pose proof (sub_near _ k BkA ltac:(lra)) as E5. apply abs_le_inv in E5.
  pose proof (sub_near 1 k Bk ltac:(rewrite val_one; lra)) as E6.
  rewrite val_one in E6. apply abs_le_inv in E6.
  pose proof (proj2 (proj2 Bxm)) as Hxm.
  pose proof (proj2 (proj2 Bm1)) as Hm1. rewrite val_one in Hm1.
  pose proof (proj2 (proj2 Bk)) as Hk1. rewrite val_one in Hk1.
  pose proof (good_val k (proj1 Bk)) as Hk0.
  destruct (percent_near k Bk) as (nk & Hnk & Enk & Nnk).
  destruct (share_bounds (val k) nk (conj Hk0 Hk1) Nnk) as [[Lk0 Lk] Uk].
  assert (GD : good (1 - k)%float) by apply Bn.
  pose proof (proj2 (proj2 Bn)) as Hnd.
  pose proof (good_val _ (proj1 Bn)) as Hn0.
  unfold cmykInk. fold k.
  destruct (Rle_lt_or_eq_dec 0 (val (1 - k)%float) (good_val _ GD)) as [Hp|Hz].
  - set (c := ((1 - X / 255 - k) / (1 - k))%float).
    assert (Bc : below c 1).
    { unfold c. apply (below_to _ ((1 - k) / (1 - k))%float);
        [now apply div_diag_good|].
      apply below_div; [assumption|now apply below_refl|exact Hp|].
      rewrite (div_diag_good _ GD Hp). exact G1. }
    pose proof (proj2 (proj2 Bc)) as Hc1. rewrite val_one in Hc1.
    pose proof (good_val c (proj1 Bc)) as Hc0.
    assert (Hq : val (1 - X / 255 - k)%float / val (1 - k)%float <= 1).
    { apply Rmult_le_reg_r with (val (1 - k)%float); [assumption|].
      unfold Rdiv. rewrite Rmult_assoc, Rinv_l by lra. lra. }
    pose proof (div_near _ _ (proj1 Bn) GD Hp (proj1 Bc) ltac:(lra)) as E7.
    fold c in E7. apply abs_le_inv in E7.
    unfold Js.isNaN. rewrite (good_not_nan c (proj1 Bc)).
    destruct (percent_near c Bc) as (nc & Hnc & Enc & Nnc).
    destruct (share_bounds (val c) nc (conj Hc0 Hc1) Nnc) as [[Lc0 Lc] Uc].
    exists nc, nk. split; [assumption|]. split; [assumption|].
    split; [assumption|]. split; [assumption|].
    (* the channel in terms of the key and the ink *)
    set (x := val X / 255) in *.
    set (a := val (X / 255)%float) in *.
    set (A := val (1 - X / 255)%float) in *.
    set (n := val (1 - X / 255 - k)%float) in *.
    set (d := val (1 - k)%float) in *.
    set (kk := val k) in *. set (ii := val c) in *.
    assert (Hd1 : d <= 1 + spacing) by lra.
    assert (Em : n = (ii - (ii - n / d)) * d) by (field; lra).
    pose proof (scaled_error ii (d - (1 - kk)) spacing 1 (conj Hc0 Hc1)
                  ltac:(lra) E6) as T1.
    pose proof (scaled_error d (ii - n / d) spacing 2 ltac:(lra) ltac:(lra) E7)
      as T2.
    rewrite (Rmult_comm d) in T2.
    assert (Ex : Rabs (x - (1 - kk) * (1 - ii)) <= 6 * spacing).
    { apply Rabs_le.
      replace (x - (1 - kk) * (1 - ii))
        with (- (ii * (d - (1 - kk))) + (ii - n / d) * d
              + (n - (A - kk)) + (A - (1 - a)) - (a - x)).
      - lra.
      - rewrite Em at 2. ring. }
    apply abs_le_inv in Ex.
    destruct (product_bounds _ _ _ _ _ _ (conj Lk0 Lk) Uk (conj Lc0 Lc) Uc)
      as [PL PU].
    assert (EX : val X = 255 * x) by (unfold x; field).
    rewrite EX. split; lra.
  - (* the key is 100: the channel is next to nothing *)
    assert (Zd : zeroish (1 - k)%float).
    { unfold zeroish, val in *. unfold good in GD.
      destruct (Prim2SF (1 - k)%float) as [s| | |s e' m']; cbn [valid] in GD;
        try contradiction; [reflexivity|].
      destruct GD as [-> _]. cbn [SF2R] in Hz.
      pose proof (finite_pos e' m'). lra. }
    assert (Zn : zeroish (1 - X / 255 - k)%float).
    { destruct Bn as (Gn & _ & Hn).
      unfold zeroish, val in *. unfold good in Gn.
      destruct (Prim2SF (1 - X / 255 - k)%float) as [s| | |s e' m'];
        cbn [valid] in Gn; try contradiction; [reflexivity|].
      destruct Gn as [-> _]. cbn [SF2R] in Hn, Hn0.
      pose proof (finite_pos e' m'). lra. }
    assert (Ec : ((1 - X / 255 - k) / (1 - k))%float = nan).
    { destruct (zeroish_cases _ Zd) as [-> | ->],
        (zeroish_cases _ Zn) as [-> | ->]; reflexivity. }
    rewrite Ec. change (Js.isNaN nan) with true. cbv iota.
    apply abs_le_inv in Nnk.
    assert (Enk' : nk = 100%Z).
    { assert (IZR 99 < IZR nk) by lra. apply lt_IZR in H. lia. }
    subst nk. exists 0%Z, 100%Z.
    split; [lia|]. split; [lia|]. split; [reflexivity|].
    split; [assumption|].
    change (inkLow 100) with 0%Z. change (inkLow 0) with 99499%Z.
    change (inkHigh 100) with 501%Z. change (inkHigh 0) with 100000%Z.
    split; lra.
Qed.

End Real64Error.

(** Every pair of whole percentages passes the check. *)
Lemma tripCheck_table :
  allBelow 101 (fun i => allBelow 101 (fun j =>
    tripCheck (Z.of_nat i) (Z.of_nat j))) = true.
Proof. vm_compute. reflexivity. Qed.

Module Real64Trip.

Import Reals Lra.
Import Real64 Real64Facts Real64More Real64Error.

Local Open Scope R_scope.

Lemma tripCheck_spec nc nk :
  (0 <= nc <= 100)%Z -> (0 <= nk <= 100)%Z ->
  exists b, (0 <= b <= 255)%Z /\ tripBack nc nk = Js.of_Z b /\
    IZR b - 3
    <= IZR (inkLow nk) / 100000 * (IZR (inkLow nc) / 100000) * 255 - / 1000 /\
    IZR (inkHigh nk) / 100000 * (IZR (inkHigh nc) / 100000) * 255 + / 1000
    <= IZR b + 3.
Proof.
  intros Hc Hk.
  pose proof (allBelow2_spec 101 101 _ tripCheck_table
                (Z.to_nat nc) (Z.to_nat nk) ltac:(lia) ltac:(lia)) as H.
  cbv beta in H. rewrite !Z2Nat.id in H by lia.
  unfold tripCheck in H. cbv zeta in H.
  apply existsb_exists in H. destruct H as (b & _ & H).
  repeat (apply andb_prop in H; destruct H as [H ?]).
  exists b.
  apply leibniz_eq in H.
  repeat match goal with
         | H : (_ <=? _)%Z = true |- _ => apply Z.leb_le in H
         end.
  split; [lia|]. split; [assumption|].
  match goal with
  | H1 : ((b - 3) * _ <= _)%Z, H2 : (_ <= (b + 3) * _)%Z |- _ =>
      apply IZR_le in H1; apply IZR_le in H2;
      repeat first [rewrite minus_IZR in H1 | rewrite mult_IZR in H1];
      repeat first [rewrite plus_IZR in H2 | rewrite mult_IZR in H2];
      change (IZR (10 ^ 13)) with 10000000000000 in H1, H2;
      change (IZR (10 ^ 10)) with 10000000000 in H1, H2
  end.
  split; lra.
Qed.

Lemma abs_good z : good z -> good (abs z) /\ val (abs z) = val z.
Proof.
  unfold good, val. rewrite abs_spec.
  destruct (Prim2SF z) as [s| | |s m e]; cbn [valid SFabs SF2R];
    try contradiction.
  - intros _. split; [exact I|reflexivity].
  - intros (-> & H). split; [split; [reflexivity|exact H]|reflexivity].
Qed.

(** Two valid numbers whose real values are within the value of [t]
    pass the test [within t]. *)
Lemma within_of_real t a b :
  good t -> good a -> good b -> Rabs (val a - val b) <= val t ->
  within t a b = true.
Proof.
  intros Gt Ga Gb H. apply abs_le_inv in H. unfold within.
  assert (Hge : forall x y, good x -> good y -> val y <= val x ->
                            val x - val y <= val t ->
                            (abs (x - y) <=? t)%float = true).
  { intros x y Gx Gy Hle Hd.
    pose proof (sub_rounds x y Gx Gy Hle) as R.
    destruct (rounds_valid prec emax prec_pos _ _ (Prim2SF t) R Gt Hd)
      as [Hfin Hv].
    assert (G : good (x - y)%float).
    { apply good_intro. now apply (rounds_finite prec emax (val x - val y)). }
    destruct (abs_good _ G) as [G' V'].
    apply (leb_val _ t G' Gt). rewrite V'. exact Hv. }
  destruct (Rle_or_lt (val b) (val a)) as [Hle|Hlt].
  - apply Hge; try assumption. lra.
  - destruct (sub_swap b a) as [E|[_ Hz]].
    + rewrite E, abs_opp. apply Hge; try assumption; lra.
    + assert (Ht : (0 <=? t)%float = true).
      { apply (leb_val 0%float t good_zero Gt). rewrite val_zero.
        now apply good_val. }
      destruct (zeroish_cases _ Hz) as [-> | ->]; exact Ht.
Qed.

Lemma val_3 : val 3 = 3.
Proof. exact (proj2 (of_Z_val 3 ltac:(split; [lia|reflexivity]))). Qed.

(** One channel through CMYK and back, for a valid colour whose
    largest scaled channel is [M]: within 3. *)
Lemma cmykTrip_within_3 X M :
  below X 255 -> below (X / 255)%float M -> below M 1 ->
  within 3 (cmykTrip X (1 - M)) X = true.
Proof.
  intros BX Bxm Bm1.
  destruct (trip_interval X M BX Bxm Bm1)
    as (nc & nk & Hc & Hk & Ec & Ek & Hlo & Hhi).
  destruct (tripCheck_spec nc nk Hc Hk) as (b & Hb & Eb & Blo & Bhi).
  unfold cmykTrip. cbv zeta. rewrite Ec, Ek.
  fold (tripBack nc nk). rewrite Eb.
  assert (Hb53 : (0 <= b < 2 ^ 53)%Z)
    by (split; [lia|apply Z.le_lt_trans with 255%Z; [lia|reflexivity]]).
  destruct (of_Z_val b Hb53) as [Gb Vb].
  apply within_of_real; [good_const|assumption|apply BX|].
  rewrite Vb, val_3. apply Rabs_le. lra.
Qed.

(** One colour through CMYK and back, channel by channel. *)
Lemma cmykaTrip_within_3 rgba :
  inGamut rgba = true ->
  within 3 (rgb_r (cmykaToRgba (rgbaToCmyka rgba))) (rgb_r rgba) = true /\
  within 3 (rgb_g (cmykaToRgba (rgbaToCmyka rgba))) (rgb_g rgba) = true /\
  within 3 (rgb_b (cmykaToRgba (rgbaToCmyka rgba))) (rgb_b rgba) = true /\
  rgb_a (cmykaToRgba (rgbaToCmyka rgba)) = rgb_a rgba.
Proof.
  unfold inGamut. intros H.
  repeat (apply andb_prop in H; destruct H as [H ?]).
  assert (G255 : good 255) by good_const.
  assert (Xr : below (rgb_r rgba) 255) by (apply leb_below; assumption).
  assert (Xg : below (rgb_g rgba) 255) by (apply leb_below; assumption).
  assert (Xb : below (rgb_b rgba) 255) by (apply leb_below; assumption).
  pose proof (ratio255 _ Xr) as Br. pose proof (ratio255 _ Xg) as Bg.
  pose proof (ratio255 _ Xb) as Bb.
  destruct (max_good _ _ _ (proj1 Br) (proj1 Bg) (proj1 Bb)) as (Mr & Mg & Mb).
  pose proof (max_below _ _ _ _ Br Bg Bb) as M1.
  rewrite cmyk_round_trip_channels. cbn [rgb_r rgb_g rgb_b rgb_a].
  unfold cmykKey.
  split; [now apply cmykTrip_within_3|].
  split; [now apply cmykTrip_within_3|].
  split; [now apply cmykTrip_within_3|reflexivity].
Qed.

End Real64Trip.


(** ** From RGBA to HWB and back *)

(** ** Numbers of either sign over the reals *)

Lemma SFadd_opp_r x y :
  SFadd prec emax x (SFopp y) = SFsub prec emax x y.
Proof.
  destruct x as [sx|sx| |sx mx ex], y as [sy|sy| |sy my ey];
    try reflexivity; destruct sx, sy; reflexivity.
Qed.

Lemma add_opp_r x y : x + (- y) = x - y.
Proof. to_spec. apply SFadd_opp_r. Qed.

Lemma div_opp_r_spec x y :
  SFdiv prec emax x (SFopp y) = SFopp (SFdiv prec emax x y).
Proof.
  destruct x as [sx|sx| |sx mx ex], y as [sy|sy| |sy my ey]; simpl;
    try reflexivity; try (now rewrite negb_xorb_r).
  unfold SFdiv.
  destruct (SFdiv_core_binary prec emax _ ex _ ey) as [[mz ez] lz].
  rewrite <- negb_xorb_r. apply binary_round_aux_opp.
Qed.

Lemma div_opp_r x y : x / (- y) = - (x / y).
Proof. to_spec. apply div_opp_r_spec. Qed.

Module Real64Signed.

Import Reals Lra.
Import Real64 Real64Facts Real64More Real64Hue Real64Error Real64Trip.

Local Open Scope R_scope.

Lemma slack_small : 0 < slack < / 1000000000000.
Proof.
  unfold slack. split; [apply p2_pos|].
  assert (Hinv : p2 41 * p2 (-41) = 1)
    by (rewrite <- p2_add; reflexivity).
  pose proof (p2_pos (-41)) as Hp.
  assert (H41 : 1000000000000 < p2 41).
  { rewrite (p2_Z 41) by lia. apply IZR_lt. reflexivity. }
  apply Rmult_lt_reg_l with 1000000000000; [lra|].
  rewrite Rinv_r by lra. nra.
Qed.

Lemma val_opp x : val (- x)%float = - val x.
Proof.
  unfold val. rewrite opp_spec.
  destruct (Prim2SF x) as [s| | |s m e]; cbn [SFopp SF2R]; try lra.
  destruct s; cbn [negb]; lra.
Qed.

Lemma finite_opp x : finite x -> finite (- x)%float.
Proof.
  intros [G|G]; [right; now rewrite opp_involutive|now left].
Qed.

(** A finite number is a valid one or the opposite of a valid one. *)
Lemma finite_cases x :
  finite x -> exists y, good y /\ (x = y \/ x = (- y)%float).
Proof.
  intros [G|G].
  - exists x. now split; [|left].
  - exists (- x)%float. split; [assumption|right]. now rewrite opp_involutive.
Qed.

Lemma finite_nonneg x : finite x -> 0 <= val x -> good x.
Proof.
  intros [G|G] H; [assumption|].
  pose proof (good_val _ G) as H1. rewrite val_opp in H1.
  assert (Hz : val x = 0) by lra.
  unfold good, val in *. rewrite opp_spec in G.
  destruct (Prim2SF x) as [s| | |s m e]; cbn [SFopp valid SF2R] in *;
    try contradiction; [exact I|].
  destruct G as (Hs & _). destruct s; [|discriminate].
  pose proof (finite_pos m e). lra.
Qed.

Lemma zeroish_good x : zeroish x -> good x /\ val x = 0.
Proof.
  unfold zeroish, good, val.
  destruct (Prim2SF x); try discriminate. intros _. now split.
Qed.

(** The opposite, up to the sign of a zero, of a finite number. *)
Lemma opposite_val x y :
  opposite x y -> finite x -> finite y /\ val y = - val x.
Proof.
  intros [->|[Zx Zy]] F.
  - split; [now apply finite_opp|apply val_opp].
  - destruct (zeroish_good _ Zx) as [_ Vx], (zeroish_good _ Zy) as [Gy Vy].
    split; [now left|lra].
Qed.

(** *** How far rounding moves a real, at every scale *)

Lemma near_at e x z :
  rounds prec emax x (Prim2SF z) -> good z ->
  (SpecFloat.emin prec emax <= e)%Z -> 0 <= x < p2 (prec + e) ->
  Rabs (val z - x) <= p2 e.
Proof.
  intros R G He [H0 Hx].
  destruct (rounds_val x z R G) as [_ Hn].
  destruct (fmt_under x e H0 Hx He) as (f & Ff & Hf1 & Hf2).
  apply Rle_trans with (Rabs (f - x)); [now apply Hn|].
  rewrite Rabs_left1 by lra. lra.
Qed.

Lemma val_4096 : val 4096 = 4096.
Proof. exact (proj2 (of_Z_val 4096 ltac:(split; [lia|reflexivity]))). Qed.

(** What rounds a real below 4096 is valid and within the slack. *)
Lemma rounds_near x z :
  rounds prec emax x (Prim2SF z) -> 0 <= x < 4096 ->
  good z /\ Rabs (val z - x) <= slack.
Proof.
  intros R [H0 Hx].
  assert (G4 : good 4096%float) by good_const.
  destruct (rounds_valid prec emax prec_pos _ _ (Prim2SF 4096%float) R G4
              ltac:(fold (val 4096%float); rewrite val_4096; lra)) as [Hfin _].
  assert (G : good z).
  { apply good_intro. now apply (rounds_finite prec emax x). }
  split; [assumption|].
  apply near_at; [assumption..|vm_compute; congruence|].
  split; [assumption|].
  change (prec + -41)%Z with 12%Z. rewrite (p2_Z 12) by lia.
  change (2 ^ 12)%Z with 4096%Z. exact Hx.
Qed.

(** *** The four operations *)

Lemma gmul a b :
  good a -> good b -> val a * val b < 4096 ->
  good (a * b)%float /\ Rabs (val (a * b)%float - val a * val b) <= slack.
Proof.
  intros Ga Gb H. apply rounds_near; [now apply mul_rounds|].
  pose proof (good_val a Ga). pose proof (good_val b Gb). split; [nra|lra].
Qed.

Lemma gdiv a b :
  good a -> good b -> 0 < val b -> val a / val b < 4096 ->
  good (a / b)%float /\ Rabs (val (a / b)%float - val a / val b) <= slack.
Proof.
  intros Ga Gb Hp H. apply rounds_near; [now apply div_rounds|].
  split; [|assumption]. pose proof (good_val a Ga).
  apply Rmult_le_pos; [assumption|]. apply Rlt_le, Rinv_0_lt_compat, Hp.
Qed.

Lemma gadd a b :
  good a -> good b -> val a + val b < 4096 ->
  good (a + b)%float /\ Rabs (val (a + b)%float - (val a + val b)) <= slack.
Proof.
  intros Ga Gb H. apply rounds_near; [now apply add_rounds|].
  pose proof (good_val a Ga). pose proof (good_val b Gb). split; lra.
Qed.

Lemma gsub a b :
  good a -> good b -> val b <= val a -> val a < 4096 ->
  good (a - b)%float /\ Rabs (val (a - b)%float - (val a - val b)) <= slack.
Proof.
  intros Ga Gb Hle H. apply rounds_near; [now apply sub_rounds|].
  pose proof (good_val b Gb). split; lra.
Qed.

(** The difference of two valid numbers, whichever is larger. *)
Lemma gsub_any a b :
  good a -> good b -> val a < 4096 -> val b < 4096 ->
  finite (a - b)%float /\ Rabs (val (a - b)%float - (val a - val b)) <= slack.
Proof.
  intros Ga Gb Ha Hb.
  destruct (Rle_or_lt (val b) (val a)) as [Hle|Hlt].
  - destruct (gsub a b Ga Gb Hle Ha) as [G N]. split; [now left|assumption].
  - destruct (gsub b a Gb Ga ltac:(lra) Hb) as [G N].
    destruct (opposite_val _ _ (sub_swap b a) (or_introl G)) as [F V].
    split; [assumption|]. rewrite V.
    replace (- val (b - a)%float - (val a - val b))
      with (- (val (b - a)%float - (val b - val a))) by ring.
    now rewrite Rabs_Ropp.
Qed.

Lemma smul a b :
  finite a -> finite b -> Rabs (val a * val b) < 4096 ->
  finite (a * b)%float /\ Rabs (val (a * b)%float - val a * val b) <= slack.
Proof.
  intros Fa Fb H.
  destruct (finite_cases a Fa) as (a' & Ga & [-> | ->]),
    (finite_cases b Fb) as (b' & Gb & [-> | ->]);
    rewrite ?val_opp in *;
    pose proof (good_val a' Ga); pose proof (good_val b' Gb).
  - destruct (gmul a' b' Ga Gb) as [G N].
    + rewrite Rabs_pos_eq in H by nra. exact H.
    + split; [now left|assumption].
  - rewrite mul_opp_r, val_opp.
    destruct (gmul a' b' Ga Gb) as [G N].
    + replace (val a' * - val b') with (- (val a' * val b')) in H by ring.
      rewrite Rabs_Ropp, Rabs_pos_eq in H by nra. exact H.
    + split; [apply finite_opp; now left|].
      replace (- val (a' * b')%float - val a' * - val b')
        with (- (val (a' * b')%float - val a' * val b')) by ring.
      now rewrite Rabs_Ropp.
  - rewrite mul_opp_l, val_opp.
    destruct (gmul a' b' Ga Gb) as [G N].
    + replace (- val a' * val b') with (- (val a' * val b')) in H by ring.
      rewrite Rabs_Ropp, Rabs_pos_eq in H by nra. exact H.
    + split; [apply finite_opp; now left|].
      replace (- val (a' * b')%float - - val a' * val b')
        with (- (val (a' * b')%float - val a' * val b')) by ring.
      now rewrite Rabs_Ropp.
  - rewrite mul_opp_l, mul_opp_r, opp_involutive.
    destruct (gmul a' b' Ga Gb) as [G N].
    + replace (- val a' * - val b') with (val a' * val b') in H by ring.
      rewrite Rabs_pos_eq in H by nra. exact H.
    + split; [now left|].
      now replace (- val a' * - val b') with (val a' * val b') by ring.
Qed.

Lemma sdiv a b :
  finite a -> finite b -> val b <> 0 -> Rabs (val a / val b) < 4096 ->
  finite (a / b)%float /\ Rabs (val (a / b)%float - val a / val b) <= slack.
Proof.
  intros Fa Fb Hb H.
  destruct (finite_cases a Fa) as (a' & Ga & [-> | ->]),
    (finite_cases b Fb) as (b' & Gb & [-> | ->]);
    rewrite ?val_opp in *;
    pose proof (good_val a' Ga); pose proof (good_val b' Gb);
    assert (Hp : 0 < val b') by lra;
    assert (Hq : 0 <= val a' / val b')
      by (apply Rmult_le_pos; [assumption|];
          apply Rlt_le, Rinv_0_lt_compat, Hp).
  - destruct (gdiv a' b' Ga Gb Hp) as [G N].
    + rewrite Rabs_pos_eq in H by assumption. exact H.
    + split; [now left|assumption].
  - rewrite div_opp_r, val_opp.
    assert (E : val a' / - val b' = - (val a' / val b')) by (field; lra).
    rewrite E in *. rewrite Rabs_Ropp, Rabs_pos_eq in H by assumption.
    destruct (gdiv a' b' Ga Gb Hp H) as [G N].
    split; [apply finite_opp; now left|].
    replace (- val (a' / b')%float - - (val a' / val b'))
      with (- (val (a' / b')%float - val a' / val b')) by ring.
    now rewrite Rabs_Ropp.
  - rewrite div_opp_l, val_opp.
    assert (E : - val a' / val b' = - (val a' / val b')) by (field; lra).
    rewrite E in *. rewrite Rabs_Ropp, Rabs_pos_eq in H by assumption.
    destruct (gdiv a' b' Ga Gb Hp H) as [G N].
    split; [apply finite_opp; now left|].
    replace (- val (a' / b')%float - - (val a' / val b'))
      with (- (val (a' / b')%float - val a' / val b')) by ring.
    now rewrite Rabs_Ropp.
  - rewrite div_opp_l, div_opp_r, opp_involutive.
    assert (E : - val a' / - val b' = val a' / val b') by (field; lra).
    rewrite E in *. rewrite Rabs_pos_eq in H by assumption.
    destruct (gdiv a' b' Ga Gb Hp H) as [G N].
    split; [now left|assumption].
Qed.

Lemma sadd a b :
  finite a -> finite b -> Rabs (val a) < 4096 -> Rabs (val b) < 4096 ->
  Rabs (val a + val b) < 4096 ->
  finite (a + b)%float /\ Rabs (val (a + b)%float - (val a + val b)) <= slack.
Proof.
  intros Fa Fb Ha Hb H.
  destruct (finite_cases a Fa) as (a' & Ga & [-> | ->]),
    (finite_cases b Fb) as (b' & Gb & [-> | ->]);
    rewrite ?val_opp in *; rewrite ?Rabs_Ropp in *;
    pose proof (good_val a' Ga); pose proof (good_val b' Gb);
    rewrite (Rabs_pos_eq (val a')) in Ha by assumption;
    rewrite (Rabs_pos_eq (val b')) in Hb by assumption.
  - destruct (gadd a' b' Ga Gb) as [G N].
    + rewrite Rabs_pos_eq in H by lra. exact H.
    + split; [now left|assumption].
  - rewrite add_opp_r. now apply gsub_any.
  - rewrite add_comm, add_opp_r.
    destruct (gsub_any b' a' Gb Ga Hb Ha) as [F N].
    split; [assumption|].
    now replace (- val a' + val b') with (val b' - val a') by ring.
  - rewrite add_opp_r.
    replace (- val a' + - val b') with (- (val a' + val b')) in * by ring.
    rewrite Rabs_Ropp, Rabs_pos_eq in H by lra.
    destruct (gadd a' b' Ga Gb H) as [G N].
    destruct (opposite_val _ _ (sub_opp_l a' b') (or_introl G)) as [F V].
    split; [assumption|]. rewrite V.
    replace (- val (a' + b')%float - - (val a' + val b'))
      with (- (val (a' + b')%float - (val a' + val b'))) by ring.
    now rewrite Rabs_Ropp.
Qed.

Lemma ssub a b :
  finite a -> finite b -> Rabs (val a) < 4096 -> Rabs (val b) < 4096 ->
  Rabs (val a - val b) < 4096 ->
  finite (a - b)%float /\ Rabs (val (a - b)%float - (val a - val b)) <= slack.
Proof.
  intros Fa Fb Ha Hb H. rewrite <- add_opp_r.
  pose proof (sadd a (- b)%float Fa (finite_opp b Fb)) as S.
  rewrite val_opp, Rabs_Ropp in S.
  now apply S.
Qed.

End Real64Signed.

Lemma eqb_compare x y :
  (x =? y) = match SFcompare (Prim2SF x) (Prim2SF y) with
             | Some Eq => true | _ => false end.
Proof. rewrite eqb_spec. reflexivity. Qed.

Module Real64Tests.

Import Reals Lra.
Import Real64 Real64Facts Real64More Real64Hue Real64Error Real64Trip
  Real64Signed.

Local Open Scope R_scope.

(** *** Comparisons *)

Lemma eqb_val a b :
  good a -> good b -> ((a =? b)%float = true <-> val a = val b).
Proof.
  intros Ha Hb. rewrite eqb_compare.
  pose proof (SFcompare_valid prec emax prec_pos _ _ Ha Hb) as H.
  unfold val.
  destruct (SFcompare (Prim2SF a) (Prim2SF b)) as [[| |]|];
    try contradiction; split; intros; try reflexivity; try discriminate;
    try lra.
Qed.

(** The test [x < 0] on a finite number. *)
Lemma ltb_zero_val x :
  finite x -> ((x <? 0)%float = true <-> val x < 0).
Proof.
  intros [G|G].
  - rewrite (good_not_negative x G). pose proof (good_val x G).
    split; [discriminate|lra].
  - pose proof (good_val _ G) as H. rewrite val_opp in H.
    rewrite ltb_compare. change (Prim2SF 0%float) with (S754_zero false).
    unfold good, val in *. rewrite opp_spec in G.
    destruct (Prim2SF x) as [s| | |s m e]; cbn [SFopp valid SF2R] in *;
      try contradiction.
    + cbn. split; [discriminate|lra].
    + destruct G as (Hs & _). destruct s; [|discriminate].
      cbn. pose proof (finite_pos m e). split; [lra|reflexivity].
Qed.

(** A valid number that is not truthy is a zero. *)
Lemma falsy_zero x : good x -> Js.truthy x = false -> zeroish x.
Proof.
  unfold Js.truthy, zeroish, good, is_zero, is_nan. rewrite !eqb_compare.
  change (Prim2SF 0%float) with (S754_zero false).
  destruct (Prim2SF x) as [s| | |s m e]; cbn [valid]; try contradiction;
    intros G H; [reflexivity|].
  destruct G as (-> & _). cbn in H.
  rewrite Pos.compare_cont_refl, Z.compare_refl in H. discriminate.
Qed.

(** *** The largest and the least of three *)

Lemma max2_pick a b :
  good a -> good b -> Js.max2 a b = a \/ Js.max2 a b = b.
Proof.
  intros Ga Gb. unfold Js.max2.
  rewrite (good_not_nan a Ga), (good_not_nan b Gb). cbn [orb].
  destruct (a <? b)%float; [now right|].
  destruct (b <? a)%float; [now left|].
  destruct (get_sign a); [now right|now left].
Qed.

Lemma min2_pick a b :
  good a -> good b -> Js.min2 a b = a \/ Js.min2 a b = b.
Proof.
  intros Ga Gb. unfold Js.min2.
  rewrite (good_not_nan a Ga), (good_not_nan b Gb). cbn [orb].
  destruct (a <? b)%float; [now left|].
  destruct (b <? a)%float; [now right|].
  destruct (get_sign a); [now left|now right].
Qed.

Lemma max_pick a b c :
  good a -> good b -> good c ->
  Js.max a b c = a \/ Js.max a b c = b \/ Js.max a b c = c.
Proof.
  intros Ga Gb Gc. unfold Js.max.
  destruct (max2_pick a b Ga Gb) as [E|E]; rewrite E.
  - destruct (max2_pick a c Ga Gc) as [-> | ->]; auto.
  - destruct (max2_pick b c Gb Gc) as [-> | ->]; auto.
Qed.

Lemma min_pick a b c :
  good a -> good b -> good c ->
  Js.min a b c = a \/ Js.min a b c = b \/ Js.min a b c = c.
Proof.
  intros Ga Gb Gc. unfold Js.min.
  destruct (min2_pick a b Ga Gb) as [E|E]; rewrite E.
  - destruct (min2_pick a c Ga Gc) as [-> | ->]; auto.
  - destruct (min2_pick b c Gb Gc) as [-> | ->]; auto.
Qed.

Lemma min_least a b c :
  good a -> good b -> good c ->
  below (Js.min a b c) a /\ below (Js.min a b c) b /\ below (Js.min a b c) c.
Proof.
  intros Ga Gb Gc. unfold Js.min.
  destruct (min2_good a b Ga Gb) as [H1 H2].
  destruct (min2_good (Js.min2 a b) c (proj1 H1) Gc) as [H3 H4].
  split; [exact (below_trans _ _ _ H3 H1)|].
  split; [exact (below_trans _ _ _ H3 H2)|exact H4].
Qed.

(** *** Differences of channels *)

(** The difference of two numbers between [m] and [M] is at most
    [M - m] in size, as computed. *)
Lemma diff_le x y m M :
  below m x -> below x M -> below m y -> below y M -> val M < 4096 ->
  finite (x - y)%float /\
  Rabs (val (x - y)%float) <= val (M - m)%float /\
  Rabs (val (x - y)%float - (val x - val y)) <= slack.
Proof.
  intros Bmx BxM Bmy ByM HM.
  assert (Hge : forall p q, below m p -> below p M -> below m q -> below q M ->
                            val q <= val p ->
                            below (p - q)%float (M - m)%float /\
                            Rabs (val (p - q)%float - (val p - val q)) <= slack).
  { intros p q Bmp BpM Bmq BqM Hle.
    assert (Bqp : below q p) by (split; [apply Bmq|split; [apply Bmp|exact Hle]]).
    split.
    - apply (below_trans _ (M - q)%float).
      + now apply sub_mono_l.
      + now apply sub_anti_r.
    - apply gsub; [apply Bmp|apply Bmq|exact Hle|].
      destruct BpM as (_ & _ & H). lra. }
  destruct (Rle_or_lt (val y) (val x)) as [Hle|Hlt].
  - destruct (Hge x y Bmx BxM Bmy ByM Hle) as [(G & _ & B) N].
    pose proof (good_val _ G).
    split; [now left|]. split; [|assumption].
    now rewrite Rabs_pos_eq.
  - destruct (Hge y x Bmy ByM Bmx BxM ltac:(lra)) as [(G & _ & B) N].
    pose proof (good_val _ G).
    destruct (opposite_val _ _ (sub_swap y x) (or_introl G)) as [F V].
    split; [assumption|]. rewrite V. split.
    + now rewrite Rabs_Ropp, Rabs_pos_eq.
    + replace (- val (y - x)%float - (val x - val y))
        with (- (val (y - x)%float - (val y - val x))) by ring.
      now rewrite Rabs_Ropp.
Qed.

(** *** Next to 100 *)

Lemma val_small : val 0x1p-46 = p2 (-46).
Proof.
  unfold val.
  replace (Prim2SF 0x1p-46) with (S754_finite false 4503599627370496 (-98))
    by (vm_compute; reflexivity).
  cbn [SF2R]. unfold F2R.
  change 4503599627370496%Z with (2 ^ 52)%Z.
  rewrite <- (p2_Z 52) by lia. rewrite <- p2_add. reflexivity.
Qed.

(** A valid number below 100 is below it by [2^-46] at least. *)
Lemma hundred_gap x : good x -> val x < 100 -> p2 (-46) <= 100 - val x.
Proof.
  intros G H.
  assert (Hs : p2 (-46) < 1) by (rewrite <- p2_0; apply p2_lt; lia).
  destruct (Rlt_or_le (val x) 64) as [Hlt|Hge]; [lra|].
  destruct (good_fmt x G) as (m & e & E & (Hm0 & Hm) & _).
  change prec with 53%Z in Hm.
  assert (He : (-46 <= e)%Z).
  { destruct (Z.le_gt_cases (-46) e) as [|Hlt]; [assumption|exfalso].
    assert (Hp : p2 e <= p2 (-47)) by (apply p2_le; lia).
    assert (Hm' : IZR m <= p2 53).
    { rewrite (p2_Z 53) by lia. apply IZR_le. lia. }
    assert (H6 : p2 53 * p2 (-47) = 64).
    { rewrite <- p2_add. change (53 + -47)%Z with 6%Z.
      rewrite (p2_Z 6) by lia. reflexivity. }
    pose proof (p2_pos e). pose proof (p2_pos (-47)).
    assert (0 <= IZR m) by (apply IZR_le; lia).
    rewrite E in Hge. unfold F2R in Hge.
    assert (IZR m * p2 e < 64); [|lra].
    destruct (Z.eq_dec m (2 ^ 53 - 1)) as [->|Hne].
    - assert (IZR (2 ^ 53 - 1) < p2 53).
      { rewrite (p2_Z 53) by lia. apply IZR_lt. lia. }
      nra.
    - assert (IZR m < p2 53).
      { rewrite (p2_Z 53) by lia. apply IZR_lt. lia. }
      nra. }
  rewrite <- (F2R_align m e (-46) He) in E.
  set (k := (m * 2 ^ (e - -46))%Z) in *.
  assert (E100 : 100 = F2R (100 * 2 ^ 46) (-46)).
  { unfold F2R. rewrite mult_IZR, <- (p2_Z 46) by lia.
    rewrite Rmult_assoc, <- p2_add. change (46 + -46)%Z with 0%Z.
    rewrite p2_0. ring. }
  rewrite E in *. rewrite E100 in *. unfold F2R in *.
  pose proof (p2_pos (-46)) as Hp.
  assert (Hk : (k < 100 * 2 ^ 46)%Z).
  { apply lt_IZR. apply Rmult_lt_reg_r with (p2 (-46)); assumption. }
  assert (Hk1 : IZR k + 1 <= IZR (100 * 2 ^ 46)).
  { rewrite <- plus_IZR. apply IZR_le. lia. }
  nra.
Qed.

(** *** The sector of a scaled hue *)

Lemma index_of_floor y k (a0 a1 a2 a3 a4 a5 : float) :
  good y -> val y = IZR k -> (0 <= k <= 6)%Z ->
  Js.index6 a0 a1 a2 a3 a4 a5 (Js.rem y 6)
  = match k with
    | 0%Z | 6%Z => a0 | 1%Z => a1 | 2%Z => a2 | 3%Z => a3 | 4%Z => a4
    | _ => a5
    end.
Proof.
  intros G V Hk.
  destruct (Z.eq_dec k 0) as [->|Hne].
  - assert (Hz : zeroish y).
    { unfold zeroish, good, val in *.
      destruct (Prim2SF y) as [s| | |s m e]; cbn [valid SF2R] in *;
        try contradiction; [reflexivity|].
      destruct G as (-> & _). pose proof (finite_pos m e). lra. }
    destruct (zeroish_cases _ Hz) as [-> | ->]; reflexivity.
  - assert (Hk53 : (0 <= k < 2 ^ 53)%Z)
      by (split; [lia|apply Z.le_lt_trans with 6%Z; [lia|reflexivity]]).
    destruct (of_Z_val k Hk53) as [Gz Vz].
    assert (E : y = Js.of_Z k).
    { apply same_float; try assumption; [lra|].
      rewrite V. apply IZR_lt. lia. }
    rewrite E.
    assert (Hc : k = 1%Z \/ k = 2%Z \/ k = 3%Z \/ k = 4%Z \/ k = 5%Z \/ k = 6%Z)
      by lia.
    destruct Hc as [-> |[-> |[-> |[-> |[-> | ->]]]]]; reflexivity.
Qed.

(** *** Closeness of finite numbers *)

Lemma abs_finite x :
  finite x -> good (abs x) /\ val (abs x) = Rabs (val x).
Proof.
  intros F. destruct (finite_cases x F) as (y & G & [-> | ->]);
    pose proof (good_val y G); destruct (abs_good y G) as [G' V'].
  - split; [assumption|]. now rewrite V', Rabs_pos_eq.
  - rewrite abs_opp, val_opp, Rabs_Ropp.
    split; [assumption|]. now rewrite V', Rabs_pos_eq.
Qed.

Lemma within_finite t a b :
  good t -> finite a -> finite b ->
  Rabs (val a) < 4096 -> Rabs (val b) < 4096 ->
  Rabs (val a - val b) + slack <= val t -> val t < 4096 ->
  within t a b = true.
Proof.
  intros Gt Fa Fb Ha Hb H Ht. unfold within.
  pose proof slack_small as Hs.
  destruct (ssub a b Fa Fb Ha Hb) as [F N].
  { pose proof (Rabs_pos (val a - val b)). lra. }
  destruct (abs_finite _ F) as [G V].
  apply (leb_val _ t G Gt). rewrite V.
  apply abs_le_inv in N.
  pose proof (abs_le_inv _ _ (Rle_refl (Rabs (val a - val b)))) as K.
  apply Rabs_le. lra.
Qed.

End Real64Tests.

Module Real64Cone.

Import Reals Lra.
Import Real64 Real64Facts Real64More Real64Hue Real64Error Real64Trip
  Real64Signed Real64Tests.

Local Open Scope R_scope.

(** *** The hexcone over the reals *)

(** The error of a product. *)
Lemma mul_err x y x0 y0 ex ey X Y :
  Rabs (x - x0) <= ex -> Rabs (y - y0) <= ey -> Rabs x0 <= X -> Rabs y <= Y ->
  Rabs (x * y - x0 * y0) <= ex * Y + X * ey.
Proof.
  intros Hx Hy HX HY.
  replace (x * y - x0 * y0) with ((x - x0) * y + x0 * (y - y0)) by ring.
  eapply Rle_trans; [apply Rabs_triang|]. rewrite !Rabs_mult.
  pose proof (Rabs_pos (x - x0)). pose proof (Rabs_pos (y - y0)).
  pose proof (Rabs_pos x0). pose proof (Rabs_pos y).
  apply Rplus_le_compat; apply Rmult_le_compat; assumption.
Qed.

(** The channels of the hexcone in sector [k], from the largest and
    the least channel and the position [t] within the sector, against
    the channels the hue was taken from. *)
Lemma cone_linear (k : Z) (R G B Mx Mn P e : R) :
  (0 <= k <= 6)%Z -> 0 <= e ->
  Mn <= R <= Mx -> Mn <= G <= Mx -> Mn <= B <= Mx ->
  Mn = R \/ Mn = G \/ Mn = B ->
  IZR k * (Mx - Mn) <= P <= (IZR k + 1) * (Mx - Mn) ->
  (Mx = R /\ - e <= P - (G - B) <= e) \/
  (Mx = R /\ - e <= P - (6 * (Mx - Mn) + (G - B)) <= e) \/
  (Mx = G /\ - e <= P - (2 * (Mx - Mn) + (B - R)) <= e) \/
  (Mx = B /\ - e <= P - (4 * (Mx - Mn) + (R - G)) <= e) \/
  Mx - Mn <= e ->
  let t := P - IZR k * (Mx - Mn) in
  let '(cr, cg, cb) :=
    match k with
    | 0%Z | 6%Z => (Mx, Mn + t, Mn)
    | 1%Z => (Mx - t, Mx, Mn)
    | 2%Z => (Mn, Mx, Mn + t)
    | 3%Z => (Mn, Mx - t, Mx)
    | 4%Z => (Mn + t, Mn, Mx)
    | _ => (Mx, Mn, Mx - t)
    end in
  (- (2 * e) <= cr - R <= 2 * e) /\
  (- (2 * e) <= cg - G <= 2 * e) /\
  (- (2 * e) <= cb - B <= 2 * e).
Proof.
  intros Hk He HR HG HB Hmin HP Hhue t. subst t.
  assert (Hc : k = 0%Z \/ k = 1%Z \/ k = 2%Z \/ k = 3%Z \/ k = 4%Z \/ k = 5%Z
               \/ k = 6%Z) by lia.
  destruct Hc as [-> |[-> |[-> |[-> |[-> |[-> | ->]]]]]];
    cbv iota beta;
    destruct Hhue as [[E H]|[[E H]|[[E H]|[[E H]|H]]]];
    destruct Hmin as [E'|[E'|E']];
    repeat split; lra.
Qed.

(** *** Saturation and value *)

Lemma rounds_ge x z y :
  rounds prec emax x (Prim2SF z) -> good z -> good y -> val y <= x ->
  val y <= val z.
Proof.
  intros R Gz Gy H. unfold val.
  apply (rounds_above prec emax prec_pos x _ _ R Gy H).
  unfold good in Gz. destruct (Prim2SF z); cbn [valid] in Gz; tauto.
Qed.

(** A difference from 100 moves by at most [2^-46] when rounded. *)
Lemma sub100_near b :
  below b 100 ->
  good (100 - b)%float /\
  Rabs (val (100 - b)%float - (100 - val b)) <= p2 (-46).
Proof.
  intros B. pose proof (sub_below 100 b B) as (G & _ & _).
  destruct B as (Gb & G100 & Hle). rewrite val_100 in Hle.
  pose proof (good_val b Gb).
  split; [assumption|].
  pose proof (sub_rounds 100 b G100 Gb ltac:(rewrite val_100; lra)) as R.
  rewrite val_100 in R.
  apply near_at; [assumption..|vm_compute; congruence|].
  split; [lra|].
  change (prec + -46)%Z with 7%Z. rewrite (p2_Z 7) by lia.
  change (2 ^ 7)%Z with 128%Z. lra.
Qed.

Lemma small_le_slack : 0 < p2 (-46) <= slack.
Proof. split; [apply p2_pos|]. unfold slack. apply p2_le. lia. Qed.

Lemma finite_100 : finite 100.
Proof. left. good_const. Qed.

(** What [hwbaToRgba] makes of the whiteness and blackness that
    [rgbaToHwba] stores for a largest channel [M] and a least channel
    [m]: a value next to [M / 255] and a saturation whose product with
    it is next to [(M - m) / 255]. *)
Lemma hwb_facts M m :
  below m M -> below M 255 ->
  let w := (m / 255 * 100)%float in
  let bk := (100 - M / 255 * 100)%float in
  let s := (if (bk =? 100)%float then 0 else 100 - w / (100 - bk) * 100)%float in
  let s' := (s / 100)%float in
  let v' := ((100 - bk) / 100)%float in
  good v' /\ finite s' /\ val v' <= 2 /\ Rabs (val s') <= 3 /\
  Rabs (255 * val v' - val M) <= 600 * slack /\
  Rabs (255 * (val v' * val s') - (val M - val m)) <= 2000 * slack.
Proof.
  intros Bm BM w bk s s' v'.
  pose proof slack_small as Hs. pose proof small_le_slack as Hp.
  assert (G255 : good 255%float) by good_const.
  assert (G100 : good 100%float) by good_const.
  assert (P255 : positive 255%float) by pos_const.
  pose proof Bm as (Gm & GM & Hmx). pose proof (good_val m Gm) as Hm0.
  pose proof (proj2 (proj2 BM)) as HM. rewrite val_255 in HM.
  (* the value *)
  set (a1 := (M / 255)%float) in *.
  pose proof (ratio255 M BM) as Ba1. fold a1 in Ba1.
  pose proof Ba1 as (Ga1 & _ & Ha1). rewrite val_one in Ha1.
  destruct (gdiv M 255 GM G255) as [_ N1];
    [rewrite val_255; lra|rewrite val_255; lra|].
  fold a1 in N1. rewrite val_255 in N1. apply abs_le_inv in N1.
  set (V := (a1 * 100)%float) in *.
  assert (BV : below V 100).
  { apply (below_to _ (1 * 100)%float); [reflexivity|].
    apply below_mul; [assumption|now apply below_refl|good_const]. }
  pose proof BV as (GV & _ & HV). rewrite val_100 in HV.
  destruct (gmul a1 100 Ga1 G100) as [_ N2]; [rewrite val_100; lra|].
  fold V in N2. rewrite val_100 in N2. apply abs_le_inv in N2.
  destruct (sub100_near V BV) as [Gbk N3]. fold bk in Gbk, N3.
  apply abs_le_inv in N3.
  pose proof (sub_below 100 V BV) as Bbk. fold bk in Bbk.
  pose proof (proj2 (proj2 Bbk)) as Hbk. rewrite val_100 in Hbk.
  destruct (sub100_near bk Bbk) as [GD N4].
  set (D := (100 - bk)%float) in *. apply abs_le_inv in N4.
  pose proof (sub_below 100 bk Bbk) as BD. fold D in BD.
  pose proof (proj2 (proj2 BD)) as HD. rewrite val_100 in HD.
  pose proof (good_val D GD) as HD0.
  destruct (gdiv D 100 GD G100) as [Gv N5];
    [rewrite val_100; lra|rewrite val_100; lra|].
  fold v' in Gv, N5. rewrite val_100 in N5. apply abs_le_inv in N5.
  (* the whiteness *)
  set (a2 := (m / 255)%float) in *.
  assert (Ba2 : below a2 a1).
  { apply below_div; [assumption|now apply below_refl|assumption|assumption]. }
  pose proof Ba2 as (Ga2 & _ & Ha2).
  destruct (gdiv m 255 Gm G255) as [_ N6];
    [rewrite val_255; lra|rewrite val_255; lra|].
  fold a2 in N6. rewrite val_255 in N6. apply abs_le_inv in N6.
  assert (Bw : below w V).
  { apply below_mul; [assumption|now apply below_refl|assumption]. }
  pose proof Bw as (Gw & _ & Hw). pose proof (good_val w Gw) as Hw0.
  destruct (gmul a2 100 Ga2 G100) as [_ N7]; [rewrite val_100; lra|].
  fold w in N7. rewrite val_100 in N7. apply abs_le_inv in N7.
  assert (K1 : Rabs (255 * val v' - val M) <= 600 * slack)
    by (apply Rabs_le; lra).
  split; [assumption|].
  unfold s' , s.
  destruct (bk =? 100)%float eqn:E.
  - (* blackness 100 *)
    apply (eqb_val bk 100 Gbk G100) in E. rewrite val_100 in E.
    change (0 / 100)%float with 0%float. rewrite val_zero.
    split; [left; exact good_zero|]. split; [lra|].
    split; [rewrite Rabs_R0; lra|]. split; [assumption|].
    apply Rabs_le. lra.
  - assert (Hne : val bk <> 100).
    { intros H. rewrite <- val_100 in H.
      apply (eqb_val bk 100 Gbk G100) in H. congruence. }
    pose proof (hundred_gap bk Gbk ltac:(lra)) as Hgap.
    assert (Glo : good 0x1p-46%float) by good_const.
    pose proof (sub_rounds 100 bk G100 Gbk ltac:(rewrite val_100; lra)) as R.
    rewrite val_100 in R.
    pose proof (rounds_ge _ D _ R GD Glo ltac:(rewrite val_small; lra)) as HDlo.
    rewrite val_small in HDlo.
    set (t := val w / val D).
    assert (Et : val w = t * val D) by (unfold t; field; lra).
    assert (Ht : 0 <= t <= 3).
    { split.
      - unfold t. apply Rmult_le_pos; [assumption|].
        apply Rlt_le, Rinv_0_lt_compat. lra.
      - apply Rmult_le_reg_r with (val D); [lra|]. rewrite <- Et. lra. }
    destruct (gdiv w D Gw GD) as [Gq N8]; [lra|fold t; lra|].
    fold t in N8. apply abs_le_inv in N8.
    set (q := (w / D)%float) in *.
    destruct (gmul q 100 Gq G100) as [Gq1 N9]; [rewrite val_100; lra|].
    rewrite val_100 in N9. apply abs_le_inv in N9.
    set (q1 := (q * 100)%float) in *.
    destruct (gsub_any 100 q1 G100 Gq1) as [Fs N10];
      [rewrite val_100; lra|lra|].
    rewrite val_100 in N10. apply abs_le_inv in N10.
    set (s0 := (100 - q1)%float) in *.
    destruct (sdiv s0 100 Fs finite_100) as [Fs' N11].
    { rewrite val_100. lra. }
    { rewrite val_100. apply Rabs_def1; lra. }
    rewrite val_100 in N11. apply abs_le_inv in N11.
    set (s1 := (s0 / 100)%float) in *.
    assert (Es : Rabs (val s1 - (1 - t)) <= 3 * slack)
      by (apply Rabs_le; lra).
    assert (Bs : Rabs (val s1) <= 21 / 10) by (apply Rabs_le; lra).
    split; [assumption|]. split; [lra|].
    split; [lra|]. split; [assumption|].
    pose proof (mul_err (val v') (val s1) (val D / 100) (1 - t)
                  slack (3 * slack) (101 / 100) (21 / 10)
                  ltac:(apply Rabs_le; lra) Es
                  ltac:(apply Rabs_le; lra) Bs) as Hm.
    apply abs_le_inv in Hm.
    assert (Ep : val D / 100 * (1 - t) = (val D - val w) / 100)
      by (rewrite Et; field).
    rewrite Ep in Hm.
    apply Rabs_le. lra.
Qed.

(** *** The hue *)

Lemma finite_const_6 : finite 6.
Proof. left. good_const. Qed.

Lemma finite_const_2 : finite 2.
Proof. left. good_const. Qed.

Lemma finite_const_4 : finite 4.
Proof. left. good_const. Qed.

Lemma val_2 : val 2 = 2.
Proof. exact (proj2 (of_Z_val 2 ltac:(split; [lia|reflexivity]))). Qed.

Lemma val_4 : val 4 = 4.
Proof. exact (proj2 (of_Z_val 4 ltac:(split; [lia|reflexivity]))). Qed.

Lemma val_60 : val 60 = 60.
Proof. exact (proj2 (of_Z_val 60 ltac:(split; [lia|reflexivity]))). Qed.

Lemma val_360 : val 360 = 360.
Proof. exact (proj2 (of_Z_val 360 ltac:(split; [lia|reflexivity]))). Qed.

(** The quotient of a difference of channels by the chroma: its
    product with the real chroma is next to the real difference. *)
Lemma quot_facts x y m M :
  below m x -> below x M -> below m y -> below y M -> below M 255 ->
  positive (M - m)%float ->
  let q := ((x - y) / (M - m))%float in
  finite q /\ Rabs (val q) <= 1 + slack /\
  Rabs (val q * (val M - val m) - (val x - val y)) <= 260 * slack.
Proof.
  intros Bmx BxM Bmy ByM BM Hpos q.
  pose proof slack_small as Hs.
  pose proof (proj2 (proj2 BM)) as HM. rewrite val_255 in HM.
  assert (BmM : below m M) by (eapply below_trans; eassumption).
  pose proof BmM as (Gm & GM & Hle). pose proof (good_val m Gm) as Hm0.
  destruct (diff_le x y m M Bmx BxM Bmy ByM ltac:(lra)) as (Fn & Bn & Nn).
  destruct (gsub M m GM Gm Hle ltac:(lra)) as [Gd Nd].
  set (n := (x - y)%float) in *. set (d := (M - m)%float) in *.
  unfold positive in Hpos.
  set (u := val n / val d).
  assert (Eu : val n = u * val d) by (unfold u; field; lra).
  assert (Hu : Rabs u <= 1).
  { apply abs_le_inv in Bn. apply Rabs_le.
    split; apply Rmult_le_reg_r with (val d); try assumption;
      rewrite <- Eu; lra. }
  destruct (sdiv n d Fn (or_introl Gd)) as [Fq Nq]; [lra|fold u; lra|].
  fold u in Nq. fold q in Fq, Nq.
  split; [assumption|].
  apply abs_le_inv in Hu. pose proof (abs_le_inv _ _ Nq) as Nq'.
  split; [apply Rabs_le; lra|].
  pose proof (mul_err (val q) (val M - val m) u (val d) slack slack 1 255
                Nq ltac:(rewrite Rabs_minus_sym; exact Nd)
                ltac:(apply Rabs_le; lra) ltac:(apply Rabs_le; lra)) as Hm.
  rewrite <- Eu in Hm.
  apply abs_le_inv in Hm. apply abs_le_inv in Nn.
  apply Rabs_le. lra.
Qed.

(** The hue [rgbaToHsva] gives is 60 times a position on the hexcone
    between 0 and 6 whose product with the chroma is next to what the
    branch of the largest channel takes it from. *)
Lemma hue_facts r g b a :
  below r 255 -> below g 255 -> below b 255 ->
  let M := Js.max r g b in
  let m := Js.min r g b in
  exists hn,
    hsv_h (rgbaToHsva (mkRgba r g b a)) = (60 * hn)%float /\
    good hn /\ val hn <= 13 / 2 /\
    let D := val M - val m in
    ((val M = val r /\ Rabs (val hn * D - (val g - val b)) <= 600 * slack) \/
     (val M = val r /\
      Rabs (val hn * D - (6 * D + (val g - val b))) <= 600 * slack) \/
     (val M = val g /\
      Rabs (val hn * D - (2 * D + (val b - val r))) <= 600 * slack) \/
     (val M = val b /\
      Rabs (val hn * D - (4 * D + (val r - val g))) <= 600 * slack) \/
     D <= slack).
Proof.
  intros Br Bg Bb M m.
  pose proof slack_small as Hs.
  pose proof Br as (Gr & G255 & Hr). pose proof Bg as (Gg & _ & Hg).
  pose proof Bb as (Gb & _ & Hb). rewrite val_255 in Hr, Hg, Hb.
  destruct (max_good r g b Gr Gg Gb) as (Mr & Mg & Mb). fold M in Mr, Mg, Mb.
  pose proof (max_below r g b 255 Br Bg Bb) as BM. fold M in BM.
  destruct (min_least r g b Gr Gg Gb) as (mr & mg & mb). fold m in mr, mg, mb.
  pose proof (proj2 (proj2 BM)) as HM. rewrite val_255 in HM.
  assert (BmM : below m M) by (eapply below_trans; eassumption).
  pose proof BmM as (Gm & GM & Hle). pose proof (good_val m Gm) as Hm0.
  destruct (gsub M m GM Gm Hle ltac:(lra)) as [Gd Nd].
  apply abs_le_inv in Nd.
  unfold rgbaToHsva. cbn [hsv_h]. fold M m.
  set (d := (M - m)%float) in *.
  destruct (Js.truthy d) eqn:Et.
  - pose proof (truthy_positive d Gd Et) as Hpos.
    assert (HD : 0 <= val M - val m <= 255) by lra.
    destruct (M =? r)%float eqn:E1.
    + apply (eqb_val M r GM Gr) in E1.
      destruct (quot_facts g b m M mg Mg mb Mb BM Hpos) as (Fq & Bq & Nq).
      fold d in Fq, Bq, Nq.
      set (q := ((g - b) / d)%float) in *.
      apply abs_le_inv in Bq. apply abs_le_inv in Nq.
      destruct (q <? 0)%float eqn:E2.
      * apply (ltb_zero_val q Fq) in E2.
        destruct (sadd q 6 Fq finite_const_6) as [Fh Nh];
          [apply Rabs_def1; lra|rewrite val_6; apply Rabs_def1; lra|
           rewrite val_6; apply Rabs_def1; lra|].
        rewrite val_6 in Nh. apply abs_le_inv in Nh.
        exists (q + 6)%float. split; [reflexivity|].
        split; [apply finite_nonneg; [assumption|lra]|].
        split; [lra|]. cbv zeta. right. left. split; [assumption|].
        pose proof (scaled_error (val M - val m)
                      (val (q + 6)%float - (val q + 6)) slack 255
                      HD ltac:(lra) Nh) as T.
        apply Rabs_le. lra.
      * assert (H0 : 0 <= val q).
        { apply Rnot_lt_le. intros H. apply (ltb_zero_val q Fq) in H.
          congruence. }
        exists q. split; [reflexivity|].
        split; [now apply finite_nonneg|]. split; [lra|].
        cbv zeta. left. split; [assumption|]. apply Rabs_le. lra.
    + assert (Hbr : forall x y p c, below m x -> below x M -> below m y ->
                      below y M -> finite p -> val p = c -> 2 <= c <= 4 ->
                      let q := ((x - y) / d)%float in
                      (p + q <? 0)%float = false /\
                      good (p + q)%float /\ val (p + q)%float <= 13 / 2 /\
                      Rabs (val (p + q)%float * (val M - val m)
                            - (c * (val M - val m) + (val x - val y)))
                      <= 600 * slack).
      { intros x y p c Bmx BxM Bmy ByM Fp Vp Hc q.
        destruct (quot_facts x y m M Bmx BxM Bmy ByM BM Hpos) as (Fq & Bq & Nq).
        fold d in Fq, Bq, Nq. fold q in Fq, Bq, Nq.
        apply abs_le_inv in Bq. apply abs_le_inv in Nq.
        destruct (sadd p q Fp Fq) as [Fh Nh];
          [rewrite Vp; apply Rabs_def1; lra|apply Rabs_def1; lra|
           rewrite Vp; apply Rabs_def1; lra|].
        rewrite Vp in Nh. apply abs_le_inv in Nh.
        assert (H0 : 0 <= val (p + q)%float) by lra.
        split.
        - destruct (p + q <? 0)%float eqn:E; [|reflexivity].
          apply (ltb_zero_val _ Fh) in E. lra.
        - split; [now apply finite_nonneg|]. split; [lra|].
          pose proof (scaled_error (val M - val m)
                        (val (p + q)%float - (c + val q)) slack 255
                        HD ltac:(lra) Nh) as T.
          apply Rabs_le. lra. }
      destruct (M =? g)%float eqn:E2.
      * apply (eqb_val M g GM Gg) in E2.
        destruct (Hbr b r 2%float 2 mb Mb mr Mr finite_const_2 val_2
                    ltac:(lra)) as (E3 & Gh & Bh & Nh).
        rewrite E3. exists (2 + (b - r) / d)%float.
        split; [reflexivity|]. split; [assumption|]. split; [assumption|].
        cbv zeta. right. right. left. now split.
      * assert (E3 : val M = val b).
        { destruct (max_pick r g b Gr Gg Gb) as [E|[E|E]]; fold M in E.
          - exfalso. assert (H : val M = val r) by now rewrite E.
            apply (eqb_val M r GM Gr) in H. congruence.
          - exfalso. assert (H : val M = val g) by now rewrite E.
            apply (eqb_val M g GM Gg) in H. congruence.
          - now rewrite E. }
        destruct (Hbr r g 4%float 4 mr Mr mg Mg finite_const_4 val_4
                    ltac:(lra)) as (E4 & Gh & Bh & Nh).
        rewrite E4. exists (4 + (r - g) / d)%float.
        split; [reflexivity|]. split; [assumption|]. split; [assumption|].
        cbv zeta. right. right. right. left. now split.
  - pose proof (falsy_zero d Gd Et) as Hz.
    destruct (zeroish_good d Hz) as [_ Vd]. rewrite Vd in Nd.
    change (0 <? 0)%float with false. cbv iota.
    exists 0%float. split; [reflexivity|]. split; [exact good_zero|].
    rewrite val_zero. split; [lra|].
    cbv zeta. right. right. right. right. lra.
Qed.

(** The scaled hue [hsvaToRgba] works with is next to the position
    [rgbaToHsva] multiplied by 60. *)
Lemma scaled_hue hn :
  good hn -> val hn <= 13 / 2 ->
  let h2 := (60 * hn / 360 * 6)%float in
  good h2 /\ Rabs (val h2 - val hn) <= 8 * slack.
Proof.
  intros G H h2. pose proof slack_small as Hs.
  pose proof (good_val hn G) as H0.
  assert (G60 : good 60%float) by good_const.
  assert (G6 : good 6%float) by good_const.
  destruct (gmul 60 hn G60 G) as [G1 N1]; [rewrite val_60; lra|].
  rewrite val_60 in N1. apply abs_le_inv in N1.
  destruct (gdiv (60 * hn) 360 G1 good_360) as [G2 N2];
    [rewrite val_360; lra|rewrite val_360; lra|].
  rewrite val_360 in N2. apply abs_le_inv in N2.
  destruct (gmul (60 * hn / 360) 6 G2 G6) as [G3 N3]; [rewrite val_6; lra|].
  rewrite val_6 in N3. apply abs_le_inv in N3.
  split; [assumption|]. apply Rabs_le. unfold h2. lra.
Qed.

(** *** The four candidates of a channel *)

Lemma abs_mul_le x y X Y :
  Rabs x <= X -> Rabs y <= Y -> Rabs (x * y) <= X * Y.
Proof.
  intros Hx Hy. rewrite Rabs_mult.
  pose proof (Rabs_pos x). pose proof (Rabs_pos y).
  apply Rmult_le_compat; assumption.
Qed.

Lemma term_real v s X xr p t c y e :
  0 <= e <= / 1000 -> 0 <= v <= 2 -> Rabs s <= 3 -> Rabs xr <= 2 ->
  Rabs (X - xr) <= 3 * e ->
  Rabs (p - X * s) <= e -> Rabs (t - (1 - p)) <= e ->
  Rabs (c - v * t) <= e -> Rabs (y - c * 255) <= e ->
  Rabs (y - (255 * v - xr * (255 * (v * s)))) <= 6000 * e.
Proof.
  intros He Hv Hs Hxr HX Hp Ht Hc Hy.
  assert (Hvs : Rabs (v * s) <= 2 * 3)
    by (apply abs_mul_le; [apply Rabs_le; lra|assumption]).
  pose proof (abs_mul_le _ _ _ _ Hvs HX) as H1.
  pose proof (abs_mul_le v (p - X * s) 2 e ltac:(apply Rabs_le; lra) Hp) as H2.
  pose proof (abs_mul_le v (t - (1 - p)) 2 e ltac:(apply Rabs_le; lra) Ht) as H3.
  apply abs_le_inv in H1, H2, H3, Hc, Hy.
  apply Rabs_le. lra.
Qed.

Lemma term0_real v s t c y e :
  0 <= e <= / 1000 -> 0 <= v <= 2 -> Rabs s <= 3 ->
  Rabs (t - (1 - s)) <= e ->
  Rabs (c - v * t) <= e -> Rabs (y - c * 255) <= e ->
  Rabs (y - (255 * v - 255 * (v * s))) <= 1000 * e.
Proof.
  intros He Hv Hs Ht Hc Hy.
  pose proof (abs_mul_le v (t - (1 - s)) 2 e ltac:(apply Rabs_le; lra) Ht) as H3.
  apply abs_le_inv in H3, Hc, Hy.
  apply Rabs_le. lra.
Qed.

Lemma finite_one : finite 1.
Proof. left. exact good_one. Qed.

Lemma finite_255 : finite 255.
Proof. left. good_const. Qed.

Lemma slack_bounds : 0 <= slack <= / 1000.
Proof. pose proof slack_small. lra. Qed.

(** The candidate [v * (1 - x * s) * 255] for a fraction [x] of the
    sector. *)
Lemma cone_term v s x xr :
  good v -> val v <= 2 -> finite s -> Rabs (val s) <= 3 ->
  finite x -> Rabs (val x - xr) <= 3 * slack -> Rabs xr <= 2 ->
  let y := (v * (1 - x * s) * 255)%float in
  finite y /\
  Rabs (val y - (255 * val v - xr * (255 * (val v * val s)))) <= 6000 * slack.
Proof.
  intros Gv Hv Fs Hs Fx Hx Hxr y. pose proof slack_small as Hk.
  pose proof (good_val v Gv) as Hv0.
  pose proof (abs_le_inv _ _ Hs) as Hs'. pose proof (abs_le_inv _ _ Hx) as Hx'.
  pose proof (abs_le_inv _ _ Hxr) as Hxr'.
  assert (HX : Rabs (val x) <= 21 / 10) by (apply Rabs_le; lra).
  pose proof (abs_le_inv _ _ (abs_mul_le _ _ _ _ HX Hs)) as Hxs.
  destruct (smul x s Fx Fs) as [Fp Np]; [apply Rabs_def1; lra|].
  pose proof (abs_le_inv _ _ Np) as Np'.
  destruct (ssub 1 (x * s) finite_one Fp) as [Ft Nt];
    [rewrite val_one; apply Rabs_def1; lra|apply Rabs_def1; lra|
     rewrite val_one; apply Rabs_def1; lra|].
  rewrite val_one in Nt. pose proof (abs_le_inv _ _ Nt) as Nt'.
  assert (HT : Rabs (val (1 - x * s)%float) <= 8) by (apply Rabs_le; lra).
  pose proof (abs_le_inv _ _
                (abs_mul_le (val v) _ 2 8 ltac:(apply Rabs_le; lra) HT)) as Hvt.
  destruct (smul v (1 - x * s) (or_introl Gv) Ft) as [Fc Nc];
    [apply Rabs_def1; lra|].
  pose proof (abs_le_inv _ _ Nc) as Nc'.
  destruct (smul (v * (1 - x * s)) 255 Fc finite_255) as [Fy Ny];
    [rewrite val_255; apply Rabs_def1; lra|].
  rewrite val_255 in Ny.
  split; [assumption|].
  apply (term_real (val v) (val s) (val x) xr (val (x * s)%float)
           (val (1 - x * s)%float) (val (v * (1 - x * s))%float));
    try assumption; [exact slack_bounds|lra].
Qed.

(** The candidate [v * (1 - s) * 255]. *)
Lemma cone_term0 v s :
  good v -> val v <= 2 -> finite s -> Rabs (val s) <= 3 ->
  let y := (v * (1 - s) * 255)%float in
  finite y /\
  Rabs (val y - (255 * val v - 255 * (val v * val s))) <= 1000 * slack.
Proof.
  intros Gv Hv Fs Hs y. pose proof slack_small as Hk.
  pose proof (good_val v Gv) as Hv0.
  pose proof (abs_le_inv _ _ Hs) as Hs'.
  destruct (ssub 1 s finite_one Fs) as [Ft Nt];
    [rewrite val_one; apply Rabs_def1; lra|apply Rabs_def1; lra|
     rewrite val_one; apply Rabs_def1; lra|].
  rewrite val_one in Nt. pose proof (abs_le_inv _ _ Nt) as Nt'.
  assert (HT : Rabs (val (1 - s)%float) <= 8) by (apply Rabs_le; lra).
  pose proof (abs_le_inv _ _
                (abs_mul_le (val v) _ 2 8 ltac:(apply Rabs_le; lra) HT)) as Hvt.
  destruct (smul v (1 - s) (or_introl Gv) Ft) as [Fc Nc];
    [apply Rabs_def1; lra|].
  pose proof (abs_le_inv _ _ Nc) as Nc'.
  destruct (smul (v * (1 - s)) 255 Fc finite_255) as [Fy Ny];
    [rewrite val_255; apply Rabs_def1; lra|].
  rewrite val_255 in Ny.
  split; [assumption|].
  apply (term0_real (val v) (val s) (val (1 - s)%float)
           (val (v * (1 - s))%float));
    try assumption; [exact slack_bounds|lra].
Qed.

(** The candidate [v * 255]. *)
Lemma cone_value v :
  good v -> val v <= 2 ->
  finite (v * 255)%float /\
  Rabs (val (v * 255)%float - 255 * val v) <= slack.
Proof.
  intros Gv Hv. pose proof (good_val v Gv).
  destruct (gmul v 255 Gv ltac:(good_const)) as [G N];
    [rewrite val_255; lra|].
  rewrite val_255 in N. split; [now left|].
  now replace (255 * val v) with (val v * 255) by ring.
Qed.

(** The two fractions of the sector [hsvaToRgba] multiplies the
    saturation by. *)
Lemma sector_fractions h2 :
  good h2 -> val h2 <= 7 ->
  let hh := Js.floor h2 in
  exists k : Z,
    (0 <= k <= 7)%Z /\ good hh /\ val hh = IZR k /\
    IZR k <= val h2 < IZR k + 1 /\
    finite (h2 - hh)%float /\
    Rabs (val (h2 - hh)%float - (val h2 - IZR k)) <= 3 * slack /\
    finite (1 - h2 + hh)%float /\
    Rabs (val (1 - h2 + hh)%float - (1 - (val h2 - IZR k))) <= 3 * slack.
Proof.
  intros G H hh. pose proof slack_small as Hk.
  pose proof (good_val h2 G) as H0.
  destruct (floor_spec h2 G) as (k & Gf & Vf & Hlo & Hhi).
  { apply Rle_lt_trans with 7; [assumption|]. apply IZR_lt. reflexivity. }
  fold hh in Gf, Vf.
  assert (Hk0 : (0 <= k)%Z).
  { assert (IZR (-1) < IZR k) by lra. apply lt_IZR in H1. lia. }
  assert (Hk7 : (k <= 7)%Z) by (apply le_IZR; lra).
  assert (Hk7' : IZR k <= 7) by (apply IZR_le; lia).
  assert (Hk0' : 0 <= IZR k) by (apply IZR_le; lia).
  exists k. split; [lia|]. split; [assumption|]. split; [assumption|].
  split; [lra|].
  destruct (gsub h2 hh G Gf) as [G1 N1]; [lra|lra|].
  rewrite Vf in N1. pose proof (abs_le_inv _ _ N1) as N1'.
  split; [now left|]. split; [apply Rabs_le; lra|].
  destruct (gsub_any 1 h2 good_one G) as [F2 N2];
    [rewrite val_one; lra|lra|].
  rewrite val_one in N2. pose proof (abs_le_inv _ _ N2) as N2'.
  destruct (sadd (1 - h2) hh F2 (or_introl Gf)) as [F3 N3];
    [apply Rabs_def1; lra|rewrite Vf; apply Rabs_def1; lra|
     rewrite Vf; apply Rabs_def1; lra|].
  rewrite Vf in N3. pose proof (abs_le_inv _ _ N3) as N3'.
  split; [assumption|]. apply Rabs_le. lra.
Qed.

End Real64Cone.

Module Real64HwbTrip.

Import Reals Lra.
Import Real64 Real64Facts Real64More Real64Hue Real64Error Real64Trip
  Real64Signed Real64Tests Real64Cone.

Local Open Scope R_scope.

Lemma frac_scale f d : 0 <= f <= 1 -> 0 <= d -> 0 <= f * d <= d.
Proof. intros. split; nra. Qed.

(** A colour with channels between 0 and 255 through HWB and back:
    every channel returns finite and next to what it was. *)
Lemma hwb_trip r g b a :
  below r 255 -> below g 255 -> below b 255 ->
  let back := hwbaToRgba (rgbaToHwba (mkRgba r g b a)) in
  (finite (rgb_r back) /\ Rabs (val (rgb_r back) - val r) <= 20000 * slack) /\
  (finite (rgb_g back) /\ Rabs (val (rgb_g back) - val g) <= 20000 * slack) /\
  (finite (rgb_b back) /\ Rabs (val (rgb_b back) - val b) <= 20000 * slack).
Proof.
  intros Br Bg Bb back. pose proof slack_small as Hk.
  destruct (hue_facts r g b a Br Bg Bb) as (hn & Eh & Ghn & Hhn & Hhue).
  cbv zeta in Hhue.
  pose proof Br as (Gr & G255 & Hr). pose proof Bg as (Gg & _ & Hg).
  pose proof Bb as (Gb & _ & Hb). rewrite val_255 in Hr, Hg, Hb.
  destruct (max_good r g b Gr Gg Gb) as (Mr & Mg & Mb).
  pose proof (max_below r g b 255 Br Bg Bb) as BM.
  destruct (min_least r g b Gr Gg Gb) as (mr & mg & mb).
  assert (Hmin : val (Js.min r g b) = val r \/ val (Js.min r g b) = val g
                 \/ val (Js.min r g b) = val b).
  { destruct (min_pick r g b Gr Gg Gb) as [E|[E|E]]; rewrite E; auto. }
  set (M := Js.max r g b) in *. set (m := Js.min r g b) in *.
  assert (BmM : below m M) by (eapply below_trans; eassumption).
  destruct (hwb_facts M m BmM BM) as (Gv & Fs & Hv & Hs & FA & FS).
  destruct (scaled_hue hn Ghn Hhn) as [Gh2 Nh2].
  subst back. unfold hwbaToRgba, rgbaToHwba.
  cbn [hwb_h hwb_w hwb_b hwb_a rgb_r rgb_g rgb_b rgb_a].
  rewrite Eh. fold M m.
  unfold hsvaToRgba. cbn [rgb_r rgb_g rgb_b].
  set (v := ((100 - (100 - M / 255 * 100)) / 100)%float) in *.
  set (s := ((if (100 - M / 255 * 100 =? 100)%float then 0%float
              else (100 - m / 255 * 100 / (100 - (100 - M / 255 * 100)) * 100)%float)
             / 100)%float) in *.
  set (h2 := (60 * hn / 360 * 6)%float) in *.
  pose proof (good_val hn Ghn) as Hn0.
  pose proof (abs_le_inv _ _ Nh2) as Nh2'.
  destruct (sector_fractions h2 Gh2 ltac:(lra))
    as (k & Hk7 & Gf & Vf & Hfr & Fc & Nc & Fd & Nd).
  assert (Hk6 : (0 <= k <= 6)%Z).
  { split; [lia|]. assert (IZR k < IZR 7) by lra. apply lt_IZR in H. lia. }
  rewrite !(index_of_floor _ k _ _ _ _ _ _ Gf Vf Hk6).
  (* the four candidates *)
  destruct (cone_value v Gv Hv) as [F1 C1].
  destruct (cone_term0 v s Gv Hv Fs Hs) as [F2 C2].
  destruct (cone_term v s _ (val h2 - IZR k) Gv Hv Fs Hs Fc Nc
              ltac:(apply Rabs_le; lra)) as [F3 C3].
  destruct (cone_term v s _ (1 - (val h2 - IZR k)) Gv Hv Fs Hs Fd Nd
              ltac:(apply Rabs_le; lra)) as [F4 C4].
  apply abs_le_inv in C1, C2, C3, C4, FA, FS.
  (* the reals *)
  pose proof (proj2 (proj2 Mr)) as HrM. pose proof (proj2 (proj2 Mg)) as HgM.
  pose proof (proj2 (proj2 Mb)) as HbM.
  pose proof (proj2 (proj2 mr)) as Hmr. pose proof (proj2 (proj2 mg)) as Hmg.
  pose proof (proj2 (proj2 mb)) as Hmb.
  pose proof (proj2 (proj2 BM)) as HM. rewrite val_255 in HM.
  pose proof (good_val m (proj1 BmM)) as Hm0.
  assert (HD : 0 <= val M - val m <= 255) by lra.
  pose proof (scaled_error (val h2 - IZR k)
                (255 * (val v * val s) - (val M - val m)) (2000 * slack) 1
                ltac:(lra) ltac:(lra) FS) as X1.
  pose proof (scaled_error (val M - val m) (val h2 - val hn) (8 * slack) 255
                HD ltac:(lra) Nh2') as X2.
  assert (X3 : 0 <= (val h2 - IZR k) * (val M - val m) <= val M - val m)
    by (apply frac_scale; lra).
  pose proof (cone_linear k (val r) (val g) (val b) (val M) (val m)
                (val h2 * (val M - val m)) (2640 * slack) Hk6 ltac:(lra)
                (conj Hmr HrM) (conj Hmg HgM) (conj Hmb HbM) Hmin
                ltac:(split; lra)) as L.
  assert (Hhue' :
    (val M = val r /\
     - (2640 * slack) <= val h2 * (val M - val m) - (val g - val b)
     <= 2640 * slack) \/
    (val M = val r /\
     - (2640 * slack)
     <= val h2 * (val M - val m) - (6 * (val M - val m) + (val g - val b))
     <= 2640 * slack) \/
    (val M = val g /\
     - (2640 * slack)
     <= val h2 * (val M - val m) - (2 * (val M - val m) + (val b - val r))
     <= 2640 * slack) \/
    (val M = val b /\
     - (2640 * slack)
     <= val h2 * (val M - val m) - (4 * (val M - val m) + (val r - val g))
     <= 2640 * slack) \/
    val M - val m <= 2640 * slack).
  { destruct Hhue as [[E H]|[[E H]|[[E H]|[[E H]|H]]]];
      try apply abs_le_inv in H.
    - left. split; [assumption|lra].
    - right. left. split; [assumption|lra].
    - right. right. left. split; [assumption|lra].
    - right. right. right. left. split; [assumption|lra].
    - right. right. right. right. lra. }
  specialize (L Hhue'). cbv zeta in L.
  assert (Hc : k = 0%Z \/ k = 1%Z \/ k = 2%Z \/ k = 3%Z \/ k = 4%Z \/ k = 5%Z
               \/ k = 6%Z) by lia.
  destruct Hc as [-> |[-> |[-> |[-> |[-> |[-> | ->]]]]]];
    cbv iota beta in L |- *; destruct L as (L1 & L2 & L3);
    (split; [|split]); (split; [assumption|apply Rabs_le; lra]).
Qed.

End Real64HwbTrip.

Module Real64HwbClose.

Import Reals Lra.
Import Real64 Real64Facts Real64More Real64Hue Real64Error Real64Trip
  Real64Signed Real64Tests Real64Cone Real64HwbTrip.

Local Open Scope R_scope.

Lemma val_millionth : 20001 * slack <= val 0.000001 < 4096.
Proof.
  assert (G : good 0.000001%float) by good_const.
  assert (Glo : good 0x1p-20%float) by good_const.
  assert (Vlo : val 0x1p-20 = p2 (-20)).
  { unfold val.
    replace (Prim2SF 0x1p-20) with (S754_finite false 4503599627370496 (-72))
      by (vm_compute; reflexivity).
    cbn [SF2R]. unfold F2R.
    change 4503599627370496%Z with (2 ^ 52)%Z.
    rewrite <- (p2_Z 52) by lia. rewrite <- p2_add. reflexivity. }
  assert (H1 : val 0x1p-20 <= val 0.000001)
    by (apply (leb_val _ _ Glo G); reflexivity).
  assert (H2 : val 0.000001 <= val 1)
    by (apply (leb_val _ _ G good_one); reflexivity).
  rewrite val_one in H2. rewrite Vlo in H1.
  assert (E : p2 (-20) = 2097152 * slack).
  { unfold slack. replace 2097152 with (p2 21)
      by (rewrite (p2_Z 21) by lia; reflexivity).
    rewrite <- p2_add. reflexivity. }
  pose proof slack_small. split; lra.
Qed.

(** A colour with channels between 0 and 255 through HWB and back,
    against a tolerance of at least [20001 * 2^-41]. *)
Lemma hwbaTrip_within t rgba :
  good t -> 20001 * slack <= val t < 4096 ->
  inGamut rgba = true ->
  within t (rgb_r (hwbaToRgba (rgbaToHwba rgba))) (rgb_r rgba) = true /\
  within t (rgb_g (hwbaToRgba (rgbaToHwba rgba))) (rgb_g rgba) = true /\
  within t (rgb_b (hwbaToRgba (rgbaToHwba rgba))) (rgb_b rgba) = true /\
  rgb_a (hwbaToRgba (rgbaToHwba rgba)) = rgb_a rgba.
Proof.
  intros Gt Ht H. unfold inGamut in H.
  repeat (apply andb_prop in H; destruct H as [H ?]).
  destruct rgba as [r g b a]. cbn [rgb_r rgb_g rgb_b rgb_a] in *.
  assert (G255 : good 255%float) by good_const.
  assert (Br : below r 255) by (apply leb_below; assumption).
  assert (Bg : below g 255) by (apply leb_below; assumption).
  assert (Bb : below b 255) by (apply leb_below; assumption).
  pose proof slack_small as Hs.
  destruct (hwb_trip r g b a Br Bg Bb) as ((Fr & Nr) & (Fg & Ng) & (Fb & Nb)).
  cbv zeta in *.
  assert (W : forall x y, below y 255 -> finite x ->
                Rabs (val x - val y) <= 20000 * slack -> within t x y = true).
  { intros x y (Gy & _ & Hy) Fx N. rewrite val_255 in Hy.
    pose proof (good_val y Gy). pose proof (abs_le_inv _ _ N).
    apply within_finite; try assumption.
    - now left.
    - apply Rabs_def1; lra.
    - apply Rabs_def1; lra.
    - lra.
    - lra. }
  split; [now apply W|]. split; [now apply W|]. split; [now apply W|].
  reflexivity.
Qed.


End Real64HwbClose.


(** ** The round trips from RGBA *)

Section RoundTrip.

Import Real64 Real64Facts Real64More Real64Trip Real64HwbClose.

(** For every RGBA value with channels between 0 and 255, whole or
    not, and any alpha, RGBA to CMYK and back gives each channel within
    3 units of the original, and the alpha itself. *)
Theorem cmyk_round_trip_within_3 (rgba : RgbaColor) :
  inGamut rgba = true ->
  within 3 (rgb_r (cmykaToRgba (rgbaToCmyka rgba))) (rgb_r rgba) = true /\
  within 3 (rgb_g (cmykaToRgba (rgbaToCmyka rgba))) (rgb_g rgba) = true /\
  within 3 (rgb_b (cmykaToRgba (rgbaToCmyka rgba))) (rgb_b rgba) = true /\
  rgb_a (cmykaToRgba (rgbaToCmyka rgba)) = rgb_a rgba.
Proof. apply cmykaTrip_within_3. Qed.

(** A colour with fractional channels that comes back white. *)
Lemma cmyk_round_trip_within_3_witness :
  let rgba := mkRgba 252.47 253.73 253.73 0.5 in
  within 3 (rgb_r (cmykaToRgba (rgbaToCmyka rgba))) (rgb_r rgba) = true /\
  within 3 (rgb_g (cmykaToRgba (rgbaToCmyka rgba))) (rgb_g rgba) = true /\
  within 3 (rgb_b (cmykaToRgba (rgbaToCmyka rgba))) (rgb_b rgba) = true /\
  rgb_a (cmykaToRgba (rgbaToCmyka rgba)) = rgb_a rgba.
Proof.
  exact (cmyk_round_trip_within_3 (mkRgba 252.47 253.73 253.73 0.5) eq_refl).
Defined.

(** For every RGBA value with channels between 0 and 255, whole or
    not, and any alpha, RGBA to HWB and back gives each channel within
    a millionth of the original, and the alpha itself: HWB stores no
    rounded number. *)
Theorem hwb_round_trip_is_close (rgba : RgbaColor) :
  inGamut rgba = true ->
  let back := hwbaToRgba (rgbaToHwba rgba) in
  within 0.000001 (rgb_r back) (rgb_r rgba) = true /\
  within 0.000001 (rgb_g back) (rgb_g rgba) = true /\
  within 0.000001 (rgb_b back) (rgb_b rgba) = true /\
  rgb_a back = rgb_a rgba.
Proof.
  intros H back.
  apply hwbaTrip_within; [good_const|exact val_millionth|exact H].
Qed.

Lemma hwb_round_trip_witness :
  let rgba := mkRgba 243 12.5 231 0.5 in
  let back := hwbaToRgba (rgbaToHwba rgba) in
  within 0.000001 (rgb_r back) (rgb_r rgba) = true /\
  within 0.000001 (rgb_g back) (rgb_g rgba) = true /\
  within 0.000001 (rgb_b back) (rgb_b rgba) = true /\
  rgb_a back = rgb_a rgba.
Proof.
  exact (hwb_round_trip_is_close (mkRgba 243 12.5 231 0.5) eq_refl).
Defined.




End RoundTrip.

(** ** Full blackness *)

Section BlacknessClaim.

Import Real64 Real64Facts Real64More Real64Hue.

(** C4, as amended.  For every hue, whiteness and alpha, HWB with
    blackness 100 is converted with saturation 0 and value 0; the
    result is pure black exactly when the sector index of the hue is
    one of 0..5, which it is for every finite hue that is not negative;
    after [clampHwba] the result is pure black for every hue. *)
Theorem hwb_full_blackness_is_black (h w alpha : float) :
  hwbaToRgba (mkHwba h w 100 alpha) = hsvaToRgba (mkHsva h 0 0 alpha) /\
  (hwbaToRgba (mkHwba h w 100 alpha) = mkRgba 0 0 0 alpha
   <-> validIndex (sector h) = true) /\
  (Js.isFinite h = true -> (0 <=? h) = true ->
   hwbaToRgba (mkHwba h w 100 alpha) = mkRgba 0 0 0 alpha) /\
  hwbaToRgba (clampHwba (mkHwba h w 100 alpha))
  = mkRgba 0 0 0 (clamp01 alpha).
Proof.
  assert (E : forall h', hwbaToRgba (mkHwba h' w 100 alpha)
                         = hsvaToRgba (mkHsva h' 0 0 alpha)) by reflexivity.
  split; [apply E|]. split; [|split].
  - rewrite E. apply hsvaToRgba_black_iff.
  - intros Hf H0. rewrite E. apply hsvaToRgba_black_iff.
    now apply sector_valid.
  - unfold hwbaToRgba, clampHwba. cbn [hwb_h hwb_w hwb_b hwb_a].
    change (clamp 100 0 100) with 100.
    change (100 =? 100) with true. cbv iota. change (100 - 100) with 0.
    destruct (clampHue_leb h) as (_ & H0 & H360).
    now apply hsvaToRgba_black.
Qed.

(** A hue of two turns, whatever the whiteness holds. *)
Lemma hwb_full_blackness_witness :
  hwbaToRgba (mkHwba 720 nan 100 0.5) = mkRgba 0 0 0 0.5.
Proof.
  exact (proj1 (proj2 (proj2 (hwb_full_blackness_is_black 720 nan 0.5)))
           eq_refl eq_refl).
Defined.

(** C4, as stated, fails.  A hue of -30 has the sector index -1, which
    is no index of the six-element arrays: the channels are NaN.  So
    they are for a hue that is NaN or infinite.  A hue of -360 has the
    index -0 and gives black. *)
Lemma hwb_full_blackness_counterexample :
  hwbaToRgba (mkHwba (-30) 50 100 1) = mkRgba nan nan nan 1 /\
  hwbaToRgba (mkHwba nan 50 100 1) = mkRgba nan nan nan 1 /\
  hwbaToRgba (mkHwba infinity 50 100 1) = mkRgba nan nan nan 1 /\
  validIndex (sector (-30)) = false /\
  hwbaToRgba (mkHwba (-360) 50 100 1) = mkRgba 0 0 0 1.
Proof. repeat split; vm_compute; reflexivity. Qed.

End BlacknessClaim.
